(** * Jason (JSON viewer): the tree index, search cache and visibility core

    A shallow embedding of [app/App.tsx]: the path formatter, the tree
    indexer, the prefix-incremental search cache, the visibility resolver,
    the load boundary and the share-link codec, with the properties the
    specification states about them. *)

From Stdlib Require Import String Ascii.
From Stdlib Require Import List NArith ZArith Lia Bool Arith Sorted.
From Stdlib Require Decimal DecimalN.
Import ListNotations.

Set Warnings "-register-all".

(* ================================================================== *)
(** * Strings of the host language *)
(* ================================================================== *)

(** A JavaScript string is a finite sequence of UTF-16 code units.  A code
    unit is kept as a binary natural number; [str] writes an ASCII literal. *)
Module Js.

Definition char := N.
Definition jsstring := list char.

Definition str (s : string) : jsstring :=
  map N_of_ascii (list_ascii_of_string s).
Arguments str s%_string.

Fixpoint eqb (a b : jsstring) : bool :=
  match a, b with
  | [], [] => true
  | x :: a', y :: b' => N.eqb x y && eqb a' b'
  | _, _ => false
  end.

(** [s.startsWith(p)] *)
Fixpoint startsWith (s p : jsstring) {struct p} : bool :=
  match p, s with
  | [], _ => true
  | _ :: _, [] => false
  | y :: p', x :: s' => N.eqb x y && startsWith s' p'
  end.

(** [s.includes(q)]: some position of [s] starts an occurrence of [q]. *)
Fixpoint includes (s q : jsstring) : bool :=
  startsWith s q ||
  match s with
  | [] => false
  | _ :: s' => includes s' q
  end.

(** The rest of [s] when its first code unit is [c]. *)
Definition headIs (c : char) (s : jsstring) : option jsstring :=
  match s with
  | x :: rest => if N.eqb x c then Some rest else None
  | [] => None
  end.

(** [s.slice(0, i)] for [0 <= i]. *)
Definition slice0 (s : jsstring) (i : nat) : jsstring := firstn i s.

(** [s.replaceAll(c, rep)] for a search string of one code unit [c]. *)
Definition replaceAll (c : char) (rep : jsstring) (s : jsstring) : jsstring :=
  flat_map (fun x => if N.eqb x c then rep else [x]) s.

(** [parts.join(sep)] *)
Fixpoint join (sep : jsstring) (parts : list jsstring) : jsstring :=
  match parts with
  | [] => []
  | [p] => p
  | p :: rest => p ++ sep ++ join sep rest
  end.

Fixpoint uint_chars (u : Decimal.uint) : jsstring :=
  match u with
  | Decimal.Nil => []
  | Decimal.D0 u => 48%N :: uint_chars u
  | Decimal.D1 u => 49%N :: uint_chars u
  | Decimal.D2 u => 50%N :: uint_chars u
  | Decimal.D3 u => 51%N :: uint_chars u
  | Decimal.D4 u => 52%N :: uint_chars u
  | Decimal.D5 u => 53%N :: uint_chars u
  | Decimal.D6 u => 54%N :: uint_chars u
  | Decimal.D7 u => 55%N :: uint_chars u
  | Decimal.D8 u => 56%N :: uint_chars u
  | Decimal.D9 u => 57%N :: uint_chars u
  end.

(** Decimal digits of a non-negative integer, as [String(n)] prints it. *)
Definition decimal (n : N) : jsstring := uint_chars (N.to_uint n).

(** ASCII lower-casing; agrees with [String.prototype.toLowerCase] on
    strings of ASCII code units. *)
Definition asciiLowerChar (c : char) : char :=
  if ((65 <=? c) && (c <=? 90))%N then (c + 32)%N else c.
Definition asciiToLowerCase (s : jsstring) : jsstring := map asciiLowerChar s.

End Js.

Import Js.

(* ================================================================== *)
(** * Numbers of the host language *)
(* ================================================================== *)

(** A JavaScript number is an IEEE-754 binary64 value.  It is kept exactly:
    a finite non-zero number is [(-1)^neg * m * 2^e], with [m < 2^53] and
    [-1074 <= e <= 971].  The printing of a number ([Number::toString]) and
    the reading of a decimal literal (round to nearest, ties to even) are
    written with integer arithmetic, so they run on any literal. *)
Module JsNumber.

Inductive t : Type :=
| NaN
| Infinity (neg : bool)
| Zero (neg : bool)
| Finite (neg : bool) (m : positive) (e : Z).

Definition eqb (a b : t) : bool :=
  match a, b with
  | NaN, NaN => true
  | Infinity s, Infinity s' => Bool.eqb s s'
  | Zero s, Zero s' => Bool.eqb s s'
  | Finite s m e, Finite s' m' e' => Bool.eqb s s' && Pos.eqb m m' && Z.eqb e e'
  | _, _ => false
  end.

Local Open Scope Z_scope.

Definition emin : Z := -1074.
Definition emax : Z := 971.
Definition two52 : Z := 2 ^ 52.
Definition two53 : Z := 2 ^ 53.

(** [num / den] scaled by [2^-e], as a quotient and a remainder. *)
Definition scaled (num den e : Z) : Z * Z * Z :=
  let n := if 0 <=? e then num else num * 2 ^ (- e) in
  let d := if 0 <=? e then den * 2 ^ e else den in
  (n / d, n mod d, d).

(** The binary64 value nearest to the positive rational [num / den]. *)
Definition round_ratio (neg : bool) (num den : Z) : t :=
  let e0 := Z.log2 num - Z.log2 den - 52 in
  let '(q0, _, _) := scaled num den e0 in
  let e1 := if two53 <=? q0 then e0 + 1 else if q0 <? two52 then e0 - 1 else e0 in
  let e2 := Z.max e1 emin in
  let '(q, r, d) := scaled num den e2 in
  let up := (d <? 2 * r) || ((d =? 2 * r) && Z.odd q) in
  let m := if up then q + 1 else q in
  let '(m', e') := if m =? two53 then (two52, e2 + 1) else (m, e2) in
  if emax <? e' then Infinity neg
  else match m' with
       | Zpos p => Finite neg p e'
       | _ => Zero neg
       end.

(** The number denoted by the digits [s] times [10^x]. *)
Definition of_decimal (neg : bool) (s : Z) (x : Z) : t :=
  if s =? 0 then Zero neg
  else if 0 <=? x then round_ratio neg (s * 10 ^ x) 1
       else round_ratio neg s (10 ^ (- x)).

(** The exact value [num / den] of a positive finite number. *)
Definition ratio (m : positive) (e : Z) : Z * Z :=
  if 0 <=? e then (Zpos m * 2 ^ e, 1) else (Zpos m, 2 ^ (- e)).

(** The [n] with [10^(n-1) <= num/den < 10^n]. *)
Fixpoint magnitude_down (fuel : nat) (num den : Z) (j : Z) : Z :=
  match fuel with
  | O => j
  | S fuel' => if den <=? num * 10 ^ j then 1 - j
               else magnitude_down fuel' num den (j + 1)
  end.

Definition magnitude (num den : Z) : Z :=
  if den <=? num
  then Z.of_nat (length (uint_chars (N.to_uint (Z.to_N (num / den)))))
  else magnitude_down 400 num den 1.

(** The candidates with [k] digits next to [num/den], the nearer first. *)
Definition candidates (num den n k : Z) : list (Z * Z) :=
  let x := k - n in
  let sn := if 0 <=? x then num * 10 ^ x else num in
  let sd := if 0 <=? x then den else den * 10 ^ (- x) in
  let lo := sn / sd in
  let r := sn mod sd in
  let hi := if lo + 1 =? 10 ^ k then (10 ^ (k - 1), n + 1) else (lo + 1, n) in
  if r =? 0 then [(lo, n)]
  else if (2 * r <? sd) || ((2 * r =? sd) && Z.even lo)
       then [(lo, n); hi] else [hi; (lo, n)].

Fixpoint first_valid (x : t) (cs : list (Z * Z)) (k : Z) : option (Z * Z) :=
  match cs with
  | [] => None
  | (s, n) :: cs' =>
      if (10 ^ (k - 1) <=? s) && eqb (of_decimal false s (n - k)) x
      then Some (s, n) else first_valid x cs' k
  end.

(** The shortest digits [s] (with [k] of them) and the exponent [n] such
    that [s * 10^(n-k)] reads back as [Finite false m e]. *)
Fixpoint shortest (fuel : nat) (m : positive) (e : Z) (n k : Z) : Z * Z * Z :=
  let '(num, den) := ratio m e in
  match first_valid (Finite false m e) (candidates num den n k) k with
  | Some (s, n') => (s, n', k)
  | None =>
      match fuel with
      | O => (num * 10 ^ (k - n) / den, n, k)
      | S fuel' => shortest fuel' m e n (k + 1)
      end
  end.

Definition zeros (n : Z) : jsstring := repeat 48%N (Z.to_nat n).

Definition exponent_text (x : Z) : jsstring :=
  (if 0 <=? x then str "e+" else str "e-") ++ decimal (Z.to_N (Z.abs x)).

(** Steps 6 to 10 of [Number::toString] for radix 10. *)
Definition layout (s n k : Z) : jsstring :=
  let ds := decimal (Z.to_N s) in
  if (k <=? n) && (n <=? 21) then ds ++ zeros (n - k)
  else if (0 <? n) && (n <=? 21)
       then firstn (Z.to_nat n) ds ++ str "." ++ skipn (Z.to_nat n) ds
  else if (-6 <? n) && (n <=? 0)
       then str "0." ++ zeros (- n) ++ ds
  else match ds with
       | [] => []
       | d :: rest =>
           (d :: match rest with [] => [] | _ => str "." ++ rest end)
           ++ exponent_text (n - 1)
       end.

Definition positive_text (m : positive) (e : Z) : jsstring :=
  let '(num, den) := ratio m e in
  let '(s, n, k) := shortest 17 m e (magnitude num den) 1 in
  layout s n k.

(** [String(x)] for a number [x]. *)
Definition toString (x : t) : jsstring :=
  match x with
  | NaN => str "NaN"
  | Zero _ => str "0"
  | Infinity false => str "Infinity"
  | Infinity true => str "-Infinity"
  | Finite false m e => positive_text m e
  | Finite true m e => str "-" ++ positive_text m e
  end.

(** The number of an integer (exact below [2^53]). *)
Definition of_Z (z : Z) : t := of_decimal (z <? 0) (Z.abs z) 0.

End JsNumber.


(* ================================================================== *)
(** * JSON values and their serialisation *)
(* ================================================================== *)

Definition dquote : char := 34%N.
Definition backslash : char := 92%N.

(** Modelled from the spec: the type [JsonValue] is declared in
    [app/jsonTypes.ts]; it is the parsed JSON value of the specification,
    with the cases that [determineKind] tells apart.  An object is the list
    of its properties in enumeration order. *)
Inductive JsonValue : Type :=
| JNull
| JBool (b : bool)
| JNumber (n : JsNumber.t)
| JString (s : jsstring)
| JArray (items : list JsonValue)
| JObject (entries : list (jsstring * JsonValue)).

(** [Object.keys(obj)] *)
Definition Object_keys (entries : list (jsstring * JsonValue)) : list jsstring :=
  map fst entries.

Module JSON.

Definition hexDigit (n : N) : char :=
  if (n <? 10)%N then (48 + n)%N else (87 + n)%N.

(** The escape [\uXXXX] of a code unit, in lower-case hexadecimal. *)
Definition unicodeEscape (c : char) : jsstring :=
  [backslash; 117%N;
   hexDigit (N.shiftr c 12 mod 16); hexDigit (N.shiftr c 8 mod 16);
   hexDigit (N.shiftr c 4 mod 16); hexDigit (c mod 16)].

Definition isHighSurrogate (c : char) : bool := ((55296 <=? c) && (c <=? 56319))%N.
Definition isLowSurrogate (c : char) : bool := ((56320 <=? c) && (c <=? 57343))%N.

Definition quoteUnit (c : char) : jsstring :=
  if (c =? 8)%N then [backslash; 98%N]
  else if (c =? 9)%N then [backslash; 116%N]
  else if (c =? 10)%N then [backslash; 110%N]
  else if (c =? 12)%N then [backslash; 102%N]
  else if (c =? 13)%N then [backslash; 114%N]
  else if (c =? dquote)%N then [backslash; dquote]
  else if (c =? backslash)%N then [backslash; backslash]
  else if (c <? 32)%N then unicodeEscape c
  else if isHighSurrogate c || isLowSurrogate c then unicodeEscape c
  else [c].

(** The body of [QuoteJSONString]: code points are escaped one by one; a
    surrogate pair is a code point of its own and is kept. *)
Fixpoint quoteBody (s : jsstring) : jsstring :=
  match s with
  | [] => []
  | c :: rest =>
      match rest with
      | d :: rest' =>
          if isHighSurrogate c && isLowSurrogate d
          then c :: d :: quoteBody rest'
          else quoteUnit c ++ quoteBody rest
      | [] => quoteUnit c
      end
  end.

Definition quote (s : jsstring) : jsstring := [dquote] ++ quoteBody s ++ [dquote].

Definition numberText (n : JsNumber.t) : jsstring :=
  match n with
  | JsNumber.NaN | JsNumber.Infinity _ => str "null"
  | _ => JsNumber.toString n
  end.

Definition newline : jsstring := [10%N].

Definition wrap (gap indent : jsstring) (opening closing : jsstring)
    (partial : list jsstring) : jsstring :=
  match partial with
  | [] => opening ++ closing
  | _ =>
      match gap with
      | [] => opening ++ join (str ",") partial ++ closing
      | _ =>
          let inner := indent ++ gap in
          opening ++ newline ++ inner
          ++ join (str "," ++ newline ++ inner) partial
          ++ newline ++ indent ++ closing
      end
  end.

(** [SerializeJSONProperty]: [gap] is the indentation unit (empty for the
    compact form) and [indent] the indentation reached so far. *)
Fixpoint serialize (gap indent : jsstring) (v : JsonValue) : jsstring :=
  match v with
  | JNull => str "null"
  | JBool true => str "true"
  | JBool false => str "false"
  | JNumber n => numberText n
  | JString s => quote s
  | JArray items =>
      wrap gap indent (str "[") (str "]")
        (map (serialize gap (indent ++ gap)) items)
  | JObject entries =>
      wrap gap indent (str "{") (str "}")
        (map (fun kv =>
                quote (fst kv) ++ str ":"
                ++ match gap with [] => [] | _ => str " " end
                ++ serialize gap (indent ++ gap) (snd kv)) entries)
  end.

(** [JSON.stringify(v)] *)
Definition stringify (v : JsonValue) : jsstring := serialize [] [] v.

(** [JSON.stringify(v, null, n)] for [0 <= n <= 10] *)
Definition stringify_indent (n : nat) (v : JsonValue) : jsstring :=
  serialize (repeat 32%N n) [] v.

(** ** [JSON.parse] *)

Definition isWhiteSpace (c : char) : bool :=
  ((c =? 9) || (c =? 10) || (c =? 13) || (c =? 32))%N.

Fixpoint skipWhiteSpace (s : jsstring) : jsstring :=
  match s with
  | c :: rest => if isWhiteSpace c then skipWhiteSpace rest else s
  | [] => []
  end.

Definition isDigit (c : char) : bool := ((48 <=? c) && (c <=? 57))%N.

(** The longest run of digits at the head of [s], and what follows it. *)
Fixpoint takeDigits (s : jsstring) : jsstring * jsstring :=
  match s with
  | c :: rest =>
      if isDigit c
      then let '(ds, rest') := takeDigits rest in (c :: ds, rest')
      else ([], s)
  | [] => ([], [])
  end.

Definition digitsValue (ds : jsstring) : Z :=
  fold_left (fun acc c => (10 * acc + (Z.of_N c - 48))%Z) ds 0%Z.

(** The fraction of a number literal: a point and digits, or nothing. *)
Definition parseFraction (s : jsstring) : option (jsstring * jsstring) :=
  match headIs 46%N s with
  | Some rest =>
      match takeDigits rest with
      | ([], _) => None
      | (ds, rest') => Some (ds, rest')
      end
  | None => Some ([], s)
  end.

(** The exponent of a number literal: [e] or [E], an optional sign and
    digits, or nothing. *)
Definition parseExponent (s : jsstring) : option (Z * jsstring) :=
  match s with
  | c :: rest =>
      if ((c =? 101) || (c =? 69))%N
      then
        let '(negExp, rest1) :=
          match headIs 45%N rest, headIs 43%N rest with
          | Some r, _ => (true, r)
          | None, Some r => (false, r)
          | None, None => (false, rest)
          end in
        match takeDigits rest1 with
        | ([], _) => None
        | (ds, rest') =>
            Some ((if negExp then - digitsValue ds else digitsValue ds)%Z, rest')
        end
      else Some (0%Z, s)
  | [] => Some (0%Z, s)
  end.

(** The integer part of a number literal: a lone zero, or digits. *)
Definition parseInteger (s : jsstring) : jsstring * jsstring :=
  match headIs 48%N s with
  | Some rest => ([48%N], rest)
  | None => takeDigits s
  end.

(** A number literal at the head of [s]: an optional minus, an integer
    part with no leading zero, an optional fraction, an optional exponent. *)
Definition parseNumber (s : jsstring) : option (JsNumber.t * jsstring) :=
  let '(neg, s1) :=
    match headIs 45%N s with
    | Some rest => (true, rest)
    | None => (false, s)
    end in
  match parseInteger s1 with
  | ([], _) => None
  | (intPart, s2) =>
      match parseFraction s2 with
      | None => None
      | Some (fracPart, s3) =>
          match parseExponent s3 with
          | None => None
          | Some (x, s4) =>
              Some (JsNumber.of_decimal neg (digitsValue (intPart ++ fracPart))
                      (x - Z.of_nat (length fracPart)),
                    s4)
          end
      end
  end.

Definition hexValue (c : char) : option N :=
  if isDigit c then Some (c - 48)%N
  else if ((97 <=? c) && (c <=? 102))%N then Some (c - 87)%N
  else if ((65 <=? c) && (c <=? 70))%N then Some (c - 55)%N
  else None.

(** The characters of a string literal after its opening quote, up to and
    with the closing quote. *)
Fixpoint parseStringBody (s : jsstring) : option (jsstring * jsstring) :=
  match s with
  | [] => None
  | c :: rest =>
      if (c =? dquote)%N then Some ([], rest)
      else if (c =? backslash)%N then
        match rest with
        | [] => None
        | e :: rest1 =>
            let simple (x : char) :=
              match parseStringBody rest1 with
              | Some (body, after) => Some (x :: body, after)
              | None => None
              end in
            if (e =? dquote)%N then simple dquote
            else if (e =? backslash)%N then simple backslash
            else if (e =? 47)%N then simple 47%N
            else if (e =? 98)%N then simple 8%N
            else if (e =? 102)%N then simple 12%N
            else if (e =? 110)%N then simple 10%N
            else if (e =? 114)%N then simple 13%N
            else if (e =? 116)%N then simple 9%N
            else if (e =? 117)%N then
              match rest1 with
              | h1 :: h2 :: h3 :: h4 :: rest2 =>
                  match hexValue h1, hexValue h2, hexValue h3, hexValue h4 with
                  | Some a, Some b, Some c', Some d =>
                      match parseStringBody rest2 with
                      | Some (body, after) =>
                          Some ((a * 4096 + b * 256 + c' * 16 + d)%N :: body, after)
                      | None => None
                      end
                  | _, _, _, _ => None
                  end
              | _ => None
              end
            else None
        end
      else if (c <? 32)%N then None
      else match parseStringBody rest with
           | Some (body, after) => Some (c :: body, after)
           | None => None
           end
  end.

(** The value of an array index key ("0", "1", ..., below [2^32 - 1]). *)
Definition arrayIndex (key : jsstring) : option N :=
  match key with
  | [] => None
  | c :: rest =>
      if forallb isDigit key && (negb (c =? 48)%N || match rest with [] => true | _ => false end)
      then let n := Z.to_N (digitsValue key) in
           if (n <? 4294967295)%N then Some n else None
      else None
  end.

(** The properties of an object are enumerated with the array index keys
    first, in ascending order, then the other keys in creation order. *)
Fixpoint insertIndexed (entries : list (jsstring * JsonValue)) (i : N)
    (key : jsstring) (v : JsonValue) : list (jsstring * JsonValue) :=
  match entries with
  | [] => [(key, v)]
  | (k, w) :: rest =>
      match arrayIndex k with
      | Some j => if (j <? i)%N then (k, w) :: insertIndexed rest i key v
                  else (key, v) :: entries
      | None => (key, v) :: entries
      end
  end.

Fixpoint replaceValue (entries : list (jsstring * JsonValue)) (key : jsstring)
    (v : JsonValue) : option (list (jsstring * JsonValue)) :=
  match entries with
  | [] => None
  | (k, w) :: rest =>
      if Js.eqb k key then Some ((k, v) :: rest)
      else match replaceValue rest key v with
           | Some rest' => Some ((k, w) :: rest')
           | None => None
           end
  end.

(** [CreateDataProperty(obj, key, v)] on the enumeration of [obj]. *)
Definition defineProperty (entries : list (jsstring * JsonValue))
    (member : jsstring * JsonValue) : list (jsstring * JsonValue) :=
  let '(key, v) := member in
  match replaceValue entries key v with
  | Some entries' => entries'
  | None =>
      match arrayIndex key with
      | Some i => insertIndexed entries i key v
      | None => entries ++ [(key, v)]
      end
  end.

Definition makeObject (members : list (jsstring * JsonValue)) : JsonValue :=
  JObject (fold_left defineProperty members []).

(** The recursive descent over a JSON text; [fuel] bounds the nesting of
    the calls, each of which is made after a character is read or is
    followed by one that is. *)
Fixpoint parseValue (fuel : nat) (s : jsstring) : option (JsonValue * jsstring) :=
  match fuel with
  | O => None
  | S fuel' =>
      match skipWhiteSpace s with
      | [] => None
      | c :: rest =>
          if (c =? 123)%N then
            match headIs 125%N (skipWhiteSpace rest) with
            | Some after => Some (JObject [], after)
            | None =>
                match parseMembers fuel' rest with
                | Some (members, after) => Some (makeObject members, after)
                | None => None
                end
            end
          else if (c =? 91)%N then
            match headIs 93%N (skipWhiteSpace rest) with
            | Some after => Some (JArray [], after)
            | None =>
                match parseElements fuel' rest with
                | Some (items, after) => Some (JArray items, after)
                | None => None
                end
            end
          else if (c =? dquote)%N then
            match parseStringBody rest with
            | Some (body, after) => Some (JString body, after)
            | None => None
            end
          else if startsWith (c :: rest) (str "true")
               then Some (JBool true, skipn 4 (c :: rest))
          else if startsWith (c :: rest) (str "false")
               then Some (JBool false, skipn 5 (c :: rest))
          else if startsWith (c :: rest) (str "null")
               then Some (JNull, skipn 4 (c :: rest))
          else match parseNumber (c :: rest) with
               | Some (n, after) => Some (JNumber n, after)
               | None => None
               end
      end
  end

with parseElements (fuel : nat) (s : jsstring)
  : option (list JsonValue * jsstring) :=
  match fuel with
  | O => None
  | S fuel' =>
      match parseValue fuel' s with
      | None => None
      | Some (v, rest) =>
          match headIs 44%N (skipWhiteSpace rest), headIs 93%N (skipWhiteSpace rest) with
          | Some rest', _ =>
              match parseElements fuel' rest' with
              | Some (items, after) => Some (v :: items, after)
              | None => None
              end
          | None, Some after => Some ([v], after)
          | None, None => None
          end
      end
  end

with parseMembers (fuel : nat) (s : jsstring)
  : option (list (jsstring * JsonValue) * jsstring) :=
  match fuel with
  | O => None
  | S fuel' =>
      match headIs dquote (skipWhiteSpace s) with
      | Some rest =>
          match parseStringBody rest with
          | None => None
          | Some (key, rest1) =>
              match headIs 58%N (skipWhiteSpace rest1) with
              | Some rest2 =>
                  match parseValue fuel' rest2 with
                  | None => None
                  | Some (v, rest3) =>
                      match headIs 44%N (skipWhiteSpace rest3),
                            headIs 125%N (skipWhiteSpace rest3) with
                      | Some rest4, _ =>
                          match parseMembers fuel' rest4 with
                          | Some (members, after) => Some ((key, v) :: members, after)
                          | None => None
                          end
                      | None, Some after => Some ([(key, v)], after)
                      | None, None => None
                      end
                  end
              | None => None
              end
          end
      | None => None
      end
  end.

(** [JSON.parse(text)]; [None] stands for the [SyntaxError] it throws. *)
Definition parse (text : jsstring) : option JsonValue :=
  match parseValue (2 * length text + 2) text with
  | Some (v, rest) =>
      match skipWhiteSpace rest with
      | [] => Some v
      | _ => None
      end
  | None => None
  end.

End JSON.

(** [String(v)] *)
Fixpoint String_of (v : JsonValue) : jsstring :=
  match v with
  | JNull => str "null"
  | JBool true => str "true"
  | JBool false => str "false"
  | JNumber n => JsNumber.toString n
  | JString s => s
  | JArray items =>
      join (str ",")
        (map (fun item => match item with JNull => [] | _ => String_of item end) items)
  | JObject _ => str "[object Object]"
  end.

(* ================================================================== *)
(** * Path formatter *)
(* ================================================================== *)

(** Modelled from the spec: the type [PathSegment] is declared in
    [app/jsonTypes.ts]; a segment is a string (an object key) or a
    non-negative integer (an array index). *)
Inductive PathSegment : Type :=
| SegKey (key : jsstring)
| SegIndex (index : N).

Definition isIdentStart (c : char) : bool :=
  ((65 <=? c) && (c <=? 90) || (97 <=? c) && (c <=? 122)
   || (c =? 95) || (c =? 36))%N.

Definition isIdentPart (c : char) : bool :=
  (isIdentStart c || (48 <=? c) && (c <=? 57))%N.

(** [IDENTIFIER_RE.test(s)] for [/^[A-Za-z_$][A-Za-z0-9_$]*$/] *)
Definition IDENTIFIER_RE_test (s : jsstring) : bool :=
  match s with
  | [] => false
  | c :: rest => isIdentStart c && forallb isIdentPart rest
  end.

(** The callback handed to [segments.reduce]. *)
Definition appendSegment (path : jsstring) (segment : PathSegment) : jsstring :=
  match segment with
  | SegIndex n => path ++ str "[" ++ decimal n ++ str "]"
  | SegKey key =>
      if IDENTIFIER_RE_test key then path ++ str "." ++ key
      else path ++ str "[" ++ [dquote]
           ++ replaceAll dquote [backslash; dquote]
                (replaceAll backslash [backslash; backslash] key)
           ++ [dquote] ++ str "]"
  end.

Definition pathTextFromSegments (segments : list PathSegment) : jsstring :=
  match segments with
  | [] => str "$"
  | _ => fold_left appendSegment segments (str "$")
  end.

(** The rule of the specification, segment by segment: every backslash and
    every double quote of a key that is not an identifier is preceded by a
    backslash. *)
Definition escapedKey (key : jsstring) : jsstring :=
  flat_map (fun c => if (c =? backslash)%N || (c =? dquote)%N
                     then [backslash; c] else [c]) key.

Definition segmentText (segment : PathSegment) : jsstring :=
  match segment with
  | SegIndex n => str "[" ++ decimal n ++ str "]"
  | SegKey key =>
      if IDENTIFIER_RE_test key then str "." ++ key
      else str "[" ++ [dquote] ++ escapedKey key ++ [dquote] ++ str "]"
  end.

(* ================================================================== *)
(** * Tree indexer *)
(* ================================================================== *)

(** Modelled from the spec: the type [NodeKind] is declared in
    [app/jsonTypes.ts]; it is one of the six strings that [determineKind]
    returns. *)
Inductive NodeKind : Type :=
| KObject | KArray | KString | KNumber | KBoolean | KNull.

Definition NodeKind_eqb (a b : NodeKind) : bool :=
  match a, b with
  | KObject, KObject | KArray, KArray | KString, KString
  | KNumber, KNumber | KBoolean, KBoolean | KNull, KNull => true
  | _, _ => false
  end.

(** The label of a kind, the string the source uses for it. *)
Definition kindLabel (k : NodeKind) : jsstring :=
  match k with
  | KObject => str "object"
  | KArray => str "array"
  | KString => str "string"
  | KNumber => str "number"
  | KBoolean => str "boolean"
  | KNull => str "null"
  end.

Definition determineKind (value : JsonValue) : NodeKind :=
  match value with
  | JNull => KNull
  | JArray _ => KArray
  | JObject _ => KObject
  | JString _ => KString
  | JNumber _ => KNumber
  | JBool _ => KBoolean
  end.

(** A node id is the string [node-<n>]; it is kept as its number [n]. *)
Abbreviation NodeId := nat (only parsing).
Definition idText (id : NodeId) : jsstring := str "node-" ++ decimal (N.of_nat id).

(** Modelled from the spec: the type [TreeNode] is declared in
    [app/jsonTypes.ts]; its fields are those of the object literal that
    [build] writes. *)
Record TreeNode : Type := mkNode {
  id : NodeId;
  displayKey : option jsstring;
  value : JsonValue;
  kind : NodeKind;
  depth : nat;
  pathSegments : list PathSegment;
  pathText : jsstring;
  parentId : option NodeId;
  childrenIds : list NodeId;
  hasChildren : bool;
  summary : jsstring;
  searchText : jsstring
}.

(** [Record<string, TreeNode>]: the properties in insertion order, which is
    the order [Object.entries] and [Object.values] enumerate them in. *)
Definition Nodes := list (NodeId * TreeNode).

Fixpoint Nodes_get (nodes : Nodes) (key : NodeId) : option TreeNode :=
  match nodes with
  | [] => None
  | (k, n) :: rest => if Nat.eqb k key then Some n else Nodes_get rest key
  end.

(** [nodes[key] = node]: an existing property keeps its place. *)
Fixpoint Nodes_set (nodes : Nodes) (key : NodeId) (node : TreeNode) : Nodes :=
  match nodes with
  | [] => [(key, node)]
  | (k, n) :: rest =>
      if Nat.eqb k key then (k, node) :: rest
      else (k, n) :: Nodes_set rest key node
  end.

(** Modelled from the spec: the type [TreeData] is declared in
    [app/jsonTypes.ts]; it is the pair that [buildTree] returns. *)
Record TreeData : Type := mkTree {
  nodes : Nodes;
  rootIds : list NodeId
}.

(** The [summary] expression of [build]. *)
Definition summaryOf (kind : NodeKind) (current : JsonValue) : jsstring :=
  match kind, current with
  | KObject, JObject entries =>
      str "{" ++ decimal (N.of_nat (length (Object_keys entries))) ++ str " keys}"
  | KArray, JArray items =>
      str "[" ++ decimal (N.of_nat (length items)) ++ str " items]"
  | _, _ => JSON.stringify current
  end.

Section Indexer.

(** [String.prototype.toLowerCase], the Unicode lower-casing of the host. *)
Variable toLowerCase : jsstring -> jsstring.

(** The third part of the [searchText] array of [build]. *)
Definition searchKindPart (kind : NodeKind) (current : JsonValue) : jsstring :=
  match kind with
  | KObject => str "object"
  | KArray => str "array"
  | _ => String_of current
  end.

Definition searchTextOf (displayKey : option jsstring) (pathText : jsstring)
    (kind : NodeKind) (current : JsonValue) : jsstring :=
  toLowerCase
    (join (str " ")
       [ match displayKey with Some k => k | None => [] end;
         pathText;
         searchKindPart kind current;
         summaryOf kind current ]).

(** The object literal [node] of [build], before any child is pushed. *)
Definition newNode (id : NodeId) (current : JsonValue)
    (pathSegments : list PathSegment) (displayKey : option jsstring)
    (parentId : option NodeId) (depth : nat) : TreeNode :=
  let kind := determineKind current in
  let pathText := pathTextFromSegments pathSegments in
  {| id := id;
     displayKey := displayKey;
     value := current;
     kind := kind;
     depth := depth;
     pathSegments := pathSegments;
     pathText := pathText;
     parentId := parentId;
     childrenIds := [];
     hasChildren := NodeKind_eqb kind KObject || NodeKind_eqb kind KArray;
     summary := summaryOf kind current;
     searchText := searchTextOf displayKey pathText kind current |}.

(** The two variables [buildTree] closes over. *)
Record BuildState : Type := mkBuild {
  built : Nodes;
  sequence : nat
}.

Definition withChild (child : NodeId) (n : TreeNode) : TreeNode :=
  {| id := id n; displayKey := displayKey n; value := value n; kind := kind n;
     depth := depth n; pathSegments := pathSegments n; pathText := pathText n;
     parentId := parentId n; childrenIds := childrenIds n ++ [child];
     hasChildren := hasChildren n; summary := summary n;
     searchText := searchText n |}.

(** [node.childrenIds.push(childId)]: [node] is the object stored under
    [id] in [nodes], so the push is seen through the map. *)
Definition pushChild (id child : NodeId) (st : BuildState) : BuildState :=
  match Nodes_get (built st) id with
  | Some n => {| built := Nodes_set (built st) id (withChild child n);
                 sequence := sequence st |}
  | None => st
  end.

(** The inner function [build].  The two loops run only for the kind they
    test, which [determineKind] ties to the shape of [current]. *)
Fixpoint build (current : JsonValue) (pathSegments : list PathSegment)
    (displayKey : option jsstring) (parentId : option NodeId) (depth : nat)
    (st : BuildState) {struct current} : NodeId * BuildState :=
  let id := sequence st in
  let node := newNode id current pathSegments displayKey parentId depth in
  let st1 := {| built := Nodes_set (built st) id node;
                sequence := S (sequence st) |} in
  match current with
  | JObject entries =>
      (id,
       fold_left
         (fun st entry =>
            let '(key, child) := entry in
            let '(childId, st') :=
              build child (pathSegments ++ [SegKey key]) (Some key) (Some id)
                    (depth + 1) st in
            pushChild id childId st')
         entries st1)
  | JArray items =>
      (id,
       snd (fold_left
              (fun acc child =>
                 let '(index, st) := acc in
                 let key := decimal index in
                 let '(childId, st') :=
                   build child (pathSegments ++ [SegIndex index]) (Some key)
                         (Some id) (depth + 1) st in
                 ((index + 1)%N, pushChild id childId st'))
              items (0%N, st1)))
  | _ => (id, st1)
  end.

Definition buildTree (value : JsonValue) : TreeData :=
  let '(rootId, st) := build value [] None None 0 {| built := []; sequence := 0 |} in
  {| nodes := built st; rootIds := [rootId] |}.

End Indexer.


(* ================================================================== *)
(** * Specification of the tree indexer *)
(* ================================================================== *)

(** The children of a value as [build] visits them: the path step, the
    display key and the child. *)
Fixpoint indexed (index : N) (items : list JsonValue)
  : list (PathSegment * jsstring * JsonValue) :=
  match items with
  | [] => []
  | child :: rest => (SegIndex index, decimal index, child) :: indexed (index + 1) rest
  end.

Definition children (v : JsonValue) : list (PathSegment * jsstring * JsonValue) :=
  match v with
  | JObject entries => map (fun kv => (SegKey (fst kv), fst kv, snd kv)) entries
  | JArray items => indexed 0 items
  | _ => []
  end.

Section IndexerSpec.

Variable toLowerCase : jsstring -> jsstring.

Definition setChildren (ch : list NodeId) (n : TreeNode) : TreeNode :=
  {| id := id n; displayKey := displayKey n; value := value n; kind := kind n;
     depth := depth n; pathSegments := pathSegments n; pathText := pathText n;
     parentId := parentId n; childrenIds := ch;
     hasChildren := hasChildren n; summary := summary n;
     searchText := searchText n |}.

(** Every field of a node but [childrenIds] is the one [build] computed
    when it created the node. *)
Definition node_shape (n : TreeNode) : Prop :=
  n = setChildren (childrenIds n)
        (newNode toLowerCase (id n) (value n) (pathSegments n) (displayKey n)
                 (parentId n) (depth n)).

(** What holds of the nodes [build] adds for one value: [seg] is the run of
    entries appended to the map, [i] the id of the first of them. *)
Record SubtreeOK (v : JsonValue) (segs : list PathSegment)
    (dk : option jsstring) (parent : option NodeId) (d : nat) (i : NodeId)
    (seg : Nodes) : Prop := {
  ok_keys : map fst seg = seq i (length seg);
  ok_root : exists ch rest,
      seg = (i, setChildren ch (newNode toLowerCase i v segs dk parent d)) :: rest;
  ok_node : forall k n, In (k, n) seg ->
      id n = k /\ node_shape n /\ d <= depth n /\ depth n + i <= d + k;
  ok_parent : forall k n, In (k, n) seg -> k <> i ->
      exists p pn, parentId n = Some p /\ In (p, pn) seg /\ p < k
                   /\ In k (childrenIds pn) /\ depth n = S (depth pn);
  ok_child : forall k n c, In (k, n) seg -> In c (childrenIds n) ->
      k < c /\ exists cn, In (c, cn) seg /\ parentId cn = Some k
                          /\ depth cn = S (depth n)
}.

(** The runs of the children of one node, laid one after the other from id
    [start]; [ids] are the ids of the children themselves. *)
Inductive ChildSegs (segs : list PathSegment) (i : NodeId) (d : nat)
  : list (PathSegment * jsstring * JsonValue) -> NodeId -> list NodeId -> Nodes -> Prop :=
| ChildSegs_nil start : ChildSegs segs i d [] start [] []
| ChildSegs_cons seg key child cs start seg1 ids rest :
    SubtreeOK child (segs ++ [seg]) (Some key) (Some i) (d + 1) start seg1 ->
    ChildSegs segs i d cs (start + length seg1) ids rest ->
    ChildSegs segs i d ((seg, key, child) :: cs) start (start :: ids) (seg1 ++ rest).

(** The state [build] runs in keeps the ids [0 .. sequence - 1], in order. *)
Definition keys_ok (st : BuildState) : Prop :=
  map fst (built st) = seq 0 (sequence st).

(** One turn of either loop of [build]. *)
Definition buildChild (segs : list PathSegment) (i : NodeId) (d : nat)
    (st : BuildState) (c : PathSegment * jsstring * JsonValue) : BuildState :=
  let '(childId, st') :=
    build toLowerCase (snd c) (segs ++ [fst (fst c)]) (Some (snd (fst c)))
          (Some i) (d + 1) st in
  pushChild i childId st'.

Definition build_ok (v : JsonValue) : Prop :=
  forall segs dk parent d st, keys_ok st ->
    fst (build toLowerCase v segs dk parent d st) = sequence st
    /\ exists seg,
        built (snd (build toLowerCase v segs dk parent d st)) = built st ++ seg
        /\ sequence (snd (build toLowerCase v segs dk parent d st))
           = sequence st + length seg
        /\ SubtreeOK v segs dk parent d (sequence st) seg.

End IndexerSpec.

Arguments ok_keys {_ _ _ _ _ _ _ _} _.
Arguments ok_root {_ _ _ _ _ _ _ _} _.
Arguments ok_node {_ _ _ _ _ _ _ _} _ {_ _} _.
Arguments ok_parent {_ _ _ _ _ _ _ _} _ {_ _} _ _.
Arguments ok_child {_ _ _ _ _ _ _ _} _ {_ _ _} _ _.

(** The shape of a finished tree, by lookups in the node map. *)
Record WellFormed (tree : TreeData) : Prop := {
  wf_keys : map fst (nodes tree) = seq 0 (length (nodes tree));
  wf_root : rootIds tree = [0]
            /\ exists rn, Nodes_get (nodes tree) 0 = Some rn
                          /\ parentId rn = None /\ depth rn = 0;
  wf_node : forall k n, Nodes_get (nodes tree) k = Some n ->
      id n = k /\ depth n <= k;
  wf_parent : forall k n, Nodes_get (nodes tree) k = Some n -> k <> 0 ->
      exists p pn, parentId n = Some p /\ Nodes_get (nodes tree) p = Some pn
                   /\ p < k /\ In k (childrenIds pn) /\ depth n = S (depth pn);
  wf_child : forall k n c, Nodes_get (nodes tree) k = Some n ->
      In c (childrenIds n) ->
      k < c /\ exists cn, Nodes_get (nodes tree) c = Some cn
                          /\ parentId cn = Some k /\ depth cn = S (depth n)
}.

Arguments wf_keys {_} _.
Arguments wf_root {_} _.
Arguments wf_node {_} _ {_ _} _.
Arguments wf_parent {_} _ {_ _} _ _.
Arguments wf_child {_} _ {_ _ _} _ _.

(** A node reached from [a] through one or more [childrenIds] links. *)
Inductive descendant (nodes : Nodes) : NodeId -> NodeId -> Prop :=
| descendant_child a an c :
    Nodes_get nodes a = Some an -> In c (childrenIds an) ->
    descendant nodes a c
| descendant_step a an c b :
    Nodes_get nodes a = Some an -> In c (childrenIds an) ->
    descendant nodes c b -> descendant nodes a b.


(* ================================================================== *)
(** * Copy actions *)
(* ================================================================== *)

Inductive CopyKind : Type := CopyValue | CopySubtree.

(** The template literal of [getValueForCopy] is [String(node.value)]. *)
Definition getValueForCopy (node : TreeNode) (what : CopyKind) : jsstring :=
  match what with
  | CopySubtree => JSON.stringify_indent 2 (value node)
  | CopyValue =>
      if NodeKind_eqb (kind node) KString then String_of (value node)
      else JSON.stringify (value node)
  end.

(* ================================================================== *)
(** * Collapse state, search cache and search engine *)
(* ================================================================== *)

(** [Set<string>] of node ids, in insertion order. *)
Module IdSet.

Definition t := list NodeId.

Definition has (s : t) (x : NodeId) : bool := existsb (Nat.eqb x) s.

Definition add (s : t) (x : NodeId) : t := if has s x then s else s ++ [x].

End IdSet.

(** [Map<string, string[]>]: the entries in insertion order, so the first
    one is the oldest. *)
Module Cache.

Definition t := list (jsstring * list NodeId).

Fixpoint get (c : t) (key : jsstring) : option (list NodeId) :=
  match c with
  | [] => None
  | (k, v) :: rest => if Js.eqb k key then Some v else get rest key
  end.

(** [set] keeps the place of a key that is present. *)
Fixpoint set (c : t) (key : jsstring) (v : list NodeId) : t :=
  match c with
  | [] => [(key, v)]
  | (k, w) :: rest =>
      if Js.eqb k key then (k, v) :: rest else (k, w) :: set rest key v
  end.

Fixpoint delete (c : t) (key : jsstring) : t :=
  match c with
  | [] => []
  | (k, w) :: rest =>
      if Js.eqb k key then rest else (k, w) :: delete rest key
  end.

Definition size (c : t) : nat := length c.

(** [c.keys().next().value] *)
Definition oldestKey (c : t) : option jsstring :=
  match c with
  | [] => None
  | (k, _) :: _ => Some k
  end.

Definition clear (c : t) : t := [].

End Cache.

(** [makeDefaultCollapsed] *)
Definition DEFAULT_COLLAPSE_DEPTH : nat := 2.

Definition makeDefaultCollapsed (nodes : Nodes) : IdSet.t :=
  fold_left
    (fun next kn =>
       let node := snd kn in
       if hasChildren node && (DEFAULT_COLLAPSE_DEPTH <=? depth node)
       then IdSet.add next (id node) else next)
    nodes [].

(** The loop of [searchMatchIds] over the prefixes [slice(0, i)], from the
    longest one down to [i = 1]. *)
Fixpoint cachedPrefix (cache : Cache.t) (normalizedSearch : jsstring) (i : nat)
  : option (list NodeId) :=
  match i with
  | O => None
  | S i' =>
      match Cache.get cache (slice0 normalizedSearch i) with
      | Some ids => Some ids
      | None => cachedPrefix cache normalizedSearch i'
      end
  end.

Definition candidateEntries (treeNodes : Nodes) (ids : list NodeId) : Nodes :=
  flat_map
    (fun id => match Nodes_get treeNodes id with
               | Some node => [(id, node)]
               | None => []
               end) ids.

Definition matching (normalizedSearch : jsstring) (candidates : Nodes)
  : list NodeId :=
  map fst
    (filter (fun kn => includes (searchText (snd kn)) normalizedSearch) candidates).

(** The body of the [searchMatchIds] memo: the result and the cache it
    leaves behind.  [nodeEntries] is [Object.entries(treeData.nodes)], the
    node map itself. *)
Definition searchMatchIds (treeNodes : Nodes) (normalizedSearch : jsstring)
    (cache : Cache.t) : list NodeId * Cache.t :=
  match normalizedSearch with
  | [] => ([], cache)
  | _ =>
      match Cache.get cache normalizedSearch with
      | Some cached => (cached, cache)
      | None =>
          let candidates :=
            match cachedPrefix cache normalizedSearch (length normalizedSearch - 1) with
            | Some ids => candidateEntries treeNodes ids
            | None => treeNodes
            end in
          let result := matching normalizedSearch candidates in
          let cache1 :=
            if 40 <? Cache.size cache
            then match Cache.oldestKey cache with
                 | Some oldest => Cache.delete cache oldest
                 | None => cache
                 end
            else cache in
          (result, Cache.set cache1 normalizedSearch result)
      end
  end.

(** The scan of every node, with no cache. *)
Definition naiveSearch (treeNodes : Nodes) (normalizedSearch : jsstring)
  : list NodeId :=
  matching normalizedSearch treeNodes.

(* ================================================================== *)
(** * Visibility resolver *)
(* ================================================================== *)

(** The [while (current)] loop of [visibleScopeSet].  The loop ends when
    the parent chain does; [fuel] bounds the number of turns. *)
Fixpoint climb (fuel : nat) (treeNodes : Nodes) (current : option NodeId)
    (scope : IdSet.t) : IdSet.t :=
  match fuel with
  | O => scope
  | S fuel' =>
      match current with
      | None => scope
      | Some c =>
          climb fuel' treeNodes
            (match Nodes_get treeNodes c with
             | Some node => parentId node
             | None => None
             end)
            (IdSet.add scope c)
      end
  end.

Definition visibleScopeSet (treeNodes : Nodes) (normalizedSearch : jsstring)
    (searchMatchIds : list NodeId) : option IdSet.t :=
  match normalizedSearch with
  | [] => None
  | _ =>
      Some (fold_left
              (fun scope matchId =>
                 climb (S (length treeNodes)) treeNodes (Some matchId) scope)
              searchMatchIds [])
  end.

Definition nonEmpty (s : jsstring) : bool :=
  match s with [] => false | _ => true end.

Definition scopeHas (scope : option IdSet.t) (id : NodeId) : bool :=
  match scope with
  | Some s => IdSet.has s id
  | None => false
  end.

(** The inner function [traverse] of [visibleIds]; [output] is the array it
    pushes to, [fuel] bounds the nesting of the calls. *)
Fixpoint traverse (fuel : nat) (treeNodes : Nodes) (normalizedSearch : jsstring)
    (scope : option IdSet.t) (collapsedIds : IdSet.t)
    (id : NodeId) (output : list NodeId) : list NodeId :=
  match fuel with
  | O => output
  | S fuel' =>
      match Nodes_get treeNodes id with
      | None => output
      | Some node =>
          if nonEmpty normalizedSearch
             && match scope with Some s => negb (IdSet.has s id) | None => false end
          then output
          else
            let output1 := output ++ [id] in
            let shouldExpand :=
              (0 <? length (childrenIds node))
              && (negb (IdSet.has collapsedIds id)
                  || (nonEmpty normalizedSearch && scopeHas scope id)) in
            if negb shouldExpand then output1
            else fold_left
                   (fun out childId =>
                      traverse fuel' treeNodes normalizedSearch scope
                               collapsedIds childId out)
                   (childrenIds node) output1
      end
  end.

Definition visibleIds (tree : TreeData) (normalizedSearch : jsstring)
    (scope : option IdSet.t) (collapsedIds : IdSet.t) : list NodeId :=
  match rootIds tree with
  | [] => []
  | _ =>
      fold_left
        (fun out rootId =>
           traverse (length (nodes tree)) (nodes tree) normalizedSearch scope
                    collapsedIds rootId out)
        (rootIds tree) []
  end.

(** [a] is [b] or is reached from [b] by following [parentId]. *)
Inductive ancestorOrSelf (treeNodes : Nodes) : NodeId -> NodeId -> Prop :=
| ancestor_self a : ancestorOrSelf treeNodes a a
| ancestor_parent a b bn p :
    Nodes_get treeNodes b = Some bn -> parentId bn = Some p ->
    ancestorOrSelf treeNodes a p -> ancestorOrSelf treeNodes a b.

(** Every entry of the cache is the scan of the node map for its key. *)
Definition coherent (treeNodes : Nodes) (cache : Cache.t) : Prop :=
  Forall (fun entry => snd entry = naiveSearch treeNodes (fst entry)) cache.

(** The cache after the searches for the queries [qs], one after the other,
    over one node map. *)
Definition searchRun (treeNodes : Nodes) (qs : list jsstring) (cache : Cache.t)
  : Cache.t :=
  fold_left (fun c q => snd (searchMatchIds treeNodes q c)) qs cache.

(** The queries "1", "2", ..., "n". *)
Definition numberedQueries (n : nat) : list jsstring :=
  map (fun i => decimal (N.of_nat i)) (seq 1 n).

(* ================================================================== *)
(** * Text encodings of the host: UTF-8, base64, percent-encoding *)
(* ================================================================== *)

Module Utf8.

Local Open Scope N_scope.

Definition replacement : N := 65533.

(** The code points of a string; a lone surrogate reads as U+FFFD. *)
Fixpoint codePoints (s : jsstring) : list N :=
  match s with
  | [] => []
  | c :: rest =>
      if JSON.isHighSurrogate c then
        match rest with
        | d :: rest' =>
            if JSON.isLowSurrogate d
            then (65536 + (c - 55296) * 1024 + (d - 56320)) :: codePoints rest'
            else replacement :: codePoints rest
        | [] => [replacement]
        end
      else if JSON.isLowSurrogate c then replacement :: codePoints rest
      else c :: codePoints rest
  end.

Definition encodePoint (cp : N) : list N :=
  if cp <? 128 then [cp]
  else if cp <? 2048 then [192 + cp / 64; 128 + cp mod 64]
  else if cp <? 65536
       then [224 + cp / 4096; 128 + (cp / 64) mod 64; 128 + cp mod 64]
  else [240 + cp / 262144; 128 + (cp / 4096) mod 64;
        128 + (cp / 64) mod 64; 128 + cp mod 64].

(** [new TextEncoder().encode(s)] *)
Definition encode (s : jsstring) : list N := flat_map encodePoint (codePoints s).

(** The state of the decoder between two bytes: idle, or inside a sequence
    with the bits read so far, the bytes still needed and the bounds of
    the next byte. *)
Inductive state : Type :=
| Idle
| Pending (cp : N) (needed : nat) (lower upper : N).

(** A byte read in the idle state. *)
Definition lead (b : N) : option N * state :=
  if b <=? 127 then (Some b, Idle)
  else if (194 <=? b) && (b <=? 223) then (None, Pending (b mod 32) 1 128 191)
  else if (224 <=? b) && (b <=? 239)
       then (None, Pending (b mod 16) 2 (if b =? 224 then 160 else 128)
                           (if b =? 237 then 159 else 191))
  else if (240 <=? b) && (b <=? 244)
       then (None, Pending (b mod 8) 3 (if b =? 240 then 144 else 128)
                           (if b =? 244 then 143 else 191))
  else (Some replacement, Idle).

Definition emit (out : option N) (rest : list N) : list N :=
  match out with
  | Some cp => cp :: rest
  | None => rest
  end.

(** The UTF-8 decoder with replacement of malformed sequences. *)
Fixpoint decodePoints (bytes : list N) (st : state) : list N :=
  match bytes with
  | [] => match st with Idle => [] | Pending _ _ _ _ => [replacement] end
  | b :: rest =>
      match st with
      | Idle => let '(out, st') := lead b in emit out (decodePoints rest st')
      | Pending cp needed lower upper =>
          if (lower <=? b) && (b <=? upper) then
            let cp' := cp * 64 + b mod 64 in
            match needed with
            | 1%nat => cp' :: decodePoints rest Idle
            | _ => decodePoints rest (Pending cp' (Nat.pred needed) 128 191)
            end
          else
            let '(out, st') := lead b in
            replacement :: emit out (decodePoints rest st')
      end
  end.

Definition unitsOfPoint (cp : N) : jsstring :=
  if cp <? 65536 then [cp]
  else [55296 + (cp - 65536) / 1024; 56320 + (cp - 65536) mod 1024].

(** [new TextDecoder("utf-8").decode(bytes)]: a byte order mark at the
    head is dropped. *)
Definition decode (bytes : list N) : jsstring :=
  let points := decodePoints bytes Idle in
  flat_map unitsOfPoint
    match headIs 65279 points with
    | Some rest => rest
    | None => points
    end.

(** The code point of a byte sequence that is the UTF-8 encoding of one
    code point. *)
Definition decodeStrict (bytes : list N) : option N :=
  match decodePoints bytes Idle with
  | [cp] => Some cp
  | _ => None
  end.

End Utf8.

Module Base64.

Local Open Scope N_scope.

Definition digit (n : N) : char :=
  if n <? 26 then 65 + n
  else if n <? 52 then 97 + (n - 26)
  else if n <? 62 then 48 + (n - 52)
  else if n =? 62 then 43 else 47.

Definition value (c : char) : option N :=
  if (65 <=? c) && (c <=? 90) then Some (c - 65)
  else if (97 <=? c) && (c <=? 122) then Some (c - 97 + 26)
  else if (48 <=? c) && (c <=? 57) then Some (c - 48 + 52)
  else if c =? 43 then Some 62
  else if c =? 47 then Some 63
  else None.

Definition pad : char := 61.

Fixpoint encodeBytes (bytes : list N) : jsstring :=
  match bytes with
  | [] => []
  | [a] => [digit (a / 4); digit ((a mod 4) * 16); pad; pad]
  | [a; b] =>
      [digit (a / 4); digit ((a mod 4) * 16 + b / 16); digit ((b mod 16) * 4); pad]
  | a :: b :: c :: rest =>
      digit (a / 4) :: digit ((a mod 4) * 16 + b / 16)
      :: digit ((b mod 16) * 4 + c / 64) :: digit (c mod 64)
      :: encodeBytes rest
  end.

(** [btoa(binary)]; [None] stands for the [InvalidCharacterError] thrown
    for a code unit above 255. *)
Definition btoa (binary : jsstring) : option jsstring :=
  if forallb (fun c => c <=? 255) binary then Some (encodeBytes binary) else None.

Definition isAsciiWhitespace (c : char) : bool :=
  (c =? 9) || (c =? 10) || (c =? 12) || (c =? 13) || (c =? 32).

Fixpoint values (s : jsstring) : option (list N) :=
  match s with
  | [] => Some []
  | c :: rest =>
      match value c, values rest with
      | Some v, Some vs => Some (v :: vs)
      | _, _ => None
      end
  end.

Fixpoint decodeValues (vs : list N) : list N :=
  match vs with
  | a :: b :: c :: d :: rest =>
      (a * 4 + b / 16) :: ((b mod 16) * 16 + c / 4) :: ((c mod 4) * 64 + d)
      :: decodeValues rest
  | [a; b; c] => [a * 4 + b / 16; (b mod 16) * 16 + c / 4]
  | [a; b] => [a * 4 + b / 16]
  | _ => []
  end.

(** One or two padding characters at the end are dropped. *)
Fixpoint dropPadding (s : jsstring) : jsstring :=
  match s with
  | [] => []
  | c :: rest =>
      if Js.eqb s [pad; pad] || Js.eqb s [pad] then [] else c :: dropPadding rest
  end.

(** [atob(data)], the forgiving base64 decoding; [None] stands for the
    [InvalidCharacterError] it throws. *)
Definition atob (data : jsstring) : option jsstring :=
  let data1 := filter (fun c => negb (isAsciiWhitespace c)) data in
  let data2 := if (length data1 mod 4 =? 0)%nat then dropPadding data1 else data1 in
  if (length data2 mod 4 =? 1)%nat then None
  else match values data2 with
       | Some vs => Some (decodeValues vs)
       | None => None
       end.

(** The 6-bit groups of a byte sequence and the number of padding
    characters that follow their digits. *)
Fixpoint sextets (bytes : list N) : list N :=
  match bytes with
  | [] => []
  | [a] => [a / 4; (a mod 4) * 16]
  | [a; b] => [a / 4; (a mod 4) * 16 + b / 16; (b mod 16) * 4]
  | a :: b :: c :: rest =>
      a / 4 :: (a mod 4) * 16 + b / 16 :: (b mod 16) * 4 + c / 64 :: c mod 64
      :: sextets rest
  end.

Fixpoint padCount (bytes : list N) : nat :=
  match bytes with
  | [] => 0
  | [_] => 2
  | [_; _] => 1
  | _ :: _ :: _ :: rest => padCount rest
  end.

End Base64.

Module Uri.

Local Open Scope N_scope.

Definition hexByte (s : jsstring) : option (N * jsstring) :=
  match s with
  | h1 :: h2 :: rest =>
      match JSON.hexValue h1, JSON.hexValue h2 with
      | Some a, Some b => Some (a * 16 + b, rest)
      | _, _ => None
      end
  | _ => None
  end.

(** [count] more escapes [%XX], one after the other. *)
Fixpoint continuation (count : nat) (s : jsstring) : option (list N * jsstring) :=
  match count with
  | O => Some ([], s)
  | S count' =>
      match headIs 37 s with
      | Some rest =>
          match hexByte rest with
          | Some (b, rest1) =>
              match continuation count' rest1 with
              | Some (bs, rest2) => Some (b :: bs, rest2)
              | None => None
              end
          | None => None
          end
      | None => None
      end
  end.

Definition leadingOnes (b : N) : nat :=
  if b <? 128 then 0
  else if b <? 192 then 1
  else if b <? 224 then 2
  else if b <? 240 then 3
  else if b <? 248 then 4 else 5.

Fixpoint decode (fuel : nat) (s : jsstring) : option jsstring :=
  match s with
  | [] => Some []
  | c :: rest =>
      match fuel with
      | O => None
      | S fuel' =>
          if c =? 37 then
            match hexByte rest with
            | None => None
            | Some (b, rest1) =>
                let n := leadingOnes b in
                if (n =? 0)%nat then option_map (cons b) (decode fuel' rest1)
                else if (n =? 1)%nat || (4 <? n)%nat then None
                else match continuation (n - 1) rest1 with
                     | None => None
                     | Some (bs, rest2) =>
                         match Utf8.decodeStrict (b :: bs) with
                         | Some cp =>
                             option_map (app (Utf8.unitsOfPoint cp))
                                        (decode fuel' rest2)
                         | None => None
                         end
                     end
            end
          else option_map (cons c) (decode fuel' rest)
      end
  end.

(** [decodeURIComponent(s)]; [None] stands for the [URIError] it throws. *)
Definition decodeURIComponent (s : jsstring) : option jsstring :=
  decode (length s) s.

End Uri.

(* ================================================================== *)
(** * Share-link codec *)
(* ================================================================== *)

Definition safeDecodeURIComponent (value : jsstring) : jsstring :=
  match Uri.decodeURIComponent value with
  | Some decoded => decoded
  | None => value
  end.

Definition normalizeBase64 (input : jsstring) : jsstring :=
  let base64 := replaceAll 95%N (str "/") (replaceAll 45%N (str "+") input) in
  let missing := length base64 mod 4 in
  if (missing =? 0)%nat then base64
  else if (missing =? 2)%nat then base64 ++ str "=="
  else if (missing =? 3)%nat then base64 ++ str "="
  else base64.

(** [decodeBase64Utf8]: [None] is the [null] of the [catch] branch. *)
Definition decodeBase64Utf8 (input : jsstring) : option jsstring :=
  let normalized := normalizeBase64 input in
  match Base64.atob normalized with
  | Some binary => Some (Utf8.decode binary)
  | None => None
  end.

(** [s.replace(/=+$/u, "")]: the run of "=" that ends the string goes. *)
Fixpoint stripPadding (s : jsstring) : jsstring :=
  match s with
  | [] => []
  | c :: rest =>
      match stripPadding rest with
      | [] => if (c =? Base64.pad)%N then [] else [c]
      | kept => c :: kept
      end
  end.

(** [encodeBase64Utf8]: [None] stands for an exception of [btoa], which
    the function does not catch. *)
Definition encodeBase64Utf8 (input : jsstring) : option jsstring :=
  let bytes := Utf8.encode input in
  let binary := bytes in
  match Base64.btoa binary with
  | Some encoded =>
      Some (stripPadding (replaceAll 47%N (str "_") (replaceAll 43%N (str "-") encoded)))
  | None => None
  end.

(* ================================================================== *)
(** * The load boundary *)
(* ================================================================== *)

(** The messages of the load boundary.  [JsonParseFailed text] is the
    fixed prefix of [parseJson] followed by the message of the
    [SyntaxError] that [JSON.parse] raised on [text]; [NotJsonShaped] is
    the message that [parsed] holds before the loop. *)
Inductive Message : Type :=
| JsonParseFailed (text : jsstring)
| NotJsonShaped.

Inductive ParseResult : Type :=
| ParseOk (value : JsonValue)
| ParseError (error : Message).

(** [parseJson]: [JSON.parse] throws nothing but a [SyntaxError], so the
    second message of the [catch] branch is never built. *)
Definition parseJson (text : jsstring) : ParseResult :=
  match JSON.parse text with
  | Some value => ParseOk value
  | None => ParseError (JsonParseFailed text)
  end.

Definition stringifyParsedValueForInput (value : JsonValue) : jsstring :=
  match value with
  | JString s => s
  | JNull => str "null"
  | _ => JSON.stringify_indent 2 value
  end.

(** The candidates of [loadFromJsonText], in the order they are tried. *)
Definition parseTargets (rawText : jsstring) : list jsstring :=
  let candidateRaw := safeDecodeURIComponent rawText in
  match decodeBase64Utf8 candidateRaw with
  | Some decodedFromBase64 =>
      if nonEmpty decodedFromBase64
         && negb (existsb (Js.eqb decodedFromBase64) [candidateRaw])
      then [candidateRaw; decodedFromBase64]
      else [candidateRaw]
  | None => [candidateRaw]
  end.

(** The loop over the candidates: the first one that parses wins, else the
    error of the last one stays. *)
Fixpoint firstParsed (targets : list jsstring) (parsed : ParseResult) : ParseResult :=
  match targets with
  | [] => parsed
  | candidate :: rest =>
      match parseJson candidate with
      | ParseOk value => ParseOk value
      | ParseError error => firstParsed rest (ParseError error)
      end
  end.

(** [rawCollapsed] is a boolean or a depth. *)
Inductive RawCollapsed : Type :=
| RawBool (b : bool)
| RawDepth (n : nat).

(** The state of [App] that the load and the search touch.  A new object
    stored in [treeData] is told from the one before by [treeIdentity],
    which stands for the identity of [treeData.nodes]; the last four
    fields are the cells of the hooks [useRef], [useDeferredValue],
    [useMemo] (for [searchMatchIds]) and [useEffect] (the one that clears
    the cache). *)
Record AppState : Type := mkApp {
  treeData : TreeData;
  treeIdentity : nat;
  collapsedIds : IdSet.t;
  selectedId : option NodeId;
  searchInput : jsstring;
  errorMessage : option Message;
  pasteText : jsstring;
  parsedJsonValue : option JsonValue;
  rawCollapsed : RawCollapsed;
  treeScrollTop : option nat;
  searchResultCache : Cache.t;
  deferredSearchInput : jsstring;
  memoSearchMatchIds : option (nat * jsstring * list NodeId);
  effectTreeIdentity : option nat
}.

Definition initialApp : AppState :=
  {| treeData := {| nodes := []; rootIds := [] |};
     treeIdentity := 0;
     collapsedIds := [];
     selectedId := None;
     searchInput := [];
     errorMessage := None;
     pasteText := [];
     parsedJsonValue := None;
     rawCollapsed := RawBool false;
     treeScrollTop := None;
     searchResultCache := [];
     deferredSearchInput := [];
     memoSearchMatchIds := None;
     effectTreeIdentity := None |}.

Section App.

Variable toLowerCase : jsstring -> jsstring.

(** [loadFromJsonText]: the state after the updates it queues, and the
    boolean it returns. *)
Definition loadFromJsonText (rawText : jsstring) (st : AppState) : AppState * bool :=
  match firstParsed (parseTargets rawText) (ParseError NotJsonShaped) with
  | ParseError error =>
      ({| treeData := treeData st;
          treeIdentity := treeIdentity st;
          collapsedIds := collapsedIds st;
          selectedId := selectedId st;
          searchInput := [];
          errorMessage := Some error;
          pasteText := pasteText st;
          parsedJsonValue := None;
          rawCollapsed := RawBool false;
          treeScrollTop := treeScrollTop st;
          searchResultCache := searchResultCache st;
          deferredSearchInput := deferredSearchInput st;
          memoSearchMatchIds := memoSearchMatchIds st;
          effectTreeIdentity := effectTreeIdentity st |},
       false)
  | ParseOk value =>
      let tree := buildTree toLowerCase value in
      ({| treeData := tree;
          treeIdentity := S (treeIdentity st);
          collapsedIds := makeDefaultCollapsed (nodes tree);
          selectedId := hd_error (rootIds tree);
          searchInput := [];
          errorMessage := None;
          pasteText := stringifyParsedValueForInput value;
          parsedJsonValue := Some value;
          rawCollapsed := RawBool false;
          treeScrollTop := match treeScrollTop st with
                           | Some _ => Some 0
                           | None => None
                           end;
          searchResultCache := searchResultCache st;
          deferredSearchInput := deferredSearchInput st;
          memoSearchMatchIds := memoSearchMatchIds st;
          effectTreeIdentity := effectTreeIdentity st |},
       true)
  end.

(** [setSearchInput(text)], the handler of the search field. *)
Definition typeSearch (text : jsstring) (st : AppState) : AppState :=
  {| treeData := treeData st;
     treeIdentity := treeIdentity st;
     collapsedIds := collapsedIds st;
     selectedId := selectedId st;
     searchInput := text;
     errorMessage := errorMessage st;
     pasteText := pasteText st;
     parsedJsonValue := parsedJsonValue st;
     rawCollapsed := rawCollapsed st;
     treeScrollTop := treeScrollTop st;
     searchResultCache := searchResultCache st;
     deferredSearchInput := deferredSearchInput st;
     memoSearchMatchIds := memoSearchMatchIds st;
     effectTreeIdentity := effectTreeIdentity st |}.

(** The white space and line terminators [String.prototype.trim] strips. *)
Definition isTrimmed (c : char) : bool :=
  ((9 <=? c) && (c <=? 13) || (c =? 32) || (c =? 160) || (c =? 5760)
   || (8192 <=? c) && (c <=? 8202) || (c =? 8232) || (c =? 8233)
   || (c =? 8239) || (c =? 8287) || (c =? 12288) || (c =? 65279))%N.

Fixpoint trimStart (s : jsstring) : jsstring :=
  match s with
  | c :: rest => if isTrimmed c then trimStart rest else s
  | [] => []
  end.

Definition trim (s : jsstring) : jsstring :=
  List.rev (trimStart (List.rev (trimStart s))).

Definition normalize (input : jsstring) : jsstring := toLowerCase (trim input).

(** One render of [App] and the effects that follow its commit, for the
    hooks the search goes through.  During a render caused by an urgent
    update [useDeferredValue] still gives the value of the render before;
    the render React starts afterwards gives the new value.  [useMemo]
    runs its function during the render when a dependency changed;
    [useEffect] runs its function after the commit when a dependency
    changed. *)
Definition render (urgent : bool) (st : AppState) : AppState :=
  let deferred := if urgent then deferredSearchInput st else searchInput st in
  let normalizedSearch := normalize deferred in
  let reuse :=
    match memoSearchMatchIds st with
    | Some (ident, query, matches) =>
        if Nat.eqb ident (treeIdentity st) && Js.eqb query normalizedSearch
        then Some matches else None
    | None => None
    end in
  let '(matches, cache) :=
    match reuse with
    | Some matches => (matches, searchResultCache st)
    | None => searchMatchIds (nodes (treeData st)) normalizedSearch
                             (searchResultCache st)
    end in
  let cleared :=
    match effectTreeIdentity st with
    | Some ident => negb (Nat.eqb ident (treeIdentity st))
    | None => true
    end in
  {| treeData := treeData st;
     treeIdentity := treeIdentity st;
     collapsedIds := collapsedIds st;
     selectedId := selectedId st;
     searchInput := searchInput st;
     errorMessage := errorMessage st;
     pasteText := pasteText st;
     parsedJsonValue := parsedJsonValue st;
     rawCollapsed := rawCollapsed st;
     treeScrollTop := treeScrollTop st;
     searchResultCache := if cleared then Cache.clear cache else cache;
     deferredSearchInput := deferred;
     memoSearchMatchIds := Some (treeIdentity st, normalizedSearch, matches);
     effectTreeIdentity := Some (treeIdentity st) |}.

(** The events of the load-and-search step relation. *)
Inductive Event : Type :=
| Load (rawText : jsstring)
| TypeSearch (text : jsstring)
| RenderUrgent
| RenderDeferred.

Definition step (st : AppState) (e : Event) : AppState :=
  match e with
  | Load rawText => fst (loadFromJsonText rawText st)
  | TypeSearch text => typeSearch text st
  | RenderUrgent => render true st
  | RenderDeferred => render false st
  end.

Definition run (events : list Event) (st : AppState) : AppState :=
  fold_left step events st.

(** What the render shows of the search: the query and the match ids. *)
Definition shownQuery (st : AppState) : jsstring :=
  match memoSearchMatchIds st with
  | Some (_, query, _) => query
  | None => []
  end.

Definition shownMatches (st : AppState) : list NodeId :=
  match memoSearchMatchIds st with
  | Some (_, _, matches) => matches
  | None => []
  end.

End App.

(** The share link carries [encodeBase64Utf8(JSON.stringify(value))];
    [buildShareUrl] makes it of [parsedJsonValue] when that is truthy. *)
Definition shareEncode (value : JsonValue) : option jsstring :=
  encodeBase64Utf8 (JSON.stringify value).

(** The two documents and the events of the run that shows a new tree next
    to the matches of the old one. *)
Definition oldDocument : jsstring := str "[" ++ [dquote] ++ str "hit" ++ [dquote]
  ++ str "," ++ [dquote] ++ str "zzz" ++ [dquote] ++ str "]".
Definition newDocument : jsstring := str "[" ++ [dquote] ++ str "zzz" ++ [dquote]
  ++ str "," ++ [dquote] ++ str "hit" ++ [dquote] ++ str "]".

Definition staleRun : list Event :=
  [ Load oldDocument; RenderUrgent; RenderDeferred;
    TypeSearch (str "hit"); RenderUrgent; RenderDeferred;
    Load newDocument; RenderUrgent ].

(** ** Well-formed strings

    A string of 16-bit code units in which every surrogate is half of a
    pair, and a value all of whose strings and keys are 16-bit. *)
Inductive wellFormed16 : jsstring -> Prop :=
| wf16_nil : wellFormed16 []
| wf16_unit c rest :
    (c < 65536)%N -> JSON.isHighSurrogate c = false ->
    JSON.isLowSurrogate c = false ->
    wellFormed16 rest -> wellFormed16 (c :: rest)
| wf16_pair h l rest :
    JSON.isHighSurrogate h = true -> JSON.isLowSurrogate l = true ->
    wellFormed16 rest -> wellFormed16 (h :: l :: rest).

Definition scalarValue (cp : N) : Prop :=
  (cp < 1114112 /\ (cp < 55296 \/ 57344 <= cp))%N.

Definition codeUnits (s : jsstring) : bool := forallb (fun c => c <? 65536)%N s.

Fixpoint codeUnitsValue (v : JsonValue) : bool :=
  match v with
  | JString s => codeUnits s
  | JArray items => forallb codeUnitsValue items
  | JObject entries =>
      forallb (fun kv => codeUnits (fst kv) && codeUnitsValue (snd kv)) entries
  | _ => true
  end.

(** ** Values that their compact JSON text gives back

    The number is read back from its own text (a finite number other than
    negative zero is), the properties of every object are in the order in
    which the platform enumerates them, which is the order [JSON.parse]
    builds. *)
Definition numberReadsBack (n : JsNumber.t) : Prop :=
  JSON.parseNumber (JSON.numberText n) = Some (n, []).

Definition enumerated (entries : list (jsstring * JsonValue)) : Prop :=
  fold_left JSON.defineProperty entries [] = entries.

Fixpoint readsBack (v : JsonValue) : Prop :=
  match v with
  | JNumber n => numberReadsBack n
  | JArray items =>
      (fix all (l : list JsonValue) : Prop :=
         match l with
         | [] => True
         | x :: rest => readsBack x /\ all rest
         end) items
  | JObject entries =>
      enumerated entries
      /\ (fix all (l : list (jsstring * JsonValue)) : Prop :=
            match l with
            | [] => True
            | kv :: rest => readsBack (snd kv) /\ all rest
            end) entries
  | _ => True
  end.

(** What follows a value inside a compact JSON text: nothing, a comma or a
    closing bracket. *)
Definition closes (rest : jsstring) : bool :=
  match rest with
  | [] => true
  | c :: _ => ((c =? 44) || (c =? 93) || (c =? 125))%N
  end.

(** The nesting of the calls that the parser makes on the text of [v]:
    one call more for each element that is left of a list, whatever the
    nesting of the element itself. *)
Fixpoint listDepth (depths : list nat) : nat :=
  match depths with
  | [] => 0
  | d :: rest => S (Nat.max d (listDepth rest))
  end.

Fixpoint parseDepth (v : JsonValue) : nat :=
  match v with
  | JArray items => S (listDepth (map parseDepth items))
  | JObject entries => S (listDepth (map (fun kv => parseDepth (snd kv)) entries))
  | _ => 1
  end.

(** The two replacements of [encodeBase64Utf8], on one code unit. *)
Definition urlChar (c : char) : char :=
  let c1 := if (c =? 43)%N then 45%N else c in
  if (c1 =? 47)%N then 95%N else c1.

(** A string of ASCII code units. *)
Definition asciiOnly (s : jsstring) : Prop := Forall (fun c => (c < 128)%N) s.

(** The first code unit is below ["|"], so the base64 text of the string
    starts with a letter between "A" and "e". *)
Definition plainHead (s : jsstring) : Prop :=
  exists c rest, s = c :: rest /\ (c < 124)%N.

(** The two replacements of [normalizeBase64], on one code unit. *)
Definition unurlChar (c : char) : char :=
  if ((if (c =? 45)%N then 43%N else c) =? 95)%N then 47%N
  else if (c =? 45)%N then 43%N else c.


(** The text that [encodeBase64Utf8] makes of a byte sequence: the digits
    of the 6-bit groups in the URL-safe alphabet, with no padding. *)
Definition urlDigits (bytes : list N) : jsstring :=
  map urlChar (map Base64.digit (Base64.sextets bytes)).


(** A document with nested objects, arrays, strings beyond ASCII (with a
    surrogate pair) and numbers. *)
Definition sampleDocument : JsonValue :=
  JObject
    [ (str "list", JArray [ JNumber (JsNumber.of_Z 42);
                            JNumber (JsNumber.of_decimal true 15 (-1));
                            JString ([233; 8364; 55357; 56832]%N);
                            JArray []; JNull; JBool true ]);
      (str "nested", JObject [ (str "k " ++ [dquote], JString (str "v"));
                               (str "n", JNumber (JsNumber.of_decimal false 1 21)) ]) ].

(** What holds of the cache in every state the events reach: once the
    effect has run for the tree at hand, every entry is a scan of it. *)
Definition cacheInvariant (st : AppState) : Prop :=
  NoDup (map fst (nodes (treeData st)))
  /\ match effectTreeIdentity st with
     | Some ident =>
         ident <= treeIdentity st
         /\ (ident = treeIdentity st ->
             coherent (nodes (treeData st)) (searchResultCache st))
     | None => True
     end.

(* ================================================================== *)
(** * The rest of the application *)
(* ================================================================== *)

(** ** Share-link codec, on any string *)

(** The alphabet of a share link: letters, digits, [-] and [_]. *)
Definition isBase64Url (c : char) : bool :=
  ((65 <=? c) && (c <=? 90) || (97 <=? c) && (c <=? 122)
   || (48 <=? c) && (c <=? 57) || (c =? 45) || (c =? 95))%N.

(** What [TextDecoder] leaves of a string: a byte order mark at the head
    is dropped. *)
Definition withoutByteOrderMark (s : jsstring) : jsstring :=
  match headIs 65279%N s with
  | Some rest => rest
  | None => s
  end.

(** ** The layout of the node map

    The entries that [build] adds for a value, told without the counter
    and the mutation: the node of the value, with the ids of its children,
    then the entries of each child in turn.  [i] is the id of the node,
    [start] the id of the first child still to come. *)
Section Layout.

Variable toLowerCase : jsstring -> jsstring.

Inductive Laid : JsonValue -> list PathSegment -> option jsstring ->
    option NodeId -> nat -> NodeId -> Nodes -> Prop :=
| Laid_node v segs dk parent d i ids all :
    LaidChildren segs i d (children v) (S i) ids all ->
    Laid v segs dk parent d i
      ((i, setChildren ids (newNode toLowerCase i v segs dk parent d)) :: all)
with LaidChildren : list PathSegment -> NodeId -> nat ->
    list (PathSegment * jsstring * JsonValue) -> NodeId -> list NodeId ->
    Nodes -> Prop :=
| LaidChildren_nil segs i d start : LaidChildren segs i d [] start [] []
| LaidChildren_cons segs i d seg key child cs start seg1 ids rest :
    Laid child (segs ++ [seg]) (Some key) (Some i) (d + 1) start seg1 ->
    LaidChildren segs i d cs (start + length seg1) ids rest ->
    LaidChildren segs i d ((seg, key, child) :: cs) start (start :: ids)
      (seg1 ++ rest).

Definition build_laid (v : JsonValue) : Prop :=
  forall segs dk parent d st, keys_ok st ->
    fst (build toLowerCase v segs dk parent d st) = sequence st
    /\ exists seg,
        built (snd (build toLowerCase v segs dk parent d st)) = built st ++ seg
        /\ sequence (snd (build toLowerCase v segs dk parent d st))
           = sequence st + length seg
        /\ Laid v segs dk parent d (sequence st) seg.

End Layout.

Scheme Laid_mut := Minimality for Laid Sort Prop
  with LaidChildren_mut := Minimality for LaidChildren Sort Prop.

Combined Scheme Laid_mutind from Laid_mut, LaidChildren_mut.

(** The number of values in a value: the value and those inside it. *)
Fixpoint size (v : JsonValue) : nat :=
  match v with
  | JArray items => S (list_sum (map size items))
  | JObject entries => S (list_sum (map (fun kv => size (snd kv)) entries))
  | _ => 1
  end.

(** [value[segment]], for a key of an object or an index of an array. *)
Fixpoint lookupKey (key : jsstring) (entries : list (jsstring * JsonValue))
  : option JsonValue :=
  match entries with
  | [] => None
  | (k, v) :: rest => if Js.eqb k key then Some v else lookupKey key rest
  end.

Definition valueAtSegment (v : JsonValue) (segment : PathSegment)
  : option JsonValue :=
  match v, segment with
  | JObject entries, SegKey key => lookupKey key entries
  | JArray items, SegIndex index => nth_error items (N.to_nat index)
  | _, _ => None
  end.

(** The value reached from [v] by the segments of a path, one after the
    other. *)
Fixpoint valueAt (v : JsonValue) (segments : list PathSegment)
  : option JsonValue :=
  match segments with
  | [] => Some v
  | segment :: rest =>
      match valueAtSegment v segment with
      | Some child => valueAt child rest
      | None => None
      end
  end.

(** No object of the value has two properties of one key. *)
Fixpoint distinctKeys (v : JsonValue) : bool :=
  match v with
  | JArray items => forallb distinctKeys items
  | JObject entries =>
      (fix distinct (l : list (jsstring * JsonValue)) : bool :=
         match l with
         | [] => true
         | (k, w) :: rest =>
             negb (existsb (fun kv => Js.eqb (fst kv) k) rest)
             && distinctKeys w && distinct rest
         end) entries
  | _ => true
  end.

(** ** Collapse handlers and the selection *)

(** [next.delete(x)] *)
Definition IdSet_delete (s : IdSet.t) (x : NodeId) : IdSet.t :=
  filter (fun y => negb (Nat.eqb y x)) s.

(** The updater that [toggleNode] hands to [setCollapsedIds]. *)
Definition toggled (id : NodeId) (prev : IdSet.t) : IdSet.t :=
  if IdSet.has prev id then IdSet_delete prev id else IdSet.add prev id.

(** The updater that [collapseAll] hands to [setCollapsedIds]. *)
Definition allCollapsed (treeNodes : Nodes) (prev : IdSet.t) : IdSet.t :=
  fold_left
    (fun next node =>
       if hasChildren node && (1 <=? depth node)
       then IdSet.add next (id node) else next)
    (map snd treeNodes) prev.

(** The state with another collapse state and another [rawCollapsed]. *)
Definition withCollapse (ids : IdSet.t) (raw : RawCollapsed) (st : AppState)
  : AppState :=
  {| treeData := treeData st;
     treeIdentity := treeIdentity st;
     collapsedIds := ids;
     selectedId := selectedId st;
     searchInput := searchInput st;
     errorMessage := errorMessage st;
     pasteText := pasteText st;
     parsedJsonValue := parsedJsonValue st;
     rawCollapsed := raw;
     treeScrollTop := treeScrollTop st;
     searchResultCache := searchResultCache st;
     deferredSearchInput := deferredSearchInput st;
     memoSearchMatchIds := memoSearchMatchIds st;
     effectTreeIdentity := effectTreeIdentity st |}.

(** [toggleNode(id)]: nothing happens for an id that is no node, or the
    node of a value that is neither an object nor an array. *)
Definition toggleNode (id : NodeId) (st : AppState) : AppState :=
  match Nodes_get (nodes (treeData st)) id with
  | None => st
  | Some target =>
      if negb (hasChildren target) then st
      else withCollapse (toggled id (collapsedIds st)) (rawCollapsed st) st
  end.

Definition collapseAll (st : AppState) : AppState :=
  withCollapse (allCollapsed (nodes (treeData st)) (collapsedIds st))
    (RawBool true) st.

Definition expandAll (st : AppState) : AppState :=
  withCollapse [] (RawBool false) st.

(** The [selected] memo: the node of [selectedId], if there is one. *)
Definition selected (treeNodes : Nodes) (selectedId : option NodeId)
  : option TreeNode :=
  match selectedId with
  | Some i => Nodes_get treeNodes i
  | None => None
  end.

(** The effect that follows the selection: a selected node that is not
    listed gives way to the first listed id, or to nothing. *)
Definition reselect (treeNodes : Nodes) (visible : list NodeId)
    (selectedId : option NodeId) : option NodeId :=
  match selected treeNodes selectedId with
  | None => selectedId
  | Some node =>
      if existsb (Nat.eqb (id node)) visible then selectedId
      else hd_error visible
  end.

(** The two tests of [traverse] on a node: the node is listed, and the
    walk goes on to its children. *)
Definition listed (normalizedSearch : jsstring) (scope : option IdSet.t)
    (id : NodeId) : bool :=
  negb (nonEmpty normalizedSearch
        && match scope with Some s => negb (IdSet.has s id) | None => false end).

Definition opened (normalizedSearch : jsstring) (scope : option IdSet.t)
    (collapsedIds : IdSet.t) (id : NodeId) : bool :=
  negb (IdSet.has collapsedIds id)
  || (nonEmpty normalizedSearch && scopeHas scope id).

(** Nothing between [r] and its descendant [x] stops the walk from [r]:
    each node on the way is listed, and each but [x] itself is open. *)
Definition clearWay (treeNodes : Nodes) (normalizedSearch : jsstring)
    (scope : option IdSet.t) (collapsedIds : IdSet.t) (r x : NodeId) : Prop :=
  forall a, ancestorOrSelf treeNodes r a -> ancestorOrSelf treeNodes a x ->
            listed normalizedSearch scope a = true
            /\ (a <> x -> opened normalizedSearch scope collapsedIds a = true).

(** ** Share configuration and the share link

    [shareConfig.ts] reads four variables of the build environment; the
    window, when there is one, gives the origin and the path of the page. *)

Record ProcessEnv : Type := mkEnv {
  NEXT_PUBLIC_SHARE_DOMAIN : option jsstring;
  BUN_PUBLIC_SHARE_DOMAIN : option jsstring;
  NEXT_PUBLIC_SHARE_PATH : option jsstring;
  BUN_PUBLIC_SHARE_PATH : option jsstring
}.

Record Location : Type := mkLocation {
  origin : jsstring;
  pathname : jsstring
}.

(** [a ?? b] *)
Definition nullish (a : option jsstring) (b : jsstring) : jsstring :=
  match a with
  | Some x => x
  | None => b
  end.

(** [a || b] on strings: the empty string is falsy. *)
Definition orElse (a b : jsstring) : jsstring := if nonEmpty a then a else b.

Definition SHARE_QUERY_KEY : jsstring := str "data".
Definition SHARE_DEFAULT_BASE_DOMAIN : jsstring := [].

Definition SHARE_BASE_DOMAIN (env : ProcessEnv) : jsstring :=
  trim (nullish (NEXT_PUBLIC_SHARE_DOMAIN env)
          (nullish (BUN_PUBLIC_SHARE_DOMAIN env) SHARE_DEFAULT_BASE_DOMAIN)).

Definition SHARE_BASE_PATH (env : ProcessEnv) : jsstring :=
  trim (nullish (NEXT_PUBLIC_SHARE_PATH env)
          (nullish (BUN_PUBLIC_SHARE_PATH env) [])).

Definition normalizePath (path : jsstring) : jsstring :=
  if negb (nonEmpty path) then str "/"
  else if startsWith path (str "/") then path else str "/" ++ path.

(** [url.endsWith("/")] *)
Definition endsWithSlash (url : jsstring) : bool :=
  match List.rev url with
  | c :: _ => (c =? 47)%N
  | [] => false
  end.

(** [url.replace(/\/+$/u, "")]: the run of "/" that ends the string goes. *)
Fixpoint stripSlashes (url : jsstring) : jsstring :=
  match url with
  | [] => []
  | c :: rest =>
      match stripSlashes rest with
      | [] => if (c =? 47)%N then [] else [c]
      | kept => c :: kept
      end
  end.

Definition stripTrailingSlash (url : jsstring) : jsstring :=
  if negb (nonEmpty url) then []
  else if endsWithSlash url then stripSlashes url else url.

Definition getShareBaseUrl (env : ProcessEnv) (window : option Location)
  : jsstring :=
  let currentOrigin :=
    match window with
    | None => []
    | Some w => origin w
    end in
  let base := stripTrailingSlash (orElse (SHARE_BASE_DOMAIN env) currentOrigin) in
  let path :=
    normalizePath
      (orElse (SHARE_BASE_PATH env)
         match window with
         | None => str "/"
         | Some w => pathname w
         end) in
  base ++ path.

(** [ToBoolean] of a parsed value, or of [null] when there is none. *)
Definition truthy (parsedJsonValue : option JsonValue) : bool :=
  match parsedJsonValue with
  | None | Some JNull => false
  | Some (JBool b) => b
  | Some (JNumber (JsNumber.Zero _)) | Some (JNumber JsNumber.NaN) => false
  | Some (JNumber _) => true
  | Some (JString s) => nonEmpty s
  | Some (JArray _) | Some (JObject _) => true
  end.

(** What a call of [buildShareUrl] comes to: [null], a link, or an
    exception of [btoa] that nothing catches. *)
Inductive ShareOutcome : Type :=
| ShareNull
| ShareLink (url : jsstring)
| ShareThrows.

Section ShareUrl.

(** [new URL(base)], [url.searchParams.set(key, value)] and
    [url.toString()] of the host; [None] when the constructor throws. *)
Variable urlWithParam : jsstring -> jsstring -> jsstring -> option jsstring.

Definition buildShareUrl (env : ProcessEnv) (window : option Location)
    (parsedJsonValue : option JsonValue) : ShareOutcome :=
  match parsedJsonValue with
  | None => ShareNull
  | Some value =>
      if negb (truthy parsedJsonValue) then ShareNull
      else
        let rawText := JSON.stringify value in
        match encodeBase64Utf8 rawText with
        | None => ShareThrows
        | Some encoded =>
            let base := getShareBaseUrl env window in
            if negb (nonEmpty base) then ShareNull
            else match urlWithParam base SHARE_QUERY_KEY encoded with
                 | Some url => ShareLink url
                 | None =>
                     ShareLink (base ++ str "?" ++ SHARE_QUERY_KEY ++ str "="
                                ++ encoded)
                 end
        end
  end.

End ShareUrl.

(** ** The sorted value of the RAW view *)

(** [obj[key] = v] on an object made by [{}]: the key [__proto__] goes to
    the setter of [Object.prototype], which makes no property; any other
    key makes, or changes, a property of the object. *)
Definition assignProperty (entries : list (jsstring * JsonValue))
    (member : jsstring * JsonValue) : list (jsstring * JsonValue) :=
  if Js.eqb (fst member) (str "__proto__") then entries
  else JSON.defineProperty entries member.

Section SortJson.

(** [a.localeCompare(b)] of the host: negative, zero or positive. *)
Variable localeCompare : jsstring -> jsstring -> Z.

(** [entries.sort(([a], [b]) => a.localeCompare(b))]: the sort is stable,
    so with a comparator that orders the keys it is the insertion of each
    entry, in turn, behind the entries that do not come after it. *)
Fixpoint insertEntry (entry : jsstring * JsonValue)
    (sorted : list (jsstring * JsonValue)) : list (jsstring * JsonValue) :=
  match sorted with
  | [] => [entry]
  | x :: rest =>
      if (0 <? localeCompare (fst x) (fst entry))%Z
      then entry :: x :: rest
      else x :: insertEntry entry rest
  end.

Definition sortEntries (entries : list (jsstring * JsonValue))
  : list (jsstring * JsonValue) :=
  fold_left (fun sorted entry => insertEntry entry sorted) entries [].

(** [sortJsonValue].  The sort looks at the keys only, so the items are
    sorted here before the entries are, not at the assignment. *)
Fixpoint sortJsonValue (value : JsonValue) : JsonValue :=
  match value with
  | JArray items => JArray (map sortJsonValue items)
  | JObject entries =>
      JObject
        (fold_left assignProperty
           (sortEntries (map (fun kv => (fst kv, sortJsonValue (snd kv))) entries))
           [])
  | _ => value
  end.

(** The [sortedRawJsonValue] memo. *)
Definition sortedRawJsonValue (parsedJsonValue : option JsonValue)
  : option JsonValue :=
  match parsedJsonValue with
  | None => None
  | Some (JArray items) => Some (sortJsonValue (JArray items))
  | Some (JObject entries) => Some (sortJsonValue (JObject entries))
  | Some value => Some value
  end.

End SortJson.

(** No object of the value has a property of the key [__proto__]. *)
Fixpoint plainKeys (v : JsonValue) : bool :=
  match v with
  | JArray items => forallb plainKeys items
  | JObject entries =>
      forallb (fun kv => negb (Js.eqb (fst kv) (str "__proto__"))
                         && plainKeys (snd kv)) entries
  | _ => true
  end.


(** ** The text of the input box *)

(** What follows a value inside a JSON text written with indentation:
    nothing, a line break, a comma or a closing bracket. *)
Definition ends (rest : jsstring) : bool :=
  match rest with
  | [] => true
  | c :: _ => ((c =? 10) || (c =? 44) || (c =? 93) || (c =? 125))%N
  end.

(** [onParsePastedText]: nothing is loaded from a text that is blank, for
    which the error notice is set; else the text is loaded, and the
    viewer tab is shown when the load returns true. *)
Inductive PasteOutcome : Type :=
| PasteBlank
| PasteLoaded (st : AppState) (showViewer : bool).

Section PasteBox.

Variable toLowerCase : jsstring -> jsstring.

Definition onParsePastedText (st : AppState) : PasteOutcome :=
  if nonEmpty (trim (pasteText st))
  then PasteLoaded (fst (loadFromJsonText toLowerCase (pasteText st) st))
                   (snd (loadFromJsonText toLowerCase (pasteText st) st))
  else PasteBlank.

End PasteBox.

(** ** The first load *)

(** [SHARE_QUERY_KEYS], which [App] names [QUERY_KEYS]. *)
Definition SHARE_QUERY_KEYS : list jsstring :=
  [str "json"; str "data"; str "payload"; str "source"].

(** What the first load ends with: the document of the query, the sample,
    or the failure to load the sample, whose message the last
    [setErrorMessage] shows in place of the one in the state. *)
Inductive BootOutcome : Type :=
| FromQuery (st : AppState)
| FromSample (st : AppState)
| InitialLoadFailed (st : AppState).

Section Bootstrap.

Variable toLowerCase : jsstring -> jsstring.

(** The text of [defaultSampleJson.ts]. *)
Variable DEFAULT_SAMPLE_JSON : jsstring.

(** [params.get(key)] on the [URLSearchParams] of the address; [None] is
    [null]. *)
Variable get : jsstring -> option jsstring.

(** The loop over [QUERY_KEYS] up to its [break]: the value of the first
    key that has one which is neither empty nor blank. *)
Fixpoint querySource (keys : list jsstring) : option jsstring :=
  match keys with
  | [] => None
  | key :: rest =>
      match get key with
      | Some raw =>
          if nonEmpty raw && nonEmpty (trim raw) then Some raw
          else querySource rest
      | None => querySource rest
      end
  end.

(** [bootstrap], the effect that runs when [App] is mounted. *)
Definition bootstrap (st : AppState) : BootOutcome :=
  let loaded :=
    match querySource SHARE_QUERY_KEYS with
    | Some raw => loadFromJsonText toLowerCase raw st
    | None => (st, false)
    end in
  if snd loaded then FromQuery (fst loaded)
  else
    let sample := loadFromJsonText toLowerCase DEFAULT_SAMPLE_JSON (fst loaded) in
    if snd sample then FromSample (fst sample)
    else InitialLoadFailed (fst sample).

End Bootstrap.
(* ================================================================== *)
(** * Properties of the path formatter *)
(* ================================================================== *)

Section PathFormatter.

Lemma replaceAll_app c rep a b :
  replaceAll c rep (a ++ b) = replaceAll c rep a ++ replaceAll c rep b.
Proof. unfold replaceAll. apply flat_map_app. Qed.

(** The two passes of [replaceAll] amount to one pass that escapes each
    backslash and each double quote. *)
Lemma escape_two_passes key :
  replaceAll dquote [backslash; dquote]
    (replaceAll backslash [backslash; backslash] key) = escapedKey key.
Proof.
  induction key as [|c key IH]; [reflexivity|].
  change (c :: key) with ([c] ++ key).
  unfold escapedKey in *. rewrite !replaceAll_app, flat_map_app, IH.
  f_equal. cbn [replaceAll flat_map app].
  destruct (N.eqb_spec c backslash) as [->|Hb]; [reflexivity|].
  cbn [orb flat_map app].
  destruct (N.eqb_spec c dquote) as [->|Hq]; [reflexivity|].
  cbn. destruct (N.eqb_spec c dquote); [contradiction|reflexivity].
Qed.

Lemma appendSegment_text path segment :
  appendSegment path segment = path ++ segmentText segment.
Proof.
  destruct segment as [key|n]; cbn [appendSegment segmentText].
  - destruct (IDENTIFIER_RE_test key); [reflexivity|].
    now rewrite escape_two_passes.
  - reflexivity.
Qed.

Lemma fold_appendSegment segments path :
  fold_left appendSegment segments path
  = path ++ concat (map segmentText segments).
Proof.
  revert path. induction segments as [|s segments IH]; intros path; cbn.
  - now rewrite app_nil_r.
  - now rewrite IH, appendSegment_text, <- app_assoc.
Qed.

Lemma pathText_concat segments :
  pathTextFromSegments segments = str "$" ++ concat (map segmentText segments).
Proof.
  destruct segments as [|s segments]; [reflexivity|].
  unfold pathTextFromSegments. apply fold_appendSegment.
Qed.

(** C5. The path formatter is defined on every segment sequence: the empty
    sequence gives "$", and going left to right each segment appends its
    text, "[N]" for an index, ".key" for a key that matches the identifier
    pattern, and the bracketed, double-quoted key with every backslash and
    double quote preceded by a backslash for any other key. *)
Theorem pathTextFromSegments_rule :
  pathTextFromSegments [] = str "$"
  /\ (forall segments segment,
        pathTextFromSegments (segments ++ [segment])
        = pathTextFromSegments segments ++ segmentText segment)
  /\ (forall segments,
        pathTextFromSegments segments
        = str "$" ++ concat (map segmentText segments))
  /\ (forall n, segmentText (SegIndex n) = str "[" ++ decimal n ++ str "]")
  /\ (forall key, IDENTIFIER_RE_test key = true ->
        segmentText (SegKey key) = str "." ++ key)
  /\ (forall key, IDENTIFIER_RE_test key = false ->
        segmentText (SegKey key)
        = str "[" ++ [dquote] ++ escapedKey key ++ [dquote] ++ str "]").
Proof.
  repeat split.
  - intros segments segment.
    rewrite !pathText_concat, map_app, concat_app, app_assoc.
    f_equal. cbn [map concat]. apply app_nil_r.
  - apply pathText_concat.
  - intros key H. cbn. now rewrite H.
  - intros key H. cbn. now rewrite H.
Qed.

Lemma pathTextFromSegments_rule_witness :
  IDENTIFIER_RE_test (str "a") = true
  /\ IDENTIFIER_RE_test (str "odd key") = false
  /\ segmentText (SegKey (str "a")) = str ".a"
  /\ segmentText (SegKey (str "odd key"))
     = str "[" ++ [dquote] ++ str "odd key" ++ [dquote] ++ str "]"
  /\ pathTextFromSegments [SegKey (str "a"); SegIndex 0; SegKey (str "odd key")]
     = str "$.a[0][" ++ [dquote] ++ str "odd key" ++ [dquote] ++ str "]".
Proof.
  destruct pathTextFromSegments_rule as (_ & _ & Hall & _ & Hid & Hother).
  split; [reflexivity|]. split; [reflexivity|].
  split; [exact (Hid (str "a") eq_refl)|].
  split; [exact (Hother (str "odd key") eq_refl)|].
  rewrite Hall. reflexivity.
Defined.

End PathFormatter.

(* ================================================================== *)
(** * Properties of the tree indexer *)
(* ================================================================== *)

Lemma JsonValue_children_ind (P : JsonValue -> Prop) :
  (forall v, (forall c, In c (children v) -> P (snd c)) -> P v) ->
  forall v, P v.
Proof.
  intros step. fix IH 1. intros v. apply step.
  destruct v as [| b | n | s | items | entries]; cbn [children];
    try (intros c []).
  - generalize 0%N.
    revert items.
    refine (fix items_ok (items : list JsonValue) : _ :=
              match items with [] => _ | x :: xs => _ end).
    + intros _ c [].
    + intros i c [<- | Hin]; [apply IH | exact (items_ok xs _ c Hin)].
  - revert entries.
    refine (fix entries_ok (entries : list (jsstring * JsonValue)) : _ :=
              match entries with [] => _ | x :: xs => _ end).
    + intros c [].
    + intros c [<- | Hin]; [apply IH | exact (entries_ok xs c Hin)].
Qed.

Lemma Nodes_get_app_fresh (pre post : Nodes) k :
  ~ In k (map fst pre) -> Nodes_get (pre ++ post) k = Nodes_get post k.
Proof.
  induction pre as [|[k' n'] pre IH]; intros Hk; [reflexivity|].
  cbn in *. destruct (Nat.eqb_spec k' k) as [->|Hne]; [tauto|].
  apply IH. tauto.
Qed.

Lemma Nodes_set_app_fresh (pre post : Nodes) k n :
  ~ In k (map fst pre) ->
  Nodes_set (pre ++ post) k n = pre ++ Nodes_set post k n.
Proof.
  induction pre as [|[k' n'] pre IH]; intros Hk; [reflexivity|].
  cbn in *. destruct (Nat.eqb_spec k' k) as [->|Hne]; [tauto|].
  f_equal. apply IH. tauto.
Qed.

Lemma Nodes_set_fresh (nodes : Nodes) k n :
  ~ In k (map fst nodes) -> Nodes_set nodes k n = nodes ++ [(k, n)].
Proof.
  intros Hk. rewrite <- (app_nil_r nodes) at 1.
  now rewrite Nodes_set_app_fresh.
Qed.

Lemma Nodes_get_In {nodes : Nodes} {k n} :
  Nodes_get nodes k = Some n -> In (k, n) nodes.
Proof.
  induction nodes as [|[k' n'] nodes IH]; cbn; [discriminate|].
  destruct (Nat.eqb_spec k' k) as [->|Hne].
  - intros [= ->]. now left.
  - intros H. right. now apply IH.
Qed.

Lemma In_Nodes_get {nodes : Nodes} {k n} :
  NoDup (map fst nodes) -> In (k, n) nodes -> Nodes_get nodes k = Some n.
Proof.
  induction nodes as [|[k' n'] nodes IH]; cbn; [tauto|].
  intros Hnd [Heq | Hin].
  - injection Heq as -> ->. now rewrite Nat.eqb_refl.
  - inversion Hnd as [|? ? Hfresh Hnd']; subst.
    destruct (Nat.eqb_spec k' k) as [->|Hne].
    + exfalso. apply Hfresh. change k with (fst (k, n)). now apply in_map.
    + now apply IH.
Qed.

Lemma seq_no_small lo len k : k < lo -> ~ In k (seq lo len).
Proof. rewrite in_seq. lia. Qed.

Section IndexerProperties.

Variable toLowerCase : jsstring -> jsstring.

Local Abbreviation node_shape := (node_shape toLowerCase).
Local Abbreviation SubtreeOK := (SubtreeOK toLowerCase).
Local Abbreviation ChildSegs := (ChildSegs toLowerCase).
Local Abbreviation buildChild := (buildChild toLowerCase).
Local Abbreviation build_ok := (build_ok toLowerCase).

Lemma withChild_setChildren c ch n :
  withChild c (setChildren ch n) = setChildren (ch ++ [c]) n.
Proof. reflexivity. Qed.

Lemma node_shape_new ch i v segs dk parent d :
  node_shape (setChildren ch (newNode toLowerCase i v segs dk parent d)).
Proof. reflexivity. Qed.

Lemma SubtreeOK_nonempty {v segs dk parent d i seg} :
  SubtreeOK v segs dk parent d i seg -> 0 < length seg.
Proof. intros [_ (ch & rest & ->) _ _ _]. cbn. lia. Qed.

Lemma SubtreeOK_range {v segs dk parent d i seg k n} :
  SubtreeOK v segs dk parent d i seg -> In (k, n) seg ->
  i <= k < i + length seg.
Proof.
  intros H Hin. apply in_seq. rewrite <- (ok_keys H).
  change k with (fst (k, n)). now apply in_map.
Qed.

Lemma ChildSegs_keys {segs i d cs start ids all} :
  ChildSegs segs i d cs start ids all ->
  map fst all = seq start (length all).
Proof.
  induction 1 as [|seg key child cs start seg1 ids rest Hok _ IH]; [reflexivity|].
  rewrite map_app, length_app, seq_app, (ok_keys Hok), IH. reflexivity.
Qed.

Lemma ChildSegs_member {segs i d cs start ids all k n} :
  ChildSegs segs i d cs start ids all -> In (k, n) all ->
  exists seg key child s1 seg1,
    SubtreeOK child (segs ++ [seg]) (Some key) (Some i) (d + 1) s1 seg1
    /\ start <= s1 /\ In s1 ids /\ In (k, n) seg1 /\ incl seg1 all.
Proof.
  induction 1 as [|seg key child cs start seg1 ids rest Hok _ IH]; [intros []|].
  intros Hin. apply in_app_or in Hin as [Hin | Hin].
  - exists seg, key, child, start, seg1.
    split; [exact Hok|]. split; [lia|]. split; [now left|].
    split; [exact Hin | now apply incl_appl].
  - destruct (IH Hin) as (sg & ky & ch & s1 & sg1 & H1 & H2 & H3 & H4 & H5).
    exists sg, ky, ch, s1, sg1.
    split; [exact H1|]. split; [lia|]. split; [now right|].
    split; [exact H4 | now apply incl_appr].
Qed.

Lemma ChildSegs_id {segs i d cs start ids all c} :
  ChildSegs segs i d cs start ids all -> In c ids ->
  exists seg key child seg1,
    SubtreeOK child (segs ++ [seg]) (Some key) (Some i) (d + 1) c seg1
    /\ start <= c /\ incl seg1 all.
Proof.
  induction 1 as [|seg key child cs start seg1 ids rest Hok _ IH]; [intros []|].
  intros [<- | Hin].
  - exists seg, key, child, seg1.
    split; [exact Hok|]. split; [lia | now apply incl_appl].
  - destruct (IH Hin) as (sg & ky & ch & sg1 & H1 & H2 & H3).
    exists sg, ky, ch, sg1.
    split; [exact H1|]. split; [lia | now apply incl_appr].
Qed.

(** A node and the runs of its children make the run of the node. *)
Lemma SubtreeOK_assemble v segs dk parent d i ids all :
  ChildSegs segs i d (children v) (S i) ids all ->
  SubtreeOK v segs dk parent d i
    ((i, setChildren ids (newNode toLowerCase i v segs dk parent d)) :: all).
Proof.
  intros Hcs. split.
  - cbn. f_equal. apply (ChildSegs_keys Hcs).
  - now exists ids, all.
  - intros k n [Heq | Hin].
    + injection Heq as <- <-. cbn. repeat split; lia.
    + destruct (ChildSegs_member Hcs Hin)
        as (sg & ky & ch & s1 & sg1 & Hok & Hs & _ & Hin1 & _).
      destruct (ok_node Hok Hin1) as (? & ? & ? & ?).
      repeat split; auto; lia.
  - intros k n [Heq | Hin] Hne; [injection Heq as <- <-; congruence|].
    destruct (ChildSegs_member Hcs Hin)
      as (sg & ky & ch & s1 & sg1 & Hok & Hs & Hids & Hin1 & Hincl).
    destruct (Nat.eq_dec k s1) as [-> | Hks].
    + destruct (ok_root Hok) as (ch1 & rest1 & Hseg).
      assert (Hhead : In (s1, setChildren ch1
                (newNode toLowerCase s1 ch (segs ++ [sg]) (Some ky) (Some i) (d + 1)))
                sg1) by (rewrite Hseg; now left).
      assert (Hn : n = setChildren ch1
                (newNode toLowerCase s1 ch (segs ++ [sg]) (Some ky) (Some i) (d + 1))).
      { assert (Hnd : NoDup (map fst sg1)) by (rewrite (ok_keys Hok); apply seq_NoDup).
        pose proof (In_Nodes_get Hnd Hin1) as E1.
        pose proof (In_Nodes_get Hnd Hhead) as E2. congruence. }
      subst n.
      exists i, (setChildren ids (newNode toLowerCase i v segs dk parent d)).
      cbn. repeat split; auto; lia.
    + destruct (ok_parent Hok Hin1 Hks) as (p & pn & ? & ? & ? & ? & ?).
      exists p, pn. repeat split; auto. right. now apply Hincl.
  - intros k n c [Heq | Hin] Hc.
    + injection Heq as <- <-. cbn in Hc.
      destruct (ChildSegs_id Hcs Hc) as (sg & ky & ch & sg1 & Hok & Hs & Hincl).
      split; [lia|].
      destruct (ok_root Hok) as (ch1 & rest1 & Hseg).
      eexists. split; [right; apply Hincl; rewrite Hseg; now left|].
      cbn. split; [reflexivity | lia].
    + destruct (ChildSegs_member Hcs Hin)
        as (sg & ky & ch & s1 & sg1 & Hok & Hs & _ & Hin1 & Hincl).
      destruct (ok_child Hok Hin1 Hc) as (? & cn & ? & ? & ?).
      split; [lia|]. exists cn. repeat split; auto. right. now apply Hincl.
Qed.

Lemma build_unfold v segs dk parent d st :
  build toLowerCase v segs dk parent d st
  = (sequence st,
     fold_left (buildChild segs (sequence st) d) (children v)
       {| built := Nodes_set (built st) (sequence st)
                     (newNode toLowerCase (sequence st) v segs dk parent d);
          sequence := S (sequence st) |}).
Proof.
  destruct v as [| b | n | s | items | entries]; try reflexivity.
  - cbn [build children]. f_equal.
    set (st1 := {| built := _; sequence := S (sequence st) |}). clearbody st1.
    generalize 0%N. revert st1.
    induction items as [|child items IH]; intros st1 index; [reflexivity|].
    cbn [fold_left indexed]. rewrite <- IH. f_equal.
    unfold buildChild. cbn [fst snd].
    now destruct (build toLowerCase child _ _ _ _ st1).
  - cbn [build children]. f_equal.
    set (st1 := {| built := _; sequence := S (sequence st) |}). clearbody st1.
    revert st1.
    induction entries as [|[key child] entries IH]; intros st1; [reflexivity|].
    cbn [fold_left map]. rewrite <- IH. f_equal.
Qed.

Lemma pushChild_at pre i n post c st :
  built st = pre ++ (i, n) :: post -> ~ In i (map fst pre) ->
  pushChild i c st
  = {| built := pre ++ (i, withChild c n) :: post; sequence := sequence st |}.
Proof.
  intros Hb Hfresh. unfold pushChild.
  rewrite Hb, Nodes_get_app_fresh by exact Hfresh.
  cbn [Nodes_get]. rewrite Nat.eqb_refl.
  rewrite Nodes_set_app_fresh by exact Hfresh.
  cbn [Nodes_set]. now rewrite Nat.eqb_refl.
Qed.

Lemma build_children_spec segs i d node0 pre cs :
  (forall c, In c cs -> build_ok (snd c)) ->
  map fst pre = seq 0 i ->
  forall ch0 acc st,
    built st = pre ++ (i, setChildren ch0 node0) :: acc ->
    sequence st = S i + length acc ->
    map fst acc = seq (S i) (length acc) ->
    exists ids all,
      built (fold_left (buildChild segs i d) cs st)
      = pre ++ (i, setChildren (ch0 ++ ids) node0) :: acc ++ all
      /\ sequence (fold_left (buildChild segs i d) cs st)
         = S i + length acc + length all
      /\ ChildSegs segs i d cs (S i + length acc) ids all.
Proof.
  intros Hcs Hpre.
  assert (Hfresh : ~ In i (map fst pre)) by (rewrite Hpre, in_seq; lia).
  induction cs as [|[[sg ky] child] cs IH]; intros ch0 acc st Hb Hs Hacc.
  - exists [], []. cbn [fold_left length]. rewrite !app_nil_r.
    split; [exact Hb|]. split; [lia | constructor].
  - cbn [fold_left].
    assert (Hk : keys_ok st).
    { unfold keys_ok. rewrite Hb, Hs, map_app, map_cons, Hpre, Hacc.
      replace (S i + length acc) with (i + S (length acc)) by lia.
      rewrite seq_app. reflexivity. }
    destruct (Hcs _ (or_introl eq_refl) (segs ++ [sg]) (Some ky) (Some i) (d + 1) st Hk)
      as (Hid & seg1 & Hb1 & Hs1 & Hok).
    cbn [fst snd] in Hid, Hb1, Hs1, Hok.
    assert (Hstep : buildChild segs i d st (sg, ky, child)
                    = pushChild i (sequence st)
                        (snd (build toLowerCase child (segs ++ [sg]) (Some ky)
                                    (Some i) (d + 1) st))).
    { unfold buildChild. cbn [fst snd].
      destruct (build toLowerCase child (segs ++ [sg]) (Some ky) (Some i) (d + 1) st)
        as [cid st0].
      cbn [fst snd] in *. now subst cid. }
    rewrite Hstep. clear Hstep Hid.
    set (st' := snd (build toLowerCase child (segs ++ [sg]) (Some ky)
                           (Some i) (d + 1) st)) in *.
    clearbody st'.
    set (st1 := pushChild i (sequence st) st').
    assert (Hb' : built st1
                  = pre ++ (i, setChildren (ch0 ++ [sequence st]) node0)
                        :: (acc ++ seg1)).
    { unfold st1. rewrite (@pushChild_at pre i (setChildren ch0 node0) (acc ++ seg1));
        [reflexivity | | exact Hfresh].
      now rewrite Hb1, Hb, <- app_assoc. }
    assert (Hs' : sequence st1 = S i + length (acc ++ seg1)).
    { unfold st1. rewrite (@pushChild_at pre i (setChildren ch0 node0) (acc ++ seg1));
        [| now rewrite Hb1, Hb, <- app_assoc | exact Hfresh].
      cbn [sequence]. rewrite Hs1, Hs, length_app. lia. }
    assert (Hacc' : map fst (acc ++ seg1) = seq (S i) (length (acc ++ seg1))).
    { rewrite map_app, length_app, seq_app, Hacc, (ok_keys Hok), Hs. reflexivity. }
    destruct (IH (fun c Hc => Hcs c (or_intror Hc)) _ _ _ Hb' Hs' Hacc')
      as (ids & all & Hbf & Hsf & Hch).
    exists (sequence st :: ids), (seg1 ++ all).
    split; [|split].
    + rewrite Hbf, <- !app_assoc. reflexivity.
    + rewrite Hsf, !length_app. lia.
    + rewrite <- Hs. constructor; [exact Hok|].
      rewrite Hs. rewrite length_app in Hch.
      now rewrite Nat.add_assoc in Hch.
Qed.

Lemma build_spec v : build_ok v.
Proof.
  induction v as [v IH] using JsonValue_children_ind.
  intros segs dk parent d st Hk. rewrite build_unfold. cbn [fst snd].
  split; [reflexivity|].
  assert (Hfresh : ~ In (sequence st) (map fst (built st))).
  { rewrite Hk, in_seq. lia. }
  set (node0 := newNode toLowerCase (sequence st) v segs dk parent d).
  destruct (@build_children_spec segs (sequence st) d node0 (built st) (children v)
              IH Hk [] []
              {| built := Nodes_set (built st) (sequence st) node0;
                 sequence := S (sequence st) |})
    as (ids & all & Hb & Hs & Hch).
  - cbn [built]. now rewrite Nodes_set_fresh.
  - cbn. lia.
  - reflexivity.
  - exists ((sequence st, setChildren ids node0) :: all).
    split; [exact Hb|]. split; [rewrite Hs; cbn; lia|].
    apply SubtreeOK_assemble. cbn in Hch.
    now rewrite Nat.add_0_r in Hch.
Qed.

(** The tree of a value is the run of its root, from id 0. *)
Lemma buildTree_ok v :
  rootIds (buildTree toLowerCase v) = [0]
  /\ SubtreeOK v [] None None 0 0 (nodes (buildTree toLowerCase v)).
Proof.
  unfold buildTree.
  destruct (@build_spec v [] None None 0 {| built := []; sequence := 0 |} eq_refl)
    as (Hid & seg & Hb & _ & Hok).
  destruct (build toLowerCase v [] None None 0 _) as [rootId st].
  cbn in *. subst rootId. rewrite Hb. auto.
Qed.

End IndexerProperties.


Lemma WellFormed_NoDup tree : WellFormed tree -> NoDup (map fst (nodes tree)).
Proof. intros H. rewrite (wf_keys H). apply seq_NoDup. Qed.

Lemma WellFormed_get_lt {tree k n} :
  WellFormed tree -> Nodes_get (nodes tree) k = Some n -> k < length (nodes tree).
Proof.
  intros H Hget. apply Nodes_get_In in Hget.
  apply (in_map fst) in Hget. rewrite (wf_keys H), in_seq in Hget.
  cbn in Hget. lia.
Qed.

Lemma WellFormed_descendant_lt tree a b :
  WellFormed tree -> descendant (nodes tree) a b -> a < b.
Proof.
  intros H. induction 1 as [a an c Ha Hc | a an c b Ha Hc _ IH].
  - apply (wf_child H Ha Hc).
  - pose proof (proj1 (wf_child H Ha Hc)). lia.
Qed.

Lemma buildTree_WellFormed toLowerCase v : WellFormed (buildTree toLowerCase v).
Proof.
  destruct (buildTree_ok toLowerCase v) as [Hroot Hok].
  set (tree := buildTree toLowerCase v) in *.
  assert (Hnd : NoDup (map fst (nodes tree))).
  { rewrite (ok_keys Hok). apply seq_NoDup. }
  destruct (ok_root Hok) as (ch & rest & Hseg).
  split.
  - apply (ok_keys Hok).
  - split; [exact Hroot|]. eexists. rewrite Hseg. cbn. auto.
  - intros k n Hget. apply Nodes_get_In in Hget.
    destruct (ok_node Hok Hget) as (? & _ & _ & ?). split; [assumption | lia].
  - intros k n Hget Hk. apply Nodes_get_In in Hget.
    destruct (ok_parent Hok Hget Hk) as (p & pn & ? & Hp & ? & ? & ?).
    exists p, pn. repeat split; auto. now apply In_Nodes_get.
  - intros k n c Hget Hc. apply Nodes_get_In in Hget.
    destruct (ok_child Hok Hget Hc) as (? & cn & Hcn & ? & ?).
    split; [assumption|]. exists cn. repeat split; auto. now apply In_Nodes_get.
Qed.

(** Every node of a built tree has the fields [build] gave it. *)
Lemma buildTree_node_shape toLowerCase v k n :
  Nodes_get (nodes (buildTree toLowerCase v)) k = Some n ->
  node_shape toLowerCase n.
Proof.
  intros Hget. destruct (buildTree_ok toLowerCase v) as [_ Hok].
  apply Nodes_get_In in Hget. apply (ok_node Hok Hget).
Qed.

(** C8. The tree of any value is well formed: an id in a [childrenIds] or
    a [parentId] is a key of the node map, child links go to strictly
    larger ids so no node is its own descendant, there is exactly one root
    id, the root has depth 0 and every other node has a parent in the map
    and the depth of that parent plus one. *)
Theorem buildTree_well_formed toLowerCase v :
  let tree := buildTree toLowerCase v in
  (forall k n, Nodes_get (nodes tree) k = Some n ->
     id n = k
     /\ (forall c, In c (childrenIds n) ->
           exists cn, Nodes_get (nodes tree) c = Some cn)
     /\ (forall p, parentId n = Some p ->
           exists pn, Nodes_get (nodes tree) p = Some pn
                      /\ depth n = depth pn + 1))
  /\ NoDup (map fst (nodes tree))
  /\ (forall a b, descendant (nodes tree) a b -> a < b)
  /\ (forall a, ~ descendant (nodes tree) a a)
  /\ (exists r rn, rootIds tree = [r] /\ Nodes_get (nodes tree) r = Some rn
                   /\ parentId rn = None /\ depth rn = 0)
  /\ (forall k n, Nodes_get (nodes tree) k = Some n ->
        (In k (rootIds tree) /\ parentId n = None /\ depth n = 0)
        \/ (~ In k (rootIds tree)
            /\ exists p pn, parentId n = Some p
                            /\ Nodes_get (nodes tree) p = Some pn
                            /\ depth n = depth pn + 1)).
Proof.
  intros tree. pose proof (buildTree_WellFormed toLowerCase v) as H.
  fold tree in H.
  destruct (wf_root H) as (Hroot & rn & Hrn & Hpar & Hdep).
  assert (Hcases : forall k n, Nodes_get (nodes tree) k = Some n ->
            (k = 0 /\ parentId n = None /\ depth n = 0)
            \/ (k <> 0 /\ exists p pn, parentId n = Some p
                  /\ Nodes_get (nodes tree) p = Some pn
                  /\ depth n = depth pn + 1)).
  { intros k n Hget. destruct (Nat.eq_dec k 0) as [-> | Hk].
    - left. rewrite Hrn in Hget. injection Hget as <-. auto.
    - right. split; [assumption|].
      destruct (wf_parent H Hget Hk) as (p & pn & ? & ? & _ & _ & ?).
      exists p, pn. repeat split; auto. lia. }
  split; [|split; [|split; [|split; [|split]]]].
  - intros k n Hget. split; [apply (wf_node H Hget)|]. split.
    + intros c Hc. destruct (wf_child H Hget Hc) as (_ & cn & ? & _).
      now exists cn.
    + intros p Hp. destruct (Hcases k n Hget) as [(_ & Hnone & _) | (_ & p' & pn & Hp' & ? & ?)].
      * congruence.
      * exists pn. replace p with p' by congruence. auto.
  - now apply WellFormed_NoDup.
  - intros a b. now apply WellFormed_descendant_lt.
  - intros a Ha. apply (WellFormed_descendant_lt _ _ _ H) in Ha. lia.
  - exists 0, rn. auto.
  - intros k n Hget. rewrite Hroot.
    destruct (Hcases k n Hget) as [(-> & ? & ?) | (Hk & Hex)].
    + left. cbn. auto.
    + right. split; [|exact Hex]. cbn. intros [E | []]. congruence.
Qed.

Lemma buildTree_well_formed_witness :
  let tree := buildTree asciiToLowerCase
                (JObject [(str "x", JArray [JNull; JBool false])]) in
  exists n pn,
    Nodes_get (nodes tree) 2 = Some n
    /\ id n = 2 /\ parentId n = Some 1
    /\ Nodes_get (nodes tree) 1 = Some pn
    /\ depth n = depth pn + 1
    /\ In 2 (childrenIds pn) /\ descendant (nodes tree) 0 2 /\ rootIds tree = [0].
Proof.
  intros tree.
  destruct (buildTree_well_formed asciiToLowerCase
              (JObject [(str "x", JArray [JNull; JBool false])]))
    as (Hlinks & _ & Hlt & _ & _ & _).
  fold tree in Hlinks, Hlt.
  assert (Hget : exists n, Nodes_get (nodes tree) 2 = Some n /\ parentId n = Some 1).
  { eexists. split; vm_compute; reflexivity. }
  destruct Hget as (n & Hn & Hp).
  destruct (Hlinks 2 n Hn) as (Hid & _ & Hparent).
  destruct (Hparent 1 Hp) as (pn & Hpn & Hd).
  exists n, pn.
  split; [exact Hn|]. split; [exact Hid|]. split; [exact Hp|].
  split; [exact Hpn|]. split; [exact Hd|]. split; [|split].
  - vm_compute in Hpn. injection Hpn as <-. vm_compute. auto.
  - eapply descendant_step; [vm_compute; reflexivity | vm_compute; left; reflexivity |].
    eapply descendant_child; [vm_compute; reflexivity | vm_compute; auto].
  - vm_compute. reflexivity.
Defined.

(** C3 (as amended). The [searchText] of every node of a built tree is the
    lower-cased, space-joined sequence of its display key (empty for the
    root), its path text, a third part and its summary; the third part is
    the kind label for an object or an array and the value converted to a
    string for a scalar. *)
Theorem searchText_parts toLowerCase v k n :
  Nodes_get (nodes (buildTree toLowerCase v)) k = Some n ->
  searchText n
  = toLowerCase
      (join (str " ")
         [ match displayKey n with Some key => key | None => [] end;
           pathText n;
           match kind n with
           | KObject => kindLabel KObject
           | KArray => kindLabel KArray
           | _ => String_of (value n)
           end;
           summary n ]).
Proof.
  intros Hget. apply buildTree_node_shape in Hget.
  unfold node_shape in Hget. rewrite Hget.
  cbn [searchText displayKey pathText kind value summary setChildren newNode].
  reflexivity.
Qed.

Lemma searchText_parts_witness :
  exists n,
    Nodes_get (nodes (buildTree asciiToLowerCase
                        (JObject [(str "Key", JString (str "Hit"))]))) 1 = Some n
    /\ searchText n
       = asciiToLowerCase
           (join (str " ")
              [ match displayKey n with Some key => key | None => [] end;
                pathText n;
                match kind n with
                | KObject => kindLabel KObject
                | KArray => kindLabel KArray
                | _ => String_of (value n)
                end;
                summary n ]).
Proof.
  eexists. split.
  - vm_compute. reflexivity.
  - apply (searchText_parts asciiToLowerCase
             (JObject [(str "Key", JString (str "Hit"))]) 1).
    vm_compute. reflexivity.
Defined.

(** C3 (as stated) fails: the root node of the document [42] is of kind
    number, its [searchText] is " $ 42 42" and holds no "number". *)
Lemma searchText_scalar_lacks_kind_label :
  exists n,
    Nodes_get (nodes (buildTree asciiToLowerCase (JNumber (JsNumber.of_Z 42)))) 0
    = Some n
    /\ kind n = KNumber
    /\ searchText n = str " $ 42 42"
    /\ includes (searchText n) (kindLabel (kind n)) = false
    /\ searchText n
       <> asciiToLowerCase
            (join (str " ")
               [ match displayKey n with Some key => key | None => [] end;
                 pathText n; kindLabel (kind n); summary n ]).
Proof.
  eexists. split; [vm_compute; reflexivity|].
  split; [reflexivity|]. split; [vm_compute; reflexivity|].
  split; [vm_compute; reflexivity|].
  vm_compute. discriminate.
Qed.

(* ================================================================== *)
(** * Properties of the copy actions *)
(* ================================================================== *)

(** C10. For a node of a built tree, copying the value of a string node
    gives the string itself, with no quotes around it, copying the value
    of a node of any other kind gives the compact JSON text of the value,
    and copying the subtree gives the JSON text indented by two spaces. *)
Theorem getValueForCopy_cases toLowerCase v k n :
  Nodes_get (nodes (buildTree toLowerCase v)) k = Some n ->
  (kind n = KString ->
     exists s, value n = JString s
               /\ getValueForCopy n CopyValue = s
               /\ JSON.stringify (value n) = [dquote] ++ JSON.quoteBody s ++ [dquote])
  /\ (kind n <> KString ->
        getValueForCopy n CopyValue = JSON.stringify (value n))
  /\ getValueForCopy n CopySubtree = JSON.stringify_indent 2 (value n).
Proof.
  intros Hget. apply buildTree_node_shape in Hget.
  assert (Hkind : kind n = determineKind (value n)).
  { unfold node_shape in Hget. rewrite Hget. reflexivity. }
  unfold getValueForCopy. rewrite Hkind.
  split; [|split].
  - destruct (value n) as [| b | x | s | items | entries]; try discriminate.
    intros _. exists s. auto.
  - destruct (value n) as [| b | x | s | items | entries]; cbn; congruence.
  - reflexivity.
Qed.

Lemma getValueForCopy_cases_witness :
  exists n,
    Nodes_get (nodes (buildTree asciiToLowerCase
                        (JArray [JString (str "text"); JBool true]))) 1 = Some n
    /\ getValueForCopy n CopyValue = str "text"
    /\ getValueForCopy n CopySubtree = [dquote] ++ str "text" ++ [dquote].
Proof.
  eexists. split; [vm_compute; reflexivity|].
  destruct (getValueForCopy_cases asciiToLowerCase
              (JArray [JString (str "text"); JBool true]) 1 _
              ltac:(vm_compute; reflexivity)) as (Hs & _ & Hsub).
  split.
  - destruct (Hs eq_refl) as (s & Hv & Hc & _).
    rewrite Hc. vm_compute in Hv. now injection Hv as <-.
  - rewrite Hsub. vm_compute. reflexivity.
Defined.

(* ================================================================== *)
(** * Properties of the search engine *)
(* ================================================================== *)

Section Search.

Lemma Js_eqb_eq a b : Js.eqb a b = true <-> a = b.
Proof.
  revert b. induction a as [|x a IH]; intros [|y b]; cbn; split;
    try congruence; try reflexivity.
  - rewrite andb_true_iff, N.eqb_eq, IH. now intros [-> ->].
  - intros [= -> ->]. rewrite N.eqb_refl. now apply IH.
Qed.

Lemma startsWith_firstn s q i :
  startsWith s q = true -> startsWith s (firstn i q) = true.
Proof.
  revert s i. induction q as [|y q IH]; intros s i H.
  - now rewrite firstn_nil.
  - destruct i as [|i]; [reflexivity|]. cbn [firstn].
    destruct s as [|x s]; [discriminate|]. cbn in *.
    apply andb_true_iff in H as [-> H]. now apply IH.
Qed.

(** Containment is monotone: a string that holds [q] holds each prefix. *)
Lemma includes_firstn s q i :
  includes s q = true -> includes s (firstn i q) = true.
Proof.
  induction s as [|x s IH]; cbn [includes]; intros H.
  - rewrite orb_false_r in *. now apply startsWith_firstn.
  - apply orb_true_iff in H as [H | H].
    + now rewrite startsWith_firstn.
    + rewrite IH by assumption. apply orb_true_r.
Qed.

Lemma Cache_get_In cache key ids :
  Cache.get cache key = Some ids -> In (key, ids) cache.
Proof.
  induction cache as [|[k v] cache IH]; cbn; [discriminate|].
  destruct (Js.eqb k key) eqn:E.
  - apply Js_eqb_eq in E as ->. intros [= ->]. now left.
  - intros H. right. now apply IH.
Qed.

Lemma Cache_delete_incl cache key : incl (Cache.delete cache key) cache.
Proof.
  induction cache as [|[k v] cache IH]; cbn; [apply incl_refl|].
  destruct (Js.eqb k key).
  - now apply incl_tl.
  - apply incl_cons; [now left|]. now apply incl_tl.
Qed.

Lemma Cache_set_In cache key v entry :
  In entry (Cache.set cache key v) -> In entry cache \/ entry = (key, v).
Proof.
  induction cache as [|[k w] cache IH]; cbn.
  - intros [<- | []]. now right.
  - destruct (Js.eqb k key) eqn:E; cbn.
    + apply Js_eqb_eq in E as ->. intros [<- | H]; auto.
    + intros [<- | H]; auto. destruct (IH H); auto.
Qed.

Lemma Cache_set_fresh cache key v :
  Cache.get cache key = None -> Cache.set cache key v = cache ++ [(key, v)].
Proof.
  induction cache as [|[k w] cache IH]; cbn; [reflexivity|].
  destruct (Js.eqb k key); [discriminate|]. intros H. now rewrite IH.
Qed.

Lemma coherent_incl treeNodes c c' :
  incl c' c -> coherent treeNodes c -> coherent treeNodes c'.
Proof.
  unfold coherent. rewrite !Forall_forall. intros Hi H e He. apply H, Hi, He.
Qed.

Lemma cachedPrefix_In cache q i ids :
  cachedPrefix cache q i = Some ids ->
  exists j, In (firstn j q, ids) cache.
Proof.
  induction i as [|i IH]; cbn [cachedPrefix]; [discriminate|].
  destruct (Cache.get cache (slice0 q (S i))) as [found|] eqn:E.
  - intros [= ->]. exists (S i). now apply Cache_get_In.
  - exact IH.
Qed.

(** Looking the ids of some entries up again gives the entries back. *)
Lemma candidateEntries_sub (treeNodes sub : Nodes) :
  NoDup (map fst treeNodes) -> incl sub treeNodes ->
  candidateEntries treeNodes (map fst sub) = sub.
Proof.
  intros Hnd. induction sub as [|[k n] sub IH]; intros Hincl; [reflexivity|].
  cbn. rewrite (In_Nodes_get Hnd (Hincl _ (or_introl eq_refl))).
  cbn. f_equal. apply IH. intros e He. apply Hincl. now right.
Qed.

Lemma filter_filter_implied {A} (f g : A -> bool) l :
  (forall x, f x = true -> g x = true) ->
  filter f (filter g l) = filter f l.
Proof.
  intros Himp. induction l as [|x l IH]; [reflexivity|]. cbn.
  destruct (g x) eqn:Eg; cbn.
  - destruct (f x); now rewrite IH.
  - destruct (f x) eqn:Ef; [|exact IH].
    apply Himp in Ef. congruence.
Qed.

(** Scanning the matches of a prefix gives the matches of the query. *)
Lemma matching_via_prefix treeNodes q j :
  NoDup (map fst treeNodes) ->
  matching q (candidateEntries treeNodes (naiveSearch treeNodes (firstn j q)))
  = naiveSearch treeNodes q.
Proof.
  intros Hnd. unfold naiveSearch, matching.
  rewrite candidateEntries_sub by (auto; apply incl_filter).
  rewrite filter_filter_implied; [reflexivity|].
  intros x. apply includes_firstn.
Qed.

(** One search: with a coherent cache the result is the scan of every
    node, and the cache stays coherent. *)
Lemma searchMatchIds_coherent treeNodes q cache :
  NoDup (map fst treeNodes) -> coherent treeNodes cache -> q <> [] ->
  fst (searchMatchIds treeNodes q cache) = naiveSearch treeNodes q
  /\ coherent treeNodes (snd (searchMatchIds treeNodes q cache)).
Proof.
  intros Hnd Hco Hq. unfold searchMatchIds.
  destruct q as [|c q']; [congruence|]. set (q := c :: q') in *.
  destruct (Cache.get cache q) as [cached|] eqn:Eget; cbn [fst snd].
  - split; [|exact Hco]. apply Cache_get_In in Eget.
    unfold coherent in Hco. rewrite Forall_forall in Hco.
    apply (Hco _ Eget).
  - assert (Hres : matching q
              match cachedPrefix cache q (length q - 1) with
              | Some ids => candidateEntries treeNodes ids
              | None => treeNodes
              end = naiveSearch treeNodes q).
    { destruct (cachedPrefix cache q (length q - 1)) as [ids|] eqn:Epre;
        [|reflexivity].
      apply cachedPrefix_In in Epre as [j Hin].
      unfold coherent in Hco. rewrite Forall_forall in Hco.
      pose proof (Hco _ Hin) as Hids. cbn [fst snd] in Hids. subst ids.
      now apply matching_via_prefix. }
    rewrite Hres. split; [reflexivity|].
    unfold coherent. rewrite Forall_forall. intros e He.
    apply Cache_set_In in He as [He | ->]; [|reflexivity].
    assert (Hold : In e cache).
    { destruct (40 <? Cache.size cache); [|exact He].
      destruct (Cache.oldestKey cache); [|exact He].
      eapply Cache_delete_incl, He. }
    unfold coherent in Hco. rewrite Forall_forall in Hco. now apply Hco.
Qed.

Lemma searchMatchIds_empty_query treeNodes cache :
  searchMatchIds treeNodes [] cache = ([], cache).
Proof. reflexivity. Qed.

Lemma searchRun_coherent treeNodes qs cache :
  NoDup (map fst treeNodes) -> coherent treeNodes cache ->
  coherent treeNodes (searchRun treeNodes qs cache).
Proof.
  intros Hnd. revert cache. induction qs as [|q qs IH]; intros cache Hco;
    [exact Hco|].
  cbn [searchRun fold_left]. apply IH.
  destruct q as [|c q']; [exact Hco|].
  now apply searchMatchIds_coherent.
Qed.

Lemma naiveSearch_In treeNodes q k :
  NoDup (map fst treeNodes) ->
  In k (naiveSearch treeNodes q)
  <-> exists n, Nodes_get treeNodes k = Some n
                /\ includes (searchText n) q = true.
Proof.
  intros Hnd. unfold naiveSearch, matching. rewrite in_map_iff. split.
  - intros ([k' n] & <- & Hin). apply filter_In in Hin as [Hin Hinc].
    exists n. split; [now apply In_Nodes_get | exact Hinc].
  - intros (n & Hget & Hinc). exists (k, n). split; [reflexivity|].
    apply filter_In. split; [now apply Nodes_get_In | exact Hinc].
Qed.

Lemma naiveSearch_sorted treeNodes q :
  StronglySorted lt (map fst treeNodes) ->
  StronglySorted lt (naiveSearch treeNodes q).
Proof.
  unfold naiveSearch, matching.
  induction treeNodes as [|[k n] rest IH]; cbn; intros Hs; [constructor|].
  inversion Hs as [|? ? Hs' Hall]; subst.
  destruct (includes (searchText n) q); cbn; [|now apply IH].
  constructor; [now apply IH|].
  rewrite Forall_forall in *. intros x Hx. apply Hall.
  apply in_map_iff in Hx as (e & <- & He). apply filter_In in He as [He _].
  now apply in_map.
Qed.

Lemma seq_sorted lo len : StronglySorted lt (seq lo len).
Proof.
  revert lo. induction len as [|len IH]; intros lo; cbn; constructor.
  - apply IH.
  - apply Forall_forall. intros x Hx. apply in_seq in Hx. lia.
Qed.

(** C2. Over the tree of any value, after any run of earlier searches that
    started from the empty cache, the result for a non-empty query found
    through the cache (the exact entry, or the scan of the ids of the
    longest cached strict prefix) is the result of scanning every node:
    exactly the ids of the nodes whose [searchText] holds the query, in
    ascending id order. *)
Theorem searchMatchIds_refines_scan toLowerCase v qs q :
  q <> [] ->
  let treeNodes := nodes (buildTree toLowerCase v) in
  let cache := searchRun treeNodes qs [] in
  fst (searchMatchIds treeNodes q cache) = naiveSearch treeNodes q
  /\ (forall k, In k (naiveSearch treeNodes q)
        <-> exists n, Nodes_get treeNodes k = Some n
                      /\ includes (searchText n) q = true)
  /\ StronglySorted lt (naiveSearch treeNodes q).
Proof.
  intros Hq treeNodes cache.
  pose proof (buildTree_WellFormed toLowerCase v) as H.
  assert (Hnd : NoDup (map fst treeNodes)) by now apply WellFormed_NoDup.
  split; [|split].
  - apply searchMatchIds_coherent; auto.
    apply searchRun_coherent; [assumption | constructor].
  - intros k. now apply naiveSearch_In.
  - apply naiveSearch_sorted. unfold treeNodes. rewrite (wf_keys H).
    apply seq_sorted.
Qed.

End Search.

(** The size of the cache after one more search: a search adds at most one
    entry, and drops the oldest one first once more than 40 are held. *)
Lemma Cache_set_size cache key v :
  Cache.size (Cache.set cache key v) <= S (Cache.size cache).
Proof.
  unfold Cache.size. induction cache as [|[k w] cache IH]; cbn; [lia|].
  destruct (Js.eqb k key); cbn; lia.
Qed.

Lemma Js_eqb_refl a : Js.eqb a a = true.
Proof. now apply Js_eqb_eq. Qed.

Lemma searchMatchIds_size treeNodes q cache :
  Cache.size cache <= 41 ->
  Cache.size (snd (searchMatchIds treeNodes q cache)) <= 41.
Proof.
  intros Hsize. unfold searchMatchIds.
  destruct q as [|c q']; [exact Hsize|].
  destruct (Cache.get cache (c :: q')); [exact Hsize|]. cbn [snd].
  etransitivity; [apply Cache_set_size|].
  destruct (Nat.ltb_spec 40 (Cache.size cache)) as [Hbig | Hsmall]; [|lia].
  destruct cache as [|[k w] rest]; [cbn in Hbig; lia|].
  cbn [Cache.oldestKey Cache.delete]. rewrite Js_eqb_refl.
  unfold Cache.size in *. cbn [length] in *. lia.
Qed.

(** The bound the code keeps: 41 entries, not 40. *)
Lemma searchRun_size treeNodes qs cache :
  Cache.size cache <= 41 -> Cache.size (searchRun treeNodes qs cache) <= 41.
Proof.
  revert cache. induction qs as [|q qs IH]; intros cache H; [exact H|].
  cbn [searchRun fold_left]. apply IH. now apply searchMatchIds_size.
Qed.

(** C4 (failing run). After the 41 distinct queries "1" to "41", searched
    one after the other from the empty cache over the tree of the document
    [[]], the cache holds 41 entries; the eviction test [size > 40] runs
    before the insertion and is false at size 40. *)
Theorem search_cache_holds_41_entries :
  let treeNodes := nodes (buildTree asciiToLowerCase (JArray [])) in
  Cache.size (searchRun treeNodes (numberedQueries 40) []) = 40
  /\ Cache.size (searchRun treeNodes (numberedQueries 41) []) = 41
  /\ Cache.size (searchRun treeNodes (numberedQueries 42) []) = 41
  /\ Cache.oldestKey (searchRun treeNodes (numberedQueries 42) []) = Some (str "2").
Proof. vm_compute. repeat split. Qed.

(* ================================================================== *)
(** * Properties of the visibility resolver *)
(* ================================================================== *)

Section Visibility.

Lemma IdSet_has_add s x y :
  IdSet.has (IdSet.add s x) y = true <-> IdSet.has s y = true \/ x = y.
Proof.
  unfold IdSet.add. destruct (IdSet.has s x) eqn:Hx.
  - split; [auto|]. intros [H | <-]; assumption.
  - unfold IdSet.has in *. rewrite existsb_app. cbn.
    rewrite orb_false_r, orb_true_iff, Nat.eqb_eq. intuition congruence.
Qed.

Lemma scope_not_skipped scope x :
  scopeHas scope x = true ->
  match scope with Some s => negb (IdSet.has s x) | None => false end = false.
Proof. destruct scope as [s|]; cbn; [intros -> | ]; reflexivity. Qed.

Lemma climb_mono fuel treeNodes current scope x :
  IdSet.has scope x = true ->
  IdSet.has (climb fuel treeNodes current scope) x = true.
Proof.
  revert current scope. induction fuel as [|fuel IH]; intros current scope H;
    [exact H|].
  cbn [climb]. destruct current as [c|]; [|exact H].
  apply IH. apply IdSet_has_add. now left.
Qed.

Variable tree : TreeData.
Hypothesis wf : WellFormed tree.

(** The root is the only node without a parent. *)
Lemma parent_not_root {k n p} :
  Nodes_get (nodes tree) k = Some n -> parentId n = Some p ->
  k <> 0 /\ exists pn, Nodes_get (nodes tree) p = Some pn
                       /\ In k (childrenIds pn) /\ depth n = S (depth pn).
Proof.
  intros Hget Hp.
  destruct (wf_root wf) as (_ & rn & Hrn & Hnone & _).
  assert (Hk : k <> 0) by (intros ->; congruence).
  split; [exact Hk|].
  destruct (wf_parent wf Hget Hk) as (p' & pn & Hp' & Hpn & _ & Hin & Hd).
  exists pn. replace p with p' by congruence. auto.
Qed.

(** The fuel of the walk up is enough: one more unit changes nothing. *)
Lemma climb_fuel_enough fuel :
  forall m mn scope,
    Nodes_get (nodes tree) m = Some mn -> depth mn < fuel ->
    climb fuel (nodes tree) (Some m) scope
    = climb (S fuel) (nodes tree) (Some m) scope.
Proof.
  induction fuel as [|fuel IH]; intros m mn scope Hm Hd; [lia|].
  cbn [climb]. rewrite Hm.
  destruct (parentId mn) as [p|] eqn:Hp.
  - destruct (parent_not_root Hm Hp) as (_ & pn & Hpn & _ & Hdp).
    rewrite (IH p pn _ Hpn) by lia. cbn [climb]. now rewrite Hpn.
  - now destruct fuel.
Qed.

(** The walk up from a match adds the match and each of its ancestors. *)
Lemma climb_ancestors {a m} :
  ancestorOrSelf (nodes tree) a m ->
  forall mn fuel scope,
    Nodes_get (nodes tree) m = Some mn -> depth mn < fuel ->
    IdSet.has (climb fuel (nodes tree) (Some m) scope) a = true.
Proof.
  induction 1 as [a | a b bn p Hb Hp _ IH]; intros mn fuel scope Hm Hfuel.
  - destruct fuel as [|fuel]; [lia|]. cbn [climb].
    apply climb_mono, IdSet_has_add. now right.
  - destruct fuel as [|fuel]; [lia|]. cbn [climb]. rewrite Hb, Hp.
    destruct (parent_not_root Hb Hp) as (_ & pn & Hpn & _ & Hd).
    apply (IH pn); [exact Hpn|]. rewrite Hm in Hb. injection Hb as ->. lia.
Qed.

Lemma scope_fold_mono (ms : list NodeId) scope x :
  IdSet.has scope x = true ->
  IdSet.has
    (fold_left (fun scope matchId =>
                  climb (S (length (nodes tree))) (nodes tree) (Some matchId) scope)
               ms scope) x = true.
Proof.
  revert scope. induction ms as [|m ms IH]; intros scope H; [exact H|].
  cbn [fold_left]. apply IH. now apply climb_mono.
Qed.

(** The scope holds every match that is a node, and its ancestors. *)
Lemma visibleScopeSet_ancestors q (matches : list NodeId) {m mn a} :
  q <> [] -> In m matches -> Nodes_get (nodes tree) m = Some mn ->
  ancestorOrSelf (nodes tree) a m ->
  scopeHas (visibleScopeSet (nodes tree) q matches) a = true.
Proof.
  intros Hq Hin Hm Hanc. unfold visibleScopeSet.
  destruct q as [|c q]; [congruence|]. cbn [scopeHas].
  generalize (@nil NodeId) as scope.
  induction matches as [|m' ms IH]; intros scope; [destruct Hin|].
  cbn [fold_left]. destruct Hin as [-> | Hin].
  - apply scope_fold_mono. apply (climb_ancestors Hanc mn); [exact Hm|].
    pose proof (proj2 (wf_node wf Hm)).
    pose proof (WellFormed_get_lt wf Hm). lia.
  - now apply IH.
Qed.

Lemma ancestor_trans {a b c} :
  ancestorOrSelf (nodes tree) a b -> ancestorOrSelf (nodes tree) b c ->
  ancestorOrSelf (nodes tree) a c.
Proof.
  intros Hab Hbc. induction Hbc as [b | b c cn p Hc Hp _ IH]; [exact Hab|].
  econstructor; eauto.
Qed.

(** An ancestor is the node itself or has a child that is an ancestor. *)
Lemma ancestor_top_down {r a} :
  ancestorOrSelf (nodes tree) r a ->
  r = a \/ exists rn c, Nodes_get (nodes tree) r = Some rn
                        /\ In c (childrenIds rn)
                        /\ ancestorOrSelf (nodes tree) c a.
Proof.
  induction 1 as [a | r a an p Ha Hp _ IH]; [now left|]. right.
  destruct (parent_not_root Ha Hp) as (_ & pn & Hpn & Hin & _).
  destruct IH as [-> | (rn & c & Hrn & Hc & Hanc)].
  - exists pn, a. repeat split; auto. constructor.
  - exists rn, c. repeat split; auto. econstructor; eauto.
Qed.

Lemma ancestor_depth {r a rn an} :
  ancestorOrSelf (nodes tree) r a ->
  Nodes_get (nodes tree) r = Some rn -> Nodes_get (nodes tree) a = Some an ->
  depth rn <= depth an.
Proof.
  intros Hanc. revert an.
  induction Hanc as [a | r a an' p Ha Hp _ IH]; intros an Hr Han.
  - rewrite Hr in Han. injection Han as ->. lia.
  - rewrite Ha in Han. injection Han as ->.
    destruct (parent_not_root Ha Hp) as (_ & pn & Hpn & _ & Hd).
    specialize (IH pn Hr Hpn). lia.
Qed.

(** Every node descends from the root. *)
Lemma root_is_ancestor {k n} :
  Nodes_get (nodes tree) k = Some n -> ancestorOrSelf (nodes tree) 0 k.
Proof.
  revert n. induction k as [k IH] using lt_wf_ind. intros n Hget.
  destruct (Nat.eq_dec k 0) as [-> | Hk]; [constructor|].
  destruct (wf_parent wf Hget Hk) as (p & pn & Hp & Hpn & Hlt & _).
  econstructor; eauto.
Qed.

Section Traverse.

Variable q : jsstring.
Variable scope : option IdSet.t.
Variable collapsedIds : IdSet.t.

Local Abbreviation walk fuel := (traverse fuel (nodes tree) q scope collapsedIds).

(** [traverse] only pushes to the output. *)
Lemma traverse_extends fuel id output :
  exists extra, walk fuel id output = output ++ extra.
Proof.
  revert id output. induction fuel as [|fuel IH]; intros id output.
  - exists []. cbn. now rewrite app_nil_r.
  - cbn [traverse].
    destruct (Nodes_get (nodes tree) id) as [node|];
      [|exists []; now rewrite app_nil_r].
    destruct (nonEmpty q && _); [exists []; now rewrite app_nil_r|].
    destruct (negb _); [now exists [id]|].
    assert (Hfold : forall cs out, exists extra,
               fold_left (fun out childId => walk fuel childId out) cs out
               = out ++ extra).
    { induction cs as [|c cs IHcs]; intros out.
      - exists []. cbn. now rewrite app_nil_r.
      - cbn [fold_left]. destruct (IH c out) as [e1 ->].
        destruct (IHcs (out ++ e1)) as [e2 ->].
        exists (e1 ++ e2). now rewrite app_assoc. }
    destruct (Hfold (childrenIds node) (output ++ [id])) as [extra ->].
    exists ([id] ++ extra). now rewrite app_assoc.
Qed.

Lemma traverse_mono fuel id output x :
  In x output -> In x (walk fuel id output).
Proof.
  intros H. destruct (traverse_extends fuel id output) as [extra ->].
  apply in_or_app. now left.
Qed.

Lemma traverse_children_mono fuel cs output x :
  In x output ->
  In x (fold_left (fun out childId => walk fuel childId out) cs output).
Proof.
  revert output. induction cs as [|c cs IH]; intros output H; [exact H|].
  cbn [fold_left]. apply IH. now apply traverse_mono.
Qed.

Lemma traverse_children_emit fuel cs output {c x} :
  In c cs -> (forall out, In x (walk fuel c out)) ->
  In x (fold_left (fun out childId => walk fuel childId out) cs output).
Proof.
  revert output. induction cs as [|c' cs IH]; intros output Hc Hx; [destruct Hc|].
  cbn [fold_left]. destruct Hc as [-> | Hc].
  - apply traverse_children_mono, Hx.
  - now apply IH.
Qed.

Lemma fold_left_ext_in {A B} (f g : A -> B -> A) l a :
  (forall x, In x l -> forall acc, f acc x = g acc x) ->
  fold_left f l a = fold_left g l a.
Proof.
  revert a. induction l as [|x l IH]; intros a H; [reflexivity|].
  cbn [fold_left]. rewrite (H x (or_introl eq_refl)).
  apply IH. intros y Hy. apply H. now right.
Qed.

(** The fuel is enough: once it covers the levels below a node, one more
    unit changes nothing, so the walk never stops for want of fuel. *)
Lemma traverse_fuel_enough fuel :
  forall r rn output,
    Nodes_get (nodes tree) r = Some rn ->
    length (nodes tree) <= depth rn + fuel ->
    walk fuel r output = walk (S fuel) r output.
Proof.
  induction fuel as [|fuel IH]; intros r rn output Hr Hd.
  - pose proof (proj2 (wf_node wf Hr)). pose proof (WellFormed_get_lt wf Hr). lia.
  - cbn [traverse]. rewrite Hr.
    destruct (nonEmpty q && _); [reflexivity|].
    destruct (negb _); [reflexivity|].
    apply fold_left_ext_in. intros c Hc acc.
    destruct (wf_child wf Hr Hc) as (_ & cn & Hcn & _ & Hdc).
    apply (IH c cn acc Hcn). lia.
Qed.

Lemma traverse_fuel_more extra r rn output :
  Nodes_get (nodes tree) r = Some rn ->
  walk (length (nodes tree)) r output
  = walk (length (nodes tree) + extra) r output.
Proof.
  intros Hr. induction extra as [|extra IH].
  - now rewrite Nat.add_0_r.
  - rewrite IH, Nat.add_succ_r. apply (traverse_fuel_enough _ _ rn); [exact Hr | lia].
Qed.

Hypothesis query_active : q <> [].

(** A node whose chain of ancestors is in scope is pushed by the walk from
    any of its ancestors, whatever the collapse state. *)
Lemma traverse_emits fuel :
  forall r a rn an output,
    ancestorOrSelf (nodes tree) r a ->
    Nodes_get (nodes tree) r = Some rn -> Nodes_get (nodes tree) a = Some an ->
    depth an < depth rn + fuel ->
    (forall x, ancestorOrSelf (nodes tree) x a -> scopeHas scope x = true) ->
    In a (walk fuel r output).
Proof.
  induction fuel as [|fuel IH]; intros r a rn an output Hanc Hr Ha Hd Hscope.
  - pose proof (ancestor_depth Hanc Hr Ha). lia.
  - cbn [traverse]. rewrite Hr.
    assert (Hq : nonEmpty q = true) by (destruct q; [congruence | reflexivity]).
    pose proof (Hscope r Hanc) as Hsr.
    rewrite Hq, (scope_not_skipped _ _ Hsr), Hsr. cbn [negb andb orb].
    destruct (ancestor_top_down Hanc) as [-> | (rn' & c & Hrn' & Hc & Hca)].
    + destruct (negb _).
      * apply in_or_app. right. now left.
      * apply traverse_children_mono. apply in_or_app. right. now left.
    + rewrite Hr in Hrn'. injection Hrn' as <-.
      assert (Hlen : (0 <? length (childrenIds rn)) = true).
      { apply Nat.ltb_lt. destruct (childrenIds rn); [destruct Hc | cbn; lia]. }
      rewrite Hlen. rewrite orb_true_r. cbn [negb andb].
      destruct (wf_child wf Hr Hc) as (_ & cn & Hcn & _ & Hdc).
      apply (traverse_children_emit _ _ _ Hc). intros out.
      apply (IH c a cn an out Hca Hcn Ha); [lia | exact Hscope].
Qed.

End Traverse.

(** In a well-formed tree with an active query, a match that is a node and
    each of its ancestors are in the visible ids. *)
Lemma visibleIds_scope q (matches : list NodeId) collapsedIds m mn a :
  q <> [] -> In m matches -> Nodes_get (nodes tree) m = Some mn ->
  ancestorOrSelf (nodes tree) a m ->
  In a (visibleIds tree q (visibleScopeSet (nodes tree) q matches) collapsedIds).
Proof.
  intros Hq Hin Hm Hanc. unfold visibleIds.
  destruct (wf_root wf) as (Hroot & rn & Hrn & _ & Hd0).
  rewrite Hroot. cbn [fold_left].
  assert (Ha : exists an, Nodes_get (nodes tree) a = Some an).
  { destruct (ancestor_top_down Hanc) as [-> | (an & _ & Han & _)]; eauto. }
  destruct Ha as [an Han].
  apply (@traverse_emits q _ collapsedIds Hq (length (nodes tree)) 0 a rn an []).
  - exact (root_is_ancestor Han).
  - exact Hrn.
  - exact Han.
  - pose proof (proj2 (wf_node wf Han)).
    pose proof (WellFormed_get_lt wf Han). lia.
  - intros x Hx. apply (visibleScopeSet_ancestors q matches Hq Hin Hm).
    exact (ancestor_trans Hx Hanc).
Qed.

End Visibility.

(** C1. Over the tree of any value, for any collapse state and any
    non-empty query, the visible ids hold the id of every search match and
    of every ancestor of a match up to the root, also when such an ancestor
    is in the collapse state. *)
Theorem visibleIds_include_matches_and_ancestors
    toLowerCase v (collapsedIds : IdSet.t) (qs : list jsstring) q m a :
  q <> [] ->
  let tree := buildTree toLowerCase v in
  let cache := searchRun (nodes tree) qs [] in
  let matches := fst (searchMatchIds (nodes tree) q cache) in
  In m matches ->
  ancestorOrSelf (nodes tree) a m ->
  In a (visibleIds tree q (visibleScopeSet (nodes tree) q matches) collapsedIds).
Proof.
  intros Hq tree cache matches Hm Hanc.
  pose proof (buildTree_WellFormed toLowerCase v) as wf. fold tree in wf.
  assert (Hnd : NoDup (map fst (nodes tree))) by now apply WellFormed_NoDup.
  assert (Hmatches : matches = naiveSearch (nodes tree) q).
  { apply searchMatchIds_coherent; auto.
    apply searchRun_coherent; [assumption | constructor]. }
  assert (Hnode : exists mn, Nodes_get (nodes tree) m = Some mn).
  { rewrite Hmatches in Hm. apply naiveSearch_In in Hm as (mn & ? & _); eauto. }
  destruct Hnode as [mn Hmn].
  exact (@visibleIds_scope tree wf q matches collapsedIds m mn a Hq Hm Hmn Hanc).
Qed.

Ltac ancestor_chain :=
  repeat first
    [ apply ancestor_self
    | eapply ancestor_parent; [vm_compute; reflexivity | vm_compute; reflexivity | ] ].

(** The example of the specification: the document
    [{"a":{"b":{"c":"hit"}}}], the query "hit" and [$.a] collapsed by hand;
    the nodes [$], [$.a], [$.a.b] and [$.a.b.c] are visible. *)
Lemma visibleIds_include_matches_and_ancestors_witness :
  let v := JObject [(str "a", JObject [(str "b", JObject [(str "c", JString (str "hit"))])])] in
  let tree := buildTree asciiToLowerCase v in
  let matches := fst (searchMatchIds (nodes tree) (str "hit") []) in
  let visible := visibleIds tree (str "hit")
                   (visibleScopeSet (nodes tree) (str "hit") matches) [1] in
  matches = [3] /\ In 0 visible /\ In 1 visible /\ In 2 visible /\ In 3 visible.
Proof.
  intros v tree matches visible.
  assert (Hq : str "hit" <> []) by discriminate.
  assert (Hm : In 3 matches) by (vm_compute; auto).
  split; [vm_compute; reflexivity|].
  repeat split;
    apply (@visibleIds_include_matches_and_ancestors asciiToLowerCase v [1] []
             (str "hit") 3 _ Hq Hm); ancestor_chain.
Defined.

Lemma searchMatchIds_refines_scan_witness :
  let v := JArray [JString (str "alpha"); JString (str "beta"); JString (str "alp")] in
  let treeNodes := nodes (buildTree asciiToLowerCase v) in
  let cache := searchRun treeNodes [str "a"; str "al"] [] in
  cachedPrefix cache (str "alp") 2 = Some [1; 3]
  /\ fst (searchMatchIds treeNodes (str "alp") cache) = [1; 3]
  /\ naiveSearch treeNodes (str "alp") = [1; 3].
Proof.
  intros v treeNodes cache.
  assert (Hq : str "alp" <> []) by discriminate.
  destruct (@searchMatchIds_refines_scan asciiToLowerCase v
              [str "a"; str "al"] (str "alp") Hq) as (Heq & _ & _).
  split; [vm_compute; reflexivity|].
  split; [|vm_compute; reflexivity].
  fold treeNodes cache in Heq. rewrite Heq. vm_compute. reflexivity.
Defined.

(* ================================================================== *)
(** * Properties of the load boundary *)
(* ================================================================== *)

Section LoadBoundary.

Variable toLowerCase : jsstring -> jsstring.

Lemma parseTargets_nonempty rawText : parseTargets rawText <> [].
Proof.
  unfold parseTargets.
  destruct (decodeBase64Utf8 _) as [d|]; [|discriminate].
  destruct (nonEmpty d && _); discriminate.
Qed.

(** When no candidate parses, the loop ends on the error of the last one. *)
Lemma firstParsed_all_fail targets :
  (forall candidate, In candidate targets -> JSON.parse candidate = None) ->
  forall parsed,
    firstParsed targets parsed = parsed
    \/ exists text, In text targets
                    /\ firstParsed targets parsed = ParseError (JsonParseFailed text).
Proof.
  induction targets as [|c targets IH]; intros Hfail parsed; [now left|].
  right. cbn [firstParsed]. unfold parseJson.
  rewrite (Hfail c (or_introl eq_refl)).
  destruct (IH (fun x Hx => Hfail x (or_intror Hx))
              (ParseError (JsonParseFailed c))) as [-> | (text & Hin & ->)].
  - exists c. split; [now left | reflexivity].
  - exists text. split; [now right | reflexivity].
Qed.

(** C7. When every parse candidate of the input fails, the load returns
    [false] with the message of a parse failure and builds nothing: the
    tree, the collapse state, the selection and the search cache keep
    their values, the parsed value and the search input are cleared; the
    function is total, so nothing is thrown past it. *)
Theorem loadFromJsonText_failure rawText st :
  (forall candidate, In candidate (parseTargets rawText) ->
     JSON.parse candidate = None) ->
  let result := loadFromJsonText toLowerCase rawText st in
  snd result = false
  /\ (exists text, In text (parseTargets rawText)
                   /\ errorMessage (fst result) = Some (JsonParseFailed text))
  /\ treeData (fst result) = treeData st
  /\ treeIdentity (fst result) = treeIdentity st
  /\ collapsedIds (fst result) = collapsedIds st
  /\ selectedId (fst result) = selectedId st
  /\ searchResultCache (fst result) = searchResultCache st
  /\ parsedJsonValue (fst result) = None
  /\ searchInput (fst result) = [].
Proof.
  intros Hfail result. subst result. unfold loadFromJsonText.
  destruct (firstParsed_all_fail _ Hfail (ParseError NotJsonShaped))
    as [Hsame | (text & Hin & Hlast)].
  - pose proof (parseTargets_nonempty rawText) as Hne.
    destruct (parseTargets rawText) as [|c targets]; [congruence|].
    cbn [firstParsed] in Hsame. unfold parseJson in Hsame.
    rewrite (Hfail c (or_introl eq_refl)) in Hsame.
    destruct (firstParsed_all_fail targets (fun x Hx => Hfail x (or_intror Hx))
                (ParseError (JsonParseFailed c))) as [E | (text & _ & E)];
      rewrite E in Hsame; discriminate.
  - rewrite Hlast. cbn. repeat split. now exists text.
Qed.

End LoadBoundary.

Lemma loadFromJsonText_failure_witness :
  let result := loadFromJsonText asciiToLowerCase (str "{oops") initialApp in
  parseTargets (str "{oops") = [str "{oops"]
  /\ snd result = false
  /\ errorMessage (fst result) = Some (JsonParseFailed (str "{oops"))
  /\ treeData (fst result) = treeData initialApp.
Proof.
  assert (Hfail : forall candidate, In candidate (parseTargets (str "{oops")) ->
                    JSON.parse candidate = None).
  { intros candidate Hin. vm_compute in Hin.
    destruct Hin as [<- | []]. vm_compute. reflexivity. }
  destruct (loadFromJsonText_failure asciiToLowerCase (str "{oops") initialApp Hfail)
    as (Hok & _ & Htree & _).
  split; [vm_compute; reflexivity|]. split; [exact Hok|].
  split; [vm_compute; reflexivity | exact Htree].
Defined.

(* ================================================================== *)
(** * The load and the search cache *)
(* ================================================================== *)

(** C9 (failing run). The document ["hit","zzz"] is loaded and "hit" is
    searched, which caches the match [node-1]; then ["zzz","hit"] is
    loaded.  In the render that follows, the deferred query is still "hit",
    the memo of the matches runs again for the new node map before the
    effect that clears the cache, and finds the entry of the old tree: the
    new tree is shown with the match [node-1], the node of "zzz", while its
    own match is [node-2].  The effect then empties the cache. *)
Theorem stale_matches_after_load :
  let st := run asciiToLowerCase staleRun initialApp in
  parsedJsonValue st = JSON.parse newDocument
  /\ option_map (fun v => nodes (buildTree asciiToLowerCase v)) (JSON.parse newDocument)
     = Some (nodes (treeData st))
  /\ shownQuery st = str "hit"
  /\ shownMatches st = [1]
  /\ naiveSearch (nodes (treeData st)) (str "hit") = [2]
  /\ option_map (fun v => naiveSearch (nodes (buildTree asciiToLowerCase v)) (str "hit"))
       (JSON.parse oldDocument) = Some [1]
  /\ searchResultCache st = [].
Proof. vm_compute. repeat split. Qed.

(* ================================================================== *)
(** * Properties of the share-link codec *)
(* ================================================================== *)

Ltac Zify.zify_post_hook ::= Z.to_euclidean_division_equations.

Ltac split_cmp :=
  repeat match goal with
    | |- context [N.ltb ?a ?b] => destruct (N.ltb_spec a b); try lia
    | |- context [N.leb ?a ?b] => destruct (N.leb_spec a b); try lia
    | |- context [N.eqb ?a ?b] => destruct (N.eqb_spec a b); try lia
    end;
  cbn [andb orb negb].

Lemma list_ind3 {A} (P : list A -> Prop) :
  P [] -> (forall a, P [a]) -> (forall a b, P [a; b]) ->
  (forall a b c rest, P rest -> P (a :: b :: c :: rest)) ->
  forall l, P l.
Proof.
  intros H0 H1 H2 H3. fix IH 1.
  intros [|a [|b [|c rest]]]; [exact H0 | apply H1 | apply H2 | apply H3, IH].
Qed.

Lemma replaceAll_single c d s :
  replaceAll c [d] s = map (fun x => if N.eqb x c then d else x) s.
Proof.
  unfold replaceAll. induction s as [|x s IH]; [reflexivity|].
  cbn [flat_map map]. rewrite IH. now destruct (N.eqb x c).
Qed.

Lemma filter_all {A} (f : A -> bool) l :
  Forall (fun x => f x = true) l -> filter f l = l.
Proof.
  induction 1 as [|x l Hx _ IH]; [reflexivity|]. cbn. now rewrite Hx, IH.
Qed.

Section Base64Codec.

Local Open Scope N_scope.

Import Base64.

Lemma encodeBytes_shape bytes :
  encodeBytes bytes = map digit (sextets bytes) ++ repeat pad (padCount bytes).
Proof.
  induction bytes as [| a | a b | a b c rest IH] using list_ind3;
    try reflexivity.
  cbn [encodeBytes sextets padCount map app]. now rewrite IH.
Qed.

Lemma sextets_bound {bytes} :
  Forall (fun b => b < 256) bytes -> Forall (fun v => v < 64) (sextets bytes).
Proof.
  induction bytes as [| a | a b | a b c rest IH] using list_ind3; intros H;
    cbn [sextets].
  - constructor.
  - inversion_clear H. repeat constructor; lia.
  - inversion_clear H as [|? ? Ha H']. inversion_clear H'.
    repeat constructor; lia.
  - inversion_clear H as [|? ? Ha H']. inversion_clear H' as [|? ? Hb H''].
    inversion_clear H'' as [|? ? Hc Hrest].
    repeat (constructor; [lia|]). now apply IH.
Qed.

Lemma decodeValues_sextets bytes :
  Forall (fun b => b < 256) bytes -> decodeValues (sextets bytes) = bytes.
Proof.
  induction bytes as [| a | a b | a b c rest IH] using list_ind3; intros H;
    cbn [sextets decodeValues].
  - reflexivity.
  - inversion_clear H. f_equal. lia.
  - inversion_clear H as [|? ? Ha H']. inversion_clear H'.
    f_equal; [lia|]. f_equal. lia.
  - inversion_clear H as [|? ? Ha H']. inversion_clear H' as [|? ? Hb H''].
    inversion_clear H'' as [|? ? Hc Hrest].
    rewrite (IH Hrest). f_equal; [lia|]. f_equal; [lia|]. f_equal. lia.
Qed.

Lemma sextets_length bytes :
  (length (sextets bytes) mod 4
   = match padCount bytes with 0 => 0 | 1 => 3 | _ => 2 end)%nat
  /\ (padCount bytes <= 2)%nat.
Proof.
  induction bytes as [| a | a b | a b c rest IH] using list_ind3;
    try (cbn; split; [reflexivity | lia]).
  cbn [sextets padCount length]. destruct IH as [IH1 IH2].
  split; [|exact IH2]. rewrite <- IH1.
  change (S (S (S (S (length (sextets rest))))))
    with (4 + length (sextets rest))%nat.
  now rewrite <- Nat.Div0.add_mod_idemp_l.
Qed.

Lemma digit_value {v} :
  v < 64 ->
  value (digit v) = Some v /\ digit v <> pad
  /\ isAsciiWhitespace (digit v) = false
  /\ digit v <> 37 /\ digit v <> 45 /\ digit v <> 95 /\ digit v < 128.
Proof.
  intros Hv. unfold digit, value, isAsciiWhitespace, pad.
  destruct (N.ltb_spec v 26); [split_cmp; repeat split; try lia; f_equal; lia|].
  destruct (N.ltb_spec v 52); [split_cmp; repeat split; try lia; f_equal; lia|].
  destruct (N.ltb_spec v 62); [split_cmp; repeat split; try lia; f_equal; lia|].
  destruct (N.eqb_spec v 62); [subst; cbn; repeat split; lia|].
  assert (v = 63) by lia. subst. cbn. repeat split; lia.
Qed.

Lemma values_digits {vs} :
  Forall (fun v => v < 64) vs -> values (map digit vs) = Some vs.
Proof.
  induction 1 as [|v vs Hv _ IH]; [reflexivity|].
  cbn [map values]. rewrite IH. now rewrite (proj1 (digit_value Hv)).
Qed.

Lemma dropPadding_pads xs p :
  Forall (fun c => c <> pad) xs -> (p <= 2)%nat ->
  dropPadding (xs ++ repeat pad p) = xs.
Proof.
  intros Hxs Hp. induction Hxs as [|x xs Hx _ IH].
  - destruct p as [|[|[|p]]]; [reflexivity | reflexivity | reflexivity | lia].
  - cbn [app dropPadding Js.eqb].
    destruct (N.eqb_spec x pad) as [->|_]; [congruence|].
    cbn [andb orb]. now rewrite IH.
Qed.

(** [atob] reads back what [btoa] wrote. *)
Lemma atob_encodeBytes bytes :
  Forall (fun b => b < 256) bytes -> atob (encodeBytes bytes) = Some bytes.
Proof.
  intros Hb. pose proof (sextets_bound Hb) as Hv.
  destruct (sextets_length bytes) as [Hlen Hp].
  assert (Hnp : Forall (fun c => c <> pad) (map digit (sextets bytes))).
  { apply Forall_map. eapply Forall_impl; [|exact Hv].
    intros v H. apply (digit_value H). }
  unfold atob. rewrite encodeBytes_shape.
  rewrite filter_all.
  2:{ apply Forall_app. split.
      - apply Forall_map. eapply Forall_impl; [|exact Hv].
        intros v H. cbn. now rewrite (proj1 (proj2 (proj2 (digit_value H)))).
      - apply Forall_forall. intros c Hc. apply repeat_spec in Hc. now subst. }
  assert (Hzero : (length (map digit (sextets bytes) ++ repeat pad (padCount bytes))
                   mod 4 = 0)%nat).
  { rewrite length_app, length_map, repeat_length.
    rewrite Nat.Div0.add_mod, Hlen.
    destruct (padCount bytes) as [|[|[|p]]]; [reflexivity.. | lia]. }
  rewrite Hzero. cbn [Nat.eqb].
  rewrite dropPadding_pads by assumption.
  rewrite length_map.
  assert (Hone : (length (sextets bytes) mod 4 =? 1)%nat = false).
  { rewrite Hlen. now destruct (padCount bytes) as [|[|p]]. }
  rewrite Hone, (values_digits Hv). f_equal. now apply decodeValues_sextets.
Qed.

End Base64Codec.

Section Utf8Codec.

Local Open Scope N_scope.

Import Utf8.

Lemma lead_two b :
  194 <= b <= 223 -> lead b = (None, Pending (b mod 32) 1 128 191).
Proof. intros H. unfold lead. split_cmp. reflexivity. Qed.

Lemma lead_three b :
  224 <= b <= 239 ->
  lead b = (None, Pending (b mod 16) 2 (if b =? 224 then 160 else 128)
                          (if b =? 237 then 159 else 191)).
Proof.
  intros H. unfold lead.
  destruct (N.leb_spec b 127); [lia|].
  destruct (N.leb_spec 194 b); [|lia]. destruct (N.leb_spec b 223); [lia|].
  destruct (N.leb_spec 224 b); [|lia]. destruct (N.leb_spec b 239); [|lia].
  reflexivity.
Qed.

Lemma lead_four b :
  240 <= b <= 244 ->
  lead b = (None, Pending (b mod 8) 3 (if b =? 240 then 144 else 128)
                          (if b =? 244 then 143 else 191)).
Proof.
  intros H. unfold lead.
  destruct (N.leb_spec b 127); [lia|].
  destruct (N.leb_spec 194 b); [|lia]. destruct (N.leb_spec b 223); [lia|].
  destruct (N.leb_spec 224 b); [|lia]. destruct (N.leb_spec b 239); [lia|].
  destruct (N.leb_spec 240 b); [|lia]. destruct (N.leb_spec b 244); [|lia].
  reflexivity.
Qed.

Lemma pending_more b rest cp n lower upper :
  lower <= b <= upper ->
  decodePoints (b :: rest) (Pending cp (S (S n)) lower upper)
  = decodePoints rest (Pending (cp * 64 + b mod 64) (S n) 128 191).
Proof.
  intros H. cbn [decodePoints].
  destruct (N.leb_spec lower b); [|lia]. destruct (N.leb_spec b upper); [|lia].
  reflexivity.
Qed.

Lemma pending_last b rest cp lower upper :
  lower <= b <= upper ->
  decodePoints (b :: rest) (Pending cp 1 lower upper)
  = (cp * 64 + b mod 64) :: decodePoints rest Idle.
Proof.
  intros H. cbn [decodePoints].
  destruct (N.leb_spec lower b); [|lia]. destruct (N.leb_spec b upper); [|lia].
  reflexivity.
Qed.

Lemma idle_step b rest :
  decodePoints (b :: rest) Idle
  = emit (fst (lead b)) (decodePoints rest (snd (lead b))).
Proof. cbn [decodePoints]. now destruct (lead b). Qed.

(** The decoder reads the encoding of a scalar value back. *)
Lemma decodePoints_encodePoint cp rest :
  scalarValue cp ->
  decodePoints (encodePoint cp ++ rest) Idle = cp :: decodePoints rest Idle.
Proof.
  intros [Hmax Hsur]. unfold encodePoint.
  destruct (N.ltb_spec cp 128) as [H1|H1].
  { cbn [app]. rewrite idle_step. unfold lead.
    destruct (N.leb_spec cp 127); [reflexivity | lia]. }
  destruct (N.ltb_spec cp 2048) as [H2|H2].
  { cbn [app]. rewrite idle_step, lead_two by lia. cbn [fst snd emit].
    rewrite pending_last by lia. f_equal. lia. }
  destruct (N.ltb_spec cp 65536) as [H3|H3].
  { cbn [app]. rewrite idle_step, lead_three by lia. cbn [fst snd emit].
    rewrite pending_more.
    2:{ destruct (N.eqb_spec (224 + cp / 4096) 224);
        destruct (N.eqb_spec (224 + cp / 4096) 237); lia. }
    rewrite pending_last by lia. f_equal. lia. }
  cbn [app]. rewrite idle_step, lead_four by lia. cbn [fst snd emit].
  rewrite pending_more.
  2:{ destruct (N.eqb_spec (240 + cp / 262144) 240);
      destruct (N.eqb_spec (240 + cp / 262144) 244); lia. }
  rewrite pending_more by lia.
  rewrite pending_last by lia. f_equal.
  assert (E1 : (240 + cp / 262144) mod 8 = cp / 262144) by lia.
  assert (E2 : (128 + cp / 4096 mod 64) mod 64 = cp / 4096 mod 64) by lia.
  assert (E3 : (128 + cp / 64 mod 64) mod 64 = cp / 64 mod 64) by lia.
  assert (E4 : (128 + cp mod 64) mod 64 = cp mod 64) by lia.
  rewrite E1, E2, E3, E4. lia.
Qed.

Lemma encodePoint_bytes cp :
  scalarValue cp -> Forall (fun b => b < 256) (encodePoint cp).
Proof.
  intros [Hmax _]. unfold encodePoint.
  destruct (N.ltb_spec cp 128); [repeat constructor; lia|].
  destruct (N.ltb_spec cp 2048); [repeat constructor; lia|].
  destruct (N.ltb_spec cp 65536); repeat constructor; lia.
Qed.

Lemma decodePoints_encode points :
  Forall scalarValue points ->
  decodePoints (flat_map encodePoint points) Idle = points.
Proof.
  induction 1 as [|cp points Hcp _ IH]; [reflexivity|].
  cbn [flat_map]. rewrite decodePoints_encodePoint by assumption. now rewrite IH.
Qed.

Lemma surrogate_ranges c :
  (JSON.isHighSurrogate c = true <-> 55296 <= c <= 56319)
  /\ (JSON.isLowSurrogate c = true <-> 56320 <= c <= 57343).
Proof.
  unfold JSON.isHighSurrogate, JSON.isLowSurrogate.
  rewrite !andb_true_iff, !N.leb_le. tauto.
Qed.

Lemma not_surrogate c :
  JSON.isHighSurrogate c = false -> JSON.isLowSurrogate c = false ->
  c < 55296 \/ 57344 <= c.
Proof.
  unfold JSON.isHighSurrogate, JSON.isLowSurrogate.
  rewrite !andb_false_iff, !N.leb_gt. lia.
Qed.

Lemma codePoints_scalar s : wellFormed16 s -> Forall scalarValue (codePoints s).
Proof.
  induction 1 as [| c rest Hc Hh Hl _ IH | h l rest Hh Hl _ IH].
  - constructor.
  - cbn [codePoints]. rewrite Hh, Hl. constructor; [|exact IH].
    pose proof (not_surrogate _ Hh Hl). unfold scalarValue. lia.
  - cbn [codePoints]. rewrite Hh, Hl. constructor; [|exact IH].
    apply surrogate_ranges in Hh, Hl. unfold scalarValue. lia.
Qed.

Lemma codePoints_units s :
  wellFormed16 s -> flat_map unitsOfPoint (codePoints s) = s.
Proof.
  induction 1 as [| c rest Hc Hh Hl _ IH | h l rest Hh Hl _ IH].
  - reflexivity.
  - cbn [codePoints]. rewrite Hh, Hl. cbn [flat_map]. rewrite IH.
    unfold unitsOfPoint. destruct (N.ltb_spec c 65536); [reflexivity | lia].
  - cbn [codePoints]. rewrite Hh, Hl. cbn [flat_map]. rewrite IH.
    apply surrogate_ranges in Hh, Hl. unfold unitsOfPoint.
    destruct (N.ltb_spec (65536 + (h - 55296) * 1024 + (l - 56320)) 65536); [lia|].
    cbn [app]. f_equal; [lia|]. f_equal. lia.
Qed.

Lemma encode_bytes s :
  wellFormed16 s -> Forall (fun b => b < 256) (encode s).
Proof.
  intros H. apply codePoints_scalar in H. unfold encode.
  induction H as [|cp points Hcp _ IH]; [constructor|].
  cbn [flat_map]. apply Forall_app. split; [now apply encodePoint_bytes | exact IH].
Qed.

(** [TextDecoder] reads back what [TextEncoder] wrote, for a well-formed
    string that does not start with a byte order mark. *)
Lemma decode_encode s :
  wellFormed16 s -> headIs 65279 s = None -> decode (encode s) = s.
Proof.
  intros Hwf Hbom. unfold decode, encode.
  rewrite decodePoints_encode by now apply codePoints_scalar.
  assert (Hhead : headIs 65279 (codePoints s) = None).
  { destruct Hwf as [| c rest Hc Hh Hl _ | h l rest Hh Hl _].
    - reflexivity.
    - cbn [codePoints]. rewrite Hh, Hl. cbn [headIs] in *.
      destruct (c =? 65279); [discriminate | reflexivity].
    - cbn [codePoints]. rewrite Hh, Hl. cbn [headIs].
      apply surrogate_ranges in Hh, Hl.
      destruct (N.eqb_spec (65536 + (h - 55296) * 1024 + (l - 56320)) 65279);
        [lia | reflexivity]. }
  rewrite Hhead. now apply codePoints_units.
Qed.

End Utf8Codec.

Section StringifyShape.

Local Open Scope N_scope.

Lemma JsonValue_nested_ind (P : JsonValue -> Prop) :
  P JNull -> (forall b, P (JBool b)) -> (forall n, P (JNumber n)) ->
  (forall s, P (JString s)) ->
  (forall items, Forall P items -> P (JArray items)) ->
  (forall entries, Forall (fun kv => P (snd kv)) entries -> P (JObject entries)) ->
  forall v, P v.
Proof.
  intros Hnull Hbool Hnum Hstr Harr Hobj v.
  induction v as [v IH] using JsonValue_children_ind.
  destruct v as [| b | n | s | items | entries]; auto.
  - apply Harr. apply Forall_forall. intros x Hx.
    assert (Hin : forall i, exists seg key, In (seg, key, x) (indexed i items)).
    { clear IH. induction items as [|y items IHi]; [destruct Hx|].
      intros i. destruct Hx as [-> | Hx].
      - do 2 eexists. now left.
      - destruct (IHi Hx (i + 1)) as (seg & key & H). exists seg, key. now right. }
    destruct (Hin 0) as (seg & key & H). exact (IH _ H).
  - apply Hobj. apply Forall_forall. intros kv Hkv.
    apply (IH (SegKey (fst kv), fst kv, snd kv)).
    cbn [children]. now apply (in_map (fun kv => (SegKey (fst kv), fst kv, snd kv))).
Qed.

Lemma wellFormed16_app a b :
  wellFormed16 a -> wellFormed16 b -> wellFormed16 (a ++ b).
Proof.
  induction 1; intros Hb; cbn [app]; [assumption | |].
  - apply wf16_unit; auto.
  - apply wf16_pair; auto.
Qed.

Lemma asciiOnly_wellFormed s : asciiOnly s -> wellFormed16 s.
Proof.
  induction 1 as [|c s Hc _ IH]; [constructor|].
  apply wf16_unit; [lia | | | exact IH];
    unfold JSON.isHighSurrogate, JSON.isLowSurrogate;
    apply andb_false_iff; left; apply N.leb_gt; lia.
Qed.

Lemma asciiOnly_app a b : asciiOnly a -> asciiOnly b -> asciiOnly (a ++ b).
Proof. intros Ha Hb. apply Forall_app. now split. Qed.

Lemma asciiOnly_firstn n s : asciiOnly s -> asciiOnly (firstn n s).
Proof.
  intros H. rewrite <- (firstn_skipn n s) in H.
  now apply Forall_app in H.
Qed.

Lemma asciiOnly_skipn n s : asciiOnly s -> asciiOnly (skipn n s).
Proof.
  intros H. rewrite <- (firstn_skipn n s) in H.
  now apply Forall_app in H.
Qed.

Lemma asciiOnly_repeat c n : c < 128 -> asciiOnly (repeat c n).
Proof.
  intros Hc. apply Forall_forall. intros x Hx.
  apply repeat_spec in Hx. now subst.
Qed.

Lemma uint_chars_digits u :
  Forall (fun c => 48 <= c <= 57) (uint_chars u).
Proof. induction u; cbn [uint_chars]; constructor; auto; lia. Qed.

Lemma decimal_digits n : Forall (fun c => 48 <= c <= 57) (decimal n).
Proof. apply uint_chars_digits. Qed.

Lemma decimal_ascii n : asciiOnly (decimal n).
Proof.
  eapply Forall_impl; [|apply decimal_digits]. cbn. intros c H. lia.
Qed.

Lemma decimal_head n :
  exists d rest, decimal n = d :: rest /\ 48 <= d <= 57.
Proof.
  pose proof (decimal_digits n) as Hd. unfold decimal in *.
  assert (Hnil : N.to_uint n <> Decimal.Nil).
  { destruct n as [|p]; [discriminate|]. apply DecimalPos.Unsigned.to_uint_nonnil. }
  destruct (N.to_uint n); try congruence; cbn [uint_chars] in *;
    inversion_clear Hd; eauto.
Qed.

Ltac ascii_literal := unfold asciiOnly; repeat constructor.

Ltac ascii_parts :=
  repeat first
    [ apply asciiOnly_app
    | apply decimal_ascii
    | apply asciiOnly_firstn
    | apply asciiOnly_skipn
    | apply asciiOnly_repeat; reflexivity
    | solve [ascii_literal] ].

Lemma layout_ascii s n k : asciiOnly (JsNumber.layout s n k).
Proof.
  unfold JsNumber.layout, JsNumber.zeros, JsNumber.exponent_text.
  destruct ((k <=? n)%Z && (n <=? 21)%Z); [ascii_parts|].
  destruct ((0 <? n)%Z && (n <=? 21)%Z); [ascii_parts|].
  destruct ((-6 <? n)%Z && (n <=? 0)%Z); [ascii_parts|].
  pose proof (decimal_ascii (Z.to_N s)) as Hd.
  destruct (decimal (Z.to_N s)) as [|d rest]; [constructor|].
  inversion_clear Hd.
  apply asciiOnly_app.
  - constructor; [assumption|]. destruct rest; [constructor|].
    apply asciiOnly_app; [ascii_literal | assumption].
  - destruct (0 <=? n - 1)%Z; ascii_parts.
Qed.

Lemma layout_head s n k :
  exists d rest, JsNumber.layout s n k = d :: rest /\ d < 124.
Proof.
  unfold JsNumber.layout.
  destruct (decimal_head (Z.to_N s)) as (d & rest & -> & Hd).
  destruct ((k <=? n)%Z && (n <=? 21)%Z);
    [exists d; eexists; split; [reflexivity | lia]|].
  destruct ((0 <? n)%Z && (n <=? 21)%Z) eqn:E.
  { apply andb_true_iff in E as [E _]. apply Z.ltb_lt in E.
    destruct (Z.to_nat n) as [|m] eqn:Em; [lia|].
    exists d. eexists. split; [reflexivity | lia]. }
  destruct ((-6 <? n)%Z && (n <=? 0)%Z);
    [eexists; eexists; split; [reflexivity | reflexivity]|].
  exists d. eexists. split; [reflexivity | lia].
Qed.

Lemma numberText_ascii n : asciiOnly (JSON.numberText n).
Proof.
  destruct n as [| neg | neg | neg m e]; cbn [JSON.numberText JsNumber.toString];
    try solve [ascii_literal].
  unfold JsNumber.positive_text.
  destruct (JsNumber.ratio m e) as [num den].
  destruct (JsNumber.shortest _ _ _ _ _) as [[s x] k].
  destruct neg; [apply asciiOnly_app; [ascii_literal|]|]; apply layout_ascii.
Qed.

Lemma numberText_head n : plainHead (JSON.numberText n).
Proof.
  destruct n as [| neg | neg | neg m e]; cbn [JSON.numberText JsNumber.toString];
    try (eexists; eexists; split; [reflexivity | reflexivity]).
  unfold JsNumber.positive_text.
  destruct (JsNumber.ratio m e) as [num den].
  destruct (JsNumber.shortest _ _ _ _ _) as [[s x] k].
  destruct neg.
  - eexists; eexists; split; [reflexivity | reflexivity].
  - destruct (layout_head s x k) as (d & rest & -> & Hd). now exists d, rest.
Qed.

Lemma hexDigit_ascii n : n < 16 -> JSON.hexDigit n < 128.
Proof. intros H. unfold JSON.hexDigit. destruct (n <? 10); lia. Qed.

Lemma unicodeEscape_ascii c : asciiOnly (JSON.unicodeEscape c).
Proof.
  unfold JSON.unicodeEscape.
  repeat (constructor; [first [reflexivity | apply hexDigit_ascii; lia]|]).
  constructor.
Qed.

Lemma quoteUnit_wellFormed c : c < 65536 -> wellFormed16 (JSON.quoteUnit c).
Proof.
  intros Hc. unfold JSON.quoteUnit.
  repeat match goal with
         | |- context [if N.eqb ?a ?b then _ else _] =>
             destruct (N.eqb a b);
             [apply asciiOnly_wellFormed; solve [ascii_literal]|]
         end.
  destruct (c <? 32); [apply asciiOnly_wellFormed, unicodeEscape_ascii|].
  destruct (JSON.isHighSurrogate c) eqn:Hh;
    [apply asciiOnly_wellFormed, unicodeEscape_ascii|].
  destruct (JSON.isLowSurrogate c) eqn:Hl;
    [apply asciiOnly_wellFormed, unicodeEscape_ascii|].
  cbn [orb]. apply wf16_unit; auto. constructor.
Qed.

Lemma quoteBody_wellFormed s :
  codeUnits s = true -> wellFormed16 (JSON.quoteBody s).
Proof.
  remember (length s) as n eqn:Hn. revert s Hn.
  induction n as [n IH] using lt_wf_ind. intros s Hn Hs.
  destruct s as [|c rest]; [constructor|].
  cbn [codeUnits forallb] in Hs. apply andb_true_iff in Hs as [Hc Hrest].
  apply N.ltb_lt in Hc. cbn [JSON.quoteBody].
  destruct rest as [|d rest']; [now apply quoteUnit_wellFormed|].
  destruct (JSON.isHighSurrogate c && JSON.isLowSurrogate d) eqn:Hpair.
  - apply andb_true_iff in Hpair as [Hh Hl].
    cbn [forallb] in Hrest. apply andb_true_iff in Hrest as [_ Hrest'].
    apply wf16_pair; auto.
    apply (IH (length rest')); [subst; cbn; lia | reflexivity | exact Hrest'].
  - apply wellFormed16_app; [now apply quoteUnit_wellFormed|].
    apply (IH (length (d :: rest'))); [subst; cbn; lia | reflexivity | exact Hrest].
Qed.

Lemma quote_wellFormed s : codeUnits s = true -> wellFormed16 (JSON.quote s).
Proof.
  intros H. unfold JSON.quote.
  apply wellFormed16_app; [apply asciiOnly_wellFormed; ascii_literal|].
  apply wellFormed16_app; [now apply quoteBody_wellFormed|].
  apply asciiOnly_wellFormed. ascii_literal.
Qed.

Lemma join_wellFormed sep parts :
  wellFormed16 sep -> Forall wellFormed16 parts -> wellFormed16 (join sep parts).
Proof.
  intros Hsep. induction 1 as [|p parts Hp Hparts IH]; [constructor|].
  cbn [join]. destruct parts as [|p' parts']; [exact Hp|].
  apply wellFormed16_app; [exact Hp|]. now apply wellFormed16_app.
Qed.

Lemma wrap_compact opening closing partial :
  JSON.wrap [] [] opening closing partial
  = opening ++ join (str ",") partial ++ closing.
Proof. unfold JSON.wrap. now destruct partial. Qed.

(** The compact text of a value is well formed. *)
Lemma stringify_wellFormed v :
  codeUnitsValue v = true -> wellFormed16 (JSON.stringify v).
Proof.
  unfold JSON.stringify.
  induction v as [| b | n | s | items IH | entries IH] using JsonValue_nested_ind;
    intros Hv; cbn [JSON.serialize app].
  - apply asciiOnly_wellFormed. ascii_literal.
  - apply asciiOnly_wellFormed. destruct b; ascii_literal.
  - apply asciiOnly_wellFormed, numberText_ascii.
  - now apply quote_wellFormed.
  - rewrite wrap_compact.
    apply wellFormed16_app; [apply asciiOnly_wellFormed; ascii_literal|].
    apply wellFormed16_app; [|apply asciiOnly_wellFormed; ascii_literal].
    apply join_wellFormed; [apply asciiOnly_wellFormed; ascii_literal|].
    apply Forall_map. cbn [codeUnitsValue] in Hv.
    rewrite forallb_forall in Hv. rewrite Forall_forall in *.
    intros x Hx. apply (IH x Hx), Hv, Hx.
  - rewrite wrap_compact.
    apply wellFormed16_app; [apply asciiOnly_wellFormed; ascii_literal|].
    apply wellFormed16_app; [|apply asciiOnly_wellFormed; ascii_literal].
    apply join_wellFormed; [apply asciiOnly_wellFormed; ascii_literal|].
    apply Forall_map. cbn [codeUnitsValue] in Hv.
    rewrite forallb_forall in Hv. rewrite Forall_forall in *.
    intros kv Hkv. specialize (Hv kv Hkv). apply andb_true_iff in Hv as [Hk Hval].
    apply wellFormed16_app; [now apply quote_wellFormed|].
    apply wellFormed16_app; [apply asciiOnly_wellFormed; ascii_literal|].
    cbn [app]. now apply (IH kv Hkv).
Qed.

(** The compact text of a value starts with a code unit below ["|"]. *)
Lemma stringify_head v : plainHead (JSON.stringify v).
Proof.
  unfold JSON.stringify, plainHead.
  destruct v as [| [|] | n | s | items | entries]; cbn [JSON.serialize];
    try rewrite wrap_compact;
    try (eexists; eexists; split; [reflexivity | reflexivity]).
  apply numberText_head.
Qed.

End StringifyShape.

Section ShareLink.

Local Open Scope N_scope.

Lemma startsWith_head_ne c rest y q :
  c <> y -> startsWith (c :: rest) (y :: q) = false.
Proof. intros H. cbn. now destruct (N.eqb_spec c y). Qed.

Lemma parseNumber_letter c rest :
  c <> 45 -> JSON.isDigit c = false -> JSON.parseNumber (c :: rest) = None.
Proof.
  intros Hminus Hdigit. unfold JSON.parseNumber, JSON.parseInteger. cbn [headIs].
  destruct (N.eqb_spec c 45); [contradiction|]. cbn [headIs].
  destruct (N.eqb_spec c 48) as [->|_]; [vm_compute in Hdigit; discriminate|].
  cbn [JSON.takeDigits]. now rewrite Hdigit.
Qed.

(** No JSON text starts with a letter between "A" and "e". *)
Lemma parse_letter_fails c rest :
  65 <= c <= 90 \/ 97 <= c <= 101 -> JSON.parse (c :: rest) = None.
Proof.
  intros Hc. unfold JSON.parse.
  rewrite Nat.add_comm. cbn [Nat.add].
  cbn [JSON.parseValue JSON.skipWhiteSpace].
  assert (Hws : JSON.isWhiteSpace c = false).
  { unfold JSON.isWhiteSpace. split_cmp; reflexivity. }
  rewrite Hws.
  destruct (N.eqb_spec c 123); [lia|]. destruct (N.eqb_spec c 91); [lia|].
  destruct (N.eqb_spec c dquote); [unfold dquote in *; lia|].
  change (str "true") with (116 :: str "rue").
  change (str "false") with (102 :: str "alse").
  change (str "null") with (110 :: str "ull").
  rewrite !startsWith_head_ne by lia.
  rewrite parseNumber_letter; [reflexivity | lia |].
  unfold JSON.isDigit. split_cmp; reflexivity.
Qed.

Lemma Uri_decode_plain fuel s :
  (length s <= fuel)%nat -> Forall (fun c => c <> 37) s ->
  Uri.decode fuel s = Some s.
Proof.
  revert s. induction fuel as [|fuel IH]; intros s Hlen Hs.
  - destruct s; [reflexivity | cbn in Hlen; lia].
  - destruct s as [|c rest]; [reflexivity|].
    inversion_clear Hs as [|? ? Hc Hrest]. cbn [Uri.decode].
    destruct (N.eqb_spec c 37); [contradiction|].
    rewrite IH; [reflexivity | cbn in Hlen; lia | exact Hrest].
Qed.

Lemma safeDecodeURIComponent_plain s :
  Forall (fun c => c <> 37) s -> safeDecodeURIComponent s = s.
Proof.
  intros H. unfold safeDecodeURIComponent, Uri.decodeURIComponent.
  now rewrite Uri_decode_plain.
Qed.

Lemma stripPadding_pads xs p :
  Forall (fun c => c <> Base64.pad) xs ->
  stripPadding (xs ++ repeat Base64.pad p) = xs.
Proof.
  intros Hxs.
  assert (Hpads : stripPadding (repeat Base64.pad p) = []).
  { induction p as [|p IH]; [reflexivity|]. cbn [repeat stripPadding].
    now rewrite IH, N.eqb_refl. }
  induction Hxs as [|x xs Hx _ IH]; [exact Hpads|].
  cbn [app stripPadding]. rewrite IH.
  destruct xs; [|reflexivity].
  destruct (N.eqb_spec x Base64.pad); [contradiction | reflexivity].
Qed.

Lemma below_64_cases (P : N -> bool) :
  forallb P (map N.of_nat (seq 0 64)) = true ->
  forall v, v < 64 -> P v = true.
Proof.
  intros H v Hv. rewrite forallb_forall in H. apply H.
  apply in_map_iff. exists (N.to_nat v). split; [lia|]. apply in_seq. lia.
Qed.

Lemma urlChar_digit v :
  v < 64 ->
  let c := urlChar (Base64.digit v) in
  c <> Base64.pad /\ c <> 37
  /\ unurlChar c = Base64.digit v
  /\ (v <= 30 -> 65 <= c <= 90 \/ 97 <= c <= 101).
Proof.
  intros Hv c.
  assert (H : negb (c =? Base64.pad) && negb (c =? 37)
              && (unurlChar c =? Base64.digit v)
              && (negb (v <=? 30)
                  || (65 <=? c) && (c <=? 90) || (97 <=? c) && (c <=? 101))
              = true).
  { subst c. revert v Hv. apply below_64_cases. vm_compute. reflexivity. }
  rewrite !andb_true_iff, !negb_true_iff, !N.eqb_neq, N.eqb_eq in H.
  destruct H as [[[H1 H2] H3] H4]. repeat split; auto.
  intros Hle. apply orb_true_iff in H4 as [H4 | H4].
  - apply orb_true_iff in H4 as [H4 | H4].
    + apply negb_true_iff, N.leb_gt in H4. lia.
    + apply andb_true_iff in H4 as [Ha Hb]. apply N.leb_le in Ha, Hb. lia.
  - apply andb_true_iff in H4 as [Ha Hb]. apply N.leb_le in Ha, Hb. lia.
Qed.

Lemma urlsafe_map s :
  replaceAll 47 (str "_") (replaceAll 43 (str "-") s) = map urlChar s.
Proof.
  change (str "_") with [95]. change (str "-") with [45].
  rewrite !replaceAll_single, map_map. reflexivity.
Qed.

Lemma unurl_map s :
  replaceAll 95 (str "/") (replaceAll 45 (str "+") s) = map unurlChar s.
Proof.
  change (str "/") with [47]. change (str "+") with [43].
  rewrite !replaceAll_single, map_map. reflexivity.
Qed.

Lemma url_encoding bytes :
  Forall (fun b => b < 256) bytes ->
  stripPadding (replaceAll 47 (str "_") (replaceAll 43 (str "-")
                 (Base64.encodeBytes bytes)))
  = urlDigits bytes.
Proof.
  intros Hb. pose proof (sextets_bound Hb) as Hv.
  rewrite urlsafe_map, encodeBytes_shape, map_app.
  assert (Hpad : map urlChar (repeat Base64.pad (Base64.padCount bytes))
                 = repeat Base64.pad (Base64.padCount bytes)).
  { induction (Base64.padCount bytes) as [|p IH]; [reflexivity|].
    cbn [repeat map]. now rewrite IH. }
  rewrite Hpad. apply stripPadding_pads.
  apply Forall_map, Forall_map. eapply Forall_impl; [|exact Hv].
  intros v H. apply (urlChar_digit v H).
Qed.

Lemma normalizeBase64_urlDigits bytes :
  Forall (fun b => b < 256) bytes ->
  normalizeBase64 (urlDigits bytes) = Base64.encodeBytes bytes.
Proof.
  intros Hb. pose proof (sextets_bound Hb) as Hv.
  destruct (sextets_length bytes) as [Hlen Hp].
  unfold normalizeBase64. rewrite unurl_map. unfold urlDigits.
  assert (Hback : map unurlChar
                      (map urlChar (map Base64.digit (Base64.sextets bytes)))
                  = map Base64.digit (Base64.sextets bytes)).
  { rewrite !map_map. apply map_ext_in. intros v Hin.
    unfold Base64.sextets in Hv. rewrite Forall_forall in Hv.
    apply (urlChar_digit v (Hv v Hin)). }
  rewrite Hback, length_map, Hlen, encodeBytes_shape.
  destruct (Base64.padCount bytes) as [|[|[|p]]]; cbn [Nat.eqb repeat];
    [now rewrite app_nil_r | reflexivity | reflexivity | lia].
Qed.

End ShareLink.

Section ReadBack.

Local Open Scope N_scope.

Lemma hexValue_hexDigit n : n < 16 -> JSON.hexValue (JSON.hexDigit n) = Some n.
Proof.
  intros Hn.
  pose proof (below_64_cases
    (fun n => if n <? 16
              then match JSON.hexValue (JSON.hexDigit n) with
                   | Some m => m =? n
                   | None => false
                   end
              else true) eq_refl n ltac:(lia)) as H.
  cbv beta in H. destruct (N.ltb_spec n 16); [|lia].
  destruct (JSON.hexValue (JSON.hexDigit n)); [|discriminate].
  apply N.eqb_eq in H. now subst.
Qed.

Lemma parseStringBody_escape_u h1 h2 h3 h4 rest :
  JSON.parseStringBody (backslash :: 117 :: h1 :: h2 :: h3 :: h4 :: rest)
  = match JSON.hexValue h1, JSON.hexValue h2, JSON.hexValue h3, JSON.hexValue h4 with
    | Some a, Some b, Some c, Some d =>
        match JSON.parseStringBody rest with
        | Some (body, after) => Some (a * 4096 + b * 256 + c * 16 + d :: body, after)
        | None => None
        end
    | _, _, _, _ => None
    end.
Proof. reflexivity. Qed.

Lemma parseStringBody_ordinary c rest :
  c <> dquote -> c <> backslash -> 32 <= c ->
  JSON.parseStringBody (c :: rest)
  = match JSON.parseStringBody rest with
    | Some (body, after) => Some (c :: body, after)
    | None => None
    end.
Proof.
  intros Hq Hb Hc. cbn [JSON.parseStringBody].
  destruct (N.eqb_spec c dquote); [contradiction|].
  destruct (N.eqb_spec c backslash); [contradiction|].
  destruct (N.ltb_spec c 32); [lia | reflexivity].
Qed.

Lemma unicodeEscape_parse c tail body after :
  c < 65536 ->
  JSON.parseStringBody tail = Some (body, after) ->
  JSON.parseStringBody (JSON.unicodeEscape c ++ tail) = Some (c :: body, after).
Proof.
  intros Hc Htail. unfold JSON.unicodeEscape. cbn [app].
  rewrite parseStringBody_escape_u.
  rewrite !hexValue_hexDigit by (apply N.mod_lt; discriminate).
  rewrite Htail. f_equal. f_equal. f_equal.
  rewrite !N.shiftr_div_pow2.
  change (2 ^ 12) with 4096. change (2 ^ 8) with 256. change (2 ^ 4) with 16.
  lia.
Qed.

(** An escaped code unit is read back as the code unit. *)
Lemma quoteUnit_parse c tail body after :
  JSON.parseStringBody tail = Some (body, after) ->
  JSON.parseStringBody (JSON.quoteUnit c ++ tail) = Some (c :: body, after).
Proof.
  intros Htail. unfold JSON.quoteUnit.
  repeat match goal with
         | |- context [N.eqb c ?k] =>
             destruct (N.eqb_spec c k) as [-> | ?];
             [cbn [app JSON.parseStringBody]; cbn; now rewrite Htail|]
         end.
  destruct (N.ltb_spec c 32) as [Hlow | Hlow].
  { apply unicodeEscape_parse; [lia | exact Htail]. }
  destruct (JSON.isHighSurrogate c || JSON.isLowSurrogate c) eqn:Hs.
  { apply unicodeEscape_parse; [|exact Htail].
    unfold JSON.isHighSurrogate, JSON.isLowSurrogate in Hs.
    apply orb_true_iff in Hs as [Hs | Hs];
      apply andb_true_iff in Hs as [_ Hs]; apply N.leb_le in Hs; lia. }
  cbn [app]. rewrite parseStringBody_ordinary by assumption. now rewrite Htail.
Qed.

Lemma quoteBody_two c d s :
  JSON.quoteBody (c :: d :: s)
  = if JSON.isHighSurrogate c && JSON.isLowSurrogate d
    then c :: d :: JSON.quoteBody s
    else JSON.quoteUnit c ++ JSON.quoteBody (d :: s).
Proof. reflexivity. Qed.

(** A quoted string is read back as the string. *)
Lemma quoteBody_parse s rest :
  JSON.parseStringBody (JSON.quoteBody s ++ dquote :: rest) = Some (s, rest).
Proof.
  remember (length s) as n eqn:Hn. revert s Hn.
  induction n as [n IH] using lt_wf_ind. intros s Hn.
  destruct s as [|c [|d s']].
  - reflexivity.
  - cbn [JSON.quoteBody]. now apply quoteUnit_parse.
  - rewrite quoteBody_two.
    destruct (JSON.isHighSurrogate c && JSON.isLowSurrogate d) eqn:Hpair.
    + apply andb_true_iff in Hpair as [Hh Hl].
      unfold JSON.isHighSurrogate in Hh. unfold JSON.isLowSurrogate in Hl.
      apply andb_true_iff in Hh as [Hh _]. apply andb_true_iff in Hl as [Hl _].
      apply N.leb_le in Hh, Hl. cbn [app].
      assert (Hq : dquote = 34) by reflexivity.
      assert (Hb : backslash = 92) by reflexivity.
      rewrite parseStringBody_ordinary by lia.
      rewrite parseStringBody_ordinary by lia.
      rewrite (IH (length s')) by (cbn [length] in Hn; lia || reflexivity).
      reflexivity.
    + rewrite <- app_assoc. apply quoteUnit_parse.
      apply (IH (length (d :: s'))); [cbn [length] in *; lia | reflexivity].
Qed.

(** ** A number literal followed by a comma or a closing bracket *)

Lemma closes_cases rest :
  closes rest = true ->
  rest = [] \/ exists c tail, rest = c :: tail /\ (c = 44 \/ c = 93 \/ c = 125).
Proof.
  destruct rest as [|c tail]; [now left|]. cbn [closes]. intros H. right.
  exists c, tail. split; [reflexivity|].
  apply orb_true_iff in H as [H | H]; [apply orb_true_iff in H as [H | H]|];
    apply N.eqb_eq in H; auto.
Qed.

Lemma headIs_closes c s rest :
  closes rest = true -> c <> 44 -> c <> 93 -> c <> 125 ->
  headIs c (s ++ rest) = option_map (fun r => r ++ rest) (headIs c s).
Proof.
  intros Hrest H1 H2 H3. destruct s as [|x s].
  - cbn [app headIs option_map].
    destruct (closes_cases _ Hrest) as [-> | (y & tail & -> & Hy)]; [reflexivity|].
    cbn [headIs]. destruct (N.eqb_spec y c); [lia | reflexivity].
  - cbn [app headIs]. now destruct (x =? c).
Qed.

Lemma takeDigits_closes s rest :
  closes rest = true ->
  JSON.takeDigits (s ++ rest)
  = (fst (JSON.takeDigits s), snd (JSON.takeDigits s) ++ rest).
Proof.
  intros Hrest. induction s as [|c s IH].
  - cbn [app JSON.takeDigits fst snd].
    destruct (closes_cases _ Hrest) as [-> | (y & tail & -> & Hy)]; [reflexivity|].
    cbn [JSON.takeDigits].
    replace (JSON.isDigit y) with false; [reflexivity|].
    destruct Hy as [-> | [-> | ->]]; reflexivity.
  - cbn [app JSON.takeDigits]. destruct (JSON.isDigit c); [|reflexivity].
    rewrite IH. now destruct (JSON.takeDigits s).
Qed.

Lemma parseInteger_closes s rest :
  closes rest = true ->
  JSON.parseInteger (s ++ rest)
  = (fst (JSON.parseInteger s), snd (JSON.parseInteger s) ++ rest).
Proof.
  intros Hrest. unfold JSON.parseInteger.
  rewrite headIs_closes by (assumption || discriminate).
  destruct (headIs 48 s); [reflexivity|]. now apply takeDigits_closes.
Qed.

Lemma parseFraction_closes s rest :
  closes rest = true ->
  JSON.parseFraction (s ++ rest)
  = option_map (fun '(ds, r) => (ds, r ++ rest)) (JSON.parseFraction s).
Proof.
  intros Hrest. unfold JSON.parseFraction.
  rewrite headIs_closes by (assumption || discriminate).
  destruct (headIs 46 s) as [r|]; [|reflexivity]. cbn [option_map].
  rewrite takeDigits_closes by assumption.
  now destruct (JSON.takeDigits r) as [[|d ds] r'].
Qed.

Lemma parseExponent_closes s rest :
  closes rest = true ->
  JSON.parseExponent (s ++ rest)
  = option_map (fun '(x, r) => (x, r ++ rest)) (JSON.parseExponent s).
Proof.
  intros Hrest. destruct s as [|c s].
  - cbn [app JSON.parseExponent option_map].
    destruct (closes_cases _ Hrest) as [-> | (y & tail & -> & Hy)]; [reflexivity|].
    cbn [JSON.parseExponent].
    replace ((y =? 101) || (y =? 69)) with false; [reflexivity|].
    destruct Hy as [-> | [-> | ->]]; reflexivity.
  - cbn [app JSON.parseExponent].
    destruct ((c =? 101) || (c =? 69)); [|reflexivity].
    rewrite !headIs_closes by (assumption || discriminate).
    destruct (headIs 45 s) as [r|]; cbn [option_map].
    + rewrite takeDigits_closes by assumption.
      now destruct (JSON.takeDigits r) as [[|d ds] r'].
    + destruct (headIs 43 s) as [r|]; cbn [option_map];
        rewrite takeDigits_closes by assumption.
      * now destruct (JSON.takeDigits r) as [[|d ds] r'].
      * now destruct (JSON.takeDigits s) as [[|d ds] r'].
Qed.

(** A number literal is read the same way when a comma or a closing
    bracket follows it. *)
Lemma parseNumber_closes s rest :
  closes rest = true ->
  JSON.parseNumber (s ++ rest)
  = option_map (fun '(n, r) => (n, r ++ rest)) (JSON.parseNumber s).
Proof.
  intros Hrest. unfold JSON.parseNumber.
  rewrite headIs_closes by (assumption || discriminate).
  destruct (headIs 45 s) as [r|]; cbn [option_map].
  - rewrite parseInteger_closes by assumption.
    destruct (JSON.parseInteger r) as [[|d ds] r2]; cbn [fst snd]; [reflexivity|].
    rewrite parseFraction_closes by assumption.
    destruct (JSON.parseFraction r2) as [[f r3]|]; cbn [option_map]; [|reflexivity].
    rewrite parseExponent_closes by assumption.
    now destruct (JSON.parseExponent r3) as [[x r4]|].
  - rewrite parseInteger_closes by assumption.
    destruct (JSON.parseInteger s) as [[|d ds] r2]; cbn [fst snd]; [reflexivity|].
    rewrite parseFraction_closes by assumption.
    destruct (JSON.parseFraction r2) as [[f r3]|]; cbn [option_map]; [|reflexivity].
    rewrite parseExponent_closes by assumption.
    now destruct (JSON.parseExponent r3) as [[x r4]|].
Qed.

(** ** The parser on the compact text of a value *)

Lemma skipWhiteSpace_closes rest :
  closes rest = true -> JSON.skipWhiteSpace rest = rest.
Proof.
  intros H. destruct (closes_cases _ H) as [-> | (c & tail & -> & Hc)];
    [reflexivity|].
  destruct Hc as [-> | [-> | ->]]; reflexivity.
Qed.

Lemma parseValue_array fuel rest :
  JSON.parseValue (S fuel) (91 :: rest)
  = match headIs 93 (JSON.skipWhiteSpace rest) with
    | Some after => Some (JArray [], after)
    | None =>
        match JSON.parseElements fuel rest with
        | Some (items, after) => Some (JArray items, after)
        | None => None
        end
    end.
Proof. reflexivity. Qed.

Lemma parseValue_object fuel rest :
  JSON.parseValue (S fuel) (123 :: rest)
  = match headIs 125 (JSON.skipWhiteSpace rest) with
    | Some after => Some (JObject [], after)
    | None =>
        match JSON.parseMembers fuel rest with
        | Some (members, after) => Some (JSON.makeObject members, after)
        | None => None
        end
    end.
Proof. reflexivity. Qed.

Lemma parseValue_string fuel rest :
  JSON.parseValue (S fuel) (dquote :: rest)
  = match JSON.parseStringBody rest with
    | Some (body, after) => Some (JString body, after)
    | None => None
    end.
Proof. reflexivity. Qed.

Lemma parseValue_number fuel c rest :
  c = 45 \/ JSON.isDigit c = true ->
  JSON.parseValue (S fuel) (c :: rest)
  = match JSON.parseNumber (c :: rest) with
    | Some (n, after) => Some (JNumber n, after)
    | None => None
    end.
Proof.
  intros Hc.
  assert (Hrange : 45 <= c <= 57).
  { destruct Hc as [-> | Hc]; [lia|]. unfold JSON.isDigit in Hc.
    apply andb_true_iff in Hc as [H1 H2]. apply N.leb_le in H1, H2. lia. }
  cbn [JSON.parseValue JSON.skipWhiteSpace].
  assert (Hws : JSON.isWhiteSpace c = false).
  { unfold JSON.isWhiteSpace. split_cmp; reflexivity. }
  rewrite Hws.
  destruct (N.eqb_spec c 123); [lia|]. destruct (N.eqb_spec c 91); [lia|].
  destruct (N.eqb_spec c dquote); [unfold dquote in *; lia|].
  change (str "true") with (116 :: str "rue").
  change (str "false") with (102 :: str "alse").
  change (str "null") with (110 :: str "ull").
  now rewrite !startsWith_head_ne by lia.
Qed.

Lemma parseElements_step fuel s :
  JSON.parseElements (S fuel) s
  = match JSON.parseValue fuel s with
    | None => None
    | Some (v, rest) =>
        match headIs 44 (JSON.skipWhiteSpace rest),
              headIs 93 (JSON.skipWhiteSpace rest) with
        | Some rest', _ =>
            match JSON.parseElements fuel rest' with
            | Some (items, after) => Some (v :: items, after)
            | None => None
            end
        | None, Some after => Some ([v], after)
        | None, None => None
        end
    end.
Proof. reflexivity. Qed.

Lemma parseMembers_step fuel s :
  JSON.parseMembers (S fuel) s
  = match headIs dquote (JSON.skipWhiteSpace s) with
    | Some rest =>
        match JSON.parseStringBody rest with
        | None => None
        | Some (key, rest1) =>
            match headIs 58 (JSON.skipWhiteSpace rest1) with
            | Some rest2 =>
                match JSON.parseValue fuel rest2 with
                | None => None
                | Some (v, rest3) =>
                    match headIs 44 (JSON.skipWhiteSpace rest3),
                          headIs 125 (JSON.skipWhiteSpace rest3) with
                    | Some rest4, _ =>
                        match JSON.parseMembers fuel rest4 with
                        | Some (members, after) => Some ((key, v) :: members, after)
                        | None => None
                        end
                    | None, Some after => Some ([(key, v)], after)
                    | None, None => None
                    end
                end
            | None => None
            end
        end
    | None => None
    end.
Proof. reflexivity. Qed.

Lemma readsBack_items items :
  readsBack (JArray items) <-> Forall readsBack items.
Proof.
  cbn [readsBack]. induction items as [|x items IH].
  - split; constructor.
  - split.
    + intros [Hx Hrest]. constructor; [exact Hx | now apply IH].
    + intros H. inversion_clear H. split; [assumption | now apply IH].
Qed.

Lemma readsBack_entries entries :
  readsBack (JObject entries)
  <-> enumerated entries /\ Forall (fun kv => readsBack (snd kv)) entries.
Proof.
  cbn [readsBack]. apply and_iff_compat_l.
  induction entries as [|kv entries IH].
  - split; constructor.
  - split.
    + intros [Hx Hrest]. constructor; [exact Hx | now apply IH].
    + intros H. inversion_clear H. split; [assumption | now apply IH].
Qed.

Lemma numberReadsBack_head n :
  numberReadsBack n ->
  exists c tail,
    JSON.numberText n = c :: tail /\ (c = 45 \/ JSON.isDigit c = true).
Proof.
  unfold numberReadsBack. destruct (JSON.numberText n) as [|c tail].
  - discriminate.
  - intros H. exists c, tail. split; [reflexivity|].
    destruct (N.eq_dec c 45) as [-> | Hminus]; [now left|]. right.
    destruct (JSON.isDigit c) eqn:Hdigit; [reflexivity|].
    now rewrite parseNumber_letter in H.
Qed.

(** The text of a value starts with a character that is neither white
    space nor a closing bracket. *)
Lemma stringify_starts v :
  readsBack v ->
  exists c tail,
    JSON.stringify v = c :: tail
    /\ JSON.isWhiteSpace c = false /\ c <> 93 /\ c <> 125.
Proof.
  intros Hv. unfold JSON.stringify.
  destruct v as [| [|] | n | s | items | entries]; cbn [JSON.serialize];
    try rewrite wrap_compact;
    try (eexists; eexists; split; [reflexivity | repeat split; discriminate]).
  destruct (numberReadsBack_head n Hv) as (c & tail & -> & Hc).
  exists c, tail. split; [reflexivity|].
  assert (Hrange : 45 <= c <= 57).
  { destruct Hc as [-> | Hc]; [lia|]. unfold JSON.isDigit in Hc.
    apply andb_true_iff in Hc as [H1 H2]. apply N.leb_le in H1, H2. lia. }
  repeat split; try lia. unfold JSON.isWhiteSpace. split_cmp; reflexivity.
Qed.

Lemma parseElements_join x items :
  Forall (fun v => forall fuel rest,
              (parseDepth v <= fuel)%nat -> closes rest = true ->
              JSON.parseValue fuel (JSON.stringify v ++ rest) = Some (v, rest))
    (x :: items) ->
  forall fuel rest,
    (listDepth (map parseDepth (x :: items)) <= fuel)%nat ->
    JSON.parseElements fuel
      (join (str ",") (map JSON.stringify (x :: items)) ++ 93 :: rest)
    = Some (x :: items, rest).
Proof.
  intros H. revert x H.
  induction items as [|y items IH]; intros x H fuel rest Hfuel;
    inversion_clear H as [|? ? Hx Hitems];
    cbn [map listDepth] in Hfuel; (destruct fuel as [|fuel]; [lia|]).
  - cbn [map join]. rewrite parseElements_step, Hx by (lia || reflexivity).
    reflexivity.
  - change (join (str ",") (map JSON.stringify (x :: y :: items)))
      with (JSON.stringify x
            ++ 44 :: join (str ",") (map JSON.stringify (y :: items))).
    rewrite <- app_assoc, <- app_comm_cons.
    rewrite parseElements_step, Hx by (lia || reflexivity).
    cbn [JSON.skipWhiteSpace JSON.isWhiteSpace N.eqb Pos.eqb orb headIs].
    rewrite (IH y Hitems) by (cbn [map listDepth]; lia). reflexivity.
Qed.

Lemma headIs_skip_same c rest :
  JSON.isWhiteSpace c = false ->
  headIs c (JSON.skipWhiteSpace (c :: rest)) = Some rest.
Proof.
  intros Hws. cbn [JSON.skipWhiteSpace]. rewrite Hws. cbn [headIs].
  now rewrite N.eqb_refl.
Qed.

Lemma headIs_skip_other c d rest :
  JSON.isWhiteSpace c = false -> c <> d ->
  headIs d (JSON.skipWhiteSpace (c :: rest)) = None.
Proof.
  intros Hws Hne. cbn [JSON.skipWhiteSpace]. rewrite Hws. cbn [headIs].
  now destruct (N.eqb_spec c d).
Qed.

Lemma join_head sep p parts :
  exists tail, join sep (p :: parts) = p ++ tail.
Proof.
  destruct parts as [|q parts].
  - exists []. cbn [join]. now rewrite app_nil_r.
  - eexists. reflexivity.
Qed.

Lemma member_text key text rest :
  (JSON.quote key ++ str ":" ++ text) ++ rest
  = dquote :: JSON.quoteBody key ++ dquote :: 58 :: text ++ rest.
Proof.
  unfold JSON.quote. rewrite <- !app_assoc. reflexivity.
Qed.

Lemma parseMembers_join kv entries :
  Forall (fun kv => forall fuel rest,
              (parseDepth (snd kv) <= fuel)%nat -> closes rest = true ->
              JSON.parseValue fuel (JSON.stringify (snd kv) ++ rest)
              = Some (snd kv, rest))
    (kv :: entries) ->
  forall fuel rest,
    (listDepth (map (fun kv => parseDepth (snd kv)) (kv :: entries)) <= fuel)%nat ->
    JSON.parseMembers fuel
      (join (str ",")
         (map (fun kv => JSON.quote (fst kv) ++ str ":" ++ JSON.stringify (snd kv))
            (kv :: entries)) ++ 125 :: rest)
    = Some (kv :: entries, rest).
Proof.
  intros H. revert kv H.
  induction entries as [|kv' entries IH]; intros [key v] H fuel rest Hfuel;
    inversion_clear H as [|? ? Hv Hentries]; cbn [fst snd] in Hv;
    cbn [map listDepth snd] in Hfuel; (destruct fuel as [|fuel]; [lia|]).
  - cbn [map join fst snd]. rewrite member_text, parseMembers_step.
    rewrite headIs_skip_same by reflexivity. rewrite quoteBody_parse.
    rewrite headIs_skip_same by reflexivity.
    rewrite Hv by (lia || reflexivity). reflexivity.
  - change (join (str ",")
              (map (fun kv => JSON.quote (fst kv) ++ str ":" ++ JSON.stringify (snd kv))
                 ((key, v) :: kv' :: entries)))
      with ((JSON.quote key ++ str ":" ++ JSON.stringify v)
            ++ 44 :: join (str ",")
                 (map (fun kv => JSON.quote (fst kv) ++ str ":" ++ JSON.stringify (snd kv))
                    (kv' :: entries))).
    rewrite <- app_assoc, member_text, parseMembers_step.
    rewrite headIs_skip_same by reflexivity. rewrite quoteBody_parse.
    rewrite headIs_skip_same by reflexivity.
    rewrite <- app_comm_cons.
    rewrite Hv by (lia || reflexivity).
    rewrite headIs_skip_same by reflexivity.
    rewrite (IH kv' Hentries) by (cbn [map listDepth]; lia). reflexivity.
Qed.

Lemma stringify_array items rest :
  JSON.stringify (JArray items) ++ rest
  = 91 :: join (str ",") (map JSON.stringify items) ++ 93 :: rest.
Proof.
  unfold JSON.stringify. cbn [JSON.serialize app]. rewrite wrap_compact.
  rewrite <- !app_assoc. reflexivity.
Qed.

Lemma stringify_object entries rest :
  JSON.stringify (JObject entries) ++ rest
  = 123 :: join (str ",")
             (map (fun kv => JSON.quote (fst kv) ++ str ":" ++ JSON.stringify (snd kv))
                entries) ++ 125 :: rest.
Proof.
  unfold JSON.stringify. cbn [JSON.serialize app]. rewrite wrap_compact.
  rewrite <- !app_assoc. reflexivity.
Qed.

(** The parser reads the compact text of a value back as the value, with
    fuel for the nesting of the value, whatever closes the value. *)
Lemma parseValue_stringify v :
  readsBack v ->
  forall fuel rest,
    (parseDepth v <= fuel)%nat -> closes rest = true ->
    JSON.parseValue fuel (JSON.stringify v ++ rest) = Some (v, rest).
Proof.
  induction v as [| b | n | s | items IH | entries IH] using JsonValue_nested_ind;
    intros Hv fuel rest Hfuel Hrest;
    (destruct fuel as [|fuel]; [cbn in Hfuel; lia|]).
  - reflexivity.
  - destruct b; reflexivity.
  - destruct (numberReadsBack_head n Hv) as (c & tail & Htext & Hc).
    unfold JSON.stringify. cbn [JSON.serialize]. rewrite Htext.
    rewrite <- app_comm_cons, parseValue_number by exact Hc.
    rewrite app_comm_cons, <- Htext, parseNumber_closes by assumption.
    cbn [readsBack] in Hv. unfold numberReadsBack in Hv. now rewrite Hv.
  - unfold JSON.stringify. cbn [JSON.serialize]. unfold JSON.quote.
    rewrite <- !app_assoc. cbn [app].
    now rewrite parseValue_string, quoteBody_parse.
  - apply readsBack_items in Hv. rewrite stringify_array, parseValue_array.
    destruct items as [|x items]; [reflexivity|].
    assert (Hhead : headIs 93 (JSON.skipWhiteSpace
                      (join (str ",") (map JSON.stringify (x :: items)) ++ 93 :: rest))
                    = None).
    { cbn [map]. destruct (join_head (str ",") (JSON.stringify x)
                             (map JSON.stringify items)) as [tail ->].
      inversion_clear Hv as [|? ? Hx _].
      destruct (stringify_starts x Hx) as (c & tail' & -> & Hws & H93 & _).
      rewrite <- !app_comm_cons. now apply headIs_skip_other. }
    rewrite Hhead, parseElements_join; [reflexivity | | cbn [parseDepth] in Hfuel; lia].
    rewrite Forall_forall in *. intros y Hy. now apply IH, Hv.
  - apply readsBack_entries in Hv as [Henum Hv].
    rewrite stringify_object, parseValue_object.
    destruct entries as [|kv entries]; [reflexivity|].
    assert (Hhead : headIs 125 (JSON.skipWhiteSpace
                      (join (str ",")
                         (map (fun kv => JSON.quote (fst kv) ++ str ":"
                                         ++ JSON.stringify (snd kv))
                            (kv :: entries)) ++ 125 :: rest))
                    = None).
    { cbn [map].
      match goal with
      | |- context [join ?sep (?p :: ?ps)] =>
          destruct (join_head sep p ps) as [tail Htail]
      end.
      change (@cons jsstring) with (@cons (list char)) in Htail. rewrite Htail.
      rewrite <- app_assoc, member_text. now apply headIs_skip_other. }
    rewrite Hhead, parseMembers_join;
      [| | cbn [parseDepth] in Hfuel; lia].
    + unfold JSON.makeObject. now rewrite Henum.
    + rewrite Forall_forall in *. intros y Hy. now apply IH, Hv.
Qed.

(** ** Fuel for the text of a value *)

Lemma listDepth_join {A} (depth : A -> nat) (text : A -> jsstring) xs :
  Forall (fun x => (depth x <= 2 * length (text x))%nat) xs ->
  (listDepth (map depth xs) <= 2 * length (join (str ",") (map text xs)) + 1)%nat.
Proof.
  induction 1 as [|x xs Hx Hxs IH]; [cbn; lia|].
  destruct xs as [|y xs].
  - cbn [map listDepth join]. lia.
  - change (join (str ",") (map text (x :: y :: xs)))
      with (text x ++ 44 :: join (str ",") (map text (y :: xs))).
    rewrite length_app. cbn [length].
    change (listDepth (map depth (x :: y :: xs)))
      with (S (Nat.max (depth x) (listDepth (map depth (y :: xs))))).
    lia.
Qed.

Lemma parseDepth_bound v :
  (parseDepth v <= 2 * length (JSON.stringify v))%nat.
Proof.
  induction v as [| b | n | s | items IH | entries IH] using JsonValue_nested_ind.
  - cbn. lia.
  - destruct b; cbn; lia.
  - destruct (numberText_head n) as (c & rest & H & _).
    unfold JSON.stringify. cbn [JSON.serialize parseDepth]. rewrite H.
    cbn [length]. lia.
  - unfold JSON.stringify. cbn [JSON.serialize parseDepth]. unfold JSON.quote.
    rewrite !length_app. cbn [length]. lia.
  - rewrite <- (app_nil_r (JSON.stringify (JArray items))), stringify_array.
    cbn [parseDepth length]. rewrite length_app. cbn [length].
    pose proof (listDepth_join parseDepth JSON.stringify items IH). lia.
  - rewrite <- (app_nil_r (JSON.stringify (JObject entries))), stringify_object.
    cbn [parseDepth length]. rewrite length_app. cbn [length].
    pose proof (listDepth_join (fun kv => parseDepth (snd kv))
                  (fun kv => JSON.quote (fst kv) ++ str ":" ++ JSON.stringify (snd kv))
                  entries) as H.
    cbv beta in H.
    assert (Hall : Forall (fun kv : jsstring * JsonValue =>
                     (parseDepth (snd kv)
                      <= 2 * length (JSON.quote (fst kv) ++ str ":"
                                     ++ JSON.stringify (snd kv)))%nat) entries).
    { eapply Forall_impl; [|exact IH]. intros kv Hkv. cbv beta in Hkv.
      rewrite !length_app. lia. }
    specialize (H Hall). unfold jsstring, char in *. lia.
Qed.

(** [JSON.parse] gives back every value that reads back from its text. *)
Lemma parse_stringify v :
  readsBack v -> JSON.parse (JSON.stringify v) = Some v.
Proof.
  intros Hv. unfold JSON.parse.
  pose proof (parseValue_stringify v Hv
                (2 * length (JSON.stringify v) + 2) [] ) as H.
  rewrite app_nil_r in H. rewrite H; [reflexivity | | reflexivity].
  pose proof (parseDepth_bound v). lia.
Qed.

(** The numbers that no text gives back: [NaN] and the infinities are
    written as [null], negative zero as [0]. *)
Lemma numberReadsBack_finite n :
  numberReadsBack n ->
  n <> JsNumber.NaN /\ (forall neg, n <> JsNumber.Infinity neg)
  /\ n <> JsNumber.Zero true.
Proof.
  intros H. destruct n as [| neg | [|] | neg m e].
  - discriminate H.
  - discriminate H.
  - discriminate H.
  - repeat split; try intros ?; discriminate.
  - repeat split; try intros ?; discriminate.
Qed.

(** Numbers that their text gives back: zero, integers, fractions, a
    number written with an exponent, and numbers that need 17 digits. *)
Lemma numbers_read_back :
  Forall numberReadsBack
    [ JsNumber.Zero false; JsNumber.of_Z 1; JsNumber.of_Z (-42);
      JsNumber.of_decimal false 1 (-1); JsNumber.of_decimal true 15 (-1);
      JsNumber.of_decimal false 1 21; JsNumber.of_decimal false 25 (-8);
      JsNumber.of_decimal false 9007199254740993 0;
      JsNumber.of_decimal false 30000000000000004 (-17) ].
Proof. repeat constructor; vm_compute; reflexivity. Qed.

End ReadBack.

Section ShareRoundTrip.

Local Open Scope N_scope.

Variable toLowerCase : jsstring -> jsstring.

Lemma encode_head c rest :
  c < 128 -> Utf8.encode (c :: rest) = c :: Utf8.encode rest.
Proof.
  intros Hc. unfold Utf8.encode. cbn [Utf8.codePoints].
  assert (Hh : JSON.isHighSurrogate c = false).
  { unfold JSON.isHighSurrogate. apply andb_false_iff. left. apply N.leb_gt. lia. }
  assert (Hl : JSON.isLowSurrogate c = false).
  { unfold JSON.isLowSurrogate. apply andb_false_iff. left. apply N.leb_gt. lia. }
  rewrite Hh, Hl. cbn [flat_map]. unfold Utf8.encodePoint at 1.
  destruct (N.ltb_spec c 128); [reflexivity | lia].
Qed.

Lemma urlDigits_head a bytes :
  exists tail, urlDigits (a :: bytes) = urlChar (Base64.digit (a / 4)) :: tail.
Proof.
  unfold urlDigits. destruct bytes as [|b [|c rest]];
    cbn [Base64.sextets map]; eexists; reflexivity.
Qed.

Lemma urlDigits_plain bytes :
  Forall (fun b => b < 256) bytes -> Forall (fun c => c <> 37) (urlDigits bytes).
Proof.
  intros Hb. pose proof (sextets_bound Hb) as Hv. unfold urlDigits.
  apply Forall_map, Forall_map. eapply Forall_impl; [|exact Hv].
  intros v H. apply (urlChar_digit v H).
Qed.

(** What [encodeBase64Utf8] makes of a well-formed text that starts with a
    plain code unit, and what the load boundary makes of the result. *)
Lemma encode_decode_text text :
  wellFormed16 text -> plainHead text ->
  encodeBase64Utf8 text = Some (urlDigits (Utf8.encode text))
  /\ safeDecodeURIComponent (urlDigits (Utf8.encode text))
     = urlDigits (Utf8.encode text)
  /\ decodeBase64Utf8 (urlDigits (Utf8.encode text)) = Some text
  /\ JSON.parse (urlDigits (Utf8.encode text)) = None.
Proof.
  intros Hwf (c & rest & -> & Hc).
  set (text := c :: rest) in *.
  pose proof (encode_bytes _ Hwf) as Hbytes.
  split; [|split; [|split]].
  - unfold encodeBase64Utf8, Base64.btoa.
    assert (Hall : forallb (fun c => c <=? 255) (Utf8.encode text) = true).
    { apply forallb_forall. intros b Hb.
      unfold asciiOnly in *. rewrite Forall_forall in Hbytes.
      apply N.leb_le. specialize (Hbytes b Hb). lia. }
    rewrite Hall. f_equal. now apply url_encoding.
  - apply safeDecodeURIComponent_plain. now apply urlDigits_plain.
  - unfold decodeBase64Utf8.
    rewrite normalizeBase64_urlDigits, atob_encodeBytes by assumption.
    f_equal. apply decode_encode; [exact Hwf|].
    unfold text. cbn [headIs].
    destruct (N.eqb_spec c 65279); [lia | reflexivity].
  - unfold text. rewrite encode_head by lia.
    destruct (urlDigits_head c (Utf8.encode rest)) as [tail ->].
    apply parse_letter_fails.
    apply (urlChar_digit (c / 4)); lia.
Qed.

Lemma firstParsed_last text parsed :
  firstParsed [text] parsed = parseJson text.
Proof. cbn [firstParsed]. now destruct (parseJson text). Qed.

(** C6 (as amended). For every value of 16-bit strings, the share encoding
    exists, and the decode path of the load (percent-decoding, base64 with
    the padding restored, UTF-8, JSON parse of the candidates) gives
    exactly what [JSON.parse] makes of the compact JSON text of the value;
    so it gives the value back when every number of the value reads back
    from its own text and every object is in enumeration order. *)
Theorem share_round_trip v st :
  codeUnitsValue v = true ->
  exists encoded,
    shareEncode v = Some encoded
    /\ decodeBase64Utf8 (safeDecodeURIComponent encoded) = Some (JSON.stringify v)
    /\ parsedJsonValue (fst (loadFromJsonText toLowerCase encoded st))
       = JSON.parse (JSON.stringify v)
    /\ (readsBack v ->
        snd (loadFromJsonText toLowerCase encoded st) = true
        /\ parsedJsonValue (fst (loadFromJsonText toLowerCase encoded st)) = Some v).
Proof.
  intros Hunits.
  destruct (encode_decode_text _ (stringify_wellFormed v Hunits) (stringify_head v))
    as (Henc & Huri & Hdec & Hraw).
  set (text := JSON.stringify v) in *.
  set (encoded := urlDigits (Utf8.encode text)) in *.
  exists encoded. split; [exact Henc|].
  split; [now rewrite Huri|].
  assert (Hfirst : firstParsed (parseTargets encoded) (ParseError NotJsonShaped)
                   = parseJson text).
  { unfold parseTargets. rewrite Huri, Hdec.
    destruct (nonEmpty text && negb (existsb (Js.eqb text) [encoded])) eqn:E.
    - cbn [firstParsed]. unfold parseJson at 1. rewrite Hraw.
      now destruct (parseJson text).
    - assert (Hne : nonEmpty text = true).
      { destruct (stringify_head v) as (c & rest & Ht & _).
        fold text in Ht. now rewrite Ht. }
      rewrite Hne in E. cbn [existsb andb] in E. rewrite orb_false_r in E.
      apply negb_false_iff, Js_eqb_eq in E.
      rewrite <- E. apply firstParsed_last. }
  assert (Hload : parsedJsonValue (fst (loadFromJsonText toLowerCase encoded st))
                  = JSON.parse text
                  /\ (forall w, JSON.parse text = Some w ->
                        snd (loadFromJsonText toLowerCase encoded st) = true)).
  { unfold loadFromJsonText. rewrite Hfirst. unfold parseJson.
    destruct (JSON.parse text) as [w|]; cbn; split; auto. discriminate. }
  destruct Hload as [Hvalue Hok].
  split; [exact Hvalue|].
  intros Hback. pose proof (parse_stringify v Hback) as Hparse.
  split; [exact (Hok v Hparse)|]. now rewrite Hvalue.
Qed.

End ShareRoundTrip.

Lemma share_round_trip_witness :
  exists encoded,
    shareEncode sampleDocument = Some encoded
    /\ parsedJsonValue (fst (loadFromJsonText asciiToLowerCase encoded initialApp))
       = Some sampleDocument.
Proof.
  destruct (share_round_trip asciiToLowerCase sampleDocument initialApp)
    as (encoded & Henc & _ & _ & Hback).
  - vm_compute. reflexivity.
  - exists encoded. split; [exact Henc|].
    apply Hback. vm_compute. repeat split.
Defined.

(** C6 (as stated) fails: the text [1e999] parses to the number
    [Infinity], whose compact JSON text is [null]; the share link of that
    value loads as [null]. *)
Lemma share_round_trip_loses_infinity :
  let v := JNumber (JsNumber.Infinity false) in
  JSON.parse (str "1e999") = Some v
  /\ JSON.stringify v = str "null"
  /\ shareEncode v = Some (str "bnVsbA")
  /\ snd (loadFromJsonText asciiToLowerCase (str "bnVsbA") initialApp) = true
  /\ parsedJsonValue (fst (loadFromJsonText asciiToLowerCase (str "bnVsbA") initialApp))
     = Some JNull
  /\ JNull <> v.
Proof.
  cbv zeta. repeat split; try (vm_compute; reflexivity). discriminate.
Qed.

(* ================================================================== *)
(** * Node ids, and the cache between two loads *)
(* ================================================================== *)

Lemma uint_chars_injective u u' : uint_chars u = uint_chars u' -> u = u'.
Proof.
  revert u'. induction u as [|u IH|u IH|u IH|u IH|u IH|u IH|u IH|u IH|u IH|u IH];
    intros [|u'|u'|u'|u'|u'|u'|u'|u'|u'|u']; cbn [uint_chars];
    try discriminate; try reflexivity;
    intros [= H]; f_equal; now apply IH.
Qed.

(** Two ids with the same text [node-<n>] have the same number, so a lookup
    by number is a lookup by text. *)
Lemma idText_injective a b : idText a = idText b -> a = b.
Proof.
  unfold idText, decimal. intros H. apply app_inv_head in H.
  apply uint_chars_injective, DecimalN.Unsigned.to_uint_inj in H.
  now apply Nat2N.inj.
Qed.

Section CacheBetweenLoads.

Variable toLowerCase : jsstring -> jsstring.

Lemma searchMatchIds_keeps_coherent treeNodes q cache :
  NoDup (map fst treeNodes) -> coherent treeNodes cache ->
  coherent treeNodes (snd (searchMatchIds treeNodes q cache)).
Proof.
  intros Hnd Hco. destruct q as [|c q]; [exact Hco|].
  now apply searchMatchIds_coherent.
Qed.

Lemma initialApp_invariant : cacheInvariant initialApp.
Proof. split; [constructor | exact I]. Qed.

Lemma step_invariant st e :
  cacheInvariant st -> cacheInvariant (step toLowerCase st e).
Proof.
  intros [Hnd Heff]. destruct e as [rawText | text | |]; cbn [step].
  - unfold loadFromJsonText.
    destruct (firstParsed _ _) as [value | error]; cbn [fst].
    + split; cbn.
      * apply WellFormed_NoDup, buildTree_WellFormed.
      * destruct (effectTreeIdentity st) as [ident|]; [|exact I].
        destruct Heff as [Hle _]. split; [lia | intros; lia].
    + split; [exact Hnd | exact Heff].
  - split; [exact Hnd | exact Heff].
  - unfold render.
    destruct (match memoSearchMatchIds st with Some _ => _ | None => _ end)
      as [matches|];
      [|destruct (searchMatchIds _ _ _) as [matches cache] eqn:Esearch];
      split; cbn; try exact Hnd; (split; [lia|]); intros _;
      destruct (effectTreeIdentity st) as [ident|]; try constructor;
      destruct Heff as [_ Hco];
      destruct (Nat.eqb_spec ident (treeIdentity st)) as [E|_];
      cbn; try constructor.
    + now apply Hco.
    + replace cache with (snd (searchMatchIds (nodes (treeData st))
                                 (normalize toLowerCase (deferredSearchInput st))
                                 (searchResultCache st)))
        by now rewrite Esearch.
      apply searchMatchIds_keeps_coherent; auto.
  - unfold render.
    destruct (match memoSearchMatchIds st with Some _ => _ | None => _ end)
      as [matches|];
      [|destruct (searchMatchIds _ _ _) as [matches cache] eqn:Esearch];
      split; cbn; try exact Hnd; (split; [lia|]); intros _;
      destruct (effectTreeIdentity st) as [ident|]; try constructor;
      destruct Heff as [_ Hco];
      destruct (Nat.eqb_spec ident (treeIdentity st)) as [E|_];
      cbn; try constructor.
    + now apply Hco.
    + replace cache with (snd (searchMatchIds (nodes (treeData st))
                                 (normalize toLowerCase (searchInput st))
                                 (searchResultCache st)))
        by now rewrite Esearch.
      apply searchMatchIds_keeps_coherent; auto.
Qed.

Lemma run_invariant events st :
  cacheInvariant st -> cacheInvariant (run toLowerCase events st).
Proof.
  revert st. induction events as [|e events IH]; intros st H; [exact H|].
  cbn [run fold_left]. apply IH. now apply step_invariant.
Qed.

(** What the code does keep: after any render, whatever came before, every
    cache entry is a scan of the tree at hand.  The cache is stale only
    from a load to the end of the render that follows it. *)
Lemma cache_coherent_after_render events urgent :
  let st := render toLowerCase urgent (run toLowerCase events initialApp) in
  coherent (nodes (treeData st)) (searchResultCache st).
Proof.
  intros st.
  pose proof (step_invariant (run toLowerCase events initialApp)
                (if urgent then RenderUrgent else RenderDeferred)
                (run_invariant events _ initialApp_invariant)) as [_ H].
  assert (Hst : step toLowerCase (run toLowerCase events initialApp)
                  (if urgent then RenderUrgent else RenderDeferred) = st).
  { now destruct urgent. }
  rewrite Hst in H.
  assert (Heff : effectTreeIdentity st = Some (treeIdentity st)).
  { unfold st, render.
    destruct (match memoSearchMatchIds _ with Some _ => _ | None => _ end);
      [|destruct (searchMatchIds _ _ _)]; reflexivity. }
  rewrite Heff in H. now apply H.
Qed.

End CacheBetweenLoads.

(* ================================================================== *)
(** * The share-link codec on any string *)
(* ================================================================== *)

Section CodecOnStrings.

Local Open Scope N_scope.

(** The code points of any string of 16-bit code units are scalar values:
    a lone surrogate reads as U+FFFD. *)
Lemma codePoints_scalar_any s :
  codeUnits s = true -> Forall scalarValue (Utf8.codePoints s).
Proof.
  remember (length s) as n eqn:Hn. revert s Hn.
  induction n as [n IH] using lt_wf_ind. intros s Hn Hs.
  destruct s as [|c rest]; [constructor|].
  cbn [codeUnits forallb] in Hs. apply andb_true_iff in Hs as [Hc Hrest].
  apply N.ltb_lt in Hc. cbn [length] in Hn.
  assert (Hrec : Forall scalarValue (Utf8.codePoints rest)).
  { apply (IH (length rest)); [lia | reflexivity | exact Hrest]. }
  assert (Hrepl : scalarValue Utf8.replacement).
  { unfold scalarValue, Utf8.replacement. lia. }
  cbn [Utf8.codePoints].
  destruct (JSON.isHighSurrogate c) eqn:Hh.
  - destruct rest as [|d rest']; [constructor; [exact Hrepl | constructor]|].
    destruct (JSON.isLowSurrogate d) eqn:Hl.
    + constructor.
      * apply surrogate_ranges in Hh, Hl. unfold scalarValue. lia.
      * cbn [codeUnits forallb] in Hrest. apply andb_true_iff in Hrest as [_ Hrest].
        apply (IH (length rest')); [cbn [length] in Hn; lia | reflexivity | exact Hrest].
    + constructor; assumption.
  - destruct (JSON.isLowSurrogate c) eqn:Hl; constructor; try assumption.
    pose proof (not_surrogate _ Hh Hl). unfold scalarValue. lia.
Qed.

Lemma encode_bytes_any s :
  codeUnits s = true -> Forall (fun b => b < 256) (Utf8.encode s).
Proof.
  intros H. apply codePoints_scalar_any in H. unfold Utf8.encode.
  induction H as [|cp points Hcp _ IH]; [constructor|].
  cbn [flat_map]. apply Forall_app. split; [now apply encodePoint_bytes | exact IH].
Qed.

Lemma wellFormed16_codeUnits s : wellFormed16 s -> codeUnits s = true.
Proof.
  induction 1 as [| c rest Hc _ _ _ IH | h l rest Hh Hl _ IH]; [reflexivity | |].
  - cbn [codeUnits forallb]. apply andb_true_iff. split; [now apply N.ltb_lt | exact IH].
  - apply surrogate_ranges in Hh, Hl. cbn [codeUnits forallb].
    rewrite !andb_true_iff. repeat split; try (apply N.ltb_lt; lia). exact IH.
Qed.

(** [encodeBase64Utf8] never throws: the bytes of [TextEncoder] are code
    units that [btoa] takes. *)
Lemma encodeBase64Utf8_digits s :
  codeUnits s = true ->
  encodeBase64Utf8 s = Some (urlDigits (Utf8.encode s)).
Proof.
  intros Hs. pose proof (encode_bytes_any s Hs) as Hbytes.
  unfold encodeBase64Utf8, Base64.btoa.
  assert (Hall : forallb (fun c => c <=? 255) (Utf8.encode s) = true).
  { apply forallb_forall. intros b Hb. rewrite Forall_forall in Hbytes.
    apply N.leb_le. specialize (Hbytes b Hb). lia. }
  rewrite Hall. f_equal. now apply url_encoding.
Qed.

Lemma decodeBase64Utf8_digits bytes :
  Forall (fun b => b < 256) bytes ->
  decodeBase64Utf8 (urlDigits bytes) = Some (Utf8.decode bytes).
Proof.
  intros Hb. unfold decodeBase64Utf8.
  now rewrite normalizeBase64_urlDigits, atob_encodeBytes by assumption.
Qed.

(** [TextDecoder] on the bytes of a well-formed string: the string, less
    a byte order mark at its head. *)
Lemma decode_encode_mark s :
  wellFormed16 s -> Utf8.decode (Utf8.encode s) = withoutByteOrderMark s.
Proof.
  intros Hwf. unfold withoutByteOrderMark.
  destruct (headIs 65279 s) as [rest|] eqn:Hhead; [|now apply decode_encode].
  destruct s as [|c s']; [discriminate|]. cbn [headIs] in Hhead.
  destruct (N.eqb_spec c 65279) as [-> | _]; [|discriminate].
  injection Hhead as <-.
  assert (Hrest : wellFormed16 s').
  { inversion Hwf as [| c rest Hc Hh Hl Hr | h l rest Hh Hl Hr]; subst; [exact Hr|].
    vm_compute in Hh. discriminate. }
  unfold Utf8.decode, Utf8.encode.
  rewrite decodePoints_encode by now apply codePoints_scalar.
  change (Utf8.codePoints (65279 :: s')) with (65279 :: Utf8.codePoints s').
  cbn [headIs]. rewrite N.eqb_refl. now apply codePoints_units.
Qed.

(** X1. [decodeBase64Utf8] undoes [encodeBase64Utf8] on every well-formed
    string, but for a byte order mark at the head of the string, which is
    lost. *)
Theorem decodeBase64Utf8_encodeBase64Utf8 s :
  wellFormed16 s ->
  exists encoded,
    encodeBase64Utf8 s = Some encoded
    /\ decodeBase64Utf8 encoded = Some (withoutByteOrderMark s).
Proof.
  intros Hwf. exists (urlDigits (Utf8.encode s)).
  split; [apply encodeBase64Utf8_digits, wellFormed16_codeUnits, Hwf|].
  rewrite decodeBase64Utf8_digits by now apply encode_bytes.
  f_equal. now apply decode_encode_mark.
Qed.

Lemma isBase64Url_urlChar v :
  v < 64 -> isBase64Url (urlChar (Base64.digit v)) = true.
Proof.
  intros Hv.
  exact (below_64_cases (fun v => isBase64Url (urlChar (Base64.digit v)))
           eq_refl v Hv).
Qed.

(** X2. [encodeBase64Utf8] never throws, and its result is made of
    letters, digits, [-] and [_] only: no padding, nothing that percent
    decoding would change. *)
Theorem encodeBase64Utf8_url_safe s :
  codeUnits s = true ->
  exists encoded,
    encodeBase64Utf8 s = Some encoded
    /\ forallb isBase64Url encoded = true
    /\ safeDecodeURIComponent encoded = encoded.
Proof.
  intros Hs. exists (urlDigits (Utf8.encode s)).
  pose proof (encode_bytes_any s Hs) as Hbytes.
  split; [now apply encodeBase64Utf8_digits|]. split.
  - apply forallb_forall. intros c Hc. unfold urlDigits in Hc.
    rewrite map_map in Hc. apply in_map_iff in Hc as (v & <- & Hv).
    pose proof (sextets_bound Hbytes) as Hbound. rewrite Forall_forall in Hbound.
    apply isBase64Url_urlChar, Hbound, Hv.
  - apply safeDecodeURIComponent_plain. unfold urlDigits.
    apply Forall_map, Forall_map. eapply Forall_impl; [|exact (sextets_bound Hbytes)].
    intros v H. apply (urlChar_digit v H).
Qed.

Lemma normalizeBase64_standard bytes :
  Forall (fun b => b < 256) bytes ->
  normalizeBase64 (Base64.encodeBytes bytes) = Base64.encodeBytes bytes.
Proof.
  intros Hb. pose proof (sextets_bound Hb) as Hv.
  destruct (sextets_length bytes) as [Hlen Hp].
  unfold normalizeBase64. rewrite unurl_map.
  assert (Hsame : map unurlChar (Base64.encodeBytes bytes) = Base64.encodeBytes bytes).
  { rewrite encodeBytes_shape, map_app. f_equal.
    - rewrite map_map. apply map_ext_in. intros v Hin.
      rewrite Forall_forall in Hv. specialize (Hv v Hin).
      destruct (digit_value Hv) as (_ & _ & _ & _ & H45 & H95 & _).
      unfold unurlChar.
      destruct (N.eqb_spec (Base64.digit v) 45); [contradiction|]. cbv iota.
      destruct (N.eqb_spec (Base64.digit v) 95); [contradiction | reflexivity].
    - generalize (Base64.padCount bytes) as p.
      induction p as [|p IH]; [reflexivity|].
      cbn [repeat map]. now rewrite IH. }
  rewrite Hsame.
  assert (Hmod : (length (Base64.encodeBytes bytes) mod 4 = 0)%nat).
  { rewrite encodeBytes_shape, length_app, length_map, repeat_length.
    rewrite <- Nat.Div0.add_mod_idemp_l, Hlen.
    destruct (Base64.padCount bytes) as [|[|[|p]]]; [reflexivity.. | lia]. }
  now rewrite Hmod.
Qed.

(** X3. [decodeBase64Utf8] reads the standard base64 of a byte sequence,
    with [+], [/] and padding, and its URL-safe form without padding
    alike: both give the UTF-8 decoding of the bytes. *)
Theorem decodeBase64Utf8_both_forms bytes :
  Forall (fun b => b < 256) bytes ->
  decodeBase64Utf8 (Base64.encodeBytes bytes) = Some (Utf8.decode bytes)
  /\ decodeBase64Utf8 (urlDigits bytes) = Some (Utf8.decode bytes).
Proof.
  intros Hb. split; [|now apply decodeBase64Utf8_digits].
  unfold decodeBase64Utf8.
  now rewrite normalizeBase64_standard, atob_encodeBytes by assumption.
Qed.

End CodecOnStrings.

Lemma wellFormed16_sample :
  wellFormed16 [65279; 104; 233; 55357; 56832]%N.
Proof.
  apply wf16_unit; [reflexivity..|]. apply wf16_unit; [reflexivity..|].
  apply wf16_unit; [reflexivity..|]. apply wf16_pair; [reflexivity..|].
  apply wf16_nil.
Qed.

Lemma decodeBase64Utf8_encodeBase64Utf8_witness :
  exists encoded,
    encodeBase64Utf8 [65279; 104; 233; 55357; 56832]%N = Some encoded
    /\ decodeBase64Utf8 encoded = Some [104; 233; 55357; 56832]%N.
Proof.
  exact (decodeBase64Utf8_encodeBase64Utf8 [65279; 104; 233; 55357; 56832]%N
           wellFormed16_sample).
Defined.

Lemma encodeBase64Utf8_url_safe_witness :
  exists encoded,
    encodeBase64Utf8 [62; 62; 63; 55357]%N = Some encoded
    /\ forallb isBase64Url encoded = true
    /\ safeDecodeURIComponent encoded = encoded.
Proof.
  apply (encodeBase64Utf8_url_safe [62; 62; 63; 55357]%N). reflexivity.
Defined.

Lemma decodeBase64Utf8_both_forms_witness :
  decodeBase64Utf8 (str "Pj4/") = Some (str ">>?")
  /\ decodeBase64Utf8 (str "Pj4_") = Some (str ">>?").
Proof.
  apply (decodeBase64Utf8_both_forms [62; 62; 63]%N).
  repeat constructor.
Defined.

(* ================================================================== *)
(** * The search engine between two keystrokes *)
(* ================================================================== *)

Section SearchSteps.

Lemma includes_app s q x :
  includes s (q ++ x) = true -> includes s q = true.
Proof.
  intros H. apply (includes_firstn _ _ (length q)) in H.
  now rewrite firstn_app, Nat.sub_diag, firstn_all, firstn_O, app_nil_r in H.
Qed.

(** X4. Typing on narrows the matches: over the tree of any value, every
    match of a query that extends a non-empty query is a match of that
    query, whatever searches went before each of the two. *)
Theorem longer_query_narrows toLowerCase v qs qs' q x k :
  q <> [] ->
  let treeNodes := nodes (buildTree toLowerCase v) in
  In k (fst (searchMatchIds treeNodes (q ++ x) (searchRun treeNodes qs' []))) ->
  In k (fst (searchMatchIds treeNodes q (searchRun treeNodes qs []))).
Proof.
  intros Hq treeNodes.
  pose proof (buildTree_WellFormed toLowerCase v) as wf.
  assert (Hnd : NoDup (map fst treeNodes)) by now apply WellFormed_NoDup.
  assert (Hqx : q ++ x <> []) by (destruct q; [congruence | discriminate]).
  rewrite (proj1 (searchMatchIds_coherent treeNodes (q ++ x) _ Hnd
                    (searchRun_coherent treeNodes qs' [] Hnd (Forall_nil _)) Hqx)).
  rewrite (proj1 (searchMatchIds_coherent treeNodes q _ Hnd
                    (searchRun_coherent treeNodes qs [] Hnd (Forall_nil _)) Hq)).
  rewrite !naiveSearch_In by exact Hnd.
  intros (n & Hn & Hinc). exists n. split; [exact Hn|].
  now apply includes_app in Hinc.
Qed.

Lemma Cache_get_set_same cache key v :
  Cache.get (Cache.set cache key v) key = Some v.
Proof.
  induction cache as [|[k w] cache IH]; cbn [Cache.set Cache.get].
  - now rewrite Js_eqb_refl.
  - destruct (Js.eqb k key) eqn:E; cbn [Cache.get]; rewrite E; [reflexivity | exact IH].
Qed.

(** X5. A result is found again: after the search for a non-empty query,
    the cache holds the result under the query, and the same search run
    again returns that result and leaves the cache as it is. *)
Theorem searchMatchIds_cached treeNodes q cache :
  q <> [] ->
  let result := fst (searchMatchIds treeNodes q cache) in
  let cache' := snd (searchMatchIds treeNodes q cache) in
  Cache.get cache' q = Some result
  /\ searchMatchIds treeNodes q cache' = (result, cache').
Proof.
  intros Hq result cache'.
  assert (Hget : Cache.get cache' q = Some result).
  { unfold result, cache', searchMatchIds.
    destruct q as [|c q]; [congruence|].
    destruct (Cache.get cache (c :: q)) as [cached|] eqn:E; cbn [fst snd].
    - exact E.
    - apply Cache_get_set_same. }
  split; [exact Hget|].
  unfold searchMatchIds at 1. destruct q as [|c q]; [congruence|].
  now rewrite Hget.
Qed.

End SearchSteps.

Lemma longer_query_narrows_witness :
  let treeNodes :=
    nodes (buildTree asciiToLowerCase (JArray [JString (str "hit"); JString (str "hat")])) in
  In 1 (fst (searchMatchIds treeNodes (str "h") (searchRun treeNodes [] []))).
Proof.
  apply (longer_query_narrows asciiToLowerCase
           (JArray [JString (str "hit"); JString (str "hat")])
           [] [str "h"] (str "h") (str "it") 1).
  - discriminate.
  - vm_compute. now left.
Defined.

Lemma searchMatchIds_cached_witness :
  let treeNodes :=
    nodes (buildTree asciiToLowerCase (JArray [JString (str "hit"); JString (str "hat")])) in
  Cache.get (snd (searchMatchIds treeNodes (str "hi") [])) (str "hi") = Some [1].
Proof.
  exact (proj1 (searchMatchIds_cached
                  (nodes (buildTree asciiToLowerCase
                            (JArray [JString (str "hit"); JString (str "hat")])))
                  (str "hi") [] ltac:(discriminate))).
Defined.

(* ================================================================== *)
(** * The layout of the node map *)
(* ================================================================== *)

Section LayoutProperties.

Variable toLowerCase : jsstring -> jsstring.

Local Abbreviation Laid := (Laid toLowerCase).
Local Abbreviation LaidChildren := (LaidChildren toLowerCase).
Local Abbreviation build_laid := (build_laid toLowerCase).

Lemma Laid_keys_both :
  (forall v segs dk parent d i seg,
      Laid v segs dk parent d i seg -> map fst seg = seq i (length seg))
  /\ (forall segs i d cs start ids all,
         LaidChildren segs i d cs start ids all ->
         map fst all = seq start (length all)).
Proof.
  apply Laid_mutind.
  - intros v segs dk parent d i ids all _ IH. cbn. now rewrite IH.
  - reflexivity.
  - intros segs i d seg key child cs start seg1 ids rest _ IH1 _ IH2.
    now rewrite map_app, length_app, seq_app, IH1, IH2.
Qed.

Lemma Laid_keys {v segs dk parent d i seg} :
  Laid v segs dk parent d i seg -> map fst seg = seq i (length seg).
Proof. apply Laid_keys_both. Qed.

(** The loop over the children lays their entries one after the other. *)
Lemma build_children_laid segs i d node0 pre cs :
  (forall c, In c cs -> build_laid (snd c)) ->
  map fst pre = seq 0 i ->
  forall ch0 acc st,
    built st = pre ++ (i, setChildren ch0 node0) :: acc ->
    sequence st = S i + length acc ->
    map fst acc = seq (S i) (length acc) ->
    exists ids all,
      built (fold_left (buildChild toLowerCase segs i d) cs st)
      = pre ++ (i, setChildren (ch0 ++ ids) node0) :: acc ++ all
      /\ sequence (fold_left (buildChild toLowerCase segs i d) cs st)
         = S i + length acc + length all
      /\ LaidChildren segs i d cs (S i + length acc) ids all.
Proof.
  intros Hcs Hpre.
  assert (Hfresh : ~ In i (map fst pre)) by (rewrite Hpre, in_seq; lia).
  induction cs as [|[[sg ky] child] cs IH]; intros ch0 acc st Hb Hs Hacc.
  - exists [], []. cbn [fold_left length]. rewrite !app_nil_r.
    split; [exact Hb|]. split; [lia | constructor].
  - cbn [fold_left].
    assert (Hk : keys_ok st).
    { unfold keys_ok. rewrite Hb, Hs, map_app, map_cons, Hpre, Hacc.
      replace (S i + length acc) with (i + S (length acc)) by lia.
      rewrite seq_app. reflexivity. }
    destruct (Hcs _ (or_introl eq_refl) (segs ++ [sg]) (Some ky) (Some i) (d + 1) st Hk)
      as (Hid & seg1 & Hb1 & Hs1 & Hlaid).
    cbn [fst snd] in Hid, Hb1, Hs1, Hlaid.
    assert (Hstep : buildChild toLowerCase segs i d st (sg, ky, child)
                    = pushChild i (sequence st)
                        (snd (build toLowerCase child (segs ++ [sg]) (Some ky)
                                    (Some i) (d + 1) st))).
    { unfold buildChild. cbn [fst snd].
      destruct (build toLowerCase child (segs ++ [sg]) (Some ky) (Some i) (d + 1) st)
        as [cid st0].
      cbn [fst snd] in *. now subst cid. }
    rewrite Hstep. clear Hstep Hid.
    set (st' := snd (build toLowerCase child (segs ++ [sg]) (Some ky)
                           (Some i) (d + 1) st)) in *.
    clearbody st'.
    assert (Hpush : pushChild i (sequence st) st'
                    = {| built := pre ++ (i, withChild (sequence st) (setChildren ch0 node0))
                                        :: (acc ++ seg1);
                         sequence := sequence st' |}).
    { apply pushChild_at; [|exact Hfresh]. now rewrite Hb1, Hb, <- app_assoc. }
    destruct (IH (fun c Hc => Hcs c (or_intror Hc)) (ch0 ++ [sequence st]) (acc ++ seg1)
                 (pushChild i (sequence st) st'))
      as (ids & all & Hbf & Hsf & Hch).
    + rewrite Hpush. reflexivity.
    + rewrite Hpush. cbn [sequence]. rewrite Hs1, Hs, length_app. lia.
    + rewrite map_app, length_app, seq_app, Hacc, (Laid_keys Hlaid), Hs. reflexivity.
    + exists (sequence st :: ids), (seg1 ++ all).
      split; [|split].
      * rewrite Hbf, <- !app_assoc. reflexivity.
      * rewrite Hsf, !length_app. lia.
      * rewrite <- Hs. constructor; [exact Hlaid|].
        rewrite Hs. rewrite length_app in Hch.
        now rewrite Nat.add_assoc in Hch.
Qed.

Lemma build_is_laid v : build_laid v.
Proof.
  induction v as [v IH] using JsonValue_children_ind.
  intros segs dk parent d st Hk. rewrite build_unfold. cbn [fst snd].
  split; [reflexivity|].
  assert (Hfresh : ~ In (sequence st) (map fst (built st))).
  { rewrite Hk, in_seq. lia. }
  set (node0 := newNode toLowerCase (sequence st) v segs dk parent d).
  destruct (@build_children_laid segs (sequence st) d node0 (built st) (children v)
              IH Hk [] []
              {| built := Nodes_set (built st) (sequence st) node0;
                 sequence := S (sequence st) |})
    as (ids & all & Hb & Hs & Hch).
  - cbn [built]. now rewrite Nodes_set_fresh.
  - cbn. lia.
  - reflexivity.
  - exists ((sequence st, setChildren ids node0) :: all).
    split; [exact Hb|]. split; [rewrite Hs; cbn; lia|].
    constructor. cbn in Hch. now rewrite Nat.add_0_r in Hch.
Qed.

(** The node map of a tree is the layout of the document from id 0. *)
Lemma buildTree_laid v :
  Laid v [] None None 0 0 (nodes (buildTree toLowerCase v)).
Proof.
  unfold buildTree.
  destruct (@build_is_laid v [] None None 0 {| built := []; sequence := 0 |} eq_refl)
    as (Hid & seg & Hb & _ & Hlaid).
  destruct (build toLowerCase v [] None None 0 _) as [rootId st].
  cbn in *. now rewrite Hb.
Qed.

(** Every entry of a layout is the node of a value, with the ids of the
    children laid after it. *)
Lemma Laid_sub_both :
  (forall v segs dk parent d i seg,
      Laid v segs dk parent d i seg ->
      forall k n, In (k, n) seg ->
        exists v' segs' dk' parent' d' ids all',
          n = setChildren ids (newNode toLowerCase k v' segs' dk' parent' d')
          /\ LaidChildren segs' k d' (children v') (S k) ids all'
          /\ incl all' seg)
  /\ (forall segs i d cs start ids all,
         LaidChildren segs i d cs start ids all ->
         forall k n, In (k, n) all ->
           exists v' segs' dk' parent' d' ids' all',
             n = setChildren ids' (newNode toLowerCase k v' segs' dk' parent' d')
             /\ LaidChildren segs' k d' (children v') (S k) ids' all'
             /\ incl all' all).
Proof.
  apply Laid_mutind.
  - intros v segs dk parent d i ids all Hch IH k n [Heq | Hin].
    + injection Heq as <- <-.
      exists v, segs, dk, parent, d, ids, all.
      split; [reflexivity|]. split; [exact Hch | now apply incl_tl].
    + destruct (IH k n Hin) as (v' & segs' & dk' & parent' & d' & ids' & all' & H1 & H2 & H3).
      exists v', segs', dk', parent', d', ids', all'.
      split; [exact H1|]. split; [exact H2 | now apply incl_tl].
  - intros segs i d start k n [].
  - intros segs i d seg key child cs start seg1 ids rest _ IH1 _ IH2 k n Hin.
    apply in_app_or in Hin as [Hin | Hin].
    + destruct (IH1 k n Hin) as (v' & segs' & dk' & parent' & d' & ids' & all' & H1 & H2 & H3).
      exists v', segs', dk', parent', d', ids', all'.
      split; [exact H1|]. split; [exact H2 | now apply incl_appl].
    + destruct (IH2 k n Hin) as (v' & segs' & dk' & parent' & d' & ids' & all' & H1 & H2 & H3).
      exists v', segs', dk', parent', d', ids', all'.
      split; [exact H1|]. split; [exact H2 | now apply incl_appr].
Qed.

(** The ids of the children are those of the nodes of the children, one
    for one and in their order. *)
Lemma LaidChildren_heads segs i d cs start ids all :
  LaidChildren segs i d cs start ids all ->
  Forall2 (fun c id =>
             exists ch,
               In (id, setChildren ch
                         (newNode toLowerCase id (snd c) (segs ++ [fst (fst c)])
                                  (Some (snd (fst c))) (Some i) (d + 1))) all)
          cs ids.
Proof.
  induction 1 as [| segs i d seg key child cs start seg1 ids rest Hlaid _ IH];
    [constructor|].
  constructor.
  - inversion Hlaid as [? ? ? ? ? ? ids1 all1 _]; subst.
    exists ids1. cbn [fst snd]. now left.
  - eapply Forall2_impl; [|exact IH].
    intros c id (ch & Hin). exists ch. apply in_or_app. now right.
Qed.

Lemma size_indexed index items :
  list_sum (map (fun c => size (snd c)) (indexed index items))
  = list_sum (map size items).
Proof.
  revert index. induction items as [|x items IH]; intros index; [reflexivity|].
  cbn [indexed map]. unfold list_sum in *. cbn [fold_right snd]. f_equal. apply IH.
Qed.

Lemma size_children v :
  size v = S (list_sum (map (fun c => size (snd c)) (children v))).
Proof.
  destruct v as [| b | n | s | items | entries]; try reflexivity.
  - cbn [size children]. now rewrite size_indexed.
  - cbn [size children]. now rewrite map_map.
Qed.

Lemma Laid_length_both :
  (forall v segs dk parent d i seg,
      Laid v segs dk parent d i seg -> length seg = size v)
  /\ (forall segs i d cs start ids all,
         LaidChildren segs i d cs start ids all ->
         length all = list_sum (map (fun c => size (snd c)) cs)).
Proof.
  apply Laid_mutind.
  - intros v segs dk parent d i ids all _ IH.
    rewrite size_children. cbn [length]. now rewrite IH.
  - reflexivity.
  - intros segs i d seg key child cs start seg1 ids rest _ IH1 _ IH2.
    rewrite length_app, IH1, IH2. reflexivity.
Qed.

End LayoutProperties.

(** X6. The tree holds one node for each value of the document, the
    document itself included, and their ids are [node-0], [node-1], ...
    with no gap, in the order of the node map. *)
Theorem buildTree_node_count toLowerCase v :
  length (nodes (buildTree toLowerCase v)) = size v
  /\ map fst (nodes (buildTree toLowerCase v)) = seq 0 (size v).
Proof.
  pose proof (buildTree_laid toLowerCase v) as Hlaid.
  pose proof (proj1 (Laid_length_both toLowerCase) _ _ _ _ _ _ _ Hlaid) as Hlen.
  split; [exact Hlen|]. rewrite <- Hlen. exact (Laid_keys toLowerCase Hlaid).
Qed.

Section TreeNodes.

Variable toLowerCase : jsstring -> jsstring.
Variable v : JsonValue.

Local Abbreviation tree := (buildTree toLowerCase v).

(** A node of the tree is the node [build] made for its value, and the
    nodes of its children are in the map. *)
Lemma tree_node_children k n :
  Nodes_get (nodes tree) k = Some n ->
  n = setChildren (childrenIds n)
        (newNode toLowerCase k (value n) (pathSegments n) (displayKey n)
                 (parentId n) (depth n))
  /\ Forall2 (fun c id =>
                exists cn,
                  Nodes_get (nodes tree) id = Some cn
                  /\ value cn = snd c
                  /\ pathSegments cn = pathSegments n ++ [fst (fst c)]
                  /\ displayKey cn = Some (snd (fst c))
                  /\ parentId cn = Some k
                  /\ depth cn = depth n + 1)
             (children (value n)) (childrenIds n).
Proof.
  intros Hget.
  pose proof (buildTree_laid toLowerCase v) as Hlaid.
  assert (Hnd : NoDup (map fst (nodes tree))).
  { apply WellFormed_NoDup, buildTree_WellFormed. }
  destruct (proj1 (Laid_sub_both toLowerCase) _ _ _ _ _ _ _ Hlaid k n (Nodes_get_In Hget))
    as (v' & segs' & dk' & parent' & d' & ids & all' & -> & Hch & Hincl).
  split; [reflexivity|]. cbn.
  eapply Forall2_impl; [|exact (LaidChildren_heads toLowerCase _ _ _ _ _ _ _ Hch)].
  intros c id (ch & Hin). eexists. split.
  - apply (In_Nodes_get Hnd). apply Hincl, Hin.
  - cbn. repeat split.
Qed.

Lemma tree_root_node :
  exists rn,
    Nodes_get (nodes tree) 0 = Some rn
    /\ value rn = v /\ pathSegments rn = [] /\ displayKey rn = None
    /\ parentId rn = None /\ depth rn = 0.
Proof.
  pose proof (buildTree_laid toLowerCase v) as Hlaid.
  inversion Hlaid; subst.
  eexists. split; [reflexivity|]. cbn. repeat split.
Qed.

Lemma pathText_of_node k n :
  Nodes_get (nodes tree) k = Some n ->
  pathText n = pathTextFromSegments (pathSegments n).
Proof.
  intros Hget. destruct (tree_node_children k n Hget) as [Hn _].
  rewrite Hn. reflexivity.
Qed.

Lemma Forall2_In_r {A B} (R : A -> B -> Prop) l l' y :
  Forall2 R l l' -> In y l' -> exists x, In x l /\ R x y.
Proof.
  induction 1 as [|x y' l l' HR _ IH]; [intros []|].
  intros [<- | Hin].
  - exists x. split; [now left | exact HR].
  - destruct (IH Hin) as (x' & Hx' & HR'). exists x'. split; [now right | exact HR'].
Qed.

End TreeNodes.

(** X7. The children of a node are the nodes of the properties of its
    object, or of the elements of its array, one for one and in their
    order: the child shows the key (or the index, as a string), holds the
    value, extends the path text of the node by its own segment, names the
    node as its parent and lies one level deeper. *)
Theorem children_follow_value toLowerCase v k n :
  let tree := buildTree toLowerCase v in
  Nodes_get (nodes tree) k = Some n ->
  Forall2 (fun c id =>
             exists cn,
               Nodes_get (nodes tree) id = Some cn
               /\ value cn = snd c
               /\ displayKey cn = Some (snd (fst c))
               /\ pathText cn = pathText n ++ segmentText (fst (fst c))
               /\ parentId cn = Some k
               /\ depth cn = S (depth n))
          (children (value n)) (childrenIds n).
Proof.
  intros tree Hget.
  destruct (tree_node_children toLowerCase v k n Hget) as [_ Hch].
  eapply Forall2_impl; [|exact Hch].
  intros c id (cn & Hcn & Hval & Hsegs & Hkey & Hparent & Hdepth).
  exists cn. split; [exact Hcn|]. split; [exact Hval|]. split; [exact Hkey|].
  split; [|split; [exact Hparent | lia]].
  rewrite (pathText_of_node toLowerCase v id cn Hcn).
  rewrite (pathText_of_node toLowerCase v k n Hget), Hsegs.
  rewrite !pathText_concat, map_app, concat_app. cbn [map concat].
  now rewrite app_nil_r, app_assoc.
Qed.

Lemma children_follow_value_witness :
  let tree := buildTree asciiToLowerCase
                (JObject [(str "a b", JArray [JNull; JBool true])]) in
  exists n cn,
    Nodes_get (nodes tree) 1 = Some n
    /\ Nodes_get (nodes tree) 3 = Some cn
    /\ childrenIds n = [2; 3]
    /\ displayKey cn = Some (str "1")
    /\ pathText cn = pathText n ++ str "[1]".
Proof.
  cbv zeta.
  set (doc := JObject [(str "a b", JArray [JNull; JBool true])]).
  destruct (Nodes_get (nodes (buildTree asciiToLowerCase doc)) 1) as [n|] eqn:Hn;
    [|vm_compute in Hn; discriminate].
  pose proof (children_follow_value asciiToLowerCase doc 1 n Hn) as H.
  assert (Hval : value n = JArray [JNull; JBool true])
    by (vm_compute in Hn; injection Hn as <-; reflexivity).
  assert (Hids : childrenIds n = [2; 3])
    by (vm_compute in Hn; injection Hn as <-; reflexivity).
  rewrite Hval, Hids in H. cbn [children indexed] in H.
  inversion H as [|? ? ? ? _ Hrest]; subst.
  inversion Hrest as [|? ? ? ? (cn & Hcn & _ & Hkey & Hpath & _) _]; subst.
  exists n, cn. repeat split; assumption.
Defined.

(** X8. The count that the row of an object or of an array shows is the
    number of its children; the row of any other value has no child and
    shows the compact JSON text of the value. *)
Theorem summary_counts_children toLowerCase v k n :
  Nodes_get (nodes (buildTree toLowerCase v)) k = Some n ->
  match value n with
  | JObject _ =>
      hasChildren n = true
      /\ summary n = str "{" ++ decimal (N.of_nat (length (childrenIds n)))
                     ++ str " keys}"
  | JArray _ =>
      hasChildren n = true
      /\ summary n = str "[" ++ decimal (N.of_nat (length (childrenIds n)))
                     ++ str " items]"
  | _ =>
      hasChildren n = false /\ childrenIds n = []
      /\ summary n = JSON.stringify (value n)
  end.
Proof.
  intros Hget.
  destruct (tree_node_children toLowerCase v k n Hget) as [Hn Hch].
  apply Forall2_length in Hch.
  assert (Hsum : summary n = summaryOf (determineKind (value n)) (value n))
    by (rewrite Hn; reflexivity).
  assert (Hhas : hasChildren n
                 = NodeKind_eqb (determineKind (value n)) KObject
                   || NodeKind_eqb (determineKind (value n)) KArray)
    by (rewrite Hn; reflexivity).
  rewrite Hsum, Hhas.
  destruct (value n) as [| b | x | s | items | entries];
    cbn [determineKind summaryOf NodeKind_eqb orb children] in *;
    try (repeat split; try reflexivity;
         destruct (childrenIds n); [reflexivity | discriminate]).
  - split; [reflexivity|].
    assert (Hidx : forall i, length (indexed i items) = length items).
    { clear. induction items as [|x items IH]; intros i; [reflexivity|].
      cbn [indexed length]. now rewrite IH. }
    rewrite Hidx in Hch. now rewrite Hch.
  - split; [reflexivity|]. unfold Object_keys.
    rewrite length_map in Hch. now rewrite length_map, Hch.
Qed.

Lemma summary_counts_children_witness :
  exists n,
    Nodes_get (nodes (buildTree asciiToLowerCase
                        (JObject [(str "a", JNull); (str "b", JArray [])]))) 0
    = Some n
    /\ summary n = str "{2 keys}" /\ length (childrenIds n) = 2.
Proof.
  set (doc := JObject [(str "a", JNull); (str "b", JArray [])]).
  destruct (Nodes_get (nodes (buildTree asciiToLowerCase doc)) 0) as [n|] eqn:Hn;
    [|vm_compute in Hn; discriminate].
  pose proof (summary_counts_children asciiToLowerCase doc 0 n Hn) as H.
  assert (Hval : value n = doc) by (vm_compute in Hn; injection Hn as <-; reflexivity).
  assert (Hids : childrenIds n = [1; 2])
    by (vm_compute in Hn; injection Hn as <-; reflexivity).
  rewrite Hval in H. cbn iota in H. destruct H as [_ H].
  exists n. split; [reflexivity|]. rewrite H, Hids. split; reflexivity.
Defined.

Section ValueAtPath.

Lemma indexed_In seg key child base items :
  In (seg, key, child) (indexed base items) ->
  exists j, seg = SegIndex (base + N.of_nat j)
            /\ key = decimal (base + N.of_nat j)
            /\ nth_error items j = Some child.
Proof.
  revert base. induction items as [|x items IH]; intros base; [intros []|].
  cbn [indexed]. intros [Heq | Hin].
  - injection Heq as <- <- <-. exists 0. rewrite N.add_0_r. repeat split.
  - destruct (IH _ Hin) as (j & -> & -> & Hnth). exists (S j).
    replace (base + N.of_nat (S j))%N with (base + 1 + N.of_nat j)%N by lia.
    repeat split. exact Hnth.
Qed.

Lemma distinctKeys_object entries key w :
  distinctKeys (JObject entries) = true -> In (key, w) entries ->
  lookupKey key entries = Some w /\ distinctKeys w = true.
Proof.
  induction entries as [|[k x] entries IH]; [intros _ []|].
  intros Hd Hin. cbn [distinctKeys] in Hd.
  apply andb_true_iff in Hd as [Hd Hrest]. apply andb_true_iff in Hd as [Hfresh Hx].
  cbn [lookupKey]. destruct Hin as [Heq | Hin].
  - injection Heq as -> ->. now rewrite Js_eqb_refl.
  - destruct (Js.eqb k key) eqn:E.
    + apply Js_eqb_eq in E. subst k. apply negb_true_iff in Hfresh.
      assert (Hex : existsb (fun kv => Js.eqb (fst kv) key) entries = true).
      { apply existsb_exists. exists (key, w). split; [exact Hin|]. apply Js_eqb_refl. }
      congruence.
    + apply IH; [exact Hrest | exact Hin].
Qed.

Lemma distinctKeys_array items x :
  distinctKeys (JArray items) = true -> In x items -> distinctKeys x = true.
Proof.
  cbn [distinctKeys]. rewrite forallb_forall. auto.
Qed.

(** The segment of a child leads from the value to the child. *)
Lemma valueAtSegment_child w c :
  distinctKeys w = true -> In c (children w) ->
  valueAtSegment w (fst (fst c)) = Some (snd c) /\ distinctKeys (snd c) = true.
Proof.
  intros Hd Hin. destruct w as [| b | n | s | items | entries]; try destruct Hin.
  - destruct c as [[seg key] child]. cbn [children] in Hin.
    destruct (indexed_In _ _ _ _ _ Hin) as (j & -> & _ & Hnth).
    cbn [fst snd valueAtSegment]. rewrite N.add_0_l, Nat2N.id.
    split; [exact Hnth|]. apply (distinctKeys_array items); [exact Hd|].
    now apply nth_error_In in Hnth.
  - cbn [children] in Hin. apply in_map_iff in Hin as ([key child] & <- & Hin).
    cbn [fst snd valueAtSegment]. now apply distinctKeys_object.
Qed.

Lemma valueAt_app v a b :
  valueAt v (a ++ b)
  = match valueAt v a with
    | Some w => valueAt w b
    | None => None
    end.
Proof.
  revert v. induction a as [|seg a IH]; intros v; [reflexivity|].
  cbn [app valueAt]. destruct (valueAtSegment v seg); [apply IH | reflexivity].
Qed.

End ValueAtPath.

(** X9. The path of a node leads to its value: in the tree of a document
    none of whose objects has two properties of one key, following the
    path segments of a node from the document, key by key and index by
    index, gives the value the node holds. *)
Theorem node_value_at_path toLowerCase v k n :
  distinctKeys v = true ->
  Nodes_get (nodes (buildTree toLowerCase v)) k = Some n ->
  valueAt v (pathSegments n) = Some (value n).
Proof.
  intros Hd. revert n.
  assert (H : forall n, Nodes_get (nodes (buildTree toLowerCase v)) k = Some n ->
                valueAt v (pathSegments n) = Some (value n)
                /\ distinctKeys (value n) = true); [|intros n Hn; apply H, Hn].
  induction k as [k IH] using lt_wf_ind. intros n Hget.
  pose proof (buildTree_WellFormed toLowerCase v) as wf.
  destruct (Nat.eq_dec k 0) as [-> | Hk].
  - destruct (tree_root_node toLowerCase v) as (rn & Hrn & Hval & Hsegs & _).
    rewrite Hrn in Hget. injection Hget as <-.
    rewrite Hval, Hsegs. split; [reflexivity | exact Hd].
  - destruct (wf_parent wf Hget Hk) as (p & pn & _ & Hpn & Hlt & Hin & _).
    destruct (IH p Hlt pn Hpn) as [Hpath Hdp].
    destruct (tree_node_children toLowerCase v p pn Hpn) as [_ Hch].
    destruct (Forall2_In_r _ _ _ _ Hch Hin)
      as (c & Hc & cn & Hcn & Hval & Hsegs & _).
    rewrite Hget in Hcn. injection Hcn as <-.
    destruct (valueAtSegment_child _ _ Hdp Hc) as [Hstep Hdc].
    rewrite Hsegs, Hval, valueAt_app, Hpath. cbn [valueAt]. rewrite Hstep.
    split; [reflexivity | exact Hdc].
Qed.

Lemma node_value_at_path_witness :
  exists n,
    Nodes_get (nodes (buildTree asciiToLowerCase
                        (JObject [(str "a", JArray [JNull; JBool true])]))) 3
    = Some n
    /\ pathSegments n = [SegKey (str "a"); SegIndex 1]
    /\ valueAt (JObject [(str "a", JArray [JNull; JBool true])])
               [SegKey (str "a"); SegIndex 1] = Some (value n).
Proof.
  set (doc := JObject [(str "a", JArray [JNull; JBool true])]).
  destruct (Nodes_get (nodes (buildTree asciiToLowerCase doc)) 3) as [n|] eqn:Hn;
    [|vm_compute in Hn; discriminate].
  pose proof (node_value_at_path asciiToLowerCase doc 3 n eq_refl Hn) as H.
  assert (Hsegs : pathSegments n = [SegKey (str "a"); SegIndex 1])
    by (vm_compute in Hn; injection Hn as <-; reflexivity).
  exists n. split; [reflexivity|]. split; [exact Hsegs|]. now rewrite <- Hsegs.
Defined.

(* ================================================================== *)
(** * Which rows are listed *)
(* ================================================================== *)

Section VisibilityRule.

Variable tree : TreeData.
Hypothesis wf : WellFormed tree.

Lemma parent_lt {k n p} :
  Nodes_get (nodes tree) k = Some n -> parentId n = Some p -> p < k.
Proof.
  intros Hget Hp. destruct (parent_not_root tree wf Hget Hp) as (Hk & _).
  destruct (wf_parent wf Hget Hk) as (p' & pn & Hp' & _ & Hlt & _).
  congruence.
Qed.

Lemma ancestor_le {a b} : ancestorOrSelf (nodes tree) a b -> a <= b.
Proof.
  induction 1 as [a | a b bn p Hb Hp _ IH]; [lia|].
  pose proof (parent_lt Hb Hp). lia.
Qed.

Lemma ancestor_antisym {a b} :
  ancestorOrSelf (nodes tree) a b -> ancestorOrSelf (nodes tree) b a -> a = b.
Proof.
  intros H1 H2. pose proof (ancestor_le H1). pose proof (ancestor_le H2). lia.
Qed.

(** The ancestors of a node are in a line. *)
Lemma ancestor_linear {a b x} :
  ancestorOrSelf (nodes tree) a x -> ancestorOrSelf (nodes tree) b x ->
  ancestorOrSelf (nodes tree) a b \/ ancestorOrSelf (nodes tree) b a.
Proof.
  intros Ha. revert b. induction Ha as [a | a x xn p Hx Hp Hap IH]; intros b Hb.
  - now right.
  - inversion Hb as [| ? ? xn' p' Hx' Hp' Hbp]; subst.
    + left. econstructor; eauto.
    + rewrite Hx in Hx'. injection Hx' as <-.
      rewrite Hp in Hp'. injection Hp' as <-. now apply IH.
Qed.

Lemma child_ancestor {r rn c} :
  Nodes_get (nodes tree) r = Some rn -> In c (childrenIds rn) ->
  ancestorOrSelf (nodes tree) r c.
Proof.
  intros Hr Hc. destruct (wf_child wf Hr Hc) as (_ & cn & Hcn & Hp & _).
  econstructor; [exact Hcn | exact Hp | constructor].
Qed.

(** Between a node and one of its descendants, below the node, comes the
    child of the node that leads to the descendant. *)
Lemma ancestor_below_child {r rn c a x} :
  Nodes_get (nodes tree) r = Some rn -> In c (childrenIds rn) ->
  ancestorOrSelf (nodes tree) c x ->
  ancestorOrSelf (nodes tree) r a -> ancestorOrSelf (nodes tree) a x ->
  a <> r -> ancestorOrSelf (nodes tree) c a.
Proof.
  intros Hr Hc Hcx Hra Hax Hne.
  destruct (ancestor_linear Hax Hcx) as [Hac | Hca]; [|exact Hca].
  inversion Hac as [| ? ? cn p Hcn Hp Hap]; subst; [constructor|].
  destruct (wf_child wf Hr Hc) as (_ & cn' & Hcn' & Hp' & _).
  rewrite Hcn in Hcn'. injection Hcn' as <-.
  rewrite Hp in Hp'. injection Hp' as ->.
  elim Hne. now apply ancestor_antisym.
Qed.

Lemma ancestor_exists {a x xn} :
  ancestorOrSelf (nodes tree) a x -> Nodes_get (nodes tree) x = Some xn ->
  exists an, Nodes_get (nodes tree) a = Some an.
Proof.
  intros H. revert xn. induction H as [a | a x xn' p Hx Hp _ IH]; intros xn Hxn.
  - eauto.
  - destruct (parent_not_root tree wf Hx Hp) as (_ & pn & Hpn & _). eauto.
Qed.

Lemma strict_ancestor_depth {a x an xn} :
  ancestorOrSelf (nodes tree) a x -> a <> x ->
  Nodes_get (nodes tree) a = Some an -> Nodes_get (nodes tree) x = Some xn ->
  depth an < depth xn.
Proof.
  intros H Hne Ha Hx. inversion H as [| ? ? xn' p Hx' Hp Hap]; subst; [congruence|].
  rewrite Hx in Hx'. injection Hx' as <-.
  destruct (parent_not_root tree wf Hx Hp) as (_ & pn & Hpn & _ & Hd).
  pose proof (ancestor_depth tree wf Hap Ha Hpn). lia.
Qed.

Section Walk.

Variable q : jsstring.
Variable scope : option IdSet.t.
Variable collapsedIds : IdSet.t.

Local Abbreviation walk fuel := (traverse fuel (nodes tree) q scope collapsedIds).

Local Abbreviation clear_way := (clearWay (nodes tree) q scope collapsedIds).

Lemma traverse_step fuel r rn output :
  Nodes_get (nodes tree) r = Some rn ->
  walk (S fuel) r output
  = if negb (listed q scope r) then output
    else if negb ((0 <? length (childrenIds rn)) && opened q scope collapsedIds r)
         then output ++ [r]
         else fold_left (fun out childId => walk fuel childId out)
                (childrenIds rn) (output ++ [r]).
Proof.
  intros Hr. cbn [traverse]. rewrite Hr. unfold listed, opened.
  now rewrite negb_involutive.
Qed.

Lemma traverse_sound fuel :
  forall r output x,
    In x (walk fuel r output) ->
    In x output
    \/ (ancestorOrSelf (nodes tree) r x
        /\ (exists n, Nodes_get (nodes tree) x = Some n)
        /\ clear_way r x).
Proof.
  induction fuel as [|fuel IH]; intros r output x Hin; [now left|].
  destruct (Nodes_get (nodes tree) r) as [rn|] eqn:Hr;
    [|cbn [traverse] in Hin; rewrite Hr in Hin; now left].
  rewrite (traverse_step _ _ _ _ Hr) in Hin.
  destruct (listed q scope r) eqn:Hlisted; cbn [negb] in Hin; [|now left].
  assert (Hhere : In x (output ++ [r]) ->
                  In x output
                  \/ (ancestorOrSelf (nodes tree) r x
                      /\ (exists n, Nodes_get (nodes tree) x = Some n)
                      /\ clear_way r x)).
  { intros H. apply in_app_or in H as [H | [<- | []]]; [now left|]. right.
    split; [constructor|]. split; [eauto|].
    intros a Hra Har. pose proof (ancestor_antisym Hra Har) as <-.
    split; [exact Hlisted | congruence]. }
  destruct ((0 <? length (childrenIds rn)) && opened q scope collapsedIds r) eqn:Hopen;
    cbn [negb] in Hin; [|now apply Hhere].
  apply andb_true_iff in Hopen as [_ Hopen].
  assert (Hfold : forall cs out,
             incl cs (childrenIds rn) ->
             In x (fold_left (fun out childId => walk fuel childId out) cs out) ->
             In x out
             \/ exists c, In c cs
                          /\ ancestorOrSelf (nodes tree) c x
                          /\ (exists n, Nodes_get (nodes tree) x = Some n)
                          /\ clear_way c x).
  { induction cs as [|c cs IHcs]; intros out Hincl H; [now left|].
    cbn [fold_left] in H.
    destruct (IHcs _ (fun y Hy => Hincl y (or_intror Hy)) H)
      as [H' | (c' & Hc' & Hrest)].
    - destruct (IH _ _ _ H') as [H'' | Hrest]; [now left|].
      right. exists c. split; [now left | exact Hrest].
    - right. exists c'. split; [now right | exact Hrest]. }
  destruct (Hfold _ _ (incl_refl _) Hin) as [H | (c & Hc & Hcx & Hn & Hway)];
    [now apply Hhere|].
  right. split; [exact (ancestor_trans tree (child_ancestor Hr Hc) Hcx)|].
  split; [exact Hn|].
  intros a Hra Hax. destruct (Nat.eq_dec a r) as [-> | Hne].
  - split; [exact Hlisted | intros _; exact Hopen].
  - apply Hway; [|exact Hax].
    exact (ancestor_below_child Hr Hc Hcx Hra Hax Hne).
Qed.

Lemma traverse_complete fuel :
  forall r x rn xn output,
    ancestorOrSelf (nodes tree) r x ->
    Nodes_get (nodes tree) r = Some rn -> Nodes_get (nodes tree) x = Some xn ->
    depth xn < depth rn + fuel ->
    clear_way r x ->
    In x (walk fuel r output).
Proof.
  induction fuel as [|fuel IH]; intros r x rn xn output Hanc Hr Hx Hd Hway.
  - pose proof (ancestor_depth tree wf Hanc Hr Hx). lia.
  - rewrite (traverse_step _ _ _ _ Hr).
    destruct (Hway r (ancestor_self _ r) Hanc) as [Hlisted Hopen].
    rewrite Hlisted. cbn [negb].
    destruct (ancestor_top_down tree wf Hanc) as [-> | (rn' & c & Hrn' & Hc & Hcx)].
    + destruct (negb _).
      * apply in_or_app. right. now left.
      * apply traverse_children_mono. apply in_or_app. right. now left.
    + rewrite Hr in Hrn'. injection Hrn' as <-.
      assert (Hne : r <> x).
      { pose proof (ancestor_le Hcx). destruct (wf_child wf Hr Hc) as (Hlt & _). lia. }
      assert (Hlen : (0 <? length (childrenIds rn)) = true).
      { apply Nat.ltb_lt. destruct (childrenIds rn); [destruct Hc | cbn; lia]. }
      rewrite Hlen, (Hopen Hne). cbn [negb andb].
      destruct (wf_child wf Hr Hc) as (_ & cn & Hcn & _ & Hdc).
      apply (traverse_children_emit _ _ _ _ _ _ _ Hc). intros out.
      apply (IH c x cn xn out Hcx Hcn Hx); [lia|].
      intros a Hca Hax. apply Hway; [|exact Hax].
      exact (ancestor_trans tree (child_ancestor Hr Hc) Hca).
Qed.

(** A node is listed when nothing between the root and the node stops the
    walk: each of them passes the test of the scope, and each of them but
    the node itself is open. *)
Lemma visibleIds_rule x :
  In x (visibleIds tree q scope collapsedIds)
  <-> (exists n, Nodes_get (nodes tree) x = Some n)
      /\ forall a, ancestorOrSelf (nodes tree) a x ->
                   listed q scope a = true
                   /\ (a <> x -> opened q scope collapsedIds a = true).
Proof.
  unfold visibleIds.
  destruct (wf_root wf) as (Hroot & rn & Hrn & _ & Hd0).
  rewrite Hroot. cbn [fold_left]. split.
  - intros Hin. destruct (traverse_sound _ _ _ _ Hin) as [[] | (_ & Hn & Hway)].
    split; [exact Hn|]. intros a Hax. apply Hway; [|exact Hax].
    destruct Hn as [n Hn]. destruct (ancestor_exists Hax Hn) as [an Han].
    exact (root_is_ancestor tree wf Han).
  - intros ([n Hn] & Hway).
    apply (traverse_complete _ 0 x rn n []); auto.
    + exact (root_is_ancestor tree wf Hn).
    + pose proof (proj2 (wf_node wf Hn)). pose proof (WellFormed_get_lt wf Hn). lia.
    + intros a _ Hax. now apply Hway.
Qed.

End Walk.

End VisibilityRule.

(** X10. With no query, a node is listed exactly when none of its proper
    ancestors is in the collapse state, over the tree of any value; the
    collapse state of the node itself does not matter for its own row. *)
Theorem visibleIds_without_query toLowerCase v matches collapsedIds x :
  let tree := buildTree toLowerCase v in
  In x (visibleIds tree [] (visibleScopeSet (nodes tree) [] matches) collapsedIds)
  <-> (exists n, Nodes_get (nodes tree) x = Some n)
      /\ forall a, ancestorOrSelf (nodes tree) a x -> a <> x ->
                   IdSet.has collapsedIds a = false.
Proof.
  intros tree. pose proof (buildTree_WellFormed toLowerCase v) as wf.
  rewrite (visibleIds_rule tree wf). cbn [visibleScopeSet].
  split; intros [Hn Hway]; (split; [exact Hn|]).
  - intros a Hax Hne. destruct (Hway a Hax) as [_ Hopen].
    specialize (Hopen Hne). unfold opened in Hopen. cbn in Hopen.
    rewrite orb_false_r in Hopen. now apply negb_true_iff.
  - intros a Hax. split; [reflexivity|]. intros Hne.
    unfold opened. now rewrite (Hway a Hax Hne).
Qed.

Section SearchScope.

Lemma traverse_ignores_collapse treeNodes q (s : IdSet.t) c1 c2 fuel :
  q <> [] ->
  forall id output,
    traverse fuel treeNodes q (Some s) c1 id output
    = traverse fuel treeNodes q (Some s) c2 id output.
Proof.
  intros Hq. assert (Hne : nonEmpty q = true) by (destruct q; [congruence | reflexivity]).
  induction fuel as [|fuel IH]; intros id output; [reflexivity|].
  cbn [traverse]. destruct (Nodes_get treeNodes id) as [node|]; [|reflexivity].
  rewrite Hne. cbn [scopeHas andb].
  destruct (IdSet.has s id); cbn [negb]; [|reflexivity].
  rewrite !orb_true_r.
  destruct (negb _); [reflexivity|].
  apply fold_left_ext_in. intros c _ acc. apply IH.
Qed.

End SearchScope.

(** X11. While a query is active the collapse state has no say: the rows
    listed for a non-empty query are the same for any two collapse
    states, over any tree and any list of matches. *)
Theorem visibleIds_search_ignores_collapse tree q matches c1 c2 :
  q <> [] ->
  visibleIds tree q (visibleScopeSet (nodes tree) q matches) c1
  = visibleIds tree q (visibleScopeSet (nodes tree) q matches) c2.
Proof.
  intros Hq. unfold visibleIds, visibleScopeSet.
  destruct q as [|c q]; [congruence|].
  destruct (rootIds tree) as [|r rs]; [reflexivity|].
  apply fold_left_ext_in. intros id _ acc.
  now apply traverse_ignores_collapse.
Qed.

Lemma visibleIds_search_ignores_collapse_witness :
  let tree := buildTree asciiToLowerCase (JArray [JArray [JArray [JString (str "hit")]]]) in
  visibleIds tree (str "hit") (visibleScopeSet (nodes tree) (str "hit") [3]) [0; 1; 2]
  = visibleIds tree (str "hit") (visibleScopeSet (nodes tree) (str "hit") [3]) [].
Proof.
  apply (visibleIds_search_ignores_collapse
           (buildTree asciiToLowerCase (JArray [JArray [JArray [JString (str "hit")]]]))
           (str "hit") [3] [0; 1; 2] []).
  discriminate.
Defined.

Section ScopeOfMatches.

Variable tree : TreeData.
Hypothesis wf : WellFormed tree.

(** The walk up adds nothing but the node it starts from and its
    ancestors. *)
Lemma climb_sound fuel :
  forall current scope a,
    IdSet.has (climb fuel (nodes tree) current scope) a = true ->
    IdSet.has scope a = true
    \/ exists m, current = Some m /\ ancestorOrSelf (nodes tree) a m.
Proof.
  induction fuel as [|fuel IH]; intros current scope a H; [now left|].
  cbn [climb] in H. destruct current as [c|]; [|now left].
  destruct (IH _ _ _ H) as [Hadd | (p & Hnext & Hanc)].
  - apply IdSet_has_add in Hadd as [Hs | <-]; [now left|].
    right. exists c. split; [reflexivity | constructor].
  - right. exists c. split; [reflexivity|].
    destruct (Nodes_get (nodes tree) c) as [node|] eqn:Hc; [|discriminate].
    econstructor; eauto.
Qed.

Lemma scope_fold_sound (ms : list NodeId) scope a :
  IdSet.has
    (fold_left (fun scope matchId =>
                  climb (S (length (nodes tree))) (nodes tree) (Some matchId) scope)
               ms scope) a = true ->
  IdSet.has scope a = true
  \/ exists m, In m ms /\ ancestorOrSelf (nodes tree) a m.
Proof.
  revert scope. induction ms as [|m ms IH]; intros scope H; [now left|].
  cbn [fold_left] in H. destruct (IH _ H) as [H' | (m' & Hm' & Hanc)].
  - destruct (climb_sound _ _ _ _ H') as [Hs | (m' & Heq & Hanc)]; [now left|].
    injection Heq as <-. right. exists m. split; [now left | exact Hanc].
  - right. exists m'. split; [now right | exact Hanc].
Qed.

(** The scope of a query: the matches and their ancestors, no more. *)
Lemma visibleScopeSet_exact q (matches : list NodeId) a :
  q <> [] ->
  (forall m, In m matches -> exists mn, Nodes_get (nodes tree) m = Some mn) ->
  scopeHas (visibleScopeSet (nodes tree) q matches) a = true
  <-> exists m, In m matches /\ ancestorOrSelf (nodes tree) a m.
Proof.
  intros Hq Hnodes. split.
  - unfold visibleScopeSet. destruct q as [|c q]; [congruence|]. cbn [scopeHas].
    intros H. destruct (scope_fold_sound _ _ _ H) as [H' | H']; [discriminate | exact H'].
  - intros (m & Hm & Hanc). destruct (Hnodes m Hm) as [mn Hmn].
    exact (visibleScopeSet_ancestors tree wf q matches Hq Hm Hmn Hanc).
Qed.

(** With a query, the rows listed are the matches and their ancestors. *)
Lemma visibleIds_scope_exact q (matches : list NodeId) collapsedIds x :
  q <> [] ->
  (forall m, In m matches -> exists mn, Nodes_get (nodes tree) m = Some mn) ->
  In x (visibleIds tree q (visibleScopeSet (nodes tree) q matches) collapsedIds)
  <-> exists m, In m matches /\ ancestorOrSelf (nodes tree) x m.
Proof.
  intros Hq Hnodes.
  assert (Hne : nonEmpty q = true) by (destruct q; [congruence | reflexivity]).
  assert (Hlisted : forall a,
             listed q (visibleScopeSet (nodes tree) q matches) a
             = scopeHas (visibleScopeSet (nodes tree) q matches) a).
  { intros a. unfold listed, visibleScopeSet. destruct q as [|c q]; [congruence|].
    cbn [nonEmpty andb scopeHas]. apply negb_involutive. }
  rewrite (visibleIds_rule tree wf). split.
  - intros (_ & Hway). destruct (Hway x (ancestor_self _ x)) as [Hx _].
    rewrite Hlisted in Hx. now apply visibleScopeSet_exact in Hx.
  - intros (m & Hm & Hanc). destruct (Hnodes m Hm) as [mn Hmn]. split.
    + exact (ancestor_exists tree wf Hanc Hmn).
    + intros a Hax.
      assert (Hs : scopeHas (visibleScopeSet (nodes tree) q matches) a = true).
      { apply visibleScopeSet_exact; [assumption..|].
        exists m. split; [exact Hm|]. exact (ancestor_trans tree Hax Hanc). }
      split; [now rewrite Hlisted|]. intros _. unfold opened.
      now rewrite Hne, Hs, orb_true_r.
Qed.

End ScopeOfMatches.

(** X12. With a query, the rows listed are exactly the nodes whose own
    search text holds the query, and the ancestors of such nodes: over the
    tree of any value, after any run of earlier searches, whatever the
    collapse state. *)
Theorem visibleIds_with_query toLowerCase v qs q collapsedIds x :
  q <> [] ->
  let tree := buildTree toLowerCase v in
  let matches :=
    fst (searchMatchIds (nodes tree) q (searchRun (nodes tree) qs [])) in
  In x (visibleIds tree q (visibleScopeSet (nodes tree) q matches) collapsedIds)
  <-> exists m mn,
        ancestorOrSelf (nodes tree) x m
        /\ Nodes_get (nodes tree) m = Some mn
        /\ includes (searchText mn) q = true.
Proof.
  intros Hq tree matches.
  pose proof (buildTree_WellFormed toLowerCase v) as wf. fold tree in wf.
  assert (Hnd : NoDup (map fst (nodes tree))) by now apply WellFormed_NoDup.
  assert (Hmatches : matches = naiveSearch (nodes tree) q).
  { apply searchMatchIds_coherent; auto.
    apply searchRun_coherent; [assumption | constructor]. }
  assert (Hin : forall m, In m matches
                 <-> exists mn, Nodes_get (nodes tree) m = Some mn
                                /\ includes (searchText mn) q = true).
  { intros m. rewrite Hmatches. now apply naiveSearch_In. }
  rewrite (visibleIds_scope_exact tree wf q matches collapsedIds x Hq).
  - split.
    + intros (m & Hm & Hanc). apply Hin in Hm as (mn & Hmn & Hinc). eauto.
    + intros (m & mn & Hanc & Hmn & Hinc). exists m. split; [|exact Hanc].
      apply Hin. eauto.
  - intros m Hm. apply Hin in Hm as (mn & Hmn & _). eauto.
Qed.

Lemma visibleIds_with_query_witness :
  let tree := buildTree asciiToLowerCase
                (JObject [(str "a", JArray [JString (str "hit")]); (str "b", JNull)]) in
  In 1 (visibleIds tree (str "hit")
          (visibleScopeSet (nodes tree) (str "hit")
             (fst (searchMatchIds (nodes tree) (str "hit") [])))
          [1]).
Proof.
  cbv zeta.
  apply (visibleIds_with_query asciiToLowerCase
           (JObject [(str "a", JArray [JString (str "hit")]); (str "b", JNull)])
           [] (str "hit") [1] 1).
  - discriminate.
  - eexists 2, _. split; [|split].
    + eapply ancestor_parent; [vm_compute; reflexivity | reflexivity | constructor].
    + vm_compute. reflexivity.
    + vm_compute. reflexivity.
Defined.

(* ================================================================== *)
(** * The order of the rows *)
(* ================================================================== *)

Section RowOrder.

Lemma StronglySorted_app (l1 l2 : list nat) :
  StronglySorted lt l1 -> StronglySorted lt l2 ->
  (forall x y, In x l1 -> In y l2 -> x < y) ->
  StronglySorted lt (l1 ++ l2).
Proof.
  induction 1 as [|a l1 Hl1 IH Ha]; intros Hl2 Hlt; [exact Hl2|].
  cbn [app]. constructor.
  - apply IH; [exact Hl2|]. intros x y Hx Hy. apply Hlt; [now right | exact Hy].
  - apply Forall_app. split; [exact Ha|].
    apply Forall_forall. intros y Hy. apply Hlt; [now left | exact Hy].
Qed.

(** Two ascending lists of the same members are the same list. *)
Lemma StronglySorted_ext (l1 l2 : list nat) :
  StronglySorted lt l1 -> StronglySorted lt l2 ->
  (forall x, In x l1 <-> In x l2) -> l1 = l2.
Proof.
  intros H1. revert l2. induction H1 as [|a l1 Hl1 IH Ha]; intros l2 H2 Hext.
  - destruct l2 as [|b l2]; [reflexivity|].
    destruct (proj2 (Hext b) (or_introl eq_refl)).
  - destruct H2 as [|b l2 Hl2 Hb].
    + destruct (proj1 (Hext a) (or_introl eq_refl)).
    + rewrite Forall_forall in Ha, Hb.
      assert (Hab : a = b).
      { destruct (proj1 (Hext a) (or_introl eq_refl)) as [Heq | Hin]; [congruence|].
        destruct (proj2 (Hext b) (or_introl eq_refl)) as [Heq | Hin']; [congruence|].
        pose proof (Ha _ Hin'). pose proof (Hb _ Hin). lia. }
      subst b. f_equal. apply IH; [exact Hl2|].
      intros x. split; intros Hx.
      * destruct (proj1 (Hext x) (or_intror Hx)) as [<- | Hin]; [|exact Hin].
        pose proof (Ha _ Hx). lia.
      * destruct (proj2 (Hext x) (or_intror Hx)) as [<- | Hin]; [|exact Hin].
        pose proof (Hb _ Hx). lia.
Qed.

Variable toLowerCase : jsstring -> jsstring.
Variable treeNodes : Nodes.
Hypothesis keys_distinct : NoDup (map fst treeNodes).
Variable q : jsstring.
Variable scope : option IdSet.t.
Variable collapsedIds : IdSet.t.

Local Abbreviation walk fuel := (traverse fuel treeNodes q scope collapsedIds).

(** The walk from a node lists ids of the entries laid for the node, in
    ascending order. *)
Lemma traverse_ascending_both :
  (forall v segs dk parent d i seg,
      Laid toLowerCase v segs dk parent d i seg ->
      incl seg treeNodes ->
      forall fuel output, exists l,
        walk fuel i output = output ++ l
        /\ StronglySorted lt l
        /\ Forall (fun k => i <= k < i + length seg) l)
  /\ (forall segs i d cs start ids all,
         LaidChildren toLowerCase segs i d cs start ids all ->
         incl all treeNodes ->
         forall fuel output, exists l,
           fold_left (fun out childId => walk fuel childId out) ids output
           = output ++ l
           /\ StronglySorted lt l
           /\ Forall (fun k => start <= k < start + length all) l).
Proof.
  apply Laid_mutind.
  - intros v segs dk parent d i ids all _ IH Hincl fuel output.
    assert (Hnone : exists l, output = output ++ l /\ StronglySorted lt l
                      /\ Forall (fun k => i <= k < i + length
                           ((i, setChildren ids (newNode toLowerCase i v segs dk parent d))
                            :: all)) l).
    { exists []. rewrite app_nil_r. repeat constructor. }
    destruct fuel as [|fuel]; [exact Hnone|].
    cbn [traverse].
    rewrite (In_Nodes_get keys_distinct (Hincl _ (or_introl eq_refl))).
    destruct (nonEmpty q && _); [exact Hnone|].
    destruct (negb _).
    + exists [i]. split; [reflexivity|]. split; repeat constructor; cbn [length]; lia.
    + cbn [childrenIds setChildren].
      destruct (IH (fun y Hy => Hincl y (or_intror Hy)) fuel (output ++ [i]))
        as (l & Heq & Hsorted & Hrange).
      exists (i :: l). split; [now rewrite Heq, <- app_assoc|].
      split.
      * constructor; [exact Hsorted|]. eapply Forall_impl; [|exact Hrange].
        cbn beta. intros k Hk. lia.
      * constructor; [cbn [length]; lia|]. eapply Forall_impl; [|exact Hrange].
        cbn beta. intros k Hk. cbn [length]. lia.
  - intros segs i d start _ fuel output. exists []. rewrite app_nil_r.
    repeat constructor.
  - intros segs i d seg key child cs start seg1 ids rest _ IH1 _ IH2 Hincl fuel output.
    cbn [fold_left].
    destruct (IH1 (fun y Hy => Hincl y (in_or_app _ _ _ (or_introl Hy))) fuel output)
      as (l1 & Heq1 & Hs1 & Hr1).
    destruct (IH2 (fun y Hy => Hincl y (in_or_app _ _ _ (or_intror Hy))) fuel
                  (output ++ l1))
      as (l2 & Heq2 & Hs2 & Hr2).
    exists (l1 ++ l2). rewrite Heq1, Heq2, <- app_assoc. split; [reflexivity|].
    rewrite Forall_forall in Hr1, Hr2. split.
    + apply StronglySorted_app; [exact Hs1 | exact Hs2|].
      intros x y Hx Hy. pose proof (Hr1 x Hx). pose proof (Hr2 y Hy). lia.
    + apply Forall_forall. intros x Hx. rewrite length_app.
      apply in_app_or in Hx as [Hx | Hx]; [pose proof (Hr1 x Hx) | pose proof (Hr2 x Hx)];
        lia.
Qed.

End RowOrder.

(** X13. The rows come in document order: over the tree of any value, for
    any query, scope and collapse state, the listed ids are in strictly
    ascending order, so no row is listed twice. *)
Theorem visibleIds_ascending toLowerCase v q scope collapsedIds :
  StronglySorted lt (visibleIds (buildTree toLowerCase v) q scope collapsedIds).
Proof.
  pose proof (buildTree_WellFormed toLowerCase v) as wf.
  pose proof (buildTree_laid toLowerCase v) as Hlaid.
  unfold visibleIds. rewrite (proj1 (wf_root wf)). cbn [fold_left].
  destruct (proj1 (traverse_ascending_both toLowerCase _ (WellFormed_NoDup _ wf)
                     q scope collapsedIds)
              _ _ _ _ _ _ _ Hlaid (incl_refl _)
              (length (nodes (buildTree toLowerCase v))) [])
    as (l & Heq & Hsorted & _).
  rewrite Heq. exact Hsorted.
Qed.

(* ================================================================== *)
(** * Rows after a load, and after the collapse handlers *)
(* ================================================================== *)

Section CollapseSets.

Lemma IdSet_has_add_eq s x y :
  IdSet.has (IdSet.add s x) y = IdSet.has s y || Nat.eqb y x.
Proof.
  unfold IdSet.add. destruct (IdSet.has s x) eqn:Hx.
  - destruct (Nat.eqb_spec y x) as [-> | _]; [now rewrite Hx | now rewrite orb_false_r].
  - unfold IdSet.has. rewrite existsb_app. cbn. now rewrite orb_false_r.
Qed.

Lemma IdSet_has_delete s x y :
  IdSet.has (IdSet_delete s x) y = IdSet.has s y && negb (Nat.eqb y x).
Proof.
  unfold IdSet.has, IdSet_delete. induction s as [|z s IH]; [reflexivity|].
  cbn [filter existsb].
  destruct (Nat.eqb_spec z x) as [-> | Hzx]; cbn [negb].
  - rewrite IH. destruct (Nat.eqb_spec y x); cbn [negb orb andb].
    + now rewrite andb_false_r.
    + now rewrite !andb_true_r.
  - cbn [existsb]. rewrite IH.
    destruct (Nat.eqb_spec y z) as [-> | _]; cbn [orb]; [|reflexivity].
    destruct (Nat.eqb_spec z x); [contradiction | reflexivity].
Qed.

(** [toggled] flips the membership of the id and of no other. *)
Lemma toggled_has id s y :
  IdSet.has (toggled id s) y
  = if Nat.eqb y id then negb (IdSet.has s id) else IdSet.has s y.
Proof.
  unfold toggled. destruct (IdSet.has s id) eqn:Hid.
  - rewrite IdSet_has_delete.
    destruct (Nat.eqb_spec y id); cbn [negb]; [apply andb_false_r | apply andb_true_r].
  - rewrite IdSet_has_add_eq.
    destruct (Nat.eqb_spec y id) as [-> | _]; [now rewrite Hid | apply orb_false_r].
Qed.

Lemma fold_add_has {A} (f : A -> bool) (g : A -> NodeId) l s a :
  IdSet.has (fold_left (fun next e => if f e then IdSet.add next (g e) else next) l s) a
  = true
  <-> IdSet.has s a = true \/ exists e, In e l /\ f e = true /\ g e = a.
Proof.
  revert s. induction l as [|e l IH]; intros s.
  - cbn. split; [auto | intros [H | (e & [] & _)]; exact H].
  - cbn [fold_left]. rewrite IH. split.
    + intros [H | (e' & He' & Hf & Hg)].
      * destruct (f e) eqn:Hfe; [|now left].
        rewrite IdSet_has_add_eq in H. apply orb_true_iff in H as [H | H]; [now left|].
        apply Nat.eqb_eq in H. right. exists e. repeat split; auto. now left.
      * right. exists e'. repeat split; auto. now right.
    + intros [H | (e' & [<- | He'] & Hf & Hg)].
      * left. destruct (f e); [|exact H]. rewrite IdSet_has_add_eq, H. reflexivity.
      * left. rewrite Hf, IdSet_has_add_eq, Hg, Nat.eqb_refl. apply orb_true_r.
      * right. exists e'. auto.
Qed.

Lemma makeDefaultCollapsed_has treeNodes a :
  IdSet.has (makeDefaultCollapsed treeNodes) a = true
  <-> exists kn, In kn treeNodes
                 /\ hasChildren (snd kn) = true /\ 2 <= depth (snd kn)
                 /\ id (snd kn) = a.
Proof.
  unfold makeDefaultCollapsed.
  rewrite (fold_add_has
             (fun kn : NodeId * TreeNode =>
                hasChildren (snd kn) && (DEFAULT_COLLAPSE_DEPTH <=? depth (snd kn)))
             (fun kn => id (snd kn))).
  split.
  - intros [H | (kn & Hin & Hf & Hg)]; [discriminate|].
    apply andb_true_iff in Hf as [Hh Hd]. apply Nat.leb_le in Hd.
    exists kn. auto.
  - intros (kn & Hin & Hh & Hd & Hg). right. exists kn.
    split; [exact Hin|]. split; [|exact Hg].
    rewrite Hh. now apply Nat.leb_le.
Qed.

Lemma allCollapsed_has treeNodes prev a :
  IdSet.has (allCollapsed treeNodes prev) a = true
  <-> IdSet.has prev a = true
      \/ exists kn, In kn treeNodes
                    /\ hasChildren (snd kn) = true /\ 1 <= depth (snd kn)
                    /\ id (snd kn) = a.
Proof.
  unfold allCollapsed.
  rewrite (fold_add_has (fun node => hasChildren node && (1 <=? depth node)) id).
  split; (intros [H | H]; [now left | right]).
  - destruct H as (node & Hin & Hf & Hg).
    apply in_map_iff in Hin as (kn & <- & Hin).
    apply andb_true_iff in Hf as [Hh Hd]. apply Nat.leb_le in Hd.
    exists kn. auto.
  - destruct H as (kn & Hin & Hh & Hd & Hg). exists (snd kn).
    split; [now apply in_map|]. split; [|exact Hg].
    rewrite Hh. now apply Nat.leb_le.
Qed.

(** The walk reads the collapse state through [has] only. *)
Lemma traverse_has_ext treeNodes q scope c1 c2 fuel :
  (forall y, IdSet.has c1 y = IdSet.has c2 y) ->
  forall id output,
    traverse fuel treeNodes q scope c1 id output
    = traverse fuel treeNodes q scope c2 id output.
Proof.
  intros Hext. induction fuel as [|fuel IH]; intros id output; [reflexivity|].
  cbn [traverse]. destruct (Nodes_get treeNodes id) as [node|]; [|reflexivity].
  destruct (nonEmpty q && _); [reflexivity|]. rewrite (Hext id).
  destruct (negb _); [reflexivity|].
  apply fold_left_ext_in. intros c _ acc. apply IH.
Qed.

Lemma visibleIds_has_ext tree q scope c1 c2 :
  (forall y, IdSet.has c1 y = IdSet.has c2 y) ->
  visibleIds tree q scope c1 = visibleIds tree q scope c2.
Proof.
  intros Hext. unfold visibleIds. destruct (rootIds tree); [reflexivity|].
  apply fold_left_ext_in. intros id _ acc. now apply traverse_has_ext.
Qed.

End CollapseSets.

(** X14. Expanding after collapsing, or collapsing after expanding, gives
    the rows back: two calls of [toggleNode] for one id leave the listed
    ids as they were, for any state, query and scope. *)
Theorem toggleNode_twice id st q scope :
  visibleIds (treeData st) q scope (collapsedIds (toggleNode id (toggleNode id st)))
  = visibleIds (treeData st) q scope (collapsedIds st).
Proof.
  unfold toggleNode at 2.
  destruct (Nodes_get (nodes (treeData st)) id) as [target|] eqn:Hget.
  - destruct (hasChildren target) eqn:Hbranch; cbn [negb].
    + unfold toggleNode. cbn [treeData withCollapse]. rewrite Hget, Hbranch.
      cbn [negb collapsedIds withCollapse].
      apply visibleIds_has_ext. intros y. rewrite !toggled_has.
      destruct (Nat.eqb_spec y id) as [-> | _]; [|reflexivity].
      rewrite Nat.eqb_refl. apply negb_involutive.
    + unfold toggleNode. now rewrite Hget, Hbranch.
  - unfold toggleNode. now rewrite Hget.
Qed.

Section RowsByDepth.

Variable toLowerCase : jsstring -> jsstring.
Variable v : JsonValue.

Local Abbreviation tree := (buildTree toLowerCase v).

Lemma tree_wf : WellFormed tree.
Proof. apply buildTree_WellFormed. Qed.

Lemma tree_NoDup : NoDup (map fst (nodes tree)).
Proof. apply WellFormed_NoDup, tree_wf. Qed.

(** A node with a child is the node of an object or of an array. *)
Lemma branch_has_children k n :
  Nodes_get (nodes tree) k = Some n -> childrenIds n <> [] ->
  hasChildren n = true.
Proof.
  intros Hget Hne. destruct (tree_node_children toLowerCase v k n Hget) as [Hn Hch].
  apply Forall2_length in Hch. rewrite Hn. cbn.
  destruct (value n); cbn in *; try reflexivity;
    destruct (childrenIds n); try congruence; discriminate.
Qed.

Lemma sorted_filter_keys (f : NodeId * TreeNode -> bool) (l : Nodes) :
  StronglySorted lt (map fst l) -> StronglySorted lt (map fst (filter f l)).
Proof.
  induction l as [|kn l IH]; intros H; [constructor|].
  cbn [map] in H. inversion_clear H as [|? ? Hl Hall].
  cbn [filter]. destruct (f kn); [|now apply IH].
  cbn [map]. constructor; [now apply IH|].
  rewrite Forall_forall in *. intros x Hx. apply Hall.
  apply in_map_iff in Hx as (y & <- & Hy). apply filter_In in Hy as [Hy _].
  now apply in_map.
Qed.

Lemma rows_sorted q scope collapsedIds :
  StronglySorted lt (visibleIds tree q scope collapsedIds).
Proof.
  pose proof (buildTree_laid toLowerCase v) as Hlaid.
  unfold visibleIds. rewrite (proj1 (wf_root tree_wf)). cbn [fold_left].
  destruct (proj1 (traverse_ascending_both toLowerCase _ tree_NoDup
                     q scope collapsedIds)
              _ _ _ _ _ _ _ Hlaid (incl_refl _) (length (nodes tree)) [])
    as (l & Heq & Hsorted & _).
  rewrite Heq. exact Hsorted.
Qed.

(** With no query, a row is listed when none of its proper ancestors is
    collapsed. *)
Lemma rows_without_query scope collapsedIds x :
  In x (visibleIds tree [] scope collapsedIds)
  <-> (exists n, Nodes_get (nodes tree) x = Some n)
      /\ forall a, ancestorOrSelf (nodes tree) a x -> a <> x ->
                   IdSet.has collapsedIds a = false.
Proof.
  rewrite (visibleIds_rule tree tree_wf).
  split; intros [Hn Hway]; (split; [exact Hn|]).
  - intros a Hax Hne. destruct (Hway a Hax) as [_ Hopen].
    specialize (Hopen Hne). unfold opened in Hopen. cbn in Hopen.
    rewrite orb_false_r in Hopen. now apply negb_true_iff.
  - intros a Hax. split; [reflexivity|]. intros Hne.
    unfold opened. now rewrite (Hway a Hax Hne).
Qed.

(** When the collapse state holds every object and array from a depth on
    and none above it, the rows are the nodes down to that depth. *)
Lemma rows_by_depth limit scope collapsedIds :
  (forall a an, Nodes_get (nodes tree) a = Some an ->
                hasChildren an = true -> limit <= depth an ->
                IdSet.has collapsedIds a = true) ->
  (forall a an, Nodes_get (nodes tree) a = Some an -> depth an < limit ->
                IdSet.has collapsedIds a = false) ->
  visibleIds tree [] scope collapsedIds
  = map fst (filter (fun kn => depth (snd kn) <=? limit) (nodes tree)).
Proof.
  intros Hdeep Hshallow.
  apply StronglySorted_ext.
  - apply rows_sorted.
  - apply sorted_filter_keys. rewrite (wf_keys tree_wf). apply seq_sorted.
  - intros x. rewrite rows_without_query.
    rewrite in_map_iff. split.
    + intros ([n Hn] & Hway). exists (x, n). split; [reflexivity|].
      apply filter_In. split; [exact (Nodes_get_In Hn)|]. cbn [snd].
      apply Nat.leb_le. destruct (Nat.le_gt_cases (depth n) limit) as [|Hgt]; [assumption|].
      assert (Hx : x <> 0).
      { intros ->. destruct (wf_root tree_wf) as (_ & rn & Hrn & _ & Hd).
        rewrite Hrn in Hn. injection Hn as <-. lia. }
      destruct (wf_parent tree_wf Hn Hx) as (p & pn & Hp & Hpn & Hlt & Hin & Hd).
      assert (Hhas : IdSet.has collapsedIds p = true).
      { apply (Hdeep p pn Hpn); [|lia].
        apply (branch_has_children p pn Hpn). intros E. rewrite E in Hin. destruct Hin. }
      rewrite (Hway p) in Hhas; [discriminate | | lia].
      econstructor; [exact Hn | exact Hp | constructor].
    + intros ([k n] & <- & Hin). apply filter_In in Hin as [Hin Hd].
      cbn [fst snd] in *. apply Nat.leb_le in Hd.
      pose proof (In_Nodes_get tree_NoDup Hin) as Hn.
      split; [eauto|]. intros a Hax Hne.
      destruct (ancestor_exists tree tree_wf Hax Hn) as [an Han].
      apply (Hshallow a an Han).
      pose proof (strict_ancestor_depth tree tree_wf Hax Hne Han Hn). lia.
Qed.

Lemma node_of_entry kn :
  In kn (nodes tree) ->
  Nodes_get (nodes tree) (id (snd kn)) = Some (snd kn).
Proof.
  destruct kn as [k n]. intros Hin. cbn [snd].
  pose proof (In_Nodes_get tree_NoDup Hin) as Hn.
  now rewrite (proj1 (wf_node tree_wf Hn)).
Qed.

Lemma rows_default scope :
  visibleIds tree [] scope (makeDefaultCollapsed (nodes tree))
  = map fst (filter (fun kn => depth (snd kn) <=? 2) (nodes tree)).
Proof.
  apply rows_by_depth.
  - intros a an Han Hbranch Hd. apply makeDefaultCollapsed_has.
    exists (a, an). cbn [snd]. split; [exact (Nodes_get_In Han)|].
    split; [exact Hbranch|]. split; [exact Hd|]. apply (wf_node tree_wf Han).
  - intros a an Han Hd. apply not_true_iff_false. intros Hhas.
    apply makeDefaultCollapsed_has in Hhas as (kn & Hin & _ & Hdeep & Hid).
    pose proof (node_of_entry kn Hin) as Hkn. rewrite Hid, Han in Hkn.
    injection Hkn as ->. lia.
Qed.

Lemma rows_expanded scope :
  visibleIds tree [] scope [] = seq 0 (size v).
Proof.
  rewrite (rows_by_depth (length (nodes tree))).
  - rewrite filter_all.
    + pose proof (buildTree_laid toLowerCase v) as Hlaid.
      rewrite <- (proj1 (Laid_length_both toLowerCase) _ _ _ _ _ _ _ Hlaid).
      exact (Laid_keys toLowerCase Hlaid).
    + apply Forall_forall. intros [k n] Hin. cbn [snd]. apply Nat.leb_le.
      pose proof (In_Nodes_get tree_NoDup Hin) as Hn.
      pose proof (proj2 (wf_node tree_wf Hn)).
      pose proof (WellFormed_get_lt tree_wf Hn). lia.
  - intros a an Han _ Hd.
    pose proof (proj2 (wf_node tree_wf Han)).
    pose proof (WellFormed_get_lt tree_wf Han). lia.
  - reflexivity.
Qed.

Lemma depth_zero_root a an :
  Nodes_get (nodes tree) a = Some an -> depth an = 0 -> a = 0.
Proof.
  intros Han Hd. destruct (Nat.eq_dec a 0) as [|Hne]; [assumption|].
  destruct (wf_parent tree_wf Han Hne) as (p & pn & _ & _ & _ & _ & Hdp). lia.
Qed.

Lemma rows_collapsed scope prev :
  IdSet.has prev 0 = false ->
  visibleIds tree [] scope (allCollapsed (nodes tree) prev)
  = map fst (filter (fun kn => depth (snd kn) <=? 1) (nodes tree)).
Proof.
  intros Hroot. apply rows_by_depth.
  - intros a an Han Hbranch Hd. apply allCollapsed_has. right.
    exists (a, an). cbn [snd]. split; [exact (Nodes_get_In Han)|].
    split; [exact Hbranch|]. split; [exact Hd|]. apply (wf_node tree_wf Han).
  - intros a an Han Hd. apply not_true_iff_false. intros Hhas.
    assert (Ha : a = 0) by (apply (depth_zero_root a an Han); lia). subst a.
    apply allCollapsed_has in Hhas as [Hprev | (kn & Hin & _ & Hdeep & Hid)];
      [congruence|].
    pose proof (node_of_entry kn Hin) as Hkn. rewrite Hid, Han in Hkn.
    injection Hkn as ->. lia.
Qed.

End RowsByDepth.

Lemma loadFromJsonText_ok toLowerCase rawText st :
  snd (loadFromJsonText toLowerCase rawText st) = true ->
  exists value,
    firstParsed (parseTargets rawText) (ParseError NotJsonShaped) = ParseOk value
    /\ treeData (fst (loadFromJsonText toLowerCase rawText st))
       = buildTree toLowerCase value
    /\ collapsedIds (fst (loadFromJsonText toLowerCase rawText st))
       = makeDefaultCollapsed (nodes (buildTree toLowerCase value))
    /\ parsedJsonValue (fst (loadFromJsonText toLowerCase rawText st)) = Some value.
Proof.
  unfold loadFromJsonText.
  destruct (firstParsed (parseTargets rawText) (ParseError NotJsonShaped))
    as [value | error]; cbn [fst snd]; [|discriminate].
  intros _. exists value. repeat split.
Qed.

(** X15. After a load that succeeds, and with no query, the rows are the
    nodes of depth 0, 1 and 2, in document order: the objects and arrays
    of depth 2 are listed but closed, whatever the state before. *)
Theorem loaded_rows_depth_two toLowerCase rawText st scope :
  snd (loadFromJsonText toLowerCase rawText st) = true ->
  let st' := fst (loadFromJsonText toLowerCase rawText st) in
  visibleIds (treeData st') [] scope (collapsedIds st')
  = map fst (filter (fun kn => depth (snd kn) <=? 2) (nodes (treeData st'))).
Proof.
  intros Hok st'.
  destruct (loadFromJsonText_ok toLowerCase rawText st Hok) as (value & _ & Ht & Hc & _).
  unfold st'. rewrite Ht, Hc. apply rows_default.
Qed.

Lemma loaded_rows_depth_two_witness :
  let st' := fst (loadFromJsonText asciiToLowerCase (str "[[[[1]]],2]") initialApp) in
  visibleIds (treeData st') [] None (collapsedIds st') = [0; 1; 2; 5].
Proof.
  exact (loaded_rows_depth_two asciiToLowerCase (str "[[[[1]]],2]") initialApp None
           eq_refl).
Defined.

(** X16. After [expandAll], and with no query, every node of the tree is
    listed, in document order. *)
Theorem expandAll_rows toLowerCase v st scope :
  treeData st = buildTree toLowerCase v ->
  visibleIds (treeData (expandAll st)) [] scope (collapsedIds (expandAll st))
  = seq 0 (size v).
Proof.
  intros Ht. cbn [expandAll withCollapse treeData collapsedIds].
  rewrite Ht. apply rows_expanded.
Qed.

Lemma expandAll_rows_witness :
  let st := fst (loadFromJsonText asciiToLowerCase (str "[[[[1]]],2]") initialApp) in
  visibleIds (treeData (expandAll st)) [] None (collapsedIds (expandAll st))
  = [0; 1; 2; 3; 4; 5].
Proof.
  exact (expandAll_rows asciiToLowerCase
           (JArray [JArray [JArray [JArray [JNumber (JsNumber.of_Z 1)]]];
                    JNumber (JsNumber.of_Z 2)])
           (fst (loadFromJsonText asciiToLowerCase (str "[[[[1]]],2]") initialApp))
           None eq_refl).
Defined.

(** X17. After [collapseAll], with no query and a root that was open, the
    rows are the root and its children, in document order: every object
    and array below the root is closed, the root itself is not. *)
Theorem collapseAll_rows toLowerCase v st scope :
  treeData st = buildTree toLowerCase v ->
  IdSet.has (collapsedIds st) 0 = false ->
  visibleIds (treeData (collapseAll st)) [] scope (collapsedIds (collapseAll st))
  = map fst (filter (fun kn => depth (snd kn) <=? 1) (nodes (treeData st))).
Proof.
  intros Ht Hroot. cbn [collapseAll withCollapse treeData collapsedIds].
  rewrite Ht. now apply rows_collapsed.
Qed.

Lemma collapseAll_rows_witness :
  let st := fst (loadFromJsonText asciiToLowerCase (str "[[[[1]]],2]") initialApp) in
  visibleIds (treeData (collapseAll st)) [] None (collapsedIds (collapseAll st))
  = [0; 1; 5].
Proof.
  exact (collapseAll_rows asciiToLowerCase
           (JArray [JArray [JArray [JArray [JNumber (JsNumber.of_Z 1)]]];
                    JNumber (JsNumber.of_Z 2)])
           (fst (loadFromJsonText asciiToLowerCase (str "[[[[1]]],2]") initialApp))
           None eq_refl eq_refl).
Defined.

(** X18. Closing a node hides its descendants and nothing else: with no
    query, when [toggleNode] is called for an object or array that is
    open, the rows afterwards are the rows before that are not proper
    descendants of the node. *)
Theorem toggleNode_hides_descendants toLowerCase v st scope i target x :
  treeData st = buildTree toLowerCase v ->
  Nodes_get (nodes (treeData st)) i = Some target ->
  hasChildren target = true ->
  IdSet.has (collapsedIds st) i = false ->
  In x (visibleIds (treeData st) [] scope (collapsedIds (toggleNode i st)))
  <-> In x (visibleIds (treeData st) [] scope (collapsedIds st))
      /\ ~ (ancestorOrSelf (nodes (treeData st)) i x /\ i <> x).
Proof.
  intros Ht Hget Hbranch Hopen.
  unfold toggleNode. rewrite Hget, Hbranch. cbn [negb collapsedIds withCollapse].
  rewrite Ht. rewrite !rows_without_query. split.
  - intros (Hn & Hway). split; [split; [exact Hn|]|].
    + intros a Hax Hne. specialize (Hway a Hax Hne). rewrite toggled_has in Hway.
      destruct (Nat.eqb_spec a i) as [Heq | _]; [|exact Hway].
      rewrite Hopen in Hway. discriminate.
    + intros [Hix Hne]. specialize (Hway i Hix Hne).
      rewrite toggled_has, Nat.eqb_refl in Hway.
      rewrite Hopen in Hway. discriminate.
  - intros ((Hn & Hway) & Hnot). split; [exact Hn|].
    intros a Hax Hne. rewrite toggled_has.
    destruct (Nat.eqb_spec a i) as [Heq | _]; [|now apply Hway].
    subst a. elim Hnot. split; assumption.
Qed.

Lemma toggleNode_hides_descendants_witness :
  let st := expandAll
              (fst (loadFromJsonText asciiToLowerCase (str "[[[[1]]],2]") initialApp)) in
  In 5 (visibleIds (treeData st) [] None (collapsedIds (toggleNode 1 st)))
  /\ ~ In 2 (visibleIds (treeData st) [] None (collapsedIds (toggleNode 1 st))).
Proof.
  cbv zeta.
  set (st := expandAll
               (fst (loadFromJsonText asciiToLowerCase (str "[[[[1]]],2]") initialApp))).
  destruct (Nodes_get (nodes (treeData st)) 1) as [target|] eqn:Hget;
    [|vm_compute in Hget; discriminate].
  assert (Hbranch : hasChildren target = true)
    by (vm_compute in Hget; injection Hget as <-; reflexivity).
  pose proof (fun x =>
    toggleNode_hides_descendants asciiToLowerCase
      (JArray [JArray [JArray [JArray [JNumber (JsNumber.of_Z 1)]]];
               JNumber (JsNumber.of_Z 2)])
      st None 1 target x eq_refl Hget Hbranch eq_refl) as H.
  split.
  - apply (proj2 (H 5)). split; [vm_compute; tauto|].
    intros [Hanc _]. pose proof (ancestor_le _ (buildTree_WellFormed _ _) Hanc) as Hle.
    inversion Hanc as [| ? ? bn p Hb Hp Hrest]; subst.
    vm_compute in Hb. injection Hb as <-. vm_compute in Hp. injection Hp as <-.
    inversion Hrest as [| ? ? bn p Hb Hp _]; subst.
    vm_compute in Hb. injection Hb as <-. discriminate Hp.
  - intros Hin. destruct (proj1 (H 2) Hin) as [_ Hnot].
    apply Hnot. split; [|discriminate].
    eapply ancestor_parent; [vm_compute; reflexivity | reflexivity | constructor].
Defined.

Section Selection.

Variable toLowerCase : jsstring -> jsstring.
Variable v : JsonValue.

Local Abbreviation tree := (buildTree toLowerCase v).

(** With no query the root is the first row. *)
Lemma first_row_is_root scope collapsedIds :
  hd_error (visibleIds tree [] scope collapsedIds) = Some 0.
Proof.
  pose proof (tree_wf toLowerCase v) as wf.
  assert (Hroot : In 0 (visibleIds tree [] scope collapsedIds)).
  { apply rows_without_query. destruct (wf_root wf) as (_ & rn & Hrn & _).
    split; [eauto|]. intros a Hax Hne. pose proof (ancestor_le tree wf Hax). lia. }
  pose proof (rows_sorted toLowerCase v [] scope collapsedIds) as Hsorted.
  destruct (visibleIds tree [] scope collapsedIds) as [|h rest]; [destruct Hroot|].
  cbn [hd_error]. f_equal. destruct Hroot as [H | H]; [exact H|].
  inversion_clear Hsorted as [|? ? _ Hall]. rewrite Forall_forall in Hall.
  pose proof (Hall 0 H). lia.
Qed.

End Selection.

(** X19. Once the effect that follows the selection has run, the selected
    node, if there is one, is a listed row; and with no query, a selected
    node that is not listed gives way to the root. *)
Theorem reselect_listed toLowerCase v q scope collapsedIds sel :
  let tree := buildTree toLowerCase v in
  let visible := visibleIds tree q scope collapsedIds in
  (forall n, selected (nodes tree) (reselect (nodes tree) visible sel) = Some n ->
             In (id n) visible)
  /\ (q = [] ->
      forall node, selected (nodes tree) sel = Some node ->
                   ~ In (id node) visible ->
                   reselect (nodes tree) visible sel = Some 0).
Proof.
  intros tree visible. pose proof (tree_wf toLowerCase v) as wf. split.
  - intros n. unfold reselect.
    destruct (selected (nodes tree) sel) as [node|] eqn:Hsel.
    + destruct (existsb (Nat.eqb (id node)) visible) eqn:Hex.
      * rewrite Hsel. intros [= <-].
        apply existsb_exists in Hex as (y & Hy & Heq).
        apply Nat.eqb_eq in Heq. now rewrite Heq.
      * destruct visible as [|h rest]; [discriminate|].
        cbn [hd_error selected]. intros Hn.
        rewrite (proj1 (wf_node wf Hn)). now left.
    + rewrite Hsel. discriminate.
  - intros -> node Hsel Hnot. unfold reselect. rewrite Hsel.
    destruct (existsb (Nat.eqb (id node)) visible) eqn:Hex.
    + apply existsb_exists in Hex as (y & Hy & Heq).
      apply Nat.eqb_eq in Heq. elim Hnot. now rewrite Heq.
    + apply first_row_is_root.
Qed.

Lemma reselect_listed_witness :
  let tree := buildTree asciiToLowerCase (JArray [JArray [JNull]]) in
  reselect (nodes tree) (visibleIds tree [] None [1]) (Some 2) = Some 0.
Proof.
  cbv zeta.
  destruct (reselect_listed asciiToLowerCase (JArray [JArray [JNull]]) [] None [1]
              (Some 2)) as [_ H].
  destruct (selected (nodes (buildTree asciiToLowerCase (JArray [JArray [JNull]])))
              (Some 2)) as [node|] eqn:Hsel; [|vm_compute in Hsel; discriminate].
  apply (H eq_refl node eq_refl).
  assert (Hid : id node = 2) by (vm_compute in Hsel; injection Hsel as <-; reflexivity).
  rewrite Hid. vm_compute. intuition discriminate.
Defined.

(* ================================================================== *)
(** * Share configuration and the share link *)
(* ================================================================== *)

Section ShareConfig.

Local Open Scope N_scope.

Lemma endsWithSlash_cons c s :
  s <> [] -> endsWithSlash (c :: s) = endsWithSlash s.
Proof.
  intros Hs. unfold endsWithSlash. cbn [List.rev].
  destruct (List.rev s) as [|x r] eqn:E; [|reflexivity].
  apply (f_equal (@List.rev _)) in E. rewrite rev_involutive in E. contradiction.
Qed.

Lemma stripSlashes_spec url :
  exists k, url = stripSlashes url ++ repeat 47 k
            /\ endsWithSlash (stripSlashes url) = false.
Proof.
  induction url as [|c rest (k & Hrest & Hend)].
  - exists 0%nat. split; reflexivity.
  - cbn [stripSlashes]. destruct (stripSlashes rest) as [|x kept] eqn:E.
    + destruct (N.eqb_spec c 47) as [-> | Hc].
      * exists (S k). cbn [app repeat] in *. split; [now rewrite Hrest|reflexivity].
      * exists k. cbn [app] in *. split; [now rewrite Hrest|].
        unfold endsWithSlash. cbn. now apply N.eqb_neq.
    + exists k. split; [cbn [app]; now rewrite Hrest|].
      rewrite endsWithSlash_cons; [exact Hend | discriminate].
Qed.

Lemma stripTrailingSlash_ends url :
  endsWithSlash (stripTrailingSlash url) = false.
Proof.
  unfold stripTrailingSlash. destruct url as [|c rest]; cbn [nonEmpty negb];
    [reflexivity|].
  destruct (endsWithSlash (c :: rest)) eqn:E; [|exact E].
  now destruct (stripSlashes_spec (c :: rest)) as (k & _ & H).
Qed.

(** X20. [stripTrailingSlash] takes the slashes at the end of the string,
    all of them and nothing else: the string is the result followed by
    slashes, and the result does not end with a slash. *)
Theorem stripTrailingSlash_spec url :
  exists k, url = stripTrailingSlash url ++ repeat 47 k
            /\ endsWithSlash (stripTrailingSlash url) = false.
Proof.
  unfold stripTrailingSlash. destruct url as [|c rest]; cbn [nonEmpty negb].
  - exists 0%nat. split; reflexivity.
  - destruct (endsWithSlash (c :: rest)) eqn:E; [apply stripSlashes_spec|].
    exists 0%nat. split; [now rewrite app_nil_r | exact E].
Qed.

Lemma normalizePath_slash path :
  exists rest, normalizePath path = 47 :: rest.
Proof.
  unfold normalizePath. destruct path as [|c rest]; cbn [nonEmpty negb].
  - now exists [].
  - change (str "/") with [47]. cbn [startsWith].
    destruct (N.eqb_spec c 47) as [-> | _]; cbn [andb]; eexists; reflexivity.
Qed.

(** X21. The base of a share link is never empty: whatever the
    environment and the window, [getShareBaseUrl] gives a base that does
    not end with a slash, followed by a path that starts with one. *)
Theorem getShareBaseUrl_shape env window :
  exists base path,
    getShareBaseUrl env window = base ++ 47 :: path
    /\ endsWithSlash base = false
    /\ nonEmpty (getShareBaseUrl env window) = true.
Proof.
  unfold getShareBaseUrl.
  set (domain := orElse _ _). set (p := orElse _ _).
  destruct (normalizePath_slash p) as [rest ->].
  exists (stripTrailingSlash domain), rest.
  split; [reflexivity|]. split; [apply stripTrailingSlash_ends|].
  now destruct (stripTrailingSlash domain).
Qed.

Lemma getShareBaseUrl_nonEmpty env window :
  nonEmpty (getShareBaseUrl env window) = true.
Proof.
  unfold getShareBaseUrl.
  destruct (normalizePath_slash
              (orElse (SHARE_BASE_PATH env)
                 match window with
                 | None => str "/"
                 | Some w => pathname w
                 end)) as [rest ->].
  now destruct (stripTrailingSlash _).
Qed.

End ShareConfig.

Section ShareButton.

Variable urlWithParam : jsstring -> jsstring -> jsstring -> option jsstring.

(** X22. [buildShareUrl] gives no link for a document that is [null],
    [false], zero or the empty string, although such a document is
    loaded; for any other document it gives a link that carries the
    encoded compact JSON text, and it never throws. *)
Theorem buildShareUrl_outcome env window v :
  codeUnitsValue v = true ->
  (truthy (Some v) = false ->
   buildShareUrl urlWithParam env window (Some v) = ShareNull)
  /\ (truthy (Some v) = true ->
      exists encoded,
        shareEncode v = Some encoded
        /\ buildShareUrl urlWithParam env window (Some v)
           = ShareLink
               match urlWithParam (getShareBaseUrl env window) SHARE_QUERY_KEY encoded with
               | Some url => url
               | None => getShareBaseUrl env window ++ str "?data=" ++ encoded
               end).
Proof.
  intros Hv. unfold buildShareUrl. split; intros Ht; rewrite Ht; cbn [negb].
  - reflexivity.
  - assert (Henc : encodeBase64Utf8 (JSON.stringify v)
                   = Some (urlDigits (Utf8.encode (JSON.stringify v)))).
    { apply encodeBase64Utf8_digits, wellFormed16_codeUnits.
      now apply stringify_wellFormed. }
    exists (urlDigits (Utf8.encode (JSON.stringify v))).
    split; [exact Henc|]. rewrite Henc.
    rewrite getShareBaseUrl_nonEmpty. cbn [negb].
    now destruct (urlWithParam _ _ _).
Qed.

End ShareButton.

Lemma buildShareUrl_outcome_witness :
  buildShareUrl (fun _ _ _ => None) (mkEnv None None None None) None
    (Some (JNumber (JsNumber.Zero false))) = ShareNull
  /\ buildShareUrl (fun _ _ _ => None)
       (mkEnv (Some (str " https://jason.example// ")) None None None) None
       (Some (JArray [])) = ShareLink (str "https://jason.example/?data=W10").
Proof.
  split.
  - apply (buildShareUrl_outcome (fun _ _ _ => None) (mkEnv None None None None) None
             (JNumber (JsNumber.Zero false)) eq_refl); reflexivity.
  - destruct (buildShareUrl_outcome (fun _ _ _ => None)
                (mkEnv (Some (str " https://jason.example// ")) None None None) None
                (JArray []) eq_refl) as [_ H].
    destruct (H eq_refl) as (encoded & Henc & ->).
    vm_compute in Henc. injection Henc as <-. vm_compute. reflexivity.
Defined.

(* ================================================================== *)
(** * A load that succeeds *)
(* ================================================================== *)

Section LoadSuccess.

Variable toLowerCase : jsstring -> jsstring.

Lemma firstParsed_head candidate rest parsed value :
  JSON.parse candidate = Some value ->
  firstParsed (candidate :: rest) parsed = ParseOk value.
Proof. intros H. cbn [firstParsed]. unfold parseJson. now rewrite H. Qed.

Lemma parse_empty : JSON.parse [] = None.
Proof. reflexivity. Qed.

(** The value that the load reads: the percent-decoded text when it is
    JSON, else the base64 reading of that text when that is JSON. *)
Lemma firstParsed_reading rawText value :
  let candidateRaw := safeDecodeURIComponent rawText in
  JSON.parse candidateRaw = Some value
  \/ (JSON.parse candidateRaw = None
      /\ exists text, decodeBase64Utf8 candidateRaw = Some text
                      /\ JSON.parse text = Some value) ->
  firstParsed (parseTargets rawText) (ParseError NotJsonShaped) = ParseOk value.
Proof.
  intros candidateRaw [Hraw | (Hraw & text & Hdec & Htext)]; unfold parseTargets;
    fold candidateRaw.
  - destruct (decodeBase64Utf8 candidateRaw) as [decoded|];
      [destruct (_ && _)|]; now apply firstParsed_head.
  - rewrite Hdec.
    assert (Hne : nonEmpty text = true).
    { destruct text; [rewrite parse_empty in Htext; discriminate | reflexivity]. }
    assert (Hdiff : Js.eqb text candidateRaw = false).
    { apply not_true_iff_false. intros E. apply Js_eqb_eq in E. congruence. }
    rewrite Hne. cbn [existsb]. rewrite Hdiff. cbn [orb negb andb].
    cbn [firstParsed]. unfold parseJson. now rewrite Hraw, Htext.
Qed.

End LoadSuccess.



(* ================================================================== *)
(** * The sorted value of the RAW view *)
(* ================================================================== *)

Section ObjectProperties.

Lemma Js_eqb_sym a b : Js.eqb a b = Js.eqb b a.
Proof.
  destruct (Js.eqb a b) eqn:E1, (Js.eqb b a) eqn:E2; try reflexivity.
  - apply Js_eqb_eq in E1. subst b. now rewrite Js_eqb_refl in E2.
  - apply Js_eqb_eq in E2. subst b. now rewrite Js_eqb_refl in E1.
Qed.

Lemma lookupKey_In key entries w :
  lookupKey key entries = Some w -> In (key, w) entries.
Proof.
  induction entries as [|[k x] entries IH]; [discriminate|].
  cbn [lookupKey]. destruct (Js.eqb k key) eqn:E.
  - apply Js_eqb_eq in E. intros [= <-]. left. now subst.
  - intros H. right. now apply IH.
Qed.

Lemma lookupKey_None key entries :
  lookupKey key entries = None <-> forall w, ~ In (key, w) entries.
Proof.
  induction entries as [|[k x] entries IH].
  - split; [intros _ w [] | reflexivity].
  - cbn [lookupKey]. destruct (Js.eqb k key) eqn:E.
    + apply Js_eqb_eq in E. subst k. split; [discriminate|].
      intros H. elim (H x). now left.
    + rewrite IH. split.
      * intros H w [Heq | Hin]; [|exact (H w Hin)].
        injection Heq as -> _. rewrite Js_eqb_refl in E. discriminate.
      * intros H w Hin. apply (H w). now right.
Qed.

(** Each key has one value. *)
Local Abbreviation functional entries :=
  (forall (key : jsstring) (w w' : JsonValue),
      In (key, w) entries -> In (key, w') entries -> w = w').

Lemma lookupKey_functional entries key w :
  functional entries -> In (key, w) entries -> lookupKey key entries = Some w.
Proof.
  intros Hf Hin. destruct (lookupKey key entries) as [w'|] eqn:E.
  - f_equal. apply lookupKey_In in E. exact (Hf key w' w E Hin).
  - elim (proj1 (lookupKey_None key entries) E w Hin).
Qed.

(** Two lists of the same members in which each key has one value give
    the same value for every key. *)
Lemma lookupKey_same_members l l' key :
  functional l -> (forall e, In e l' <-> In e l) ->
  lookupKey key l' = lookupKey key l.
Proof.
  intros Hf Hmem.
  assert (Hf' : functional l').
  { intros k w w' H1 H2. apply Hmem in H1, H2. exact (Hf k w w' H1 H2). }
  destruct (lookupKey key l) as [w|] eqn:E.
  - apply lookupKey_functional; [exact Hf'|]. apply Hmem. now apply lookupKey_In.
  - apply lookupKey_None. intros w Hin. apply Hmem in Hin.
    exact (proj1 (lookupKey_None key l) E w Hin).
Qed.

Lemma lookupKey_replaceValue entries key v entries' k :
  JSON.replaceValue entries key v = Some entries' ->
  lookupKey k entries' = if Js.eqb key k then Some v else lookupKey k entries.
Proof.
  revert entries'. induction entries as [|[k0 w] entries IH]; intros entries';
    [discriminate|].
  cbn [JSON.replaceValue]. destruct (Js.eqb k0 key) eqn:E.
  - apply Js_eqb_eq in E. subst k0. intros [= <-]. cbn [lookupKey].
    now destruct (Js.eqb key k).
  - destruct (JSON.replaceValue entries key v) as [rest'|]; [|discriminate].
    intros [= <-]. cbn [lookupKey]. rewrite (IH rest' eq_refl).
    destruct (Js.eqb k0 k) eqn:E0; [|reflexivity].
    apply Js_eqb_eq in E0. subst k0.
    destruct (Js.eqb key k) eqn:E1; [|reflexivity].
    apply Js_eqb_eq in E1. subst k. rewrite Js_eqb_refl in E. discriminate.
Qed.

Lemma replaceValue_None entries key v :
  JSON.replaceValue entries key v = None -> lookupKey key entries = None.
Proof.
  induction entries as [|[k0 w] entries IH]; [reflexivity|].
  cbn [JSON.replaceValue lookupKey]. destruct (Js.eqb k0 key); [discriminate|].
  destruct (JSON.replaceValue entries key v); [discriminate | auto].
Qed.

Lemma lookupKey_app a b k :
  lookupKey k (a ++ b)
  = match lookupKey k a with
    | Some w => Some w
    | None => lookupKey k b
    end.
Proof.
  induction a as [|[k0 w] a IH]; [reflexivity|].
  cbn [app lookupKey]. now destruct (Js.eqb k0 k).
Qed.

Lemma lookupKey_insertIndexed entries i key v k :
  lookupKey key entries = None ->
  lookupKey k (JSON.insertIndexed entries i key v)
  = if Js.eqb key k then Some v else lookupKey k entries.
Proof.
  induction entries as [|[k0 w] entries IH]; intros Hfresh.
  - reflexivity.
  - cbn [lookupKey] in Hfresh. destruct (Js.eqb k0 key) eqn:E; [discriminate|].
    cbn [JSON.insertIndexed].
    destruct (JSON.arrayIndex k0) as [j|]; [destruct (j <? i)%N|];
      cbn [lookupKey]; try reflexivity.
    rewrite (IH Hfresh). destruct (Js.eqb k0 k) eqn:E0; [|reflexivity].
    apply Js_eqb_eq in E0. subst k0. now rewrite Js_eqb_sym, E.
Qed.

(** After [defineProperty] the key has the value, the other keys have
    theirs. *)
Lemma lookupKey_defineProperty entries key v k :
  lookupKey k (JSON.defineProperty entries (key, v))
  = if Js.eqb key k then Some v else lookupKey k entries.
Proof.
  unfold JSON.defineProperty.
  destruct (JSON.replaceValue entries key v) as [entries'|] eqn:E.
  - now apply lookupKey_replaceValue.
  - apply replaceValue_None in E.
    destruct (JSON.arrayIndex key) as [i|]; [now apply lookupKey_insertIndexed|].
    rewrite lookupKey_app. cbn [lookupKey].
    destruct (Js.eqb key k) eqn:E0.
    + apply Js_eqb_eq in E0. subst k. now rewrite E.
    + now destruct (lookupKey k entries).
Qed.

Lemma lookupKey_fold_defineProperty l :
  functional l ->
  forall acc k,
    lookupKey k (fold_left JSON.defineProperty l acc)
    = match lookupKey k l with
      | Some w => Some w
      | None => lookupKey k acc
      end.
Proof.
  induction l as [|[key v] l IH]; intros Hf acc k; [reflexivity|].
  cbn [fold_left]. rewrite IH.
  2:{ intros k0 w w' H1 H2. apply (Hf k0); now right. }
  rewrite lookupKey_defineProperty. cbn [lookupKey].
  destruct (Js.eqb key k) eqn:E; [|reflexivity].
  apply Js_eqb_eq in E. subst k.
  destruct (lookupKey key l) as [w|] eqn:El; [|reflexivity].
  f_equal. apply lookupKey_In in El. apply (Hf key); [now right | now left].
Qed.

Lemma lookupKey_map (f : JsonValue -> JsonValue) entries k :
  lookupKey k (map (fun kv => (fst kv, f (snd kv))) entries)
  = option_map f (lookupKey k entries).
Proof.
  induction entries as [|[k0 w] entries IH]; [reflexivity|].
  cbn [map lookupKey fst snd]. now destruct (Js.eqb k0 k).
Qed.

End ObjectProperties.

Section SortedValue.

Variable localeCompare : jsstring -> jsstring -> Z.

Lemma insertEntry_In e s x :
  In x (insertEntry localeCompare e s) <-> x = e \/ In x s.
Proof.
  induction s as [|y s IH]; cbn [insertEntry].
  - cbn. intuition.
  - destruct (0 <? localeCompare (fst y) (fst e))%Z; cbn [In];
      [|rewrite IH]; intuition.
Qed.

(** The sort gives the entries it was given. *)
Lemma sortEntries_In l x :
  In x (sortEntries localeCompare l) <-> In x l.
Proof.
  unfold sortEntries.
  assert (H : forall acc,
             In x (fold_left (fun sorted entry => insertEntry localeCompare entry sorted)
                     l acc)
             <-> In x l \/ In x acc).
  { induction l as [|e l IH]; intros acc; cbn [fold_left In]; [intuition|].
    rewrite IH, insertEntry_In. intuition. }
  rewrite H. cbn [In]. intuition.
Qed.

(** The key [__proto__] never becomes a property. *)
Lemma assignProperty_no_proto l :
  forall acc,
    lookupKey (str "__proto__") acc = None ->
    lookupKey (str "__proto__") (fold_left assignProperty l acc) = None.
Proof.
  induction l as [|[key w] l IH]; intros acc Hacc; [exact Hacc|].
  cbn [fold_left]. apply IH. unfold assignProperty. cbn [fst].
  destruct (Js.eqb key (str "__proto__")) eqn:E; [exact Hacc|].
  now rewrite lookupKey_defineProperty, E.
Qed.

Lemma assignProperty_plain l :
  Forall (fun kv => Js.eqb (fst kv) (str "__proto__") = false) l ->
  forall acc, fold_left assignProperty l acc = fold_left JSON.defineProperty l acc.
Proof.
  induction 1 as [|kv l Hkv _ IH]; intros acc; [reflexivity|].
  cbn [fold_left]. unfold assignProperty at 2. now rewrite Hkv, IH.
Qed.

Lemma distinctKeys_functional entries :
  distinctKeys (JObject entries) = true ->
  forall key w w', In (key, w) entries -> In (key, w') entries -> w = w'.
Proof.
  intros Hd key w w' H1 H2.
  destruct (distinctKeys_object entries key w Hd H1) as [E1 _].
  destruct (distinctKeys_object entries key w' Hd H2) as [E2 _].
  congruence.
Qed.

Lemma plainKeys_object entries key w :
  plainKeys (JObject entries) = true -> In (key, w) entries ->
  Js.eqb key (str "__proto__") = false /\ plainKeys w = true.
Proof.
  cbn [plainKeys]. rewrite forallb_forall. intros H Hin.
  specialize (H _ Hin). cbn [fst snd] in H.
  apply andb_true_iff in H as [H1 H2]. now apply negb_true_iff in H1.
Qed.

(** One step of a path in the sorted value. *)
Lemma valueAtSegment_sorted v segment :
  distinctKeys v = true -> plainKeys v = true ->
  valueAtSegment (sortJsonValue localeCompare v) segment
  = option_map (sortJsonValue localeCompare) (valueAtSegment v segment).
Proof.
  intros Hd Hp. destruct v as [| b | n | s | items | entries]; try reflexivity.
  - destruct segment as [key | index]; [reflexivity|].
    cbn [sortJsonValue valueAtSegment]. apply nth_error_map.
  - destruct segment as [key | index]; [|reflexivity].
    cbn [sortJsonValue valueAtSegment].
    set (mapped := map (fun kv => (fst kv, sortJsonValue localeCompare (snd kv))) entries).
    assert (Hf : forall k w w', In (k, w) mapped -> In (k, w') mapped -> w = w').
    { intros k w w' H1 H2. unfold mapped in H1, H2.
      apply in_map_iff in H1 as ([k1 x1] & [= <- <-] & Hin1).
      apply in_map_iff in H2 as ([k2 x2] & [= E <-] & Hin2).
      cbn [fst snd] in *. subst k2.
      now rewrite (distinctKeys_functional entries Hd k1 x1 x2 Hin1 Hin2). }
    rewrite assignProperty_plain.
    + rewrite lookupKey_fold_defineProperty.
      * cbn [lookupKey].
        rewrite (lookupKey_same_members mapped _ key Hf (sortEntries_In mapped)).
        destruct (lookupKey key mapped) eqn:E; rewrite <- E; apply lookupKey_map.
      * intros k w w' H1 H2.
        exact (Hf k w w' (proj1 (sortEntries_In mapped _) H1)
                 (proj1 (sortEntries_In mapped _) H2)).
    + apply Forall_forall. intros [k w] Hin.
      apply (proj1 (sortEntries_In mapped _)) in Hin. unfold mapped in Hin. apply in_map_iff in Hin as ([k1 x1] & [= <- <-] & Hin).
      cbn [fst]. apply (plainKeys_object entries k1 x1 Hp Hin).
Qed.

Lemma valueAtSegment_keeps v segment child :
  distinctKeys v = true -> plainKeys v = true ->
  valueAtSegment v segment = Some child ->
  distinctKeys child = true /\ plainKeys child = true.
Proof.
  intros Hd Hp. destruct v as [| b | n | s | items | entries];
    destruct segment as [key | index]; cbn [valueAtSegment]; try discriminate.
  - intros H. apply nth_error_In in H. split.
    + now apply (distinctKeys_array items).
    + cbn [plainKeys] in Hp. rewrite forallb_forall in Hp. now apply Hp.
  - intros H. apply lookupKey_In in H. split.
    + now apply (distinctKeys_object entries key child Hd H).
    + now apply (plainKeys_object entries key child Hp H).
Qed.

(** ** The order of the sorted properties *)

Lemma insertEntry_length e s :
  length (insertEntry localeCompare e s) = S (length s).
Proof.
  induction s as [|y s IH]; cbn [insertEntry]; [reflexivity|].
  destruct (0 <? localeCompare (fst y) (fst e))%Z; cbn [length]; [reflexivity|].
  now rewrite IH.
Qed.

Lemma sortEntries_length l :
  length (sortEntries localeCompare l) = length l.
Proof.
  unfold sortEntries.
  assert (H : forall acc,
             length (fold_left (fun sorted entry => insertEntry localeCompare entry sorted)
                       l acc)
             = length l + length acc).
  { induction l as [|e l IH]; intros acc; cbn [fold_left length]; [reflexivity|].
    rewrite IH, insertEntry_length. lia. }
  rewrite H. cbn [length]. lia.
Qed.

Lemma insertEntry_keys e s k :
  In k (map fst (insertEntry localeCompare e s)) <-> k = fst e \/ In k (map fst s).
Proof.
  rewrite !in_map_iff. split.
  - intros (x & <- & Hx). apply insertEntry_In in Hx as [-> | Hx]; [now left|].
    right. now exists x.
  - intros [-> | (x & <- & Hx)].
    + exists e. split; [reflexivity|]. apply insertEntry_In. now left.
    + exists x. split; [reflexivity|]. apply insertEntry_In. now right.
Qed.

Lemma insertEntry_NoDup e s :
  NoDup (map fst s) -> ~ In (fst e) (map fst s) ->
  NoDup (map fst (insertEntry localeCompare e s)).
Proof.
  induction s as [|y s IH]; cbn [insertEntry]; intros Hs Hfresh.
  - cbn. constructor; [intros [] | constructor].
  - destruct (0 <? localeCompare (fst y) (fst e))%Z.
    + cbn [map]. constructor; assumption.
    + cbn [map] in *. inversion_clear Hs as [|? ? Hy Hs'].
      constructor.
      * rewrite insertEntry_keys. intros [Heq | Hin]; [|contradiction].
        apply Hfresh. now left.
      * apply IH; [exact Hs'|]. intros Hin. apply Hfresh. now right.
Qed.

Lemma sortEntries_NoDup l :
  NoDup (map fst l) -> NoDup (map fst (sortEntries localeCompare l)).
Proof.
  unfold sortEntries. intros Hl.
  assert (H : forall acc,
             NoDup (map fst acc) -> NoDup (map fst l) ->
             (forall k, In k (map fst l) -> ~ In k (map fst acc)) ->
             NoDup (map fst
                      (fold_left (fun sorted entry => insertEntry localeCompare entry sorted)
                         l acc))).
  { clear Hl. induction l as [|e l IH]; intros acc Hacc Hl Hsep; [exact Hacc|].
    cbn [fold_left]. cbn [map] in Hl, Hsep. inversion_clear Hl as [|? ? He Hl'].
    apply IH; [| exact Hl' |].
    - apply insertEntry_NoDup; [exact Hacc|]. apply Hsep. now left.
    - intros k Hk. rewrite insertEntry_keys. intros [-> | Hin]; [contradiction|].
      apply (Hsep k); [now right | exact Hin]. }
  apply H; [constructor | exact Hl | intros k _ []].
Qed.

Lemma distinctKeys_NoDup entries :
  distinctKeys (JObject entries) = true -> NoDup (map fst entries).
Proof.
  induction entries as [|[k x] entries IH]; [constructor|].
  intros Hd. cbn [distinctKeys] in Hd.
  apply andb_true_iff in Hd as [Hd Hrest]. apply andb_true_iff in Hd as [Hfresh _].
  cbn [map fst]. constructor; [|now apply IH].
  intros Hin. apply in_map_iff in Hin as ([k' x'] & Hk & Hin). cbn [fst] in Hk. subst k'.
  apply negb_true_iff in Hfresh. apply not_true_iff_false in Hfresh. apply Hfresh.
  apply existsb_exists. exists (k, x'). split; [exact Hin|]. cbn [fst].
  apply Js_eqb_refl.
Qed.

Lemma replaceValue_fresh entries key v :
  ~ In key (map fst entries) -> JSON.replaceValue entries key v = None.
Proof.
  induction entries as [|[k w] entries IH]; [reflexivity|].
  cbn [map fst In JSON.replaceValue]. intros Hfresh.
  destruct (Js.eqb k key) eqn:E.
  - apply Js_eqb_eq in E. elim Hfresh. now left.
  - rewrite IH; [reflexivity|]. intros Hin. apply Hfresh. now right.
Qed.

(** Properties of new keys that are not array indices are enumerated in
    the order of their creation. *)
Lemma fold_defineProperty_append l :
  forall acc,
    NoDup (map fst (acc ++ l)) ->
    Forall (fun kv => JSON.arrayIndex (fst kv) = None) l ->
    fold_left JSON.defineProperty l acc = acc ++ l.
Proof.
  induction l as [|[k w] l IH]; intros acc Hnd Hall.
  - cbn [fold_left]. now rewrite app_nil_r.
  - inversion_clear Hall as [|? ? Hk Hl]. cbn [fst] in Hk. cbn [fold_left].
    assert (Hfresh : ~ In k (map fst acc)).
    { rewrite map_app in Hnd. cbn [map fst] in Hnd.
      apply NoDup_remove_2 in Hnd. intros Hin. apply Hnd, in_or_app. now left. }
    unfold JSON.defineProperty at 2. rewrite replaceValue_fresh, Hk by exact Hfresh.
    rewrite IH; [now rewrite <- app_assoc | | exact Hl].
    now rewrite <- app_assoc.
Qed.

Hypothesis consistent :
  forall a b, (0 < localeCompare a b)%Z -> (localeCompare b a <= 0)%Z.

Local Abbreviation inOrder :=
  (fun x y : jsstring * JsonValue => (localeCompare (fst x) (fst y) <= 0)%Z).

Lemma insertEntry_HdRel x e s :
  HdRel inOrder x s -> inOrder x e ->
  HdRel inOrder x (insertEntry localeCompare e s).
Proof.
  intros Hs He. destruct s as [|y s]; cbn [insertEntry].
  - now constructor.
  - destruct (0 <? localeCompare (fst y) (fst e))%Z; constructor;
      [exact He | now inversion Hs].
Qed.

Lemma insertEntry_Sorted e s :
  Sorted inOrder s -> Sorted inOrder (insertEntry localeCompare e s).
Proof.
  induction 1 as [|y s Hs IH Hy]; cbn [insertEntry].
  - repeat constructor.
  - destruct (0 <? localeCompare (fst y) (fst e))%Z eqn:E.
    + apply Z.ltb_lt in E. constructor; [now constructor|].
      constructor. now apply consistent.
    + apply Z.ltb_ge in E. constructor; [exact IH|].
      now apply insertEntry_HdRel.
Qed.

Lemma sortEntries_Sorted l : Sorted inOrder (sortEntries localeCompare l).
Proof.
  unfold sortEntries.
  assert (H : forall acc,
             Sorted inOrder acc ->
             Sorted inOrder
               (fold_left (fun sorted entry => insertEntry localeCompare entry sorted)
                  l acc)).
  { induction l as [|e l IH]; intros acc Hacc; [exact Hacc|].
    cbn [fold_left]. now apply IH, insertEntry_Sorted. }
  apply H. constructor.
Qed.

End SortedValue.

(** X24. Sorting keeps every value where it was: for a document none of
    whose objects has two properties of one key or a property
    [__proto__], a path leads in the sorted value to the sorted form of
    what it leads to in the document, and to nothing where it leads to
    nothing. *)
Theorem sortJsonValue_keeps_values localeCompare v segments :
  distinctKeys v = true -> plainKeys v = true ->
  valueAt (sortJsonValue localeCompare v) segments
  = option_map (sortJsonValue localeCompare) (valueAt v segments).
Proof.
  revert v. induction segments as [|segment rest IH]; intros v Hd Hp; [reflexivity|].
  cbn [valueAt]. rewrite (valueAtSegment_sorted localeCompare v segment Hd Hp).
  destruct (valueAtSegment v segment) as [child|] eqn:E; [|reflexivity].
  cbn [option_map].
  destruct (valueAtSegment_keeps v segment child Hd Hp E) as [Hdc Hpc].
  now apply IH.
Qed.

Lemma sortJsonValue_keeps_values_witness :
  distinctKeys (JObject [(str "b", JNull); (str "a", JArray [JBool true])]) = true
  /\ plainKeys (JObject [(str "b", JNull); (str "a", JArray [JBool true])]) = true
  /\ valueAt
       (sortJsonValue (fun a b => (Z.of_N (hd 0%N a) - Z.of_N (hd 0%N b))%Z)
          (JObject [(str "b", JNull); (str "a", JArray [JBool true])]))
       [SegKey (str "a"); SegIndex 0]
     = Some (JBool true).
Proof.
  split; [reflexivity|]. split; [reflexivity|].
  exact (eq_trans
           (sortJsonValue_keeps_values
              (fun a b => (Z.of_N (hd 0%N a) - Z.of_N (hd 0%N b))%Z)
              (JObject [(str "b", JNull); (str "a", JArray [JBool true])])
              [SegKey (str "a"); SegIndex 0] eq_refl eq_refl)
           eq_refl).
Defined.

(** X25. A property [__proto__] is lost in the sorted value: whatever the
    object, its sorted form has no property of that key, because the
    assignment in [sortJsonValue] goes to the setter of the prototype. *)
Theorem sortJsonValue_drops_proto localeCompare entries :
  valueAt (sortJsonValue localeCompare (JObject entries))
          [SegKey (str "__proto__")] = None.
Proof.
  cbn [valueAt sortJsonValue valueAtSegment].
  now rewrite assignProperty_no_proto.
Qed.

(** X26. The properties of the sorted object are in the order of the
    comparison: when the keys of an object differ from each other and
    none is an array index or [__proto__], and the comparison does not
    put two keys each after the other, the sorted object has as many
    properties, each at most the next one in the comparison, and they are
    the properties of the object with their values sorted. *)
Theorem sortJsonValue_orders_keys localeCompare entries :
  (forall a b, (0 < localeCompare a b)%Z -> (localeCompare b a <= 0)%Z) ->
  distinctKeys (JObject entries) = true ->
  Forall (fun kv => Js.eqb (fst kv) (str "__proto__") = false
                    /\ JSON.arrayIndex (fst kv) = None) entries ->
  exists sorted,
    sortJsonValue localeCompare (JObject entries) = JObject sorted
    /\ Sorted (fun x y => (localeCompare (fst x) (fst y) <= 0)%Z) sorted
    /\ length sorted = length entries
    /\ forall key w,
         In (key, w) sorted
         <-> exists w0, In (key, w0) entries /\ w = sortJsonValue localeCompare w0.
Proof.
  intros Hcmp Hd Hkeys.
  set (mapped := map (fun kv => (fst kv, sortJsonValue localeCompare (snd kv))) entries).
  exists (sortEntries localeCompare mapped).
  assert (Hmem : forall key w,
             In (key, w) mapped
             <-> exists w0, In (key, w0) entries /\ w = sortJsonValue localeCompare w0).
  { intros key w. unfold mapped. rewrite in_map_iff. split.
    - intros ([k x] & [= <- <-] & Hin). now exists x.
    - intros (w0 & Hin & ->). now exists (key, w0). }
  assert (Hall : forall kv, In kv (sortEntries localeCompare mapped) ->
                   Js.eqb (fst kv) (str "__proto__") = false
                   /\ JSON.arrayIndex (fst kv) = None).
  { intros [k w] Hin. apply (proj1 (sortEntries_In localeCompare mapped _)) in Hin.
    apply Hmem in Hin as (w0 & Hin & _).
    rewrite Forall_forall in Hkeys. exact (Hkeys _ Hin). }
  repeat split.
  - cbn [sortJsonValue]. fold mapped. f_equal.
    rewrite assignProperty_plain
      by (apply Forall_forall; intros kv Hin; apply (Hall kv Hin)).
    apply (fold_defineProperty_append _ []).
    + cbn [app]. apply sortEntries_NoDup. unfold mapped. rewrite map_map. cbn [fst].
      now apply distinctKeys_NoDup.
    + apply Forall_forall. intros kv Hin. apply (Hall kv Hin).
  - now apply sortEntries_Sorted.
  - rewrite sortEntries_length. unfold mapped. apply length_map.
  - intros Hin. apply Hmem. now apply (proj1 (sortEntries_In localeCompare mapped _)).
  - intros Hin. apply (proj2 (sortEntries_In localeCompare mapped _)). now apply Hmem.
Qed.

Lemma sortJsonValue_orders_keys_witness :
  exists sorted,
    sortJsonValue (fun a b => (Z.of_N (hd 0%N a) - Z.of_N (hd 0%N b))%Z)
      (JObject [(str "b", JNull); (str "a", JBool true)])
    = JObject sorted
    /\ map fst sorted = [str "a"; str "b"].
Proof.
  destruct (sortJsonValue_orders_keys
              (fun a b => (Z.of_N (hd 0%N a) - Z.of_N (hd 0%N b))%Z)
              [(str "b", JNull); (str "a", JBool true)])
    as (sorted & Heq & _).
  - intros a b. lia.
  - reflexivity.
  - repeat constructor.
  - exists sorted. split; [exact Heq|].
    vm_compute in Heq. injection Heq as <-. reflexivity.
Defined.

(* ================================================================== *)
(** * JSON text written with indentation *)
(* ================================================================== *)

Section IndentedText.

Local Open Scope N_scope.

(** ** A number literal followed by a line break *)

Lemma ends_cases rest :
  ends rest = true ->
  rest = [] \/ exists c tail,
      rest = c :: tail /\ (c = 10 \/ c = 44 \/ c = 93 \/ c = 125).
Proof.
  destruct rest as [|c tail]; [now left|]. cbn [ends]. intros H. right.
  exists c, tail. split; [reflexivity|].
  repeat (apply orb_true_iff in H as [H | H]); apply N.eqb_eq in H; auto.
Qed.

Lemma headIs_ends c s rest :
  ends rest = true -> c <> 10 -> c <> 44 -> c <> 93 -> c <> 125 ->
  headIs c (s ++ rest) = option_map (fun r => r ++ rest) (headIs c s).
Proof.
  intros Hrest H0 H1 H2 H3. destruct s as [|x s].
  - cbn [app headIs option_map].
    destruct (ends_cases _ Hrest) as [-> | (y & tail & -> & Hy)]; [reflexivity|].
    cbn [headIs]. destruct (N.eqb_spec y c); [lia | reflexivity].
  - cbn [app headIs]. now destruct (x =? c).
Qed.

Lemma takeDigits_ends s rest :
  ends rest = true ->
  JSON.takeDigits (s ++ rest)
  = (fst (JSON.takeDigits s), snd (JSON.takeDigits s) ++ rest).
Proof.
  intros Hrest. induction s as [|c s IH].
  - cbn [app JSON.takeDigits fst snd].
    destruct (ends_cases _ Hrest) as [-> | (y & tail & -> & Hy)]; [reflexivity|].
    cbn [JSON.takeDigits].
    replace (JSON.isDigit y) with false; [reflexivity|].
    destruct Hy as [-> | [-> | [-> | ->]]]; reflexivity.
  - cbn [app JSON.takeDigits]. destruct (JSON.isDigit c); [|reflexivity].
    rewrite IH. now destruct (JSON.takeDigits s).
Qed.

Lemma parseInteger_ends s rest :
  ends rest = true ->
  JSON.parseInteger (s ++ rest)
  = (fst (JSON.parseInteger s), snd (JSON.parseInteger s) ++ rest).
Proof.
  intros Hrest. unfold JSON.parseInteger.
  rewrite headIs_ends by (assumption || discriminate).
  destruct (headIs 48 s); [reflexivity|]. now apply takeDigits_ends.
Qed.

Lemma parseFraction_ends s rest :
  ends rest = true ->
  JSON.parseFraction (s ++ rest)
  = option_map (fun '(ds, r) => (ds, r ++ rest)) (JSON.parseFraction s).
Proof.
  intros Hrest. unfold JSON.parseFraction.
  rewrite headIs_ends by (assumption || discriminate).
  destruct (headIs 46 s) as [r|]; [|reflexivity]. cbn [option_map].
  rewrite takeDigits_ends by assumption.
  now destruct (JSON.takeDigits r) as [[|d ds] r'].
Qed.

Lemma parseExponent_ends s rest :
  ends rest = true ->
  JSON.parseExponent (s ++ rest)
  = option_map (fun '(x, r) => (x, r ++ rest)) (JSON.parseExponent s).
Proof.
  intros Hrest. destruct s as [|c s].
  - cbn [app JSON.parseExponent option_map].
    destruct (ends_cases _ Hrest) as [-> | (y & tail & -> & Hy)]; [reflexivity|].
    cbn [JSON.parseExponent].
    replace ((y =? 101) || (y =? 69)) with false; [reflexivity|].
    destruct Hy as [-> | [-> | [-> | ->]]]; reflexivity.
  - cbn [app JSON.parseExponent].
    destruct ((c =? 101) || (c =? 69)); [|reflexivity].
    rewrite !headIs_ends by (assumption || discriminate).
    destruct (headIs 45 s) as [r|]; cbn [option_map].
    + rewrite takeDigits_ends by assumption.
      now destruct (JSON.takeDigits r) as [[|d ds] r'].
    + destruct (headIs 43 s) as [r|]; cbn [option_map];
        rewrite takeDigits_ends by assumption.
      * now destruct (JSON.takeDigits r) as [[|d ds] r'].
      * now destruct (JSON.takeDigits s) as [[|d ds] r'].
Qed.

(** A number literal is read the same way when a line break follows it. *)
Lemma parseNumber_ends s rest :
  ends rest = true ->
  JSON.parseNumber (s ++ rest)
  = option_map (fun '(n, r) => (n, r ++ rest)) (JSON.parseNumber s).
Proof.
  intros Hrest. unfold JSON.parseNumber.
  rewrite headIs_ends by (assumption || discriminate).
  destruct (headIs 45 s) as [r|]; cbn [option_map].
  - rewrite parseInteger_ends by assumption.
    destruct (JSON.parseInteger r) as [[|d ds] r2]; cbn [fst snd]; [reflexivity|].
    rewrite parseFraction_ends by assumption.
    destruct (JSON.parseFraction r2) as [[f r3]|]; cbn [option_map]; [|reflexivity].
    rewrite parseExponent_ends by assumption.
    now destruct (JSON.parseExponent r3) as [[x r4]|].
  - rewrite parseInteger_ends by assumption.
    destruct (JSON.parseInteger s) as [[|d ds] r2]; cbn [fst snd]; [reflexivity|].
    rewrite parseFraction_ends by assumption.
    destruct (JSON.parseFraction r2) as [[f r3]|]; cbn [option_map]; [|reflexivity].
    rewrite parseExponent_ends by assumption.
    now destruct (JSON.parseExponent r3) as [[x r4]|].
Qed.
(** ** White space between the tokens *)

Local Abbreviation blank := (forallb JSON.isWhiteSpace).

Lemma skipWhiteSpace_blank ws s :
  blank ws = true -> JSON.skipWhiteSpace (ws ++ s) = JSON.skipWhiteSpace s.
Proof.
  induction ws as [|c ws IH]; [reflexivity|].
  cbn [forallb app JSON.skipWhiteSpace]. intros H.
  apply andb_true_iff in H as [Hc Hws]. rewrite Hc. now apply IH.
Qed.

Lemma skipWhiteSpace_stays c s :
  JSON.isWhiteSpace c = false -> JSON.skipWhiteSpace (c :: s) = c :: s.
Proof. intros H. cbn [JSON.skipWhiteSpace]. now rewrite H. Qed.

Lemma parseValue_blank fuel ws s :
  blank ws = true -> JSON.parseValue fuel (ws ++ s) = JSON.parseValue fuel s.
Proof.
  intros H. destruct fuel as [|fuel]; [reflexivity|].
  cbn [JSON.parseValue]. now rewrite skipWhiteSpace_blank.
Qed.

Lemma blank_repeat n : blank (repeat 32 n) = true.
Proof. induction n as [|n IH]; [reflexivity|]. cbn [repeat forallb]. now rewrite IH. Qed.

Lemma printable_not_blank c : 34 <= c <= 123 -> JSON.isWhiteSpace c = false.
Proof. intros H. unfold JSON.isWhiteSpace. split_cmp; reflexivity. Qed.

(** ** The indented text of a value *)

Section Gap.

Variable g : char.
Variable gs : jsstring.

Local Abbreviation gap := (g :: gs).

(** The text of a value starts with a printable character that closes
    no array. *)
Lemma serialize_starts indent v :
  readsBack v ->
  exists c tail,
    JSON.serialize gap indent v = c :: tail /\ 34 <= c <= 123 /\ c <> 93.
Proof.
  intros Hv.
  destruct v as [| [|] | n | s | items | entries]; cbn [JSON.serialize];
    try (eexists; eexists; split;
         [reflexivity | vm_compute; repeat split; discriminate]).
  - destruct (numberReadsBack_head n Hv) as (c & tail & -> & Hc).
    exists c, tail. split; [reflexivity|].
    destruct Hc as [-> | Hc]; [lia|]. unfold JSON.isDigit in Hc.
    apply andb_true_iff in Hc as [H1 H2]. apply N.leb_le in H1, H2. lia.
  - unfold JSON.wrap. destruct (map _ items);
      eexists; eexists;
      (split; [reflexivity | vm_compute; repeat split; discriminate]).
  - unfold JSON.wrap. destruct (map _ entries);
      eexists; eexists;
      (split; [reflexivity | vm_compute; repeat split; discriminate]).
Qed.

Lemma serialize_array indent x items rest :
  JSON.serialize gap indent (JArray (x :: items)) ++ rest
  = 91 :: (10 :: indent ++ gap)
       ++ join (44 :: 10 :: indent ++ gap)
            (map (JSON.serialize gap (indent ++ gap)) (x :: items))
       ++ 10 :: indent ++ 93 :: rest.
Proof.
  cbn [JSON.serialize map]. unfold JSON.wrap.
  repeat rewrite <- app_assoc. cbn [app]. repeat rewrite <- app_assoc.
  reflexivity.
Qed.

Lemma serialize_object indent kv entries rest :
  JSON.serialize gap indent (JObject (kv :: entries)) ++ rest
  = 123 :: (10 :: indent ++ gap)
        ++ join (44 :: 10 :: indent ++ gap)
             (map (fun kv => JSON.quote (fst kv) ++ str ":" ++ str " "
                             ++ JSON.serialize gap (indent ++ gap) (snd kv))
                (kv :: entries))
        ++ 10 :: indent ++ 125 :: rest.
Proof.
  cbn [JSON.serialize map]. unfold JSON.wrap.
  repeat rewrite <- app_assoc. cbn [app]. repeat rewrite <- app_assoc.
  reflexivity.
Qed.

End Gap.

Lemma parseElements_spaced (text : JsonValue -> jsstring) sep tail x items :
  blank sep = true -> blank tail = true ->
  Forall (fun v => forall fuel rest,
              (parseDepth v <= fuel)%nat -> ends rest = true ->
              JSON.parseValue fuel (text v ++ rest) = Some (v, rest))
    (x :: items) ->
  forall fuel ws rest,
    blank ws = true ->
    (listDepth (map parseDepth (x :: items)) <= fuel)%nat ->
    JSON.parseElements fuel
      (ws ++ join (44 :: sep) (map text (x :: items)) ++ 10 :: tail ++ 93 :: rest)
    = Some (x :: items, rest).
Proof.
  intros Hsep Htail H. revert x H.
  induction items as [|y items IH]; intros x H fuel ws rest Hws Hfuel;
    inversion_clear H as [|? ? Hx Hitems];
    cbn [map listDepth] in Hfuel; (destruct fuel as [|fuel]; [lia|]).
  - cbn [map join]. rewrite parseElements_step, parseValue_blank by exact Hws.
    rewrite Hx by (lia || reflexivity).
    change (10 :: tail ++ 93 :: rest) with ((10 :: tail) ++ 93 :: rest).
    rewrite skipWhiteSpace_blank by (cbn [forallb]; now rewrite Htail).
    reflexivity.
  - change (join (44 :: sep) (map text (x :: y :: items)))
      with (text x ++ 44 :: sep ++ join (44 :: sep) (map text (y :: items))).
    rewrite <- app_assoc, <- app_comm_cons, <- app_assoc.
    rewrite parseElements_step, parseValue_blank by exact Hws.
    rewrite Hx by (lia || reflexivity).
    cbn [JSON.skipWhiteSpace JSON.isWhiteSpace N.eqb Pos.eqb orb headIs].
    rewrite (IH y Hitems) by (exact Hsep || (cbn [map listDepth]; lia)).
    reflexivity.
Qed.

Lemma member_text_spaced key text rest :
  (JSON.quote key ++ str ":" ++ str " " ++ text) ++ rest
  = dquote :: JSON.quoteBody key ++ dquote :: 58 :: [32] ++ text ++ rest.
Proof.
  unfold JSON.quote. rewrite <- !app_assoc. reflexivity.
Qed.

Lemma parseMembers_spaced (text : JsonValue -> jsstring) sep tail kv entries :
  blank sep = true -> blank tail = true ->
  Forall (fun kv => forall fuel rest,
              (parseDepth (snd kv) <= fuel)%nat -> ends rest = true ->
              JSON.parseValue fuel (text (snd kv) ++ rest) = Some (snd kv, rest))
    (kv :: entries) ->
  forall fuel ws rest,
    blank ws = true ->
    (listDepth (map (fun kv => parseDepth (snd kv)) (kv :: entries)) <= fuel)%nat ->
    JSON.parseMembers fuel
      (ws ++ join (44 :: sep)
               (map (fun kv => JSON.quote (fst kv) ++ str ":" ++ str " "
                               ++ text (snd kv))
                  (kv :: entries))
          ++ 10 :: tail ++ 125 :: rest)
    = Some (kv :: entries, rest).
Proof.
  intros Hsep Htail H. revert kv H.
  induction entries as [|kv' entries IH]; intros [key v] H fuel ws rest Hws Hfuel;
    inversion_clear H as [|? ? Hv Hentries]; cbn [fst snd] in Hv;
    cbn [map listDepth snd] in Hfuel; (destruct fuel as [|fuel]; [lia|]).
  - cbn [map join fst snd]. rewrite member_text_spaced, parseMembers_step.
    rewrite skipWhiteSpace_blank by exact Hws.
    rewrite headIs_skip_same by reflexivity. rewrite quoteBody_parse.
    rewrite headIs_skip_same by reflexivity.
    rewrite parseValue_blank by reflexivity.
    rewrite Hv by (lia || reflexivity).
    change (10 :: tail ++ 125 :: rest) with ((10 :: tail) ++ 125 :: rest).
    rewrite skipWhiteSpace_blank by (cbn [forallb]; now rewrite Htail).
    reflexivity.
  - change (join (44 :: sep)
              (map (fun kv => JSON.quote (fst kv) ++ str ":" ++ str " "
                              ++ text (snd kv))
                 ((key, v) :: kv' :: entries)))
      with ((JSON.quote key ++ str ":" ++ str " " ++ text v)
            ++ 44 :: sep
            ++ join (44 :: sep)
                 (map (fun kv => JSON.quote (fst kv) ++ str ":" ++ str " "
                                 ++ text (snd kv))
                    (kv' :: entries))).
    rewrite <- app_assoc, member_text_spaced, parseMembers_step.
    rewrite skipWhiteSpace_blank by exact Hws.
    rewrite headIs_skip_same by reflexivity. rewrite quoteBody_parse.
    rewrite headIs_skip_same by reflexivity.
    rewrite parseValue_blank by reflexivity.
    rewrite <- app_comm_cons, <- app_assoc.
    rewrite Hv by (lia || reflexivity).
    rewrite headIs_skip_same by reflexivity.
    rewrite (IH kv' Hentries) by (exact Hsep || (cbn [map listDepth]; lia)).
    reflexivity.
Qed.

(** The parser reads the indented text of a value back as the value,
    whatever the indentation reached and whatever ends the value. *)
Lemma parseValue_serialize g gs v :
  blank (g :: gs) = true ->
  readsBack v ->
  forall indent fuel rest,
    blank indent = true ->
    (parseDepth v <= fuel)%nat -> ends rest = true ->
    JSON.parseValue fuel (JSON.serialize (g :: gs) indent v ++ rest) = Some (v, rest).
Proof.
  intros Hgap.
  induction v as [| b | n | s | items IH | entries IH] using JsonValue_nested_ind;
    intros Hv indent fuel rest Hindent Hfuel Hrest;
    (destruct fuel as [|fuel]; [cbn in Hfuel; lia|]).
  - reflexivity.
  - destruct b; reflexivity.
  - destruct (numberReadsBack_head n Hv) as (c & tail & Htext & Hc).
    cbn [JSON.serialize]. rewrite Htext.
    rewrite <- app_comm_cons, parseValue_number by exact Hc.
    rewrite app_comm_cons, <- Htext, parseNumber_ends by assumption.
    cbn [readsBack] in Hv. unfold numberReadsBack in Hv. now rewrite Hv.
  - cbn [JSON.serialize]. unfold JSON.quote.
    rewrite <- !app_assoc. cbn [app].
    now rewrite parseValue_string, quoteBody_parse.
  - apply readsBack_items in Hv.
    destruct items as [|x items]; [reflexivity|].
    assert (Hinner : blank (indent ++ g :: gs) = true)
      by (rewrite forallb_app, Hindent; exact Hgap).
    assert (Hline : blank (10 :: indent ++ g :: gs) = true)
      by (cbn [forallb]; now rewrite Hinner).
    rewrite serialize_array, parseValue_array.
    assert (Hhead : headIs 93 (JSON.skipWhiteSpace
                      ((10 :: indent ++ g :: gs)
                       ++ join (44 :: 10 :: indent ++ g :: gs)
                            (map (JSON.serialize (g :: gs) (indent ++ g :: gs))
                               (x :: items))
                       ++ 10 :: indent ++ 93 :: rest))
                    = None).
    { rewrite skipWhiteSpace_blank by exact Hline. cbn [map].
      match goal with
      | |- context [join ?sep (?p :: ?ps)] =>
          destruct (join_head sep p ps) as [tail Htail]
      end.
      inversion_clear Hv as [|? ? Hx _].
      destruct (serialize_starts g gs (indent ++ g :: gs) x Hx)
        as (c & tail' & Hstart & Hc & H93).
      unfold jsstring, char in *. rewrite Htail, Hstart.
      rewrite <- !app_comm_cons.
      apply headIs_skip_other; [now apply printable_not_blank | exact H93]. }
    rewrite Hhead.
    rewrite (parseElements_spaced (JSON.serialize (g :: gs) (indent ++ g :: gs)));
      [reflexivity | exact Hline | exact Hindent | | exact Hline
       | cbn [parseDepth] in Hfuel; lia].
    rewrite Forall_forall in *. intros y Hy fuel' rest' Hfuel' Hrest'.
    now apply IH; [| apply Hv | | |].
  - apply readsBack_entries in Hv as [Henum Hv].
    destruct entries as [|kv entries]; [reflexivity|].
    assert (Hinner : blank (indent ++ g :: gs) = true)
      by (rewrite forallb_app, Hindent; exact Hgap).
    assert (Hline : blank (10 :: indent ++ g :: gs) = true)
      by (cbn [forallb]; now rewrite Hinner).
    rewrite serialize_object, parseValue_object.
    assert (Hhead : headIs 125 (JSON.skipWhiteSpace
                      ((10 :: indent ++ g :: gs)
                       ++ join (44 :: 10 :: indent ++ g :: gs)
                            (map (fun kv => JSON.quote (fst kv) ++ str ":" ++ str " "
                                            ++ JSON.serialize (g :: gs)
                                                 (indent ++ g :: gs) (snd kv))
                               (kv :: entries))
                       ++ 10 :: indent ++ 125 :: rest))
                    = None).
    { rewrite skipWhiteSpace_blank by exact Hline. cbn [map].
      match goal with
      | |- context [join ?sep (?p :: ?ps)] =>
          destruct (join_head sep p ps) as [tail Htail]
      end.
      unfold jsstring, char in *. rewrite Htail.
      rewrite <- app_assoc, member_text_spaced.
      now apply headIs_skip_other. }
    rewrite Hhead.
    rewrite (parseMembers_spaced (JSON.serialize (g :: gs) (indent ++ g :: gs)));
      [| exact Hline | exact Hindent | | exact Hline
       | cbn [parseDepth] in Hfuel; lia].
    + unfold JSON.makeObject. now rewrite Henum.
    + rewrite Forall_forall in *. intros y Hy fuel' rest' Hfuel' Hrest'.
      now apply IH; [| apply Hv | | |].
Qed.

(** ** Fuel for the indented text *)

Lemma listDepth_join_spaced {A} (depth : A -> nat) (text : A -> jsstring) sep xs :
  Forall (fun x => (depth x <= 2 * length (text x))%nat) xs ->
  (listDepth (map depth xs)
   <= 2 * length (join (44%N :: sep) (map text xs)) + 1)%nat.
Proof.
  induction 1 as [|x xs Hx Hxs IH]; [cbn; lia|].
  destruct xs as [|y xs].
  - cbn [map listDepth join]. lia.
  - change (join (44 :: sep) (map text (x :: y :: xs)))
      with (text x ++ 44 :: sep ++ join (44 :: sep) (map text (y :: xs))).
    rewrite length_app. cbn [length]. rewrite length_app.
    change (listDepth (map depth (x :: y :: xs)))
      with (S (Nat.max (depth x) (listDepth (map depth (y :: xs))))).
    unfold jsstring, char in *. lia.
Qed.

Lemma parseDepth_serialize g gs v :
  forall indent,
    (parseDepth v <= 2 * length (JSON.serialize (g :: gs) indent v))%nat.
Proof.
  induction v as [| b | n | s | items IH | entries IH] using JsonValue_nested_ind;
    intros indent.
  - cbn. lia.
  - destruct b; cbn; lia.
  - destruct (numberText_head n) as (c & rest & H & _).
    cbn [JSON.serialize parseDepth]. rewrite H. cbn [length]. lia.
  - cbn [JSON.serialize parseDepth]. unfold JSON.quote.
    rewrite !length_app. cbn [length]. lia.
  - destruct items as [|x items]; [cbn; lia|].
    rewrite <- (app_nil_r (JSON.serialize _ _ _)), serialize_array.
    cbn [parseDepth length]. rewrite !length_app. cbn [length].
    pose proof (listDepth_join_spaced parseDepth
                  (JSON.serialize (g :: gs) (indent ++ g :: gs))
                  (10 :: indent ++ g :: gs) (x :: items)) as H.
    assert (Hall : Forall (fun v =>
                     (parseDepth v
                      <= 2 * length (JSON.serialize (g :: gs) (indent ++ g :: gs) v))%nat)
                     (x :: items)).
    { eapply Forall_impl; [|exact IH]. intros v Hv. apply Hv. }
    specialize (H Hall). unfold jsstring, char in *. lia.
  - destruct entries as [|kv entries]; [cbn; lia|].
    rewrite <- (app_nil_r (JSON.serialize _ _ _)), serialize_object.
    cbn [parseDepth length]. rewrite !length_app. cbn [length].
    pose proof (listDepth_join_spaced (fun kv => parseDepth (snd kv))
                  (fun kv => JSON.quote (fst kv) ++ str ":" ++ str " "
                             ++ JSON.serialize (g :: gs) (indent ++ g :: gs) (snd kv))
                  (10 :: indent ++ g :: gs) (kv :: entries)) as H.
    cbv beta in H.
    assert (Hall : Forall (fun kv : jsstring * JsonValue =>
                     (parseDepth (snd kv)
                      <= 2 * length (JSON.quote (fst kv) ++ str ":" ++ str " "
                                     ++ JSON.serialize (g :: gs) (indent ++ g :: gs)
                                          (snd kv)))%nat)
                     (kv :: entries)).
    { eapply Forall_impl; [|exact IH]. intros e He. cbv beta in He.
      rewrite !length_app. specialize (He (indent ++ g :: gs)). lia. }
    specialize (H Hall). unfold jsstring, char in *. lia.
Qed.

(** [JSON.parse] gives back every value that reads back from its compact
    text, from the text written with an indentation too. *)
Lemma parse_stringify_indent n v :
  readsBack v -> JSON.parse (JSON.stringify_indent (S n) v) = Some v.
Proof.
  intros Hv. unfold JSON.parse, JSON.stringify_indent. cbn [repeat].
  pose proof (parseValue_serialize 32 (repeat 32 n) v (blank_repeat (S n)) Hv []
                (2 * length (JSON.serialize (32 :: repeat 32 n) [] v) + 2) []
                eq_refl) as H.
  rewrite app_nil_r in H. unfold jsstring, char in *.
  rewrite H; [reflexivity | | reflexivity].
  pose proof (parseDepth_serialize 32 (repeat 32 n) v []).
  unfold jsstring, char in *. lia.
Qed.

End IndentedText.

(* ================================================================== *)
(** * The texts that the viewer hands out *)
(* ================================================================== *)

Section NodeValues.

Variable toLowerCase : jsstring -> jsstring.
Variable P : JsonValue -> Prop.
Hypothesis P_children : forall v c, P v -> In c (children v) -> P (snd c).

(** What holds of a document, and of the members of every value it holds
    of, holds of the value of every node. *)
Lemma node_values_inherit v k n :
  P v -> Nodes_get (nodes (buildTree toLowerCase v)) k = Some n -> P (value n).
Proof.
  intros Hv. revert n. induction k as [k IH] using lt_wf_ind. intros n Hget.
  pose proof (buildTree_WellFormed toLowerCase v) as wf.
  destruct (Nat.eq_dec k 0) as [-> | Hk].
  - destruct (tree_root_node toLowerCase v) as (rn & Hrn & Hval & _).
    rewrite Hrn in Hget. injection Hget as <-. now rewrite Hval.
  - destruct (wf_parent wf Hget Hk) as (p & pn & _ & Hpn & Hlt & Hin & _).
    destruct (tree_node_children toLowerCase v p pn Hpn) as [_ Hch].
    destruct (Forall2_In_r _ _ _ _ Hch Hin) as (c & Hc & cn & Hcn & Hval & _).
    rewrite Hget in Hcn. injection Hcn as <-. rewrite Hval.
    exact (P_children (value pn) c (IH p Hlt pn Hpn) Hc).
Qed.

End NodeValues.

Lemma readsBack_children v c :
  readsBack v -> In c (children v) -> readsBack (snd c).
Proof.
  destruct v as [| b | n | s | items | entries]; try (intros _ []).
  - intros Hv Hin. apply readsBack_items in Hv. destruct c as [[seg key] child].
    cbn [children] in Hin.
    destruct (indexed_In _ _ _ _ _ Hin) as (j & _ & _ & Hnth).
    rewrite Forall_forall in Hv. apply Hv. now apply nth_error_In in Hnth.
  - intros Hv Hin. apply readsBack_entries in Hv as [_ Hv].
    cbn [children] in Hin. apply in_map_iff in Hin as (kv & <- & Hin).
    rewrite Forall_forall in Hv. exact (Hv kv Hin).
Qed.

Lemma node_kind toLowerCase v k n :
  Nodes_get (nodes (buildTree toLowerCase v)) k = Some n ->
  kind n = determineKind (value n).
Proof.
  intros Hget. destruct (tree_node_children toLowerCase v k n Hget) as [Hn _].
  rewrite Hn. reflexivity.
Qed.

(** X27. What is copied from a row can be pasted back as JSON: when the
    document reads back from its compact text, the text copied from a node
    as its subtree is JSON for the value of the node, and so is the text
    copied as its value unless the node is a string. *)
Theorem copied_text_parses_back toLowerCase doc k n :
  readsBack doc ->
  Nodes_get (nodes (buildTree toLowerCase doc)) k = Some n ->
  JSON.parse (getValueForCopy n CopySubtree) = Some (value n)
  /\ (kind n <> KString ->
      JSON.parse (getValueForCopy n CopyValue) = Some (value n)).
Proof.
  intros Hdoc Hget.
  pose proof (node_values_inherit toLowerCase readsBack readsBack_children
                doc k n Hdoc Hget) as Hv.
  split.
  - cbn [getValueForCopy]. now apply parse_stringify_indent.
  - intros Hkind. cbn [getValueForCopy].
    destruct (kind n); try contradiction; cbn [NodeKind_eqb];
      now apply parse_stringify.
Qed.

Lemma copied_text_parses_back_witness :
  exists n,
    Nodes_get (nodes (buildTree asciiToLowerCase sampleDocument)) 0 = Some n
    /\ JSON.parse (getValueForCopy n CopySubtree) = Some sampleDocument
    /\ JSON.parse (getValueForCopy n CopyValue) = Some sampleDocument.
Proof.
  destruct (tree_root_node asciiToLowerCase sampleDocument)
    as (n & Hn & Hval & _).
  assert (Hdoc : readsBack sampleDocument) by (vm_compute; repeat split).
  destruct (copied_text_parses_back asciiToLowerCase sampleDocument 0 n Hdoc Hn)
    as [Hsub Hvalue].
  exists n. split; [exact Hn|]. rewrite <- Hval. split; [exact Hsub|].
  apply Hvalue. rewrite (node_kind _ _ _ _ Hn), Hval. discriminate.
Defined.

(* ================================================================== *)
(** * Parsing the text of the input box again *)
(* ================================================================== *)

Section PasteAgain.

Local Open Scope N_scope.

Lemma trimStart_last l c : isTrimmed c = false -> trimStart (l ++ [c]) <> [].
Proof.
  intros Hc. induction l as [|x l IH]; cbn [app trimStart].
  - rewrite Hc. discriminate.
  - destruct (isTrimmed x); [exact IH | discriminate].
Qed.

Lemma nonEmpty_rev (s : list N) : s <> [] -> nonEmpty (rev s) = true.
Proof.
  destruct s as [|a s]; [intros H; now elim H|]. intros _. cbn [rev].
  destruct (rev s); reflexivity.
Qed.

(** A text that starts with a printable character is not blank. *)
Lemma trim_nonEmpty c tail :
  34 <= c <= 123 -> nonEmpty (trim (c :: tail)) = true.
Proof.
  intros Hrange.
  assert (Hc : isTrimmed c = false) by (unfold isTrimmed; split_cmp; reflexivity).
  unfold trim. cbn [trimStart]. rewrite Hc. cbn [rev].
  apply nonEmpty_rev. now apply trimStart_last.
Qed.

(** The text that a load leaves in the input box, for a value that is not
    a string. *)
Lemma stringifyParsedValueForInput_text v :
  (forall s, v <> JString s) ->
  stringifyParsedValueForInput v = JSON.stringify_indent 2 v.
Proof.
  intros Hv. destruct v as [| b | n | s | items | entries]; try reflexivity.
  now elim (Hv s).
Qed.

Lemma percentFree_Forall s :
  forallb (fun c => negb (c =? 37)) s = true -> Forall (fun c => c <> 37) s.
Proof.
  rewrite forallb_forall, Forall_forall. intros H c Hin Heq.
  specialize (H c Hin). subst c. discriminate.
Qed.

End PasteAgain.

(** X28. Parsing the text that a load left in the input box loads the
    same document again: when the loaded value is not a string, reads
    back from its compact text, and its text in the box has no percent
    sign, [onParsePastedText] loads it, shows the viewer, and gives the
    same value, tree, collapsed rows, selection and text. *)
Theorem onParsePastedText_again toLowerCase rawText st v :
  let st1 := fst (loadFromJsonText toLowerCase rawText st) in
  parsedJsonValue st1 = Some v ->
  readsBack v ->
  (forall s, v <> JString s) ->
  forallb (fun c => negb (c =? 37)%N) (pasteText st1) = true ->
  exists st2,
    onParsePastedText toLowerCase st1 = PasteLoaded st2 true
    /\ parsedJsonValue st2 = Some v
    /\ treeData st2 = treeData st1
    /\ collapsedIds st2 = collapsedIds st1
    /\ selectedId st2 = selectedId st1
    /\ pasteText st2 = pasteText st1
    /\ errorMessage st2 = None.
Proof.
  intros st1 Hloaded Hv Hstring Hplain.
  assert (Hst1 : pasteText st1 = JSON.stringify_indent 2 v
                 /\ treeData st1 = buildTree toLowerCase v
                 /\ collapsedIds st1
                    = makeDefaultCollapsed (nodes (buildTree toLowerCase v))
                 /\ selectedId st1 = hd_error (rootIds (buildTree toLowerCase v))).
  { unfold st1, loadFromJsonText in *.
    destruct (firstParsed (parseTargets rawText) (ParseError NotJsonShaped))
      as [value | error]; cbn [fst parsedJsonValue] in Hloaded; [|discriminate].
    injection Hloaded as ->. cbn [fst pasteText treeData collapsedIds selectedId].
    now rewrite stringifyParsedValueForInput_text. }
  destruct Hst1 as (Htext & Htree & Hcollapsed & Hselected).
  assert (Hparse : firstParsed (parseTargets (pasteText st1))
                     (ParseError NotJsonShaped) = ParseOk v).
  { apply firstParsed_reading. left.
    rewrite safeDecodeURIComponent_plain by now apply percentFree_Forall.
    rewrite Htext. now apply parse_stringify_indent. }
  assert (Hshown : nonEmpty (trim (pasteText st1)) = true).
  { rewrite Htext. unfold JSON.stringify_indent.
    destruct (serialize_starts 32%N [32%N] [] v Hv)
      as (c & tail & Hc & Hrange & _).
    cbn [repeat] in *. unfold jsstring, char in *. rewrite Hc.
    now apply trim_nonEmpty. }
  unfold onParsePastedText. rewrite Hshown. unfold loadFromJsonText.
  rewrite Hparse. cbn [fst snd]. eexists. split; [reflexivity|].
  cbn [parsedJsonValue treeData collapsedIds selectedId pasteText errorMessage].
  rewrite Htext, Htree, Hcollapsed, Hselected.
  repeat split. now apply stringifyParsedValueForInput_text.
Qed.

Lemma onParsePastedText_again_witness :
  exists st2,
    onParsePastedText asciiToLowerCase
      (fst (loadFromJsonText asciiToLowerCase (str "[null,true]") initialApp))
    = PasteLoaded st2 true
    /\ parsedJsonValue st2 = Some (JArray [JNull; JBool true]).
Proof.
  destruct (onParsePastedText_again asciiToLowerCase (str "[null,true]") initialApp
              (JArray [JNull; JBool true]))
    as (st2 & Hpaste & Hvalue & _).
  - vm_compute. reflexivity.
  - vm_compute. repeat split.
  - discriminate.
  - vm_compute. reflexivity.
  - exists st2. split; [exact Hpaste | exact Hvalue].
Defined.

(* ================================================================== *)
(** * The first load *)
(* ================================================================== *)

Section FirstLoad.

Local Open Scope N_scope.

Lemma urlChar_digit_printable v :
  v < 64 -> 34 <= urlChar (Base64.digit v) <= 123.
Proof.
  intros Hv.
  assert (H : (34 <=? urlChar (Base64.digit v))
              && (urlChar (Base64.digit v) <=? 123) = true).
  { revert v Hv. apply below_64_cases. vm_compute. reflexivity. }
  apply andb_true_iff in H as [H1 H2]. apply N.leb_le in H1, H2. lia.
Qed.

(** The share text of a document is read as the document, and is not
    blank. *)
Lemma shareEncode_loads v encoded :
  codeUnitsValue v = true -> readsBack v -> shareEncode v = Some encoded ->
  firstParsed (parseTargets encoded) (ParseError NotJsonShaped) = ParseOk v
  /\ nonEmpty encoded && nonEmpty (trim encoded) = true.
Proof.
  intros Hunits Hv Henc.
  destruct (encode_decode_text (fun s => s) _
              (stringify_wellFormed v Hunits) (stringify_head v))
    as (Henc' & Huri & Hdec & Hraw).
  unfold shareEncode in Henc. rewrite Henc' in Henc. injection Henc as <-.
  split.
  - apply firstParsed_reading. right. rewrite Huri. split; [exact Hraw|].
    exists (JSON.stringify v). split; [exact Hdec | now apply parse_stringify].
  - destruct (stringify_head v) as (c & rest & -> & Hc).
    rewrite (encode_head (fun s => s)) by lia.
    destruct (urlDigits_head c (Utf8.encode rest)) as [tail ->].
    cbn [nonEmpty andb]. apply trim_nonEmpty, urlChar_digit_printable. lia.
Qed.

End FirstLoad.

(** X29. Opening a share link shows the shared document: when the address
    has the share text of a document under the key [data], and under the
    key [json] nothing, or a blank text, the first load reads the
    document from the query and the sample is not loaded; the document is
    one of 16-bit strings that reads back from its compact text. *)
Theorem bootstrap_opens_share_link toLowerCase sample get v encoded st :
  codeUnitsValue v = true -> readsBack v ->
  shareEncode v = Some encoded ->
  get (str "data") = Some encoded ->
  querySource get [str "json"] = None ->
  exists st',
    bootstrap toLowerCase sample get st = FromQuery st'
    /\ parsedJsonValue st' = Some v
    /\ treeData st' = buildTree toLowerCase v
    /\ errorMessage st' = None.
Proof.
  intros Hunits Hv Henc Hdata Hjson.
  destruct (shareEncode_loads v encoded Hunits Hv Henc) as [Hfirst Hshown].
  assert (Hsource : querySource get SHARE_QUERY_KEYS = Some encoded).
  { unfold SHARE_QUERY_KEYS. cbn [querySource] in *.
    destruct (get (str "json")) as [raw|].
    - destruct (nonEmpty raw && nonEmpty (trim raw)); [discriminate|].
      now rewrite Hdata, Hshown.
    - now rewrite Hdata, Hshown. }
  unfold bootstrap. rewrite Hsource. unfold loadFromJsonText. rewrite Hfirst.
  cbn [fst snd]. eexists. split; [reflexivity|].
  cbn [parsedJsonValue treeData errorMessage]. repeat split.
Qed.

Lemma bootstrap_opens_share_link_witness :
  exists st',
    bootstrap asciiToLowerCase (str "{}")
      (fun key => if Js.eqb key (str "data") then Some (str "bnVsbA") else None)
      initialApp
    = FromQuery st'
    /\ parsedJsonValue st' = Some JNull.
Proof.
  destruct (bootstrap_opens_share_link asciiToLowerCase (str "{}")
              (fun key => if Js.eqb key (str "data") then Some (str "bnVsbA") else None)
              JNull (str "bnVsbA") initialApp)
    as (st' & Hboot & Hvalue & _); try (vm_compute; reflexivity).
  exists st'. split; [exact Hboot | exact Hvalue].
Defined.
